(** * zig stage1: path utilities, the command-line driver and the
      C translation engine

    A shallow embedding of the parts of the stage1 compiler driver that
    surround [translate-c]:

    - [Os]: the path functions ([os_path_split], [os_path_join],
      [os_path_extname], [os_path_is_absolute]), the command line of a
      spawned process, the conversion from UTF-16 to UTF-8 and the
      Windows file times of [src/os.cpp];
    - [Compiler]: the search for the library directory and the saved
      directories of [src/compiler.cpp];
    - [Driver]: the argument loop and the command dispatch of [main] in
      [src/main.cpp], with [zig build] and [zig init-exe];
    - [Engine]: the translation engine behind [parse_h_file]
      ([src/translate_c.hpp], [src/zig_clang.h] give its interface only).
*)

From Stdlib Require Import Ascii String ZArith.
From stdpp Require Import gmap strings list finite pretty.

Set Warnings "-register-all".

Local Open Scope char_scope.

(** ** os.cpp: path splitting and joining *)

Module Os.

(** The two build configurations the file distinguishes with
    [#if defined(ZIG_OS_WINDOWS)] / [#elif defined(ZIG_OS_POSIX)]. *)
Inductive Platform : Type :=
  | ZIG_OS_POSIX
  | ZIG_OS_WINDOWS.

(** A [Buf] is a byte buffer; [buf_ptr(b)[i]] is [byte_at b i]. *)
Definition Buf : Type := list ascii.

Definition byte_at (b : Buf) (i : nat) : ascii := nth i b zero.

Definition buf_init_from_mem (b : Buf) (start len : nat) : Buf :=
  take len (drop start b).

(** The backwards scan of [os_path_extname] for the last ['.']. *)
Fixpoint extname_scan (full_path : Buf) (i : nat) : option nat :=
  if Ascii.eqb (byte_at full_path i) "." then Some i
  else match i with
       | O => None
       | S i' => extname_scan full_path i'
       end.

(** [os_path_extname], returning [(out_basename, out_extname)]. *)
Definition os_path_extname (full_path : Buf) : Buf * Buf :=
  if (length full_path =? 0)%nat then ([], [])
  else
    match extname_scan full_path (length full_path - 1) with
    | Some i => (take i full_path, drop i full_path)
    | None => (full_path, [])
    end.

Section Paths.

Variable os : Platform.

(** [ZIG_OS_SEP_CHAR] comes from [os.hpp]; the functions below only use
    it as the byte [os_path_join] inserts. *)
Variable ZIG_OS_SEP_CHAR : ascii.

Definition os_is_sep (c : ascii) : bool :=
  match os with
  | ZIG_OS_WINDOWS => Ascii.eqb c "\" || Ascii.eqb c "/"
  | ZIG_OS_POSIX => Ascii.eqb c "/"
  end.

(** The backwards scan [for (size_t i = last_index;;)] of
    [os_path_split]: the index of the first separator met, or [None]
    when the loop leaves through [if (i == 0) break]. *)
Fixpoint split_scan (full_path : Buf) (i : nat) : option nat :=
  if os_is_sep (byte_at full_path i) then Some i
  else match i with
       | O => None
       | S i' => split_scan full_path i'
       end.

(** [os_path_split], returning the pair [(out_dirname, out_basename)]. *)
Definition os_path_split (full_path : Buf) : Buf * Buf :=
  let len := length full_path in
  let no_sep := (["."], full_path) in
  if negb (len =? 0)%nat then
    let last_index := (len - 1)%nat in
    let last_char := byte_at full_path last_index in
    if os_is_sep last_char && (last_index =? 0)%nat then
      ([last_char], [])
    else
      let last_index :=
        if os_is_sep last_char then (last_index - 1)%nat else last_index in
      match split_scan full_path last_index with
      | Some i =>
          (buf_init_from_mem full_path 0 (if (i =? 0)%nat then 1 else i),
           buf_init_from_mem full_path (i + 1) (len - (i + 1)))
      | None => no_sep
      end
  else no_sep.

Definition os_path_dirname (full_path : Buf) : Buf :=
  fst (os_path_split full_path).

Definition os_path_join (dirname basename : Buf) : Buf :=
  if (length dirname =? 0)%nat then basename
  else
    let c := byte_at dirname (length dirname - 1) in
    if negb (os_is_sep c) then dirname ++ [ZIG_OS_SEP_CHAR] ++ basename
    else dirname ++ basename.

(** The side conditions of the round trip, as decidable checks. *)
Definition has_sep (p : Buf) : bool := existsb os_is_sep p.

Definition ends_with_sep (p : Buf) : bool :=
  os_is_sep (byte_at p (length p - 1)).

Fixpoint adjacent_seps (p : Buf) : bool :=
  match p with
  | c1 :: ((c2 :: _) as rest) =>
      (os_is_sep c1 && os_is_sep c2) || adjacent_seps rest
  | _ => false
  end.

(** The separator the backwards scan stops at, when it is not the
    first byte of the path. *)
Definition inner_split_sep (p : Buf) : option ascii :=
  match split_scan p (length p - 1) with
  | Some (S i) => Some (byte_at p (S i))
  | _ => None
  end.

End Paths.

(** *** os.cpp: absolute paths and the comparison of disk designators *)

(** [isAbsoluteWindows] (lines 300-318); [path.ptr[0]] of an empty
    buffer is its terminating zero byte. *)
Definition isAbsoluteWindows (path : Buf) : bool :=
  if Ascii.eqb (byte_at path 0) "/" then true
  else if Ascii.eqb (byte_at path 0) "\" then true
  else if (length path <? 3)%nat then false
  else if Ascii.eqb (byte_at path 1) ":" then
    if Ascii.eqb (byte_at path 2) "/" then true
    else if Ascii.eqb (byte_at path 2) "\" then true
    else false
  else false.

(** [os_path_is_absolute] (lines 320-328). *)
Definition os_path_is_absolute (os : Platform) (path : Buf) : bool :=
  match os with
  | ZIG_OS_WINDOWS => isAbsoluteWindows path
  | ZIG_OS_POSIX => Ascii.eqb (byte_at path 0) "/"
  end.

(** [asciiUpper] (lines 420-425), on the value of the byte. *)
Definition asciiUpper (byte : ascii) : ascii :=
  let b := nat_of_ascii byte in
  if (nat_of_ascii "a" <=? b)%nat && (b <=? nat_of_ascii "z")%nat then
    ascii_of_nat (nat_of_ascii "A" + (b - nat_of_ascii "a"))
  else byte.

(** The loop of [asciiEqlIgnoreCase] from index [i], with [n]
    iterations to go. *)
Fixpoint ascii_eql_loop (s1 s2 : Buf) (i n : nat) : bool :=
  match n with
  | O => true
  | S n' =>
      if negb (Ascii.eqb (asciiUpper (byte_at s1 i))
                 (asciiUpper (byte_at s2 i)))
      then false
      else ascii_eql_loop s1 s2 (S i) n'
  end.

(** [asciiEqlIgnoreCase] (lines 428-436). *)
Definition asciiEqlIgnoreCase (s1 s2 : Buf) : bool :=
  if negb (length s1 =? length s2)%nat then false
  else ascii_eql_loop s1 s2 0 (length s1).

(** *** os.cpp: UTF-16 to UTF-8 (lines 1679-1763) *)

Local Open Scope Z_scope.

(** The value stored by an assignment to a [uint8_t]. *)
Definition to_u8 (z : Z) : Z := z mod 256.

(** [utf8CodepointSequenceLength]; [None] is [zig_unreachable()]. *)
Definition utf8CodepointSequenceLength (c : Z) : option nat :=
  if c <? 0x80 then Some 1%nat
  else if c <? 0x800 then Some 2%nat
  else if c <? 0x10000 then Some 3%nat
  else if c <? 0x110000 then Some 4%nat
  else None.

(** [utf8Encode]: the bytes written to [out.ptr[0 .. length)]; [None]
    is a failed [assert] or [zig_unreachable()]. *)
Definition utf8Encode (c : Z) : option (list Z) :=
  match utf8CodepointSequenceLength c with
  | Some 1%nat => Some [to_u8 c]
  | Some 2%nat =>
      Some [to_u8 (Z.lor 0xC0 (Z.shiftr c 6));
            to_u8 (Z.lor 0x80 (Z.land c 0x3F))]
  | Some 3%nat =>
      if (0xd800 <=? c) && (c <=? 0xdfff) then None
      else
        Some [to_u8 (Z.lor 0xE0 (Z.shiftr c 12));
              to_u8 (Z.lor 0x80 (Z.land (Z.shiftr c 6) 0x3F));
              to_u8 (Z.lor 0x80 (Z.land c 0x3F))]
  | Some 4%nat =>
      Some [to_u8 (Z.lor 0xF0 (Z.shiftr c 18));
            to_u8 (Z.lor 0x80 (Z.land (Z.shiftr c 12) 0x3F));
            to_u8 (Z.lor 0x80 (Z.land (Z.shiftr c 6) 0x3F));
            to_u8 (Z.lor 0x80 (Z.land c 0x3F))]
  | _ => None
  end.

(** [it->bytes[i]]; the string ends with a zero code unit. *)
Definition wide_byte (bytes : list Z) (i : nat) : Z := nth i bytes 0.

(** The code unit at byte [i]:
    [((uint32_t)bytes[i]) | (((uint32_t)bytes[i + 1]) << 8)]. *)
Definition code_unit (bytes : list Z) (i : nat) : Z :=
  Z.lor (wide_byte bytes i) (Z.shiftl (wide_byte bytes (i + 1)) 8).

(** [c & ~((uint32_t)0x03ff)]. *)
Definition surrogate_class (c : Z) : Z := Z.land c 0xFFFFFC00.

(** [Utf16LeIterator_nextCodepoint] at index [it->i]: the code point,
    if any, and the new index; [None] is a failed [assert]. *)
Definition Utf16LeIterator_nextCodepoint (bytes : list Z) (i : nat)
  : option (option Z * nat) :=
  if (wide_byte bytes i =? 0) && (wide_byte bytes (i + 1) =? 0) then
    Some (None, i)
  else
    let c0 := code_unit bytes i in
    if surrogate_class c0 =? 0xd800 then
      let i := (i + 2)%nat in
      if (wide_byte bytes i =? 0) && (wide_byte bytes (i + 1) =? 0) then None
      else
        let c1 := code_unit bytes i in
        if negb (surrogate_class c1 =? 0xdc00) then None
        else
          Some (Some (0x10000 + Z.lor (Z.shiftl (Z.land c0 0x03ff) 10)
                                      (Z.land c1 0x03ff)),
                (i + 2)%nat)
    else if surrogate_class c0 =? 0xdc00 then None
    else Some (Some c0, (i + 2)%nat).

(** The loop of [utf16le_ptr_to_utf8]: [out] so far and the iterator's
    index; every iteration takes one unit of [fuel]. *)
Fixpoint utf16le_loop (fuel : nat) (bytes : list Z) (i : nat) (out : list Z)
  : option (list Z) :=
  match fuel with
  | O => None
  | S fuel' =>
      match Utf16LeIterator_nextCodepoint bytes i with
      | None => None
      | Some (None, _) => Some out
      | Some (Some codepoint, i') =>
          match utf8Encode codepoint with
          | Some encoded => utf16le_loop fuel' bytes i' (out ++ encoded)
          | None => None
          end
      end
  end.

(** [utf16le_ptr_to_utf8]; the iterator moves on by at least two bytes
    in every iteration, which bounds the loop by the length of the
    string. *)
Definition utf16le_ptr_to_utf8 (bytes : list Z) : option (list Z) :=
  utf16le_loop (S (length bytes)) bytes 0 [].

(** *** os.cpp: Windows file times (lines 1079-1088) *)

(** [FILETIME]: two [DWORD]s. *)
Record FILETIME : Type := mkFILETIME {
  dwLowDateTime : Z;
  dwHighDateTime : Z
}.

(** [OsTimeStamp] of [os.hpp]; the width of its fields in bits is
    [timestamp_bits]. *)
Record OsTimeStamp : Type := mkOsTimeStamp {
  sec : Z;
  nsec : Z
}.

Section FileTimes.

Variable timestamp_bits : Z.

(** [windows_filetime_to_os_timestamp]: the sum is computed in
    [ULONGLONG], 64 bits wide. *)
Definition windows_filetime_to_os_timestamp (ft : FILETIME) : OsTimeStamp :=
  {| sec := (((Z.shiftl (dwHighDateTime ft) 32) mod 2 ^ 64
              + dwLowDateTime ft) mod 2 ^ 64) mod 2 ^ timestamp_bits;
     nsec := 0 |}.

(** [windows_os_timestamp_to_filetime]. *)
Definition windows_os_timestamp_to_filetime (mtime : OsTimeStamp) : FILETIME :=
  {| dwHighDateTime := (Z.shiftr (sec mtime) 32) mod 2 ^ 32;
     dwLowDateTime := (sec mtime) mod 2 ^ 32 |}.

End FileTimes.

Local Close Scope Z_scope.

(** *** os.cpp: the command line of a spawned process (lines 126-143) *)

(** The double quote. *)
Definition dquote : ascii := "034".

(** The inner loop over the bytes of [arg], a C string given by its
    bytes before the terminating zero; [None] is [zig_panic("TODO")]. *)
Fixpoint append_arg (arg : Buf) (command_line : Buf) : option Buf :=
  match arg with
  | [] => Some command_line
  | c :: rest =>
      if Ascii.eqb c dquote then None
      else append_arg rest (command_line ++ [c])
  end.

(** The loop over [args] with the current [prefix]. *)
Fixpoint create_command_line_loop (prefix : Buf) (args : list Buf)
  (command_line : Buf) : option Buf :=
  match args with
  | [] => Some command_line
  | arg :: rest =>
      match append_arg arg (command_line ++ prefix) with
      | None => None
      | Some command_line =>
          create_command_line_loop [" "; dquote] rest
            (command_line ++ [dquote])
      end
  end.

(** [os_windows_create_command_line]. *)
Definition os_windows_create_command_line (args : list Buf) : option Buf :=
  create_command_line_loop [dquote] args [].

End Os.

(** ** compiler.cpp: the search for the library directory *)

Module Compiler.

Import Os.

Local Open Scope list_scope.

(** What [printf]'s [%s] prints of [buf_ptr(b)]: the bytes before the
    first zero byte. *)
Fixpoint c_str (b : Buf) : Buf :=
  match b with
  | [] => []
  | c :: rest => if Ascii.eqb c zero then [] else c :: c_str rest
  end.

(** [buf_eql_buf]. *)
Definition buf_eql_buf (a b : Buf) : bool := bool_decide (a = b).

Inductive FindResult : Type :=
  | Found (out_path : Buf)
  | ErrorFileNotFound.

Section Install.

Variable os : Platform.

(** The string macro [OS_SEP] of [os.hpp]. *)
Variable OS_SEP : Buf.

(** [os_file_exists]: [None] when it returns an error. *)
Variable os_file_exists : Buf -> option bool.

(** [os_self_exe_path]: [None] when it returns an error. *)
Variable os_self_exe_path : option Buf.

(** [exists] after
    [if ((err = os_file_exists(f, &exists))) exists = false;]. *)
Definition file_exists (f : Buf) : bool :=
  match os_file_exists f with
  | Some e => e
  | None => false
  end.

Definition lit (s : string) : Buf := list_ascii_of_string s.

(** [test_zig_install_prefix] (lines 80-111): [Some out_zig_lib_dir]
    when it returns [true]. *)
Definition test_zig_install_prefix (test_path : Buf) : option Buf :=
  let index_file dir :=
    c_str dir ++ OS_SEP ++ lit "std" ++ OS_SEP ++ lit "std.zig" in
  let test_zig_dir :=
    c_str test_path ++ OS_SEP ++ lit "lib" ++ OS_SEP ++ lit "zig" in
  if file_exists (index_file test_zig_dir) then Some test_zig_dir
  else
    (* Also try without "zig" *)
    let test_zig_dir := c_str test_path ++ OS_SEP ++ lit "lib" in
    if file_exists (index_file test_zig_dir) then Some test_zig_dir
    else None.

(** The [for (;;)] of [find_zig_lib_dir] (lines 121-134); every
    iteration takes one unit of [fuel], [None] is a loop that has not
    ended yet. *)
Fixpoint find_zig_lib_dir_loop (fuel : nat) (cur_path : Buf)
  : option FindResult :=
  match fuel with
  | O => None
  | S fuel' =>
      let test_dir := os_path_dirname os cur_path in
      if buf_eql_buf test_dir cur_path then Some ErrorFileNotFound
      else
        match test_zig_install_prefix test_dir with
        | Some out_path => Some (Found out_path)
        | None => find_zig_lib_dir_loop fuel' test_dir
        end
  end.

(** [find_zig_lib_dir] (lines 113-138). *)
Definition find_zig_lib_dir (fuel : nat) : option FindResult :=
  match os_self_exe_path with
  | Some self_exe_path => find_zig_lib_dir_loop fuel self_exe_path
  | None => Some ErrorFileNotFound
  end.

End Install.

(** *** compiler.cpp: the directories below the library directory *)

(** The [static Buf]s of [get_zig_std_dir] and [get_zig_special_dir];
    both are empty when the process starts. *)
Record SavedDirs : Type := mkSavedDirs {
  saved_std_dir : Buf;
  saved_special_dir : Buf
}.

Definition no_saved_dirs : SavedDirs :=
  {| saved_std_dir := []; saved_special_dir := [] |}.

Section Dirs.

Variable os : Platform.
Variable ZIG_OS_SEP_CHAR : ascii.

(** [get_zig_std_dir] (lines 154-163): what it returns and the
    statics after the call. *)
Definition get_zig_std_dir (saved : SavedDirs) (zig_lib_dir : Buf)
  : Buf * SavedDirs :=
  if negb (length (saved_std_dir saved) =? 0)%nat then
    (saved_std_dir saved, saved)
  else
    let std_dir := os_path_join os ZIG_OS_SEP_CHAR zig_lib_dir (lit "std") in
    (std_dir,
     {| saved_std_dir := std_dir;
        saved_special_dir := saved_special_dir saved |}).

(** [get_zig_special_dir] (lines 165-174). *)
Definition get_zig_special_dir (saved : SavedDirs) (zig_lib_dir : Buf)
  : Buf * SavedDirs :=
  if negb (length (saved_special_dir saved) =? 0)%nat then
    (saved_special_dir saved, saved)
  else
    let '(std_dir, saved) := get_zig_std_dir saved zig_lib_dir in
    let special_dir :=
      os_path_join os ZIG_OS_SEP_CHAR std_dir (lit "special") in
    (special_dir,
     {| saved_std_dir := saved_std_dir saved;
        saved_special_dir := special_dir |}).

End Dirs.

End Compiler.

(** ** main.cpp: the command-line driver *)

Module Driver.

Local Open Scope string_scope.
Local Open Scope list_scope.

Definition EXIT_SUCCESS : Z := 0.
Definition EXIT_FAILURE : Z := 1.

Definition nl : string := String "010"%char EmptyString.

(** [s[i]] of a NUL-terminated C string. *)
Definition char_at (s : string) (i : nat) : ascii :=
  default zero (String.get i s).

(** [&s[n]]: the suffix of [s] from index [n]. *)
Fixpoint str_from (n : nat) (s : string) : string :=
  match n, s with
  | O, _ => s
  | S n', String _ s' => str_from n' s'
  | S _, EmptyString => EmptyString
  end.

Definition one_of (arg : string) (names : list string) : bool :=
  existsb (String.eqb arg) names.

Inductive Cmd : Type :=
  | CmdNone
  | CmdBuild
  | CmdBuiltin
  | CmdRun
  | CmdTargets
  | CmdTest
  | CmdTranslateC
  | CmdVersion
  | CmdZen
  | CmdLibC.

Inductive CacheOpt : Type :=
  | CacheOptAuto
  | CacheOptOn
  | CacheOptOff.

Inductive EmitFileType : Type :=
  | EmitFileTypeBinary
  | EmitFileTypeAssembly
  | EmitFileTypeLLVMIr.

Inductive OutType : Type :=
  | OutTypeUnknown
  | OutTypeExe
  | OutTypeLib
  | OutTypeObj.

Inductive WantPIC : Type :=
  | WantPICAuto
  | WantPICDisabled
  | WantPICEnabled.

#[global] Instance Cmd_eq_dec : EqDecision Cmd.
Proof. solve_decision. Defined.
#[global] Instance CacheOpt_eq_dec : EqDecision CacheOpt.
Proof. solve_decision. Defined.
#[global] Instance EmitFileType_eq_dec : EqDecision EmitFileType.
Proof. solve_decision. Defined.
#[global] Instance WantPIC_eq_dec : EqDecision WantPIC.
Proof. solve_decision. Defined.

(** [struct CliPkg]; the [parent] pointer is kept by the stack of open
    frames below. *)
Inductive CliPkg : Type :=
  | mkCliPkg (name path : string) (children : list CliPkg).

(** A package opened by [--pkg-begin] and not yet closed: its name, its
    path and the children appended so far.  [cur_pkg] is the top of the
    stack, the root package its last element. *)
Record PkgFrame : Type := mkPkgFrame {
  frame_name : string;
  frame_path : string;
  frame_children : list CliPkg
}.

(** [struct CFile]: the arguments and the source path of one
    [--c-source]. *)
Record CFile : Type := mkCFile {
  cfile_args : list string;
  source_path : string
}.

Record Locals : Type := mkLocals {
  cmd : Cmd;
  out_type : OutType;
  in_file : option string;
  emit_file_type : EmitFileType;
  output_dir : option string;
  out_name : option string;
  enable_cache : CacheOpt;
  libc_txt : option string;
  clang_argv : list string;
  have_libc : bool;
  target_string : option string;
  target_glibc : option string;
  mmacosx_version_min : option string;
  mios_version_min : option string;
  objects : list string;
  c_source_files : list CFile;
  timing_info : bool;
  want_pic : WantPIC;
  llvm_argv : list string;
  cur_pkg : list PkgFrame;
  forwarded : list (string * option string)
}.

Definition set_cmd (v : Cmd) (l : Locals) : Locals :=
  {| cmd := v; out_type := out_type l; in_file := in_file l;
     emit_file_type := emit_file_type l; output_dir := output_dir l;
     out_name := out_name l; enable_cache := enable_cache l;
     libc_txt := libc_txt l; clang_argv := clang_argv l;
     have_libc := have_libc l; target_string := target_string l;
     target_glibc := target_glibc l;
     mmacosx_version_min := mmacosx_version_min l;
     mios_version_min := mios_version_min l; objects := objects l;
     c_source_files := c_source_files l; timing_info := timing_info l;
     want_pic := want_pic l; llvm_argv := llvm_argv l; cur_pkg := cur_pkg l;
     forwarded := forwarded l |}.

Definition set_out_type (v : OutType) (l : Locals) : Locals :=
  {| cmd := cmd l; out_type := v; in_file := in_file l;
     emit_file_type := emit_file_type l; output_dir := output_dir l;
     out_name := out_name l; enable_cache := enable_cache l;
     libc_txt := libc_txt l; clang_argv := clang_argv l;
     have_libc := have_libc l; target_string := target_string l;
     target_glibc := target_glibc l;
     mmacosx_version_min := mmacosx_version_min l;
     mios_version_min := mios_version_min l; objects := objects l;
     c_source_files := c_source_files l; timing_info := timing_info l;
     want_pic := want_pic l; llvm_argv := llvm_argv l; cur_pkg := cur_pkg l;
     forwarded := forwarded l |}.

Definition set_in_file (v : option string) (l : Locals) : Locals :=
  {| cmd := cmd l; out_type := out_type l; in_file := v;
     emit_file_type := emit_file_type l; output_dir := output_dir l;
     out_name := out_name l; enable_cache := enable_cache l;
     libc_txt := libc_txt l; clang_argv := clang_argv l;
     have_libc := have_libc l; target_string := target_string l;
     target_glibc := target_glibc l;
     mmacosx_version_min := mmacosx_version_min l;
     mios_version_min := mios_version_min l; objects := objects l;
     c_source_files := c_source_files l; timing_info := timing_info l;
     want_pic := want_pic l; llvm_argv := llvm_argv l; cur_pkg := cur_pkg l;
     forwarded := forwarded l |}.

Definition set_emit_file_type (v : EmitFileType) (l : Locals) : Locals :=
  {| cmd := cmd l; out_type := out_type l; in_file := in_file l;
     emit_file_type := v; output_dir := output_dir l; out_name := out_name l;
     enable_cache := enable_cache l; libc_txt := libc_txt l;
     clang_argv := clang_argv l; have_libc := have_libc l;
     target_string := target_string l; target_glibc := target_glibc l;
     mmacosx_version_min := mmacosx_version_min l;
     mios_version_min := mios_version_min l; objects := objects l;
     c_source_files := c_source_files l; timing_info := timing_info l;
     want_pic := want_pic l; llvm_argv := llvm_argv l; cur_pkg := cur_pkg l;
     forwarded := forwarded l |}.

Definition set_output_dir (v : option string) (l : Locals) : Locals :=
  {| cmd := cmd l; out_type := out_type l; in_file := in_file l;
     emit_file_type := emit_file_type l; output_dir := v;
     out_name := out_name l; enable_cache := enable_cache l;
     libc_txt := libc_txt l; clang_argv := clang_argv l;
     have_libc := have_libc l; target_string := target_string l;
     target_glibc := target_glibc l;
     mmacosx_version_min := mmacosx_version_min l;
     mios_version_min := mios_version_min l; objects := objects l;
     c_source_files := c_source_files l; timing_info := timing_info l;
     want_pic := want_pic l; llvm_argv := llvm_argv l; cur_pkg := cur_pkg l;
     forwarded := forwarded l |}.

Definition set_out_name (v : option string) (l : Locals) : Locals :=
  {| cmd := cmd l; out_type := out_type l; in_file := in_file l;
     emit_file_type := emit_file_type l; output_dir := output_dir l;
     out_name := v; enable_cache := enable_cache l; libc_txt := libc_txt l;
     clang_argv := clang_argv l; have_libc := have_libc l;
     target_string := target_string l; target_glibc := target_glibc l;
     mmacosx_version_min := mmacosx_version_min l;
     mios_version_min := mios_version_min l; objects := objects l;
     c_source_files := c_source_files l; timing_info := timing_info l;
     want_pic := want_pic l; llvm_argv := llvm_argv l; cur_pkg := cur_pkg l;
     forwarded := forwarded l |}.

Definition set_enable_cache (v : CacheOpt) (l : Locals) : Locals :=
  {| cmd := cmd l; out_type := out_type l; in_file := in_file l;
     emit_file_type := emit_file_type l; output_dir := output_dir l;
     out_name := out_name l; enable_cache := v; libc_txt := libc_txt l;
     clang_argv := clang_argv l; have_libc := have_libc l;
     target_string := target_string l; target_glibc := target_glibc l;
     mmacosx_version_min := mmacosx_version_min l;
     mios_version_min := mios_version_min l; objects := objects l;
     c_source_files := c_source_files l; timing_info := timing_info l;
     want_pic := want_pic l; llvm_argv := llvm_argv l; cur_pkg := cur_pkg l;
     forwarded := forwarded l |}.

Definition set_libc_txt (v : option string) (l : Locals) : Locals :=
  {| cmd := cmd l; out_type := out_type l; in_file := in_file l;
     emit_file_type := emit_file_type l; output_dir := output_dir l;
     out_name := out_name l; enable_cache := enable_cache l; libc_txt := v;
     clang_argv := clang_argv l; have_libc := have_libc l;
     target_string := target_string l; target_glibc := target_glibc l;
     mmacosx_version_min := mmacosx_version_min l;
     mios_version_min := mios_version_min l; objects := objects l;
     c_source_files := c_source_files l; timing_info := timing_info l;
     want_pic := want_pic l; llvm_argv := llvm_argv l; cur_pkg := cur_pkg l;
     forwarded := forwarded l |}.

Definition set_clang_argv (v : list string) (l : Locals) : Locals :=
  {| cmd := cmd l; out_type := out_type l; in_file := in_file l;
     emit_file_type := emit_file_type l; output_dir := output_dir l;
     out_name := out_name l; enable_cache := enable_cache l;
     libc_txt := libc_txt l; clang_argv := v; have_libc := have_libc l;
     target_string := target_string l; target_glibc := target_glibc l;
     mmacosx_version_min := mmacosx_version_min l;
     mios_version_min := mios_version_min l; objects := objects l;
     c_source_files := c_source_files l; timing_info := timing_info l;
     want_pic := want_pic l; llvm_argv := llvm_argv l; cur_pkg := cur_pkg l;
     forwarded := forwarded l |}.

Definition set_have_libc (v : bool) (l : Locals) : Locals :=
  {| cmd := cmd l; out_type := out_type l; in_file := in_file l;
     emit_file_type := emit_file_type l; output_dir := output_dir l;
     out_name := out_name l; enable_cache := enable_cache l;
     libc_txt := libc_txt l; clang_argv := clang_argv l; have_libc := v;
     target_string := target_string l; target_glibc := target_glibc l;
     mmacosx_version_min := mmacosx_version_min l;
     mios_version_min := mios_version_min l; objects := objects l;
     c_source_files := c_source_files l; timing_info := timing_info l;
     want_pic := want_pic l; llvm_argv := llvm_argv l; cur_pkg := cur_pkg l;
     forwarded := forwarded l |}.

Definition set_target_string (v : option string) (l : Locals) : Locals :=
  {| cmd := cmd l; out_type := out_type l; in_file := in_file l;
     emit_file_type := emit_file_type l; output_dir := output_dir l;
     out_name := out_name l; enable_cache := enable_cache l;
     libc_txt := libc_txt l; clang_argv := clang_argv l;
     have_libc := have_libc l; target_string := v;
     target_glibc := target_glibc l;
     mmacosx_version_min := mmacosx_version_min l;
     mios_version_min := mios_version_min l; objects := objects l;
     c_source_files := c_source_files l; timing_info := timing_info l;
     want_pic := want_pic l; llvm_argv := llvm_argv l; cur_pkg := cur_pkg l;
     forwarded := forwarded l |}.

Definition set_target_glibc (v : option string) (l : Locals) : Locals :=
  {| cmd := cmd l; out_type := out_type l; in_file := in_file l;
     emit_file_type := emit_file_type l; output_dir := output_dir l;
     out_name := out_name l; enable_cache := enable_cache l;
     libc_txt := libc_txt l; clang_argv := clang_argv l;
     have_libc := have_libc l; target_string := target_string l;
     target_glibc := v; mmacosx_version_min := mmacosx_version_min l;
     mios_version_min := mios_version_min l; objects := objects l;
     c_source_files := c_source_files l; timing_info := timing_info l;
     want_pic := want_pic l; llvm_argv := llvm_argv l; cur_pkg := cur_pkg l;
     forwarded := forwarded l |}.

Definition set_mmacosx_version_min (v : option string) (l : Locals) : Locals :=
  {| cmd := cmd l; out_type := out_type l; in_file := in_file l;
     emit_file_type := emit_file_type l; output_dir := output_dir l;
     out_name := out_name l; enable_cache := enable_cache l;
     libc_txt := libc_txt l; clang_argv := clang_argv l;
     have_libc := have_libc l; target_string := target_string l;
     target_glibc := target_glibc l; mmacosx_version_min := v;
     mios_version_min := mios_version_min l; objects := objects l;
     c_source_files := c_source_files l; timing_info := timing_info l;
     want_pic := want_pic l; llvm_argv := llvm_argv l; cur_pkg := cur_pkg l;
     forwarded := forwarded l |}.

Definition set_mios_version_min (v : option string) (l : Locals) : Locals :=
  {| cmd := cmd l; out_type := out_type l; in_file := in_file l;
     emit_file_type := emit_file_type l; output_dir := output_dir l;
     out_name := out_name l; enable_cache := enable_cache l;
     libc_txt := libc_txt l; clang_argv := clang_argv l;
     have_libc := have_libc l; target_string := target_string l;
     target_glibc := target_glibc l;
     mmacosx_version_min := mmacosx_version_min l; mios_version_min := v;
     objects := objects l; c_source_files := c_source_files l;
     timing_info := timing_info l; want_pic := want_pic l;
     llvm_argv := llvm_argv l; cur_pkg := cur_pkg l;
     forwarded := forwarded l |}.

Definition set_objects (v : list string) (l : Locals) : Locals :=
  {| cmd := cmd l; out_type := out_type l; in_file := in_file l;
     emit_file_type := emit_file_type l; output_dir := output_dir l;
     out_name := out_name l; enable_cache := enable_cache l;
     libc_txt := libc_txt l; clang_argv := clang_argv l;
     have_libc := have_libc l; target_string := target_string l;
     target_glibc := target_glibc l;
     mmacosx_version_min := mmacosx_version_min l;
     mios_version_min := mios_version_min l; objects := v;
     c_source_files := c_source_files l; timing_info := timing_info l;
     want_pic := want_pic l; llvm_argv := llvm_argv l; cur_pkg := cur_pkg l;
     forwarded := forwarded l |}.

Definition set_c_source_files (v : list CFile) (l : Locals) : Locals :=
  {| cmd := cmd l; out_type := out_type l; in_file := in_file l;
     emit_file_type := emit_file_type l; output_dir := output_dir l;
     out_name := out_name l; enable_cache := enable_cache l;
     libc_txt := libc_txt l; clang_argv := clang_argv l;
     have_libc := have_libc l; target_string := target_string l;
     target_glibc := target_glibc l;
     mmacosx_version_min := mmacosx_version_min l;
     mios_version_min := mios_version_min l; objects := objects l;
     c_source_files := v; timing_info := timing_info l;
     want_pic := want_pic l; llvm_argv := llvm_argv l; cur_pkg := cur_pkg l;
     forwarded := forwarded l |}.

Definition set_timing_info (v : bool) (l : Locals) : Locals :=
  {| cmd := cmd l; out_type := out_type l; in_file := in_file l;
     emit_file_type := emit_file_type l; output_dir := output_dir l;
     out_name := out_name l; enable_cache := enable_cache l;
     libc_txt := libc_txt l; clang_argv := clang_argv l;
     have_libc := have_libc l; target_string := target_string l;
     target_glibc := target_glibc l;
     mmacosx_version_min := mmacosx_version_min l;
     mios_version_min := mios_version_min l; objects := objects l;
     c_source_files := c_source_files l; timing_info := v;
     want_pic := want_pic l; llvm_argv := llvm_argv l; cur_pkg := cur_pkg l;
     forwarded := forwarded l |}.

Definition set_want_pic (v : WantPIC) (l : Locals) : Locals :=
  {| cmd := cmd l; out_type := out_type l; in_file := in_file l;
     emit_file_type := emit_file_type l; output_dir := output_dir l;
     out_name := out_name l; enable_cache := enable_cache l;
     libc_txt := libc_txt l; clang_argv := clang_argv l;
     have_libc := have_libc l; target_string := target_string l;
     target_glibc := target_glibc l;
     mmacosx_version_min := mmacosx_version_min l;
     mios_version_min := mios_version_min l; objects := objects l;
     c_source_files := c_source_files l; timing_info := timing_info l;
     want_pic := v; llvm_argv := llvm_argv l; cur_pkg := cur_pkg l;
     forwarded := forwarded l |}.

Definition set_llvm_argv (v : list string) (l : Locals) : Locals :=
  {| cmd := cmd l; out_type := out_type l; in_file := in_file l;
     emit_file_type := emit_file_type l; output_dir := output_dir l;
     out_name := out_name l; enable_cache := enable_cache l;
     libc_txt := libc_txt l; clang_argv := clang_argv l;
     have_libc := have_libc l; target_string := target_string l;
     target_glibc := target_glibc l;
     mmacosx_version_min := mmacosx_version_min l;
     mios_version_min := mios_version_min l; objects := objects l;
     c_source_files := c_source_files l; timing_info := timing_info l;
     want_pic := want_pic l; llvm_argv := v; cur_pkg := cur_pkg l;
     forwarded := forwarded l |}.

Definition set_cur_pkg (v : list PkgFrame) (l : Locals) : Locals :=
  {| cmd := cmd l; out_type := out_type l; in_file := in_file l;
     emit_file_type := emit_file_type l; output_dir := output_dir l;
     out_name := out_name l; enable_cache := enable_cache l;
     libc_txt := libc_txt l; clang_argv := clang_argv l;
     have_libc := have_libc l; target_string := target_string l;
     target_glibc := target_glibc l;
     mmacosx_version_min := mmacosx_version_min l;
     mios_version_min := mios_version_min l; objects := objects l;
     c_source_files := c_source_files l; timing_info := timing_info l;
     want_pic := want_pic l; llvm_argv := llvm_argv l; cur_pkg := v;
     forwarded := forwarded l |}.

Definition set_forwarded (v : list (string * option string)) (l : Locals) : Locals :=
  {| cmd := cmd l; out_type := out_type l; in_file := in_file l;
     emit_file_type := emit_file_type l; output_dir := output_dir l;
     out_name := out_name l; enable_cache := enable_cache l;
     libc_txt := libc_txt l; clang_argv := clang_argv l;
     have_libc := have_libc l; target_string := target_string l;
     target_glibc := target_glibc l;
     mmacosx_version_min := mmacosx_version_min l;
     mios_version_min := mios_version_min l; objects := objects l;
     c_source_files := c_source_files l; timing_info := timing_info l;
     want_pic := want_pic l; llvm_argv := llvm_argv l; cur_pkg := cur_pkg l;
     forwarded := v |}.

Inductive Stream : Type :=
  | stdout
  | stderr.

(** What [codegen_translate_c] (codegen.cpp) did: it came back, having
    reported the given non-fatal diagnostics, or it ended the process
    itself. *)
Inductive TranslateOutcome : Type :=
  | TranslateReturns (diagnostics : list string)
  | TranslateExits (code : Z).

(** The observable steps of a run of [main]. *)
Inductive Event : Type :=
  | Print (f : Stream) (text : string)
  | PrintFullUsage (f : Stream)
  | PrintLibcUsage (f : Stream)
  | PrintBuildInfo
  | PrintVersion
  | PrintZen
  | CodegenCreate (root_source_file : option string)
  | AddPackage (name path : string)
  | CodegenTranslateC (in_file_buf : option string)
      (outcome : TranslateOutcome)
  | PrintTimingReport (f : Stream).

(** How the modelled part of a run ends: the process ends with an exit
    status, or control passes to a part of the compiler that decides the
    rest of the run ([ZigClang_main], [stage2_fmt], the build pipeline,
    ...). *)
Inductive Finish : Type :=
  | Exited (code : Z)
  | Continues (callee : string).

Definition Run : Type := list Event * Finish.

(** The outcome of [target_parse_triple] as [main] distinguishes it. *)
Inductive TripleResult (ZigTarget : Type) : Type :=
  | TripleOk (target : ZigTarget)
  | TripleNeedsSubArch (arch_name : string) (subarch_names : list string)
  | TripleError (err_str : string).
Arguments TripleOk {ZigTarget} target.
Arguments TripleNeedsSubArch {ZigTarget} arch_name subarch_names.
Arguments TripleError {ZigTarget} err_str.

(** The build configuration and the functions of other files that
    decide where [main] goes. *)
Record Env (ZigTarget : Type) : Type := mkEnv {
  ZIG_OS : Os.Platform;
  ZIG_OS_SEP_CHAR : ascii;
  ZIG_ENABLE_MEM_PROFILE : bool;
  get_native_target : ZigTarget;
  target_parse_triple : string -> TripleResult ZigTarget;
  target_is_glibc : ZigTarget -> bool;
  (* [Some err_str] on error *)
  target_parse_glibc_version : string -> option string;
  target_requires_pic : ZigTarget -> bool -> bool;
  target_triple_zig : ZigTarget -> string;
  (* [Some err_str] on error *)
  zig_libc_parse : string -> ZigTarget -> option string;
  (* [Some code]: LLVM's option parser ended the process *)
  ZigLLVMParseCommandLineOptions : list string -> option Z;
  (* the entries of [g->main_pkg->package_table] after [codegen_create]
     and of the table of a package made by [codegen_create_package]:
     name and source path *)
  main_pkg_package_table : list (string * string);
  new_pkg_package_table : list (string * string);
  codegen_translate_c : Locals -> option string -> TranslateOutcome
}.
Arguments ZIG_OS {ZigTarget} e.
Arguments ZIG_OS_SEP_CHAR {ZigTarget} e.
Arguments ZIG_ENABLE_MEM_PROFILE {ZigTarget} e.
Arguments get_native_target {ZigTarget} e.
Arguments target_parse_triple {ZigTarget} e _.
Arguments target_is_glibc {ZigTarget} e _.
Arguments target_parse_glibc_version {ZigTarget} e _.
Arguments target_requires_pic {ZigTarget} e _ _.
Arguments target_triple_zig {ZigTarget} e _.
Arguments zig_libc_parse {ZigTarget} e _ _.
Arguments ZigLLVMParseCommandLineOptions {ZigTarget} e _.
Arguments main_pkg_package_table {ZigTarget} e.
Arguments new_pkg_package_table {ZigTarget} e.
Arguments codegen_translate_c {ZigTarget} e _ _.

Definition print_error_usage (arg0 : string) : list Event :=
  [Print stderr
     ("See `" +:+ arg0 +:+ " --help` for detailed usage information" +:+ nl)].

(** A local variable that [main] only hands on to the [CodeGen] is kept
    as an entry of [forwarded]: the option as written and its value. *)
Definition forward (opt : string) (v : option string) (l : Locals) : Locals :=
  set_forwarded (forwarded l ++ [(opt, v)]) l.

(** The state of the argument loop [for (int i = 1; i < argc; i += 1)]:
    a [return] inside the loop, or the locals once the loop is left. *)
Inductive LoopResult : Type :=
  | LoopReturn (out : list Event) (code : Z)
  | LoopDone (out : list Event) (l : Locals).

Definition loop_fail (out : list Event) (msg arg0 : string) : LoopResult :=
  LoopReturn (out ++ Print stderr msg :: print_error_usage arg0) EXIT_FAILURE.

(** [--pkg-begin name path]: a new package becomes [cur_pkg]. *)
Definition pkg_begin (name path : string) (l : Locals) : Locals :=
  set_cur_pkg (mkPkgFrame name path [] :: cur_pkg l) l.

(** [--pkg-end]: [cur_pkg = cur_pkg->parent], [None] when [cur_pkg] is
    the root package. *)
Definition pkg_end (l : Locals) : option Locals :=
  match cur_pkg l with
  | child :: parent :: frames =>
      let done :=
        mkCliPkg (frame_name child) (frame_path child) (frame_children child) in
      Some (set_cur_pkg
              (mkPkgFrame (frame_name parent) (frame_path parent)
                 (frame_children parent ++ [done]) :: frames) l)
  | _ => None
  end.

(** The flags of the [else if] chain that set one forwarded local and
    do nothing else, in the order of the chain. *)
Definition release_flags : list string :=
  ["--release-fast"; "--release-safe"; "--release-small"].

Definition plain_flags_1 : list string :=
  ["--strip"; "-dynamic"; "--verbose-tokenize"; "--verbose-ast";
   "--verbose-link"; "--verbose-ir"; "--verbose-llvm-ir";
   "--verbose-cimport"; "--verbose-cc"; "-rdynamic"; "--each-lib-rpath"].

Definition plain_flags_2 : list string :=
  ["-fdump-analysis"; "-femit-docs"; "-fno-emit-bin"; "--enable-valgrind";
   "--disable-valgrind"].

Definition plain_flags_3 : list string :=
  ["-fstack-check"; "-fno-stack-check"; "-fsanitize-c"; "-fno-sanitize-c";
   "--system-linker-hack"; "--single-threaded"; "--disable-gen-h";
   "--bundle-compiler-rt"; "--test-cmd-bin"].

(** The options with an argument whose value is only forwarded. *)
Definition forwarded_value_options_1 : list string :=
  ["--override-lib-dir"; "--main-pkg-path"; "--library-path"; "-L"; "-F"].

Definition forwarded_value_options_2 : list string :=
  ["-framework"; "--linker-script"; "--version-script"].

Definition forwarded_value_options_3 : list string :=
  ["-rpath"; "--test-filter"; "--test-name-prefix"; "--ver-major";
   "--ver-minor"; "--ver-patch"; "--test-cmd"].

Definition subsystem_names : list string :=
  ["console"; "windows"; "posix"; "native"; "efi_application";
   "efi_boot_service_driver"; "efi_rom"; "efi_runtime_driver"].

Definition invalid_subsystem_message (v : string) : string :=
  "invalid: --subsystem " +:+ v +:+ nl +:+
  "Options are:" +:+ nl +:+
  "  console" +:+ nl +:+
  "  windows" +:+ nl +:+
  "  posix" +:+ nl +:+
  "  native" +:+ nl +:+
  "  efi_application" +:+ nl +:+
  "  efi_boot_service_driver" +:+ nl +:+
  "  efi_rom" +:+ nl +:+
  "  efi_runtime_driver" +:+ nl.

(** The first non-option argument: [else if (cmd == CmdNone)]. *)
Definition parse_command (arg : string) (l : Locals) : option Locals :=
  if arg =? "build-exe" then Some (set_out_type OutTypeExe (set_cmd CmdBuild l))
  else if arg =? "build-obj" then
    Some (set_out_type OutTypeObj (set_cmd CmdBuild l))
  else if arg =? "build-lib" then
    Some (set_out_type OutTypeLib (set_cmd CmdBuild l))
  else if arg =? "run" then Some (set_out_type OutTypeExe (set_cmd CmdRun l))
  else if arg =? "version" then Some (set_cmd CmdVersion l)
  else if arg =? "zen" then Some (set_cmd CmdZen l)
  else if arg =? "libc" then Some (set_cmd CmdLibC l)
  else if arg =? "translate-c" then Some (set_cmd CmdTranslateC l)
  else if arg =? "test" then Some (set_out_type OutTypeExe (set_cmd CmdTest l))
  else if arg =? "targets" then Some (set_cmd CmdTargets l)
  else if arg =? "builtin" then Some (set_cmd CmdBuiltin l)
  else None.

(** A later non-option argument: the [switch (cmd)] of the loop. *)
Definition parse_positional (arg : string) (l : Locals) : option Locals :=
  match cmd l with
  | CmdBuild | CmdRun | CmdTranslateC | CmdTest | CmdLibC =>
      match in_file l with
      | None => Some (set_in_file (Some arg) l)
      | Some _ => None
      end
  | CmdBuiltin | CmdVersion | CmdZen | CmdTargets => None
  | CmdNone => None (* zig_unreachable: [cmd] is set here *)
  end.

Section ArgumentLoop.

Variable ZIG_ENABLE_MEM_PROFILE : bool.
Variable arg0 : string.

(** The loop over [argv[i..]]; [args] is what remains from index [i]
    on, every [i += 1] drops one element. *)
Fixpoint parse_args (args : list string) (l : Locals) (out : list Event)
  : LoopResult :=
  match args with
  | [] => LoopDone out l
  | arg :: rest =>
    if Ascii.eqb (char_at arg 0) "-" then
      if arg =? "--" then
        if decide (cmd l = CmdRun) then
          (* runtime_args_start = i + 1; break *)
          LoopDone out (forward "runtime_args_start" None l)
        else
          parse_args rest l
            (out ++ [Print stderr
                       ("Unexpected end-of-parameter mark: " +:+ arg +:+ nl)])
      else if one_of arg release_flags then
        parse_args rest (forward arg None l) out
      else if arg =? "--help" then
        if decide (cmd l = CmdLibC) then
          LoopReturn (out ++ [PrintLibcUsage stdout]) EXIT_SUCCESS
        else
          LoopReturn (out ++ [PrintFullUsage stdout]) EXIT_SUCCESS
      else if one_of arg plain_flags_1 then
        parse_args rest (forward arg None l) out
      else if arg =? "-ftime-report" then
        parse_args rest (set_timing_info true l) out
      else if arg =? "-fstack-report" then
        parse_args rest (forward arg None l) out
      else if arg =? "-fmem-report" then
        if ZIG_ENABLE_MEM_PROFILE then
          parse_args rest (forward arg None l) out
        else
          loop_fail out
            ("-fmem-report requires configuring with " +:+
             "-DZIG_ENABLE_MEM_PROFILE=ON" +:+ nl) arg0
      else if one_of arg plain_flags_2 then
        parse_args rest (forward arg None l) out
      else if arg =? "-fPIC" then
        parse_args rest (set_want_pic WantPICEnabled l) out
      else if arg =? "-fno-PIC" then
        parse_args rest (set_want_pic WantPICDisabled l) out
      else if one_of arg plain_flags_3 then
        parse_args rest (forward arg None l) out
      else if Ascii.eqb (char_at arg 1) "D"
              && negb (Ascii.eqb (char_at arg 2) zero) then
        parse_args rest
          (set_clang_argv (clang_argv l ++ ["-D"; str_from 2 arg]) l) out
      else if Ascii.eqb (char_at arg 1) "L"
              && negb (Ascii.eqb (char_at arg 2) zero) then
        parse_args rest (forward "-L" (Some (str_from 2 arg)) l) out
      else if Ascii.eqb (char_at arg 1) "l"
              && negb (Ascii.eqb (char_at arg 2) zero) then
        let lib := str_from 2 arg in
        let l := if lib =? "c" then set_have_libc true l else l in
        parse_args rest (forward "-l" (Some lib) l) out
      else if Ascii.eqb (char_at arg 1) "I"
              && negb (Ascii.eqb (char_at arg 2) zero) then
        parse_args rest
          (set_clang_argv (clang_argv l ++ ["-I"; str_from 2 arg]) l) out
      else if Ascii.eqb (char_at arg 1) "F"
              && negb (Ascii.eqb (char_at arg 2) zero) then
        parse_args rest (forward "-F" (Some (str_from 2 arg)) l) out
      else if arg =? "--pkg-begin" then
        match rest with
        | name :: path :: rest' => parse_args rest' (pkg_begin name path l) out
        | _ =>
            loop_fail out ("Expected 2 arguments after --pkg-begin" +:+ nl) arg0
        end
      else if arg =? "--pkg-end" then
        match pkg_end l with
        | Some l' => parse_args rest l' out
        | None =>
            LoopReturn
              (out ++ [Print stderr
                         ("Encountered --pkg-end with no matching --pkg-begin"
                          +:+ nl)])
              EXIT_FAILURE
        end
      else if arg =? "-ffunction-sections" then
        parse_args rest (forward arg None l) out
      else
        match rest with
        | [] =>
            loop_fail out
              ("Expected another argument after " +:+ arg +:+ nl) arg0
        | v :: rest' =>
          (* i += 1; v is argv[i] *)
          if arg =? "--output-dir" then
            parse_args rest' (set_output_dir (Some v) l) out
          else if arg =? "--color" then
            if one_of v ["auto"; "on"; "off"] then
              parse_args rest' (forward arg (Some v) l) out
            else
              loop_fail out
                ("--color options are 'auto', 'on', or 'off'" +:+ nl) arg0
          else if arg =? "--cache" then
            if v =? "auto" then
              parse_args rest' (set_enable_cache CacheOptAuto l) out
            else if v =? "on" then
              parse_args rest' (set_enable_cache CacheOptOn l) out
            else if v =? "off" then
              parse_args rest' (set_enable_cache CacheOptOff l) out
            else
              loop_fail out
                ("--cache options are 'auto', 'on', or 'off'" +:+ nl) arg0
          else if arg =? "--emit" then
            if v =? "asm" then
              parse_args rest' (set_emit_file_type EmitFileTypeAssembly l) out
            else if v =? "bin" then
              parse_args rest' (set_emit_file_type EmitFileTypeBinary l) out
            else if v =? "llvm-ir" then
              parse_args rest' (set_emit_file_type EmitFileTypeLLVMIr l) out
            else
              loop_fail out
                ("--emit options are 'asm', 'bin', or 'llvm-ir'" +:+ nl) arg0
          else if arg =? "--name" then
            parse_args rest' (set_out_name (Some v) l) out
          else if arg =? "--dynamic-linker" then
            parse_args rest' (forward arg (Some v) l) out
          else if arg =? "--libc" then
            parse_args rest' (set_libc_txt (Some v) l) out
          else if one_of arg ["-D"; "-isystem"; "-I"; "-dirafter"] then
            parse_args rest' (set_clang_argv (clang_argv l ++ [arg; v]) l) out
          else if arg =? "-mllvm" then
            parse_args rest'
              (set_llvm_argv (llvm_argv l ++ [v])
                 (set_clang_argv (clang_argv l ++ ["-mllvm"; v]) l)) out
          else if one_of arg forwarded_value_options_1 then
            parse_args rest' (forward arg (Some v) l) out
          else if (arg =? "--library") || (arg =? "-l") then
            let l := if v =? "c" then set_have_libc true l else l in
            parse_args rest' (forward arg (Some v) l) out
          else if arg =? "--forbid-library" then
            parse_args rest' (forward arg (Some v) l) out
          else if arg =? "--object" then
            parse_args rest' (set_objects (objects l ++ [v]) l) out
          else if arg =? "--c-source" then
            (* the inner [for (;;)] starts at argv[i] = v *)
            (fix c_source (from_i : list string) (c_args : list string)
               : LoopResult :=
               match from_i with
               | [] => LoopDone out l (* i == argc: both loops end *)
               | a :: after =>
                   if Ascii.eqb (char_at a 0) "-" then
                     c_source after (c_args ++ [a])%list
                   else
                     parse_args after
                       (set_c_source_files
                          (c_source_files l ++ [mkCFile c_args a]) l) out
               end) rest []
          else if arg =? "--cache-dir" then
            parse_args rest' (forward arg (Some v) l) out
          else if arg =? "-target" then
            parse_args rest' (set_target_string (Some v) l) out
          else if arg =? "-mmacosx-version-min" then
            parse_args rest' (set_mmacosx_version_min (Some v) l) out
          else if arg =? "-mios-version-min" then
            parse_args rest' (set_mios_version_min (Some v) l) out
          else if one_of arg forwarded_value_options_2 then
            parse_args rest' (forward arg (Some v) l) out
          else if arg =? "-target-glibc" then
            parse_args rest' (set_target_glibc (Some v) l) out
          else if one_of arg forwarded_value_options_3 then
            parse_args rest' (forward arg (Some v) l) out
          else if arg =? "--subsystem" then
            if one_of v subsystem_names then
              parse_args rest' (forward arg (Some v) l) out
            else
              LoopReturn (out ++ [Print stderr (invalid_subsystem_message v)])
                EXIT_FAILURE
          else
            loop_fail out ("Invalid argument: " +:+ arg +:+ nl) arg0
        end
    else if decide (cmd l = CmdNone) then
      match parse_command arg l with
      | Some l' => parse_args rest l' out
      | None => loop_fail out ("Unrecognized command: " +:+ arg +:+ nl) arg0
      end
    else
      match parse_positional arg l with
      | Some l' => parse_args rest l' out
      | None =>
          loop_fail out ("Unexpected extra parameter: " +:+ arg +:+ nl) arg0
      end
  end.

End ArgumentLoop.

Definition initial_locals : Locals :=
  {| cmd := CmdNone; out_type := OutTypeUnknown; in_file := None;
     emit_file_type := EmitFileTypeBinary; output_dir := None;
     out_name := None; enable_cache := CacheOptAuto; libc_txt := None;
     clang_argv := []; have_libc := false; target_string := None;
     target_glibc := None; mmacosx_version_min := None;
     mios_version_min := None; objects := []; c_source_files := [];
     timing_info := false; want_pic := WantPICAuto;
     llvm_argv := ["zig (LLVM option parsing)"];
     cur_pkg := [mkPkgFrame EmptyString EmptyString []];
     forwarded := [] |}.

(** The commands [main] recognises from [argv[1]] before the argument
    loop. *)
Definition early_command (argv : list string) : option Run :=
  let argc := length argv in
  let argv1 := nth 1 argv EmptyString in
  if (argc =? 2)%nat && (argv1 =? "BUILD_INFO") then
    Some ([PrintBuildInfo], Exited 0)
  else if (2 <=? argc)%nat && one_of argv1 ["cc"; "-cc1"; "-cc1as"] then
    Some ([], Continues "ZigClang_main")
  else if (argc =? 2)%nat && (argv1 =? "id") then
    Some ([], Continues "get_compiler_id")
  else if (2 <=? argc)%nat && one_of argv1 ["init-exe"; "init-lib"] then
    if (3 <=? argc)%nat then
      Some (Print stderr
              ("Unexpected extra argument: " +:+ nth 2 argv EmptyString +:+ nl)
            :: print_error_usage (nth 0 argv EmptyString),
            Exited EXIT_FAILURE)
    else Some ([], Continues argv1)
  else if (2 <=? argc)%nat && (argv1 =? "build") then
    Some ([], Continues "build")
  else if (2 <=? argc)%nat && (argv1 =? "fmt") then
    Some ([], Continues "stage2_fmt")
  else None.

Section Main.

Context {ZigTarget : Type}.
Variable env : Env ZigTarget.
Variable arg0 : string.

Definition fail_usage (msg : string) : Run :=
  (Print stderr msg :: print_error_usage arg0, Exited EXIT_FAILURE).

(** Lines 1010-1049: the target of the compilation. *)
Definition resolve_target (l : Locals) : Run + ZigTarget :=
  match target_string l with
  | None =>
      match target_glibc l with
      | Some _ =>
          inl (fail_usage
                 ("-target-glibc provided but no -target parameter" +:+ nl))
      | None => inr (get_native_target env)
      end
  | Some triple =>
      match target_parse_triple env triple with
      | TripleNeedsSubArch arch_name subs =>
          inl (Print stderr
                 ("'" +:+ arch_name +:+
                  "' requires a sub-architecture. Try one of these:" +:+ nl)
               :: map (fun sub =>
                         Print stderr ("  " +:+ arch_name +:+ sub +:+ nl)) subs
               ++ print_error_usage arg0,
               Exited EXIT_FAILURE)
      | TripleError err_str =>
          inl (fail_usage ("invalid target: " +:+ err_str +:+ nl))
      | TripleOk target =>
          if target_is_glibc env target then
            match target_glibc l with
            | Some version =>
                match target_parse_glibc_version env version with
                | Some err_str =>
                    inl (fail_usage
                           ("invalid glibc version '" +:+ version +:+ "': "
                            +:+ err_str +:+ nl))
                | None => inr target
                end
            | None => inr target
            end
          else
            match target_glibc l with
            | Some _ =>
                inl (fail_usage
                       ("'" +:+ triple +:+
                        "' is not a glibc-compatible target"))
            | None => inr target
            end
      end
  end.

(** Lines 1051-1071: the checks between the target and the
    [switch (cmd)]. *)
Definition check_options (l : Locals) (target : ZigTarget) : option Run :=
  if bool_decide (output_dir l <> None)
     && bool_decide (enable_cache l = CacheOptOn) then
    Some (fail_usage
            ("`--output-dir` is incompatible with --cache on." +:+ nl))
  else if target_requires_pic env target (have_libc l)
          && bool_decide (want_pic l = WantPICDisabled) then
    Some (fail_usage
            ("`--disable-pic` is incompatible with target '" +:+
             target_triple_zig env target +:+ "'" +:+ nl))
  else if bool_decide (emit_file_type l <> EmitFileTypeBinary)
          && bool_decide (in_file l = None) then
    Some (fail_usage
            ("A root source file is required when using `--emit asm` or "
             +:+ "`--emit llvm-ir`" +:+ nl))
  else if (1 <? length (llvm_argv l))%nat then
    match ZigLLVMParseCommandLineOptions env (llvm_argv l) with
    | Some code => Some ([], Exited code)
    | None => None
    end
  else None.

Definition path_of (s : string) : Os.Buf := list_ascii_of_string s.

(** The name [os_path_extname(os_path_split(path).basename)] that
    [main] infers when [--name] is absent. *)
Definition infer_name (path : string) : string :=
  let basename := snd (Os.os_path_split (ZIG_OS env) (path_of path)) in
  string_of_list_ascii (fst (Os.os_path_extname basename)).

(** [buf_out_name] of lines 1134-1161, [None] for [nullptr]. *)
Definition output_name (l : Locals) : option string :=
  let need_name :=
    bool_decide (cmd l = CmdBuild) || bool_decide (cmd l = CmdTranslateC) in
  let out_name := if decide (cmd l = CmdRun) then Some "run" else out_name l in
  let buf_out_name :=
    if decide (cmd l = CmdTest) then Some "test" else out_name in
  let buf_out_name :=
    match in_file l, buf_out_name with
    | Some f, None => if need_name then Some (infer_name f) else None
    | _, _ => buf_out_name
    end in
  match buf_out_name, c_source_files l with
  | None, [c] => if need_name then Some (infer_name (source_path c)) else None
  | _, _ => buf_out_name
  end.

(** [add_package(g, cli_pkg, pkg)], with [table] the entries of
    [pkg->package_table]; the flag tells that it ended the process with
    [exit(EXIT_FAILURE)]. *)
Fixpoint add_package (cli_pkg : CliPkg) (table : list (string * string))
  : list Event * bool :=
  match cli_pkg with
  | mkCliPkg _ _ children =>
      (fix each_child (cs : list CliPkg) (table : list (string * string))
         : list Event * bool :=
         match cs with
         | [] => ([], false)
         | child :: cs' =>
             match child with
             | mkCliPkg name path _ =>
                 let '(dirname, basename) :=
                   Os.os_path_split (ZIG_OS env) (path_of path) in
                 match List.find (fun e => fst e =? name) table with
                 | Some (_, full_path) =>
                     ([AddPackage name path;
                       Print stderr
                         ("Unable to add package '" +:+ name +:+ "'->'" +:+
                          path +:+ "': already exists as '" +:+ full_path
                          +:+ "'" +:+ nl)], true)
                 | None =>
                     let full_path :=
                       string_of_list_ascii
                         (Os.os_path_join (ZIG_OS env) (ZIG_OS_SEP_CHAR env)
                            dirname basename) in
                     let '(out1, exited1) :=
                       add_package child (new_pkg_package_table env) in
                     if exited1 then (AddPackage name path :: out1, true)
                     else
                       let '(out2, exited2) :=
                         each_child cs' (table ++ [(name, full_path)])%list in
                       (AddPackage name path :: out1 ++ out2, exited2)
                 end
             end
         end) children table
  end.

(** The root package once every [--pkg-begin] is closed. *)
Definition root_pkg (l : Locals) : CliPkg :=
  match cur_pkg l with
  | root :: _ =>
      mkCliPkg (frame_name root) (frame_path root) (frame_children root)
  | [] => mkCliPkg EmptyString EmptyString []
  end.

(** The last step of the shared block, by command (lines 1285-1396). *)
Definition run_command (l : Locals) (in_file_buf : option string) : Run :=
  match cmd l with
  | CmdTranslateC =>
      let outcome := codegen_translate_c env l in_file_buf in
      match outcome with
      | TranslateExits code =>
          ([CodegenTranslateC in_file_buf outcome], Exited code)
      | TranslateReturns _ =>
          (CodegenTranslateC in_file_buf outcome
           :: (if timing_info l then [PrintTimingReport stderr] else []),
           Exited EXIT_SUCCESS)
      end
  | _ => ([], Continues "codegen_build_and_link")
  end.

(** [case CmdRun: case CmdBuild: case CmdTranslateC: case CmdTest:] *)
Definition build_commands (l : Locals) (target : ZigTarget) : Run :=
  if bool_decide (cmd l = CmdBuild) && bool_decide (in_file l = None)
     && bool_decide (objects l = []) && (length (c_source_files l) =? 0)%nat
  then
    fail_usage
      ("Expected at least one of these things:" +:+ nl +:+
       " * Zig root source file argument" +:+ nl +:+
       " * --object argument" +:+ nl +:+
       " * --c-source argument" +:+ nl)
  else if (bool_decide (cmd l = CmdTranslateC) || bool_decide (cmd l = CmdTest)
           || bool_decide (cmd l = CmdRun))
          && bool_decide (in_file l = None) then
    fail_usage ("Expected source file argument." +:+ nl)
  else if bool_decide (cmd l = CmdRun)
          && bool_decide (emit_file_type l <> EmitFileTypeBinary) then
    fail_usage ("Cannot run non-executable file." +:+ nl)
  else
    let need_name :=
      bool_decide (cmd l = CmdBuild) || bool_decide (cmd l = CmdTranslateC) in
    let in_file_buf := in_file l in
    if need_name && bool_decide (output_name l = None) then
      fail_usage ("--name [name] not provided and unable to infer" +:+ nl +:+ nl)
    else
      let zig_root_source_file :=
        if decide (cmd l = CmdTranslateC) then None else in_file_buf in
      match from_option (fun f => zig_libc_parse env f target) None
              (libc_txt l) with
      | Some err_str =>
          ([Print stderr
              ("Unable to parse --libc text file: " +:+ err_str +:+ nl)],
           Exited EXIT_FAILURE)
      | None =>
          let created := CodegenCreate zig_root_source_file in
          if bool_decide (mmacosx_version_min l <> None)
             && bool_decide (mios_version_min l <> None) then
            ([created;
              Print stderr
                ("-mmacosx-version-min and -mios-version-min options not "
                 +:+ "allowed together" +:+ nl)],
             Exited EXIT_FAILURE)
          else
            let '(added, exited) :=
              add_package (root_pkg l) (main_pkg_package_table env) in
            if exited then (created :: added, Exited EXIT_FAILURE)
            else
              let '(out, finish) := run_command l in_file_buf in
              (created :: added ++ out, finish)
      end.

(** [switch (cmd)] (line 1073). *)
Definition dispatch (l : Locals) (target : ZigTarget) : Run :=
  match cmd l with
  | CmdLibC => ([], Continues "zig_libc")
  | CmdBuiltin =>
      ([CodegenCreate None], Continues "codegen_generate_builtin_source")
  | CmdRun | CmdBuild | CmdTranslateC | CmdTest => build_commands l target
  | CmdVersion => ([PrintVersion], Exited EXIT_SUCCESS)
  | CmdZen => ([PrintZen], Exited EXIT_SUCCESS)
  | CmdTargets => ([], Continues "print_target_list")
  | CmdNone => ([PrintFullUsage stderr], Exited EXIT_FAILURE)
  end.

(** Everything after the argument loop. *)
Definition after_loop (out : list Event) (l : Locals) : Run :=
  if (1 <? length (cur_pkg l))%nat then
    (out ++ [Print stderr ("Unmatched --pkg-begin" +:+ nl)],
     Exited EXIT_FAILURE)
  else
    match resolve_target l with
    | inl (ev, finish) => (out ++ ev, finish)
    | inr target =>
        match check_options l target with
        | Some (ev, finish) => (out ++ ev, finish)
        | None =>
            let '(ev, finish) := dispatch l target in (out ++ ev, finish)
        end
    end.

End Main.

Definition main {ZigTarget : Type} (env : Env ZigTarget)
  (argv : list string) : Run :=
  let arg0 := nth 0 argv EmptyString in
  match early_command argv with
  | Some run => run
  | None =>
      match parse_args (ZIG_ENABLE_MEM_PROFILE env) arg0 (tail argv)
              initial_locals [] with
      | LoopReturn out code => (out, Exited code)
      | LoopDone out l => after_loop env arg0 out l
      end
  end.

(** A POSIX build on which every collaborator succeeds and the
    translation reports two diagnostics. *)
Definition posix_env : Env unit :=
  {| ZIG_OS := Os.ZIG_OS_POSIX;
     ZIG_OS_SEP_CHAR := "/"%char;
     ZIG_ENABLE_MEM_PROFILE := false;
     get_native_target := tt;
     target_parse_triple := fun _ => TripleOk tt;
     target_is_glibc := fun _ => true;
     target_parse_glibc_version := fun _ => None;
     target_requires_pic := fun _ _ => false;
     target_triple_zig := fun _ => "x86_64-linux-gnu";
     zig_libc_parse := fun _ _ => None;
     ZigLLVMParseCommandLineOptions := fun _ => None;
     main_pkg_package_table := [];
     new_pkg_package_table := [];
     codegen_translate_c := fun _ _ =>
       TranslateReturns ["unsupported jump"; "unable to translate macro"] |}.

(** The run of [main] on [argv] reaches the [switch (cmd)] of line 1073
    with the locals [l], having printed [out]: no command is taken from
    [argv[1]] before the loop, the loop ends without a [return], every
    [--pkg-begin] is closed, and the target and option checks pass. *)
Definition reaches_dispatch {ZigTarget : Type} (env : Env ZigTarget)
  (argv : list string) (out : list Event) (l : Locals) (target : ZigTarget)
  : Prop :=
  early_command argv = None
  /\ parse_args (ZIG_ENABLE_MEM_PROFILE env) (nth 0 argv EmptyString)
       (tail argv) initial_locals [] = LoopDone out l
  /\ (1 <? length (cur_pkg l))%nat = false
  /\ resolve_target env (nth 0 argv EmptyString) l = inr target
  /\ check_options env (nth 0 argv EmptyString) l target = None.

(** The events that only write a message. *)
Definition is_message (e : Event) : bool :=
  match e with
  | Print _ _ | PrintFullUsage _ | PrintLibcUsage _ => true
  | _ => false
  end.

(** The events that build or use the state of a translation. *)
Definition is_codegen (e : Event) : bool :=
  match e with
  | CodegenCreate _ | AddPackage _ _ | CodegenTranslateC _ _ => true
  | _ => false
  end.

(** [o] is [out] followed by messages only. *)
Definition extends (out o : list Event) : Prop :=
  exists extra, o = out ++ extra /\ forallb is_message extra = true.

Definition loop_extends (out : list Event) (r : LoopResult) : Prop :=
  match r with
  | LoopReturn o _ => extends out o
  | LoopDone o _ => extends out o
  end.

(** The translation call, when a run makes it, is given an input file,
    and a run in which it comes back ends with [EXIT_SUCCESS]. *)
Definition translates_well (r : Run) : Prop :=
  forall f o, In (CodegenTranslateC f o) r.1 ->
    f <> None /\
    (forall diags, o = TranslateReturns diags -> r.2 = Exited EXIT_SUCCESS).

(** *** main.cpp: [zig init-exe], [zig init-lib] and [zig build] *)

(** The loop of lines 410-417 that writes [build.zig] from its
    template: every ['$'] becomes the base name of the current
    directory. *)
Fixpoint instantiate_template (build_zig_contents cwd_basename : Os.Buf)
  : Os.Buf :=
  match build_zig_contents with
  | [] => []
  | c :: rest =>
      if Ascii.eqb c "$" then
        cwd_basename ++ instantiate_template rest cwd_basename
      else c :: instantiate_template rest cwd_basename
  end.

(** The locals the argument loop of [zig build] sets (lines 541-568);
    [build_args] are the entries of [args] after its four leading
    ones. *)
Record BuildLocals : Type := mkBuildLocals {
  build_args : list string;
  build_file : option string;
  build_cache_dir : option string;
  build_override_lib_dir : option string
}.

Definition initial_build_locals : BuildLocals :=
  {| build_args := []; build_file := None; build_cache_dir := None;
     build_override_lib_dir := None |}.

Definition append_build_args (more : list string) (b : BuildLocals)
  : BuildLocals :=
  {| build_args := build_args b ++ more; build_file := build_file b;
     build_cache_dir := build_cache_dir b;
     build_override_lib_dir := build_override_lib_dir b |}.

(** [for (int i = 2; i < argc; i += 1)] of lines 550-568; [args] is
    [argv] from index [i] on. *)
Fixpoint parse_build_args (args : list string) (b : BuildLocals)
  : BuildLocals :=
  match args with
  | [] => b
  | arg :: rest =>
      if arg =? "--help" then parse_build_args rest (append_build_args [arg] b)
      else
        match rest with
        | v :: rest' =>
            (* i + 1 < argc *)
            if arg =? "--build-file" then
              parse_build_args rest'
                {| build_args := build_args b; build_file := Some v;
                   build_cache_dir := build_cache_dir b;
                   build_override_lib_dir := build_override_lib_dir b |}
            else if arg =? "--cache-dir" then
              parse_build_args rest'
                {| build_args := build_args b; build_file := build_file b;
                   build_cache_dir := Some v;
                   build_override_lib_dir := build_override_lib_dir b |}
            else if arg =? "--override-lib-dir" then
              parse_build_args rest'
                {| build_args := build_args b ++ ["--override-lib-dir"; v];
                   build_file := build_file b;
                   build_cache_dir := build_cache_dir b;
                   build_override_lib_dir := Some v |}
            else parse_build_args rest (append_build_args [arg] b)
        | [] => parse_build_args rest (append_build_args [arg] b)
        end
  end.

(** How the search for the build file ends (lines 584-606). *)
Inductive BuildFileSearch : Type :=
  | BuildFileFound (build_file_abs build_file_dirname : Os.Buf)
  | BuildFileCheckFailed (build_file_abs : Os.Buf)
  | NoBuildFile.

Section BuildFile.

Variable os : Os.Platform.
Variable SEP_CHAR : ascii.

(** [os_file_exists]: [None] when it returns an error. *)
Variable os_file_exists : Os.Buf -> option bool.

(** The [for (;;)] of lines 584-606; [specific] is
    [build_file != nullptr].  Every iteration takes one unit of
    [fuel], [None] is a loop that has not ended yet. *)
Fixpoint build_file_search (fuel : nat) (specific : bool)
  (build_file_abs build_file_dirname build_file_basename : Os.Buf)
  : option BuildFileSearch :=
  match fuel with
  | O => None
  | S fuel' =>
      match os_file_exists build_file_abs with
      | None => Some (BuildFileCheckFailed build_file_abs)
      | Some true => Some (BuildFileFound build_file_abs build_file_dirname)
      | Some false =>
          if specific then Some NoBuildFile
          else
            let next_dir := Os.os_path_dirname os build_file_dirname in
            if bool_decide (build_file_dirname = next_dir) then
              Some NoBuildFile
            else
              build_file_search fuel' specific
                (Os.os_path_join os SEP_CHAR next_dir build_file_basename)
                next_dir build_file_basename
      end
  end.

(** The search from the resolved path of the build file
    ([os_path_resolve], line 579, and [os_path_split], line 582). *)
Definition find_build_file (fuel : nat) (specific : bool)
  (build_file_abs : Os.Buf) : option BuildFileSearch :=
  let '(build_file_dirname, build_file_basename) :=
    Os.os_path_split os build_file_abs in
  build_file_search fuel specific build_file_abs build_file_dirname
    build_file_basename.

End BuildFile.

(** *** main.cpp: [zig init-exe] and [zig init-lib] (lines 382-463) *)

(** [init_kind] once it is not [InitKindNone]. *)
Inductive InitKind : Type :=
  | InitKindExe
  | InitKindLib.

(** [init_cmd], the [argv[1]] that set [init_kind]. *)
Definition init_cmd (init_kind : InitKind) : string :=
  match init_kind with
  | InitKindExe => "init-exe"
  | InitKindLib => "init-lib"
  end.

(** What the command does to the world, in order: a text written to
    [stderr], a call of [os_make_dir], a call of [os_write_file]. *)
Inductive InitStep : Type :=
  | InitPrint (text : string)
  | InitMakeDir (path : Os.Buf)
  | InitWriteFile (path contents : Os.Buf).

(** What [printf]'s [%s] prints of [buf_ptr(b)]. *)
Definition show_buf (b : Os.Buf) : string :=
  string_of_list_ascii (Compiler.c_str b).

Section InitCommand.

Variable os : Os.Platform.
Variable SEP_CHAR : ascii.

(** The type [Error] and [err_str]. *)
Variable ErrorCode : Type.
Variable err_str : ErrorCode -> string.

(** [get_zig_special_dir(get_zig_lib_dir())]; [None] when
    [get_zig_lib_dir] ends the process. *)
Variable zig_special_dir : option Os.Buf.

Variable os_get_cwd : ErrorCode + Os.Buf.
Variable os_fetch_file_path : Os.Buf -> ErrorCode + Os.Buf.
Variable os_file_exists : Os.Buf -> ErrorCode + bool.
(** [None] is [ErrorNone]. *)
Variable os_make_dir : Os.Buf -> option ErrorCode.
Variable os_write_file : Os.Buf -> Os.Buf -> option ErrorCode.

(** The block of lines 382-463 for [argc < 3]: the steps taken and the
    value returned from [main]. *)
Definition init_command (init_kind : InitKind) : list InitStep * Z :=
  let join := Os.os_path_join os SEP_CHAR in
  match zig_special_dir with
  | None =>
      ([InitPrint ("Unable to find zig lib directory" +:+ nl)], EXIT_FAILURE)
  | Some special_dir =>
  let cmd_template_path := join special_dir (path_of (init_cmd init_kind)) in
  let build_zig_path := join cmd_template_path (path_of "build.zig") in
  let src_dir_path := join cmd_template_path (path_of "src") in
  let main_zig_path := join src_dir_path (path_of "main.zig") in
  match os_get_cwd with
  | inl err =>
      ([InitPrint ("Unable to get cwd: " +:+ err_str err +:+ nl)],
       EXIT_FAILURE)
  | inr cwd =>
  let cwd_basename := snd (Os.os_path_split os cwd) in
  match os_fetch_file_path build_zig_path with
  | inl err =>
      ([InitPrint ("Unable to read " +:+ show_buf build_zig_path +:+ ": "
                   +:+ err_str err +:+ nl)], EXIT_FAILURE)
  | inr build_zig_contents =>
  let modified_build_zig_contents :=
    instantiate_template build_zig_contents cwd_basename in
  match os_fetch_file_path main_zig_path with
  | inl err =>
      ([InitPrint ("Unable to read " +:+ show_buf main_zig_path +:+ ": "
                   +:+ err_str err +:+ nl)], EXIT_FAILURE)
  | inr main_zig_contents =>
  let out_build_zig_path := path_of "build.zig" in
  let out_src_dir_path := path_of "src" in
  let out_main_zig_path := join out_src_dir_path (path_of "main.zig") in
  match os_file_exists out_build_zig_path with
  | inl err =>
      ([InitPrint ("Unable test existence of " +:+
                   show_buf out_build_zig_path +:+ ": " +:+ err_str err
                   +:+ nl)], EXIT_FAILURE)
  | inr true =>
      ([InitPrint ("This file would be overwritten: " +:+
                   show_buf out_build_zig_path +:+ nl)], EXIT_FAILURE)
  | inr false =>
  match os_make_dir out_src_dir_path with
  | Some err =>
      ([InitMakeDir out_src_dir_path;
        InitPrint ("Unable to make directory: " +:+
                   show_buf out_src_dir_path +:+ ": " +:+ err_str err
                   +:+ nl)], EXIT_FAILURE)
  | None =>
  match os_write_file out_build_zig_path modified_build_zig_contents with
  | Some err =>
      ([InitMakeDir out_src_dir_path;
        InitWriteFile out_build_zig_path modified_build_zig_contents;
        InitPrint ("Unable to write file: " +:+
                   show_buf out_build_zig_path +:+ ": " +:+ err_str err
                   +:+ nl)], EXIT_FAILURE)
  | None =>
  match os_write_file out_main_zig_path main_zig_contents with
  | Some err =>
      ([InitMakeDir out_src_dir_path;
        InitWriteFile out_build_zig_path modified_build_zig_contents;
        InitWriteFile out_main_zig_path main_zig_contents;
        InitPrint ("Unable to write file: " +:+
                   show_buf out_main_zig_path +:+ ": " +:+ err_str err
                   +:+ nl)], EXIT_FAILURE)
  | None =>
      ([InitMakeDir out_src_dir_path;
        InitWriteFile out_build_zig_path modified_build_zig_contents;
        InitWriteFile out_main_zig_path main_zig_contents;
        InitPrint ("Created " +:+ show_buf out_build_zig_path +:+ nl);
        InitPrint ("Created " +:+ show_buf out_main_zig_path +:+ nl);
        InitPrint
          match init_kind with
          | InitKindExe =>
              nl +:+ "Next, try `zig build --help` or `zig build run`" +:+ nl
          | InitKindLib =>
              nl +:+ "Next, try `zig build --help` or `zig build test`" +:+ nl
          end],
       EXIT_SUCCESS)
  end end end end end end end end.

End InitCommand.

(** *** What a run of [main] leaves on its streams *)

(** The events that write to [stderr]. *)
Definition is_report (e : Event) : bool :=
  match e with
  | Print stderr _ | PrintFullUsage stderr | PrintLibcUsage stderr => true
  | _ => false
  end.

(** The usage texts on [stdout]. *)
Definition is_usage (e : Event) : bool :=
  match e with
  | PrintFullUsage stdout | PrintLibcUsage stdout => true
  | _ => false
  end.

Definition is_create (e : Event) : bool :=
  match e with
  | CodegenCreate _ => true
  | _ => false
  end.

(** A [return] inside the argument loop is the usage text asked for
    with [--help], or a failure whose last output is on [stderr]. *)
Definition returns_reported (args : list string) (r : LoopResult) : Prop :=
  match r with
  | LoopDone _ _ => True
  | LoopReturn o code =>
      exists e, last o = Some e /\
        ((code = EXIT_SUCCESS /\ is_usage e = true /\ In "--help" args)
         \/ (code = EXIT_FAILURE /\ is_report e = true))
  end.

(** A run that ends with a status other than [EXIT_SUCCESS] has said
    why: its last event is a text on [stderr], or the translation or
    LLVM's option parser ended the process with that status. *)
Definition reported {ZigTarget : Type} (env : Env ZigTarget) (r : Run)
  : Prop :=
  forall code, r.2 = Exited code -> code <> EXIT_SUCCESS ->
    (exists e, last r.1 = Some e /\ is_report e = true)
    \/ (exists f, last r.1 = Some (CodegenTranslateC f (TranslateExits code)))
    \/ (exists llvm_argv,
          ZigLLVMParseCommandLineOptions env llvm_argv = Some code).

(** The [CodeGen] is created before it is used, and once. *)
Definition creates_first (events : list Event) : Prop :=
  match List.filter is_codegen events with
  | [] => True
  | e :: rest =>
      is_create e = true /\ forallb (fun e => negb (is_create e)) rest = true
  end.

End Driver.

(** ** The translation engine behind [parse_h_file]

    [translate_c.cpp] is not among the sources; [translate_c.hpp] and
    [zig_clang.h] give the interface of the engine and of the C front
    end.  The front-end data below follows [zig_clang.h]; the engine is
    modelled from the specification of its components. *)

Module Engine.

Local Open Scope string_scope.
Local Open Scope list_scope.

(** *** The front end's AST ([zig_clang.h]) *)

(** [enum TranslateMode] of [translate_c.hpp]. *)
Inductive TranslateMode : Type :=
  | TranslateModeImport
  | TranslateModeTranslate.

(** [enum ZigClangBO]. *)
Inductive ZigClangBO : Type :=
  | ZigClangBO_PtrMemD
  | ZigClangBO_PtrMemI
  | ZigClangBO_Mul
  | ZigClangBO_Div
  | ZigClangBO_Rem
  | ZigClangBO_Add
  | ZigClangBO_Sub
  | ZigClangBO_Shl
  | ZigClangBO_Shr
  | ZigClangBO_Cmp
  | ZigClangBO_LT
  | ZigClangBO_GT
  | ZigClangBO_LE
  | ZigClangBO_GE
  | ZigClangBO_EQ
  | ZigClangBO_NE
  | ZigClangBO_And
  | ZigClangBO_Xor
  | ZigClangBO_Or
  | ZigClangBO_LAnd
  | ZigClangBO_LOr
  | ZigClangBO_Assign
  | ZigClangBO_MulAssign
  | ZigClangBO_DivAssign
  | ZigClangBO_RemAssign
  | ZigClangBO_AddAssign
  | ZigClangBO_SubAssign
  | ZigClangBO_ShlAssign
  | ZigClangBO_ShrAssign
  | ZigClangBO_AndAssign
  | ZigClangBO_XorAssign
  | ZigClangBO_OrAssign
  | ZigClangBO_Comma.

(** The C members of [enum ZigClangBuiltinTypeKind]. *)
Inductive ZigClangBuiltinTypeKind : Type :=
  | ZigClangBuiltinTypeVoid
  | ZigClangBuiltinTypeBool
  | ZigClangBuiltinTypeChar_U
  | ZigClangBuiltinTypeUChar
  | ZigClangBuiltinTypeUShort
  | ZigClangBuiltinTypeUInt
  | ZigClangBuiltinTypeULong
  | ZigClangBuiltinTypeULongLong
  | ZigClangBuiltinTypeChar_S
  | ZigClangBuiltinTypeSChar
  | ZigClangBuiltinTypeShort
  | ZigClangBuiltinTypeInt
  | ZigClangBuiltinTypeLong
  | ZigClangBuiltinTypeLongLong
  | ZigClangBuiltinTypeFloat
  | ZigClangBuiltinTypeDouble
  | ZigClangBuiltinTypeLongDouble.

(** [enum CIntType] of [target.hpp]. *)
Inductive CIntType : Type :=
  | CIntTypeShort
  | CIntTypeUShort
  | CIntTypeInt
  | CIntTypeUInt
  | CIntTypeLong
  | CIntTypeULong
  | CIntTypeLongLong
  | CIntTypeULongLong.

#[global] Instance ZigClangBO_eq_dec : EqDecision ZigClangBO.
Proof. solve_decision. Defined.
#[global] Instance BuiltinKind_eq_dec : EqDecision ZigClangBuiltinTypeKind.
Proof. solve_decision. Defined.

Definition builtin_kinds : list ZigClangBuiltinTypeKind :=
  [ZigClangBuiltinTypeVoid; ZigClangBuiltinTypeBool;
   ZigClangBuiltinTypeChar_U; ZigClangBuiltinTypeUChar;
   ZigClangBuiltinTypeUShort; ZigClangBuiltinTypeUInt;
   ZigClangBuiltinTypeULong; ZigClangBuiltinTypeULongLong;
   ZigClangBuiltinTypeChar_S; ZigClangBuiltinTypeSChar;
   ZigClangBuiltinTypeShort; ZigClangBuiltinTypeInt;
   ZigClangBuiltinTypeLong; ZigClangBuiltinTypeLongLong;
   ZigClangBuiltinTypeFloat; ZigClangBuiltinTypeDouble;
   ZigClangBuiltinTypeLongDouble].

#[global, refine] Instance BuiltinKind_finite :
  Finite ZigClangBuiltinTypeKind := {| enum := builtin_kinds |}.
Proof.
  - unfold builtin_kinds. apply NoDup_ListNoDup.
    repeat (constructor; [cbn; intuition discriminate |]). constructor.
  - intros []; unfold builtin_kinds; set_solver.
Defined.

(** A canonical pointer of the front end (a canonical type or a
    canonical declaration), as an address. *)
Abbreviation CanonId := nat (only parsing).

(** A [ZigClangQualType] by type class.  Builtin types are singletons
    of the AST context; every other type carries the canonical identity
    the front end gives it, tag and typedef types that of their
    canonical declaration. *)
Inductive CType : Type :=
  | CBuiltinType (kind : ZigClangBuiltinTypeKind)
  | CPointerType (canon : CanonId) (is_const is_volatile : bool)
      (pointee : CType)
  | CConstantArrayType (canon : CanonId) (elem : CType) (size : N)
  | CIncompleteArrayType (canon : CanonId) (elem : CType)
  | CFunctionProtoType (canon : CanonId) (params : list CType)
      (ret : CType) (variadic : bool)
  | CRecordType (decl : CanonId) (name : string)
  | CEnumType (decl : CanonId) (name : string)
  | CTypedefType (decl : CanonId) (name : string) (underlying : CType)
  | COtherType (canon : CanonId) (type_class : string).

(** The key of the type cache: the canonical identity of a type, by
    the kind of front-end object it is the address of. *)
Inductive TypeKey : Type :=
  | KeyBuiltin (kind : ZigClangBuiltinTypeKind)
  | KeyType (canon : nat)
  | KeyTag (decl : nat)
  | KeyTypedef (decl : nat).

#[global] Instance TypeKey_eq_dec : EqDecision TypeKey.
Proof. solve_decision. Defined.

#[global] Instance TypeKey_countable : Countable TypeKey.
Proof.
  refine (inj_countable'
            (fun k => match k with
                      | KeyBuiltin kind => inl kind
                      | KeyType canon => inr (inl canon)
                      | KeyTag decl => inr (inr (inl decl))
                      | KeyTypedef decl => inr (inr (inr decl))
                      end)
            (fun x => match x with
                      | inl kind => KeyBuiltin kind
                      | inr (inl canon) => KeyType canon
                      | inr (inr (inl decl)) => KeyTag decl
                      | inr (inr (inr decl)) => KeyTypedef decl
                      end) _).
  intros []; reflexivity.
Defined.

Definition canonical_key (t : CType) : TypeKey :=
  match t with
  | CBuiltinType kind => KeyBuiltin kind
  | CPointerType canon _ _ _ => KeyType canon
  | CConstantArrayType canon _ _ => KeyType canon
  | CIncompleteArrayType canon _ => KeyType canon
  | CFunctionProtoType canon _ _ _ => KeyType canon
  | CRecordType decl _ => KeyTag decl
  | CEnumType decl _ => KeyTag decl
  | CTypedefType decl _ _ => KeyTypedef decl
  | COtherType canon _ => KeyType canon
  end.

Abbreviation SourceLocation := nat (only parsing).

(** Expressions ([ZigClangExpr] by statement class). *)
Inductive CExpr : Type :=
  | CIntegerLiteral (ty : CType) (value : Z)
  | CDeclRefExpr (ty : CType) (name : string)
  | CParenExpr (sub : CExpr)
  | CImplicitCastExpr (ty : CType) (sub : CExpr)
  | CBinaryOperator (op : ZigClangBO) (ty : CType) (lhs rhs : CExpr)
  | CCompoundAssignOperator (op : ZigClangBO)
      (ty computation_lhs_type computation_result_type : CType)
      (lhs rhs : CExpr)
  | CCallExpr (ty : CType) (callee : CExpr) (args : list CExpr)
  | COtherExpr (ty : CType) (loc : SourceLocation) (stmt_class : string).

(** [ZigClangExpr_getType]. *)
Fixpoint ZigClangExpr_getType (e : CExpr) : CType :=
  match e with
  | CIntegerLiteral ty _ => ty
  | CDeclRefExpr ty _ => ty
  | CParenExpr sub => ZigClangExpr_getType sub
  | CImplicitCastExpr ty _ => ty
  | CBinaryOperator _ ty _ _ => ty
  | CCompoundAssignOperator _ ty _ _ _ _ => ty
  | CCallExpr ty _ _ => ty
  | COtherExpr ty _ _ => ty
  end.

(** Statements ([ZigClangStmt] by statement class). *)
Inductive CStmt : Type :=
  | CCompoundStmt (body : list CStmt)
  | CExprStmt (e : CExpr)
  | CDeclStmt (name : string) (ty : CType) (init : option CExpr)
  | CIfStmt (cond : CExpr) (then_stmt : CStmt) (else_stmt : option CStmt)
  | CWhileStmt (cond : CExpr) (body : CStmt)
  | CDoStmt (body : CStmt) (cond : CExpr)
  | CForStmt (init : option CStmt) (cond inc : option CExpr) (body : CStmt)
  | CSwitchStmt (cond : CExpr) (body : CStmt) (all_enum_cases_covered : bool)
  | CCaseStmt (lhs : CExpr) (sub : CStmt)
  | CDefaultStmt (sub : CStmt)
  | CBreakStmt
  | CContinueStmt
  | CReturnStmt (value : option CExpr)
  | CLabelStmt (label : string) (sub : CStmt)
  | CGotoStmt (loc : SourceLocation) (label : string)
  | COtherStmt (loc : SourceLocation) (stmt_class : string).

(** A field of a record definition. *)
Record CField : Type := mkCField {
  field_name : string;
  field_type : CType;
  bit_width : option N
}.

(** Top-level declarations, each with its canonical declaration and
    its location. *)
Inductive CDecl : Type :=
  | CFunctionDecl (canon : CanonId) (loc : SourceLocation) (name : string)
      (ty : CType) (param_names : list string) (body : option CStmt)
  | CRecordDecl (canon : CanonId) (loc : SourceLocation) (name : string)
      (is_union : bool) (definition : option (list CField))
  | CEnumDecl (canon : CanonId) (loc : SourceLocation) (name : string)
      (int_type : CType) (definition : option (list (string * Z)))
  | CTypedefNameDecl (canon : CanonId) (loc : SourceLocation) (name : string)
      (underlying : CType)
  | CVarDecl (canon : CanonId) (loc : SourceLocation) (name : string)
      (ty : CType) (init : option CExpr) (is_static is_thread_local : bool).

(** The tokens of a macro's replacement list. *)
Inductive CToken : Type :=
  | TokNumber (value : Z)
  | TokIdentifier (name : string)
  | TokLParen
  | TokRParen
  | TokComma
  | TokPlus
  | TokMinus
  | TokStar
  | TokSlash
  | TokHash
  | TokHashHash
  | TokOther (spelling : string).

(** A [ZigClangMacroDefinitionRecord] with its parameters ([None] for
    an object-like macro) and its replacement list. *)
Record CMacro : Type := mkCMacro {
  macro_name : string;
  macro_params : option (list string);
  macro_tokens : list CToken;
  macro_loc : SourceLocation
}.

(** What the front end hands over for one translation unit. *)
Record ASTUnit : Type := mkASTUnit {
  top_level_decls : list CDecl;
  macro_definitions : list CMacro
}.

(** *** The engine's data model *)

(** A non-owning handle of a translated type: the index of its cell in
    the type cache's arena. *)
Abbreviation Handle := nat (only parsing).

(** Modelled from the spec: a field of a translated record (section 3;
    [translate_c.cpp] is not among the sources). *)
Record TField : Type := mkTField {
  tfield_name : string;
  tfield_type : Handle;
  tfield_bit_width : option N
}.

(** Modelled from the spec: [TranslatedType] (section 3). *)
Inductive TranslatedType : Type :=
  | TPrimitive (width : N) (is_signed is_float : bool)
  | TPointer (pointee : Handle) (is_const is_volatile : bool)
  | TArray (elem : Handle) (size : N)
  | TIncompleteArray (elem : Handle)
  | TFunctionType (params : list Handle) (ret : Handle) (variadic : bool)
  | TRecord (is_union : bool) (fields : list TField)
  | TEnum (underlying : Handle) (constants : list (string * Z))
  | TOpaque (name : string)
  | TAlias (name : string) (target : Handle).

#[global] Instance TField_eq_dec : EqDecision TField.
Proof. solve_decision. Defined.
#[global] Instance TranslatedType_eq_dec : EqDecision TranslatedType.
Proof. solve_decision. Defined.

(** Modelled from the spec: [TranslatedExpr] (section 3). *)
Inductive TranslatedExpr : Type :=
  | TLiteral (ty : Handle) (value : Z)
  | TIdentifier (name : string)
  | TCast (ty : Handle) (sub : TranslatedExpr)
  | TBinary (op : ZigClangBO) (computation_type result_type : Handle)
      (lhs rhs : TranslatedExpr)
  | TCompoundAssign (op : ZigClangBO) (computation_type result_type : Handle)
      (lhs rhs : TranslatedExpr)
  | TCall (callee : TranslatedExpr) (args : list TranslatedExpr)
  | TUnsupportedExpr (ty : Handle).

(** Modelled from the spec: the label of a case of a translated [switch]. *)
Inductive CaseLabel : Type :=
  | LCase (value : TranslatedExpr)
  | LDefault.

(** Modelled from the spec: one entry of a translated [switch]'s
    ordered case list: its labels, its statements and the explicit
    fallthrough marker. *)
Record TCaseOf (Stmt : Type) : Type := mkTCase {
  case_labels : list CaseLabel;
  case_body : list Stmt;
  case_fallthrough : bool
}.
Arguments mkTCase {Stmt} case_labels case_body case_fallthrough.
Arguments case_labels {Stmt} t.
Arguments case_body {Stmt} t.
Arguments case_fallthrough {Stmt} t.

(** Modelled from the spec: [TranslatedStmt] (section 3). *)
Inductive TranslatedStmt : Type :=
  | TExprStmt (e : TranslatedExpr)
  | TDeclStmt (name : string) (ty : Handle) (init : option TranslatedExpr)
  | TBlock (body : list TranslatedStmt)
  | TIf (cond : TranslatedExpr) (then_stmt : TranslatedStmt)
      (else_stmt : option TranslatedStmt)
  | TWhile (cond : TranslatedExpr) (body : TranslatedStmt)
  | TDoWhile (body : TranslatedStmt) (cond : TranslatedExpr)
  | TFor (init : option TranslatedStmt) (cond step : option TranslatedExpr)
      (body : TranslatedStmt)
  | TSwitch (cond : TranslatedExpr) (unlabeled : list TranslatedStmt)
      (cases : list (TCaseOf TranslatedStmt)) (all_enum_cases_covered : bool)
  | TBreak
  | TContinue
  | TReturn (value : option TranslatedExpr)
  | TLabeled (label : string) (sub : TranslatedStmt)
  | TJump (label : string)
  | TUnreachable.

Abbreviation TCase := (TCaseOf TranslatedStmt).

(** Modelled from the spec: the expression a macro's replacement list
    stands for; its identifiers have no C type. *)
Inductive MacroExpr : Type :=
  | MNumber (value : Z)
  | MIdent (name : string)
  | MNeg (sub : MacroExpr)
  | MBin (op : ZigClangBO) (lhs rhs : MacroExpr)
  | MCall (callee : string) (args : list MacroExpr).

(** Modelled from the spec: [TranslatedDecl] (section 3). *)
Inductive TranslatedDecl : Type :=
  | TGlobalVar (canon : nat) (name : string) (ty : Handle)
      (init : option Z) (is_static is_thread_local : bool)
  | TFunction (canon : nat) (name : string) (ty : Handle)
      (params : list string) (body : option TranslatedStmt)
  | TTypeDefinition (canon : nat) (name : string) (ty : Handle)
  | TTypeAlias (canon : nat) (name : string) (ty : Handle)
  | TMacroConstant (name : string) (value : Z) (ty : Handle)
  | TMacroFunction (name : string) (params : list string)
      (body : MacroExpr).

(** Modelled from the spec: the severity of a [Diagnostic]. *)
Inductive Severity : Type :=
  | SeverityWarning.

(** Modelled from the spec: [Diagnostic] (section 3). *)
Record Diagnostic : Type := mkDiagnostic {
  severity : Severity;
  message : string;
  source_location : nat
}.

(** Modelled from the spec: the states of a function declaration;
    [Unseen] is the absence of an entry. *)
Inductive DeclState : Type :=
  | ForwardDeclared
  | Defined.

(** Modelled from the spec: [TranslationContext]; the cells of the type
    cache are [type_nodes], the node of handle [h] is [type_nodes !!
    h]. *)
Record TranslationContext : Type := mkContext {
  type_cache : gmap TypeKey nat;
  type_nodes : list TranslatedType;
  symbol_table : list (gmap string string);
  anon_name_counter : nat;
  pending_forward_decls : gset nat;
  decl_states : gmap nat DeclState;
  diagnostics : list Diagnostic;
  output_decls : list TranslatedDecl
}.

(** Modelled from the spec: the context a run starts with. *)
Definition empty_context : TranslationContext :=
  {| type_cache := ∅; type_nodes := []; symbol_table := [∅];
     anon_name_counter := 0; pending_forward_decls := ∅; decl_states := ∅;
     diagnostics := []; output_decls := [] |}.

Definition set_type_cache (v : gmap TypeKey nat)
  (c : TranslationContext) : TranslationContext :=
  {| type_cache := v; type_nodes := type_nodes c;
     symbol_table := symbol_table c; anon_name_counter := anon_name_counter c;
     pending_forward_decls := pending_forward_decls c;
     decl_states := decl_states c; diagnostics := diagnostics c;
     output_decls := output_decls c |}.

Definition set_type_nodes (v : list TranslatedType)
  (c : TranslationContext) : TranslationContext :=
  {| type_cache := type_cache c; type_nodes := v;
     symbol_table := symbol_table c; anon_name_counter := anon_name_counter c;
     pending_forward_decls := pending_forward_decls c;
     decl_states := decl_states c; diagnostics := diagnostics c;
     output_decls := output_decls c |}.

Definition set_symbol_table (v : list (gmap string string))
  (c : TranslationContext) : TranslationContext :=
  {| type_cache := type_cache c; type_nodes := type_nodes c;
     symbol_table := v; anon_name_counter := anon_name_counter c;
     pending_forward_decls := pending_forward_decls c;
     decl_states := decl_states c; diagnostics := diagnostics c;
     output_decls := output_decls c |}.

Definition set_anon_name_counter (v : nat)
  (c : TranslationContext) : TranslationContext :=
  {| type_cache := type_cache c; type_nodes := type_nodes c;
     symbol_table := symbol_table c; anon_name_counter := v;
     pending_forward_decls := pending_forward_decls c;
     decl_states := decl_states c; diagnostics := diagnostics c;
     output_decls := output_decls c |}.

Definition set_pending_forward_decls (v : gset nat)
  (c : TranslationContext) : TranslationContext :=
  {| type_cache := type_cache c; type_nodes := type_nodes c;
     symbol_table := symbol_table c; anon_name_counter := anon_name_counter c;
     pending_forward_decls := v;
     decl_states := decl_states c; diagnostics := diagnostics c;
     output_decls := output_decls c |}.

Definition set_decl_states (v : gmap nat DeclState)
  (c : TranslationContext) : TranslationContext :=
  {| type_cache := type_cache c; type_nodes := type_nodes c;
     symbol_table := symbol_table c; anon_name_counter := anon_name_counter c;
     pending_forward_decls := pending_forward_decls c;
     decl_states := v; diagnostics := diagnostics c;
     output_decls := output_decls c |}.

Definition set_diagnostics (v : list Diagnostic)
  (c : TranslationContext) : TranslationContext :=
  {| type_cache := type_cache c; type_nodes := type_nodes c;
     symbol_table := symbol_table c; anon_name_counter := anon_name_counter c;
     pending_forward_decls := pending_forward_decls c;
     decl_states := decl_states c; diagnostics := v;
     output_decls := output_decls c |}.

Definition set_output_decls (v : list TranslatedDecl)
  (c : TranslationContext) : TranslationContext :=
  {| type_cache := type_cache c; type_nodes := type_nodes c;
     symbol_table := symbol_table c; anon_name_counter := anon_name_counter c;
     pending_forward_decls := pending_forward_decls c;
     decl_states := decl_states c; diagnostics := diagnostics c;
     output_decls := v |}.

(** Modelled from the spec: appends one entry to [diagnostics]. *)
Definition emit_diagnostic (msg : string) (loc : nat)
  (c : TranslationContext) : TranslationContext :=
  set_diagnostics (diagnostics c ++ [mkDiagnostic SeverityWarning msg loc]) c.

(** Modelled from the spec: appends one declaration to [output_decls].
    *)
Definition emit_decl (d : TranslatedDecl)
  (c : TranslationContext) : TranslationContext :=
  set_output_decls (output_decls c ++ [d]) c.

(** *** Type Registry *)

Section Translation.

(** [target_c_type_size_in_bits] of [target.hpp] for the compilation
    target. *)
Variable target_c_type_size_in_bits : CIntType -> N.

(** The front end's constant-evaluation service
    ([ZigClangExpr_EvaluateAsConstantExpr]): the value of an expression
    with its C type, or [None] for "not constant". *)
Variable EvaluateAsConstantExpr : CExpr -> option (Z * CType).

(** Modelled from the spec: the translation of a builtin type, a
    primitive with its width, signedness and float kind
    ([translate_c.cpp] is not among the sources). *)
Definition primitive_of (kind : ZigClangBuiltinTypeKind) : TranslatedType :=
  let bits := target_c_type_size_in_bits in
  match kind with
  | ZigClangBuiltinTypeVoid => TPrimitive 0 false false
  | ZigClangBuiltinTypeBool => TPrimitive 1 false false
  | ZigClangBuiltinTypeChar_U => TPrimitive 8 false false
  | ZigClangBuiltinTypeUChar => TPrimitive 8 false false
  | ZigClangBuiltinTypeUShort => TPrimitive (bits CIntTypeUShort) false false
  | ZigClangBuiltinTypeUInt => TPrimitive (bits CIntTypeUInt) false false
  | ZigClangBuiltinTypeULong => TPrimitive (bits CIntTypeULong) false false
  | ZigClangBuiltinTypeULongLong =>
      TPrimitive (bits CIntTypeULongLong) false false
  | ZigClangBuiltinTypeChar_S => TPrimitive 8 true false
  | ZigClangBuiltinTypeSChar => TPrimitive 8 true false
  | ZigClangBuiltinTypeShort => TPrimitive (bits CIntTypeShort) true false
  | ZigClangBuiltinTypeInt => TPrimitive (bits CIntTypeInt) true false
  | ZigClangBuiltinTypeLong => TPrimitive (bits CIntTypeLong) true false
  | ZigClangBuiltinTypeLongLong =>
      TPrimitive (bits CIntTypeLongLong) true false
  | ZigClangBuiltinTypeFloat => TPrimitive 32 true true
  | ZigClangBuiltinTypeDouble => TPrimitive 64 true true
  | ZigClangBuiltinTypeLongDouble => TPrimitive 128 true true
  end.

(** Modelled from the spec: a new cell of the type cache, registered
    under the canonical identity [key]; the handle is the cell's
    index. *)
Definition alloc_type (key : TypeKey) (node : TranslatedType)
  (c : TranslationContext) : nat * TranslationContext :=
  let h := length (type_nodes c) in
  (h, set_type_cache (<[key := h]> (type_cache c))
        (set_type_nodes (type_nodes c ++ [node]) c)).

(** Modelled from the spec: the handle of a record or enum by its
    canonical declaration.  On first sight an opaque placeholder is
    registered, the declaration joins [pending_forward_decls] and its
    type definition is emitted (so that it precedes its first use). *)
Definition register_tag (decl : nat) (name : string)
  (c : TranslationContext) : nat * TranslationContext :=
  match type_cache c !! KeyTag decl with
  | Some h => (h, c)
  | None =>
      let '(h, c1) := alloc_type (KeyTag decl) (TOpaque name) c in
      (h, emit_decl (TTypeDefinition decl name h)
            (set_pending_forward_decls
               ({[decl]} ∪ pending_forward_decls c1) c1))
  end.

(** Modelled from the spec: [translate_type(c_type) -> TranslatedType
    handle] (section 4.1).  The cache is looked up by the canonical
    identity; on a miss the node is built from the handles of its
    component types and registered.  An unsupported type class yields
    the opaque placeholder and a diagnostic. *)
Fixpoint translate_type (loc : nat) (t : CType) (c : TranslationContext)
  {struct t} : nat * TranslationContext :=
  match type_cache c !! canonical_key t with
  | Some h => (h, c)
  | None =>
      match t with
      | CBuiltinType kind => alloc_type (KeyBuiltin kind) (primitive_of kind) c
      | CPointerType canon is_const is_volatile pointee =>
          let '(hp, c1) := translate_type loc pointee c in
          alloc_type (KeyType canon) (TPointer hp is_const is_volatile) c1
      | CConstantArrayType canon elem size =>
          let '(he, c1) := translate_type loc elem c in
          alloc_type (KeyType canon) (TArray he size) c1
      | CIncompleteArrayType canon elem =>
          let '(he, c1) := translate_type loc elem c in
          alloc_type (KeyType canon) (TIncompleteArray he) c1
      | CFunctionProtoType canon params ret variadic =>
          let '(hr, c1) := translate_type loc ret c in
          let '(hps, c2) :=
            (fix each_param (ps : list CType) (c : TranslationContext)
               : list nat * TranslationContext :=
               match ps with
               | [] => ([], c)
               | p :: ps' =>
                   let '(h, c1) := translate_type loc p c in
                   let '(hs, c2) := each_param ps' c1 in
                   (h :: hs, c2)
               end) params c1 in
          alloc_type (KeyType canon) (TFunctionType hps hr variadic) c2
      | CRecordType decl name => register_tag decl name c
      | CEnumType decl name => register_tag decl name c
      | CTypedefType decl name underlying =>
          let '(hu, c1) := translate_type loc underlying c in
          let '(h, c2) := alloc_type (KeyTypedef decl) (TAlias name hu) c1 in
          (h, emit_decl (TTypeAlias decl name h) c2)
      | COtherType canon type_class =>
          let '(h, c1) := alloc_type (KeyType canon) (TOpaque type_class) c in
          (h, emit_diagnostic ("unsupported type: " +:+ type_class) loc c1)
      end
  end.

(** Modelled from the spec: a list of types translated in order. *)
Fixpoint translate_types (loc : nat) (ts : list CType)
  (c : TranslationContext) : list nat * TranslationContext :=
  match ts with
  | [] => ([], c)
  | t :: ts' =>
      let '(h, c1) := translate_type loc t c in
      let '(hs, c2) := translate_types loc ts' c1 in
      (h :: hs, c2)
  end.

(** Modelled from the spec: [resolve_forward(handle, definition)]
    backpatches the placeholder's cell in place and takes the
    declaration out of [pending_forward_decls].  A cell that already
    holds this definition is left alone; a cell resolved to a different
    definition is an internal invariant violation ([None]). *)
Definition resolve_forward (decl : nat) (h : nat) (definition : TranslatedType)
  (c : TranslationContext) : option TranslationContext :=
  let resolved :=
    set_pending_forward_decls (pending_forward_decls c ∖ {[decl]}) c in
  match type_nodes c !! h with
  | Some (TOpaque _) =>
      Some (set_type_nodes (<[h := definition]> (type_nodes c)) resolved)
  | Some node => if decide (node = definition) then Some resolved else None
  | None => None
  end.

(** *** Expression Translator *)

(** Modelled from the spec: [translate_expr(c_expr) -> TranslatedExpr]
    (section 4.3).  Implicit casts become explicit cast nodes; a binary
    operation carries the computation type (the type its operands were
    converted to) next to its result type, a compound assignment the
    computation type the front end reports
    ([ZigClangCompoundAssignOperator_getComputationLHSType]); an
    unsupported expression becomes a typed placeholder and one
    diagnostic. *)
Fixpoint translate_expr (loc : nat) (e : CExpr) (c : TranslationContext)
  {struct e} : TranslatedExpr * TranslationContext :=
  match e with
  | CIntegerLiteral ty value =>
      let '(h, c1) := translate_type loc ty c in (TLiteral h value, c1)
  | CDeclRefExpr _ name => (TIdentifier name, c)
  | CParenExpr sub => translate_expr loc sub c
  | CImplicitCastExpr ty sub =>
      let '(h, c1) := translate_type loc ty c in
      let '(s, c2) := translate_expr loc sub c1 in
      (TCast h s, c2)
  | CBinaryOperator op ty lhs rhs =>
      let '(hc, c1) := translate_type loc (ZigClangExpr_getType lhs) c in
      let '(hr, c2) := translate_type loc ty c1 in
      let '(l, c3) := translate_expr loc lhs c2 in
      let '(r, c4) := translate_expr loc rhs c3 in
      (TBinary op hc hr l r, c4)
  | CCompoundAssignOperator op ty computation_lhs_type _ lhs rhs =>
      let '(hc, c1) := translate_type loc computation_lhs_type c in
      let '(hr, c2) := translate_type loc ty c1 in
      let '(l, c3) := translate_expr loc lhs c2 in
      let '(r, c4) := translate_expr loc rhs c3 in
      (TCompoundAssign op hc hr l r, c4)
  | CCallExpr _ callee args =>
      let '(f, c1) := translate_expr loc callee c in
      let '(xs, c2) :=
        (fix each_arg (es : list CExpr) (c : TranslationContext)
           : list TranslatedExpr * TranslationContext :=
           match es with
           | [] => ([], c)
           | a :: es' =>
               let '(x, c1) := translate_expr loc a c in
               let '(xs, c2) := each_arg es' c1 in
               (x :: xs, c2)
           end) args c1 in
      (TCall f xs, c2)
  | COtherExpr ty expr_loc stmt_class =>
      let '(h, c1) := translate_type loc ty c in
      (TUnsupportedExpr h,
       emit_diagnostic ("unsupported expression: " +:+ stmt_class) expr_loc c1)
  end.

(** Modelled from the spec: a list of expressions translated in order. *)
Fixpoint translate_exprs (loc : nat) (es : list CExpr)
  (c : TranslationContext) : list TranslatedExpr * TranslationContext :=
  match es with
  | [] => ([], c)
  | a :: es' =>
      let '(x, c1) := translate_expr loc a c in
      let '(xs, c2) := translate_exprs loc es' c1 in
      (x :: xs, c2)
  end.

(** Modelled from the spec: an optional expression translated when
    present. *)
Definition translate_opt_expr (loc : nat) (e : option CExpr)
  (c : TranslationContext) : option TranslatedExpr * TranslationContext :=
  match e with
  | Some e' => let '(x, c1) := translate_expr loc e' c in (Some x, c1)
  | None => (None, c)
  end.

(** *** C's arithmetic typing, as the front end applies it *)

Definition is_floating (k : ZigClangBuiltinTypeKind) : bool :=
  match k with
  | ZigClangBuiltinTypeFloat | ZigClangBuiltinTypeDouble
  | ZigClangBuiltinTypeLongDouble => true
  | _ => false
  end.

Definition is_arithmetic_type (k : ZigClangBuiltinTypeKind) : bool :=
  negb (bool_decide (k = ZigClangBuiltinTypeVoid)).

Definition is_signed_kind (k : ZigClangBuiltinTypeKind) : bool :=
  match primitive_of k with
  | TPrimitive _ s _ => s
  | _ => false
  end.

Definition bits_of (k : ZigClangBuiltinTypeKind) : N :=
  match primitive_of k with
  | TPrimitive w _ _ => w
  | _ => 0%N
  end.

(** The integer conversion rank (C11 6.3.1.1). *)
Definition integer_rank (k : ZigClangBuiltinTypeKind) : nat :=
  match k with
  | ZigClangBuiltinTypeBool => 0
  | ZigClangBuiltinTypeChar_U | ZigClangBuiltinTypeUChar
  | ZigClangBuiltinTypeChar_S | ZigClangBuiltinTypeSChar => 1
  | ZigClangBuiltinTypeUShort | ZigClangBuiltinTypeShort => 2
  | ZigClangBuiltinTypeUInt | ZigClangBuiltinTypeInt => 3
  | ZigClangBuiltinTypeULong | ZigClangBuiltinTypeLong => 4
  | ZigClangBuiltinTypeULongLong | ZigClangBuiltinTypeLongLong => 5
  | _ => 6
  end.

Definition unsigned_of (k : ZigClangBuiltinTypeKind)
  : ZigClangBuiltinTypeKind :=
  match k with
  | ZigClangBuiltinTypeInt => ZigClangBuiltinTypeUInt
  | ZigClangBuiltinTypeLong => ZigClangBuiltinTypeULong
  | ZigClangBuiltinTypeLongLong => ZigClangBuiltinTypeULongLong
  | _ => k
  end.

(** The integer promotions (C11 6.3.1.1p2): a type of rank below [int]
    becomes [int] when [int] holds all its values, [unsigned int]
    otherwise. *)
Definition integer_promotion (k : ZigClangBuiltinTypeKind)
  : ZigClangBuiltinTypeKind :=
  if (integer_rank k <? integer_rank ZigClangBuiltinTypeInt)%nat then
    if is_signed_kind k || (bits_of k <? bits_of ZigClangBuiltinTypeInt)%N
    then ZigClangBuiltinTypeInt
    else ZigClangBuiltinTypeUInt
  else k.

(** Modelled from the spec: "C's usual arithmetic conversions"
    (C11 6.3.1.8), the common type of two arithmetic operands; the C
    front end itself is an external collaborator. *)
Definition usual_arithmetic_conversions (k1 k2 : ZigClangBuiltinTypeKind)
  : ZigClangBuiltinTypeKind :=
  if bool_decide (k1 = ZigClangBuiltinTypeLongDouble)
     || bool_decide (k2 = ZigClangBuiltinTypeLongDouble)
  then ZigClangBuiltinTypeLongDouble
  else if bool_decide (k1 = ZigClangBuiltinTypeDouble)
          || bool_decide (k2 = ZigClangBuiltinTypeDouble)
  then ZigClangBuiltinTypeDouble
  else if bool_decide (k1 = ZigClangBuiltinTypeFloat)
          || bool_decide (k2 = ZigClangBuiltinTypeFloat)
  then ZigClangBuiltinTypeFloat
  else
    let p1 := integer_promotion k1 in
    let p2 := integer_promotion k2 in
    if bool_decide (p1 = p2) then p1
    else if Bool.eqb (is_signed_kind p1) (is_signed_kind p2) then
      if (integer_rank p1 <? integer_rank p2)%nat then p2 else p1
    else
      let s := if is_signed_kind p1 then p1 else p2 in
      let u := if is_signed_kind p1 then p2 else p1 in
      if (integer_rank s <=? integer_rank u)%nat then u
      else if (bits_of u <? bits_of s)%N then s
      else unsigned_of s.

(** The binary operators C applies the usual arithmetic conversions to
    and computes in the common type (multiplicative, additive and
    bitwise). *)
Definition is_arithmetic_bo (op : ZigClangBO) : bool :=
  match op with
  | ZigClangBO_Mul | ZigClangBO_Div | ZigClangBO_Rem | ZigClangBO_Add
  | ZigClangBO_Sub | ZigClangBO_And | ZigClangBO_Xor | ZigClangBO_Or => true
  | _ => false
  end.

(** The compound assignment of an arithmetic operator. *)
Definition compound_assign_of (op : ZigClangBO) : ZigClangBO :=
  match op with
  | ZigClangBO_Mul => ZigClangBO_MulAssign
  | ZigClangBO_Div => ZigClangBO_DivAssign
  | ZigClangBO_Rem => ZigClangBO_RemAssign
  | ZigClangBO_Add => ZigClangBO_AddAssign
  | ZigClangBO_Sub => ZigClangBO_SubAssign
  | ZigClangBO_And => ZigClangBO_AndAssign
  | ZigClangBO_Xor => ZigClangBO_XorAssign
  | ZigClangBO_Or => ZigClangBO_OrAssign
  | _ => op
  end.

(** The builtin kind of an operand's type, [None] when it is not a
    builtin type. *)
Definition operand_kind (e : CExpr) : option ZigClangBuiltinTypeKind :=
  match ZigClangExpr_getType e with
  | CBuiltinType k => Some k
  | _ => None
  end.

(** The implicit conversion of an operand to the builtin type [k]: an
    [ImplicitCastExpr] unless the operand already has that type. *)
Definition convert_operand (k : ZigClangBuiltinTypeKind) (e : CExpr) : CExpr :=
  if bool_decide (operand_kind e = Some k) then e
  else CImplicitCastExpr (CBuiltinType k) e.

(** Modelled from the spec: the AST of [lhs op rhs] for arithmetic
    operands, as a C front end types it: both operands converted to
    the common type, which is the type of the result. *)
Definition c_binary_arithmetic (op : ZigClangBO)
  (k1 k2 : ZigClangBuiltinTypeKind) (lhs rhs : CExpr) : CExpr :=
  let k := usual_arithmetic_conversions k1 k2 in
  CBinaryOperator op (CBuiltinType k)
    (convert_operand k lhs) (convert_operand k rhs).

(** Modelled from the spec: the AST of [lhs op= rhs]: the left operand
    is left as it is, the operation is computed in the common type and
    the result has the type of the left operand. *)
Definition c_compound_assignment (op : ZigClangBO)
  (k1 k2 : ZigClangBuiltinTypeKind) (lhs rhs : CExpr) : CExpr :=
  let k := usual_arithmetic_conversions k1 k2 in
  CCompoundAssignOperator (compound_assign_of op) (CBuiltinType k1)
    (CBuiltinType k) (CBuiltinType k) lhs (convert_operand k rhs).

(** Two's complement wrap-around to a [width]-bit integer. *)
Definition wrap_to (width : N) (is_signed : bool) (z : Z) : Z :=
  let m := (2 ^ Z.of_N width)%Z in
  let r := (z mod m)%Z in
  if is_signed && (m <=? 2 * r)%Z then (r - m)%Z else r.

(** The value of an arithmetic operator on unbounded integers. *)
Definition apply_bo (op : ZigClangBO) (a b : Z) : option Z :=
  match op with
  | ZigClangBO_Mul | ZigClangBO_MulAssign => Some (a * b)%Z
  | ZigClangBO_Div | ZigClangBO_DivAssign =>
      if (b =? 0)%Z then None else Some (Z.quot a b)
  | ZigClangBO_Rem | ZigClangBO_RemAssign =>
      if (b =? 0)%Z then None else Some (Z.rem a b)
  | ZigClangBO_Add | ZigClangBO_AddAssign => Some (a + b)%Z
  | ZigClangBO_Sub | ZigClangBO_SubAssign => Some (a - b)%Z
  | ZigClangBO_And | ZigClangBO_AndAssign => Some (Z.land a b)
  | ZigClangBO_Xor | ZigClangBO_XorAssign => Some (Z.lxor a b)
  | ZigClangBO_Or | ZigClangBO_OrAssign => Some (Z.lor a b)
  | _ => None
  end.

(** Modelled from the spec: what a translated integer compound
    assignment stores for the operand values [x] and [y]: the operation
    is performed in the computation type and the value is truncated to
    the result type on store. *)
Definition stored_value (c : TranslationContext) (e : TranslatedExpr)
  (x y : Z) : option Z :=
  match e with
  | TCompoundAssign op hc hr _ _ =>
      match type_nodes c !! hc, type_nodes c !! hr with
      | Some (TPrimitive wc sc false), Some (TPrimitive wr sr false) =>
          v ← apply_bo op (wrap_to wc sc x) (wrap_to wc sc y);
          Some (wrap_to wr sr (wrap_to wc sc v))
      | _, _ => None
      end
  | _ => None
  end.

(** *** Statement Translator *)

(** The body of a [switch] as a sequence: case and default labels and
    the statements between them. *)
Inductive SwitchItem : Type :=
  | ItemLabel (l : CaseLabel)
  | ItemStmt (s : TranslatedStmt).

(** Control does not run past the end of the statement. *)
Fixpoint ends_with_jump (s : TranslatedStmt) : bool :=
  match s with
  | TBreak | TContinue | TReturn _ | TJump _ | TUnreachable => true
  | TBlock body =>
      (fix last_jumps (l : list TranslatedStmt) : bool :=
         match l with
         | [] => false
         | [x] => ends_with_jump x
         | _ :: l' => last_jumps l'
         end) body
  | TLabeled _ sub => ends_with_jump sub
  | TIf _ then_stmt (Some else_stmt) =>
      ends_with_jump then_stmt && ends_with_jump else_stmt
  | _ => false
  end.

Definition body_ends_with_jump (body : list TranslatedStmt) : bool :=
  match last body with
  | Some s => ends_with_jump s
  | None => false
  end.

(** Modelled from the spec: the ordered case list of a [switch]
    (section 4.4).  Adjacent labels share one entry; an entry is marked
    as falling through when another entry follows it and its statements
    do not end in a jump.  The statements before the first label are
    returned apart. *)
Fixpoint group_items (items : list SwitchItem)
  : list TranslatedStmt * list TCase :=
  match items with
  | [] => ([], [])
  | ItemStmt s :: rest =>
      let '(lead, cases) := group_items rest in (s :: lead, cases)
  | ItemLabel l :: rest =>
      let '(lead, cases) := group_items rest in
      match rest, cases with
      | ItemLabel _ :: _, g :: cases' =>
          ([], mkTCase (l :: case_labels g) (case_body g)
                 (case_fallthrough g) :: cases')
      | _, _ =>
          ([], mkTCase [l] lead
                 (negb (bool_decide (cases = []))
                  && negb (body_ends_with_jump lead)) :: cases)
      end
  end.

(** Modelled from the spec: a [goto] is translated directly when its
    label follows in the same block and no initialized variable is
    declared in between (section 4.4). *)
Fixpoint forward_jump_target (label : string) (rest : list CStmt) : bool :=
  match rest with
  | [] => false
  | CLabelStmt l _ :: rest' =>
      if l =? label then true else forward_jump_target label rest'
  | CDeclStmt _ _ (Some _) :: _ => false
  | _ :: rest' => forward_jump_target label rest'
  end.

(** Modelled from the spec: the stub and the diagnostic of a jump that
    cannot be translated (section 4.4). *)
Definition unsupported_jump (jump_loc : nat) (label : string)
  (c : TranslationContext) : TranslatedStmt * TranslationContext :=
  (TUnreachable, emit_diagnostic ("unsupported jump to " +:+ label) jump_loc c).

(** Modelled from the spec: [translate_stmt(c_stmt) -> TranslatedStmt]
    (section 4.4).  Structured control flow maps directly; an
    unsupported jump becomes an [unreachable] stub and one diagnostic,
    any other unsupported statement a placeholder expression statement
    and one diagnostic. *)
Fixpoint translate_stmt (loc : nat) (s : CStmt) (c : TranslationContext)
  {struct s} : TranslatedStmt * TranslationContext :=
  match s with
  | CCompoundStmt body =>
      let '(ts, c1) :=
        (fix each_stmt (l : list CStmt) (c : TranslationContext)
           : list TranslatedStmt * TranslationContext :=
           match l with
           | [] => ([], c)
           | s1 :: rest =>
               let '(t, c1) :=
                 match s1 with
                 | CGotoStmt jump_loc label =>
                     if forward_jump_target label rest then (TJump label, c)
                     else unsupported_jump jump_loc label c
                 | _ => translate_stmt loc s1 c
                 end in
               let '(ts, c2) := each_stmt rest c1 in
               (t :: ts, c2)
           end) body c in
      (TBlock ts, c1)
  | CExprStmt e =>
      let '(x, c1) := translate_expr loc e c in (TExprStmt x, c1)
  | CDeclStmt name ty init =>
      let '(h, c1) := translate_type loc ty c in
      let '(x, c2) := translate_opt_expr loc init c1 in
      (TDeclStmt name h x, c2)
  | CIfStmt cond then_stmt else_stmt =>
      let '(x, c1) := translate_expr loc cond c in
      let '(t, c2) := translate_stmt loc then_stmt c1 in
      match else_stmt with
      | Some e =>
          let '(f, c3) := translate_stmt loc e c2 in (TIf x t (Some f), c3)
      | None => (TIf x t None, c2)
      end
  | CWhileStmt cond body =>
      let '(x, c1) := translate_expr loc cond c in
      let '(t, c2) := translate_stmt loc body c1 in
      (TWhile x t, c2)
  | CDoStmt body cond =>
      let '(t, c1) := translate_stmt loc body c in
      let '(x, c2) := translate_expr loc cond c1 in
      (TDoWhile t x, c2)
  | CForStmt init cond inc body =>
      let '(i, c1) :=
        match init with
        | Some s0 =>
            let '(t, c1) := translate_stmt loc s0 c in (Some t, c1)
        | None => (None, c)
        end in
      let '(x, c2) := translate_opt_expr loc cond c1 in
      let '(y, c3) := translate_opt_expr loc inc c2 in
      let '(t, c4) := translate_stmt loc body c3 in
      (TFor i x y t, c4)
  | CSwitchStmt cond body all_enum_cases_covered =>
      let '(x, c1) := translate_expr loc cond c in
      let peel :=
        fix peel (s : CStmt) (c : TranslationContext)
          : list SwitchItem * TranslationContext :=
          match s with
          | CCaseStmt lhs sub =>
              let '(v, c1) := translate_expr loc lhs c in
              let '(items, c2) := peel sub c1 in
              (ItemLabel (LCase v) :: items, c2)
          | CDefaultStmt sub =>
              let '(items, c1) := peel sub c in
              (ItemLabel LDefault :: items, c1)
          | _ =>
              let '(t, c1) := translate_stmt loc s c in ([ItemStmt t], c1)
          end in
      let '(items, c2) :=
        match body with
        | CCompoundStmt l =>
            (fix each_item (l : list CStmt) (c : TranslationContext)
               : list SwitchItem * TranslationContext :=
               match l with
               | [] => ([], c)
               | s1 :: rest =>
                   let '(items1, c1) := peel s1 c in
                   let '(items2, c2) := each_item rest c1 in
                   (items1 ++ items2, c2)
               end) l c1
        | _ => peel body c1
        end in
      let '(unlabeled, cases) := group_items items in
      (TSwitch x unlabeled cases all_enum_cases_covered, c2)
  | CCaseStmt lhs sub =>
      (* a label that is not at the top of a switch body *)
      let '(t, c1) := translate_stmt loc sub c in
      (t, emit_diagnostic "case label outside of a switch body" loc c1)
  | CDefaultStmt sub =>
      let '(t, c1) := translate_stmt loc sub c in
      (t, emit_diagnostic "default label outside of a switch body" loc c1)
  | CBreakStmt => (TBreak, c)
  | CContinueStmt => (TContinue, c)
  | CReturnStmt value =>
      let '(x, c1) := translate_opt_expr loc value c in (TReturn x, c1)
  | CLabelStmt label sub =>
      let '(t, c1) := translate_stmt loc sub c in (TLabeled label t, c1)
  | CGotoStmt jump_loc label => unsupported_jump jump_loc label c
  | COtherStmt stmt_loc stmt_class =>
      let '(h, c1) :=
        translate_type loc (CBuiltinType ZigClangBuiltinTypeVoid) c in
      (TExprStmt (TUnsupportedExpr h),
       emit_diagnostic ("unsupported statement: " +:+ stmt_class) stmt_loc c1)
  end.

(** *** Macro Evaluator *)

(** The nonterminals of the expression grammar: an expression is a
    sum or difference of terms, a term a product or quotient of unary
    expressions, a unary expression a negation, a number, a name, a
    call of a name or an expression in parentheses. *)
Inductive NonTerminal : Type :=
  | NExpr
  | NExprRest (lhs : MacroExpr)
  | NTerm
  | NTermRest (lhs : MacroExpr)
  | NUnary
  | NArgs (seen : list MacroExpr).

Inductive Parsed : Type :=
  | PExpr (e : MacroExpr)
  | PArgs (args : list MacroExpr).

(** Modelled from the spec: the parser that reads a macro's
    replacement tokens as one C expression (section 4.2).  Every call
    uses one unit of [fuel]; tokens of pasting, stringification or any
    other kind make it fail. *)
Fixpoint parse_macro (fuel : nat) (nt : NonTerminal) (ts : list CToken)
  : option (Parsed * list CToken) :=
  match fuel with
  | O => None
  | S fuel' =>
      match nt with
      | NExpr =>
          match parse_macro fuel' NTerm ts with
          | Some (PExpr lhs, rest) => parse_macro fuel' (NExprRest lhs) rest
          | _ => None
          end
      | NExprRest lhs =>
          match ts with
          | TokPlus :: rest =>
              match parse_macro fuel' NTerm rest with
              | Some (PExpr rhs, rest') =>
                  parse_macro fuel' (NExprRest (MBin ZigClangBO_Add lhs rhs))
                    rest'
              | _ => None
              end
          | TokMinus :: rest =>
              match parse_macro fuel' NTerm rest with
              | Some (PExpr rhs, rest') =>
                  parse_macro fuel' (NExprRest (MBin ZigClangBO_Sub lhs rhs))
                    rest'
              | _ => None
              end
          | _ => Some (PExpr lhs, ts)
          end
      | NTerm =>
          match parse_macro fuel' NUnary ts with
          | Some (PExpr lhs, rest) => parse_macro fuel' (NTermRest lhs) rest
          | _ => None
          end
      | NTermRest lhs =>
          match ts with
          | TokStar :: rest =>
              match parse_macro fuel' NUnary rest with
              | Some (PExpr rhs, rest') =>
                  parse_macro fuel' (NTermRest (MBin ZigClangBO_Mul lhs rhs))
                    rest'
              | _ => None
              end
          | TokSlash :: rest =>
              match parse_macro fuel' NUnary rest with
              | Some (PExpr rhs, rest') =>
                  parse_macro fuel' (NTermRest (MBin ZigClangBO_Div lhs rhs))
                    rest'
              | _ => None
              end
          | _ => Some (PExpr lhs, ts)
          end
      | NUnary =>
          match ts with
          | TokMinus :: rest =>
              match parse_macro fuel' NUnary rest with
              | Some (PExpr e, rest') => Some (PExpr (MNeg e), rest')
              | _ => None
              end
          | TokNumber v :: rest => Some (PExpr (MNumber v), rest)
          | TokIdentifier x :: TokLParen :: TokRParen :: rest =>
              Some (PExpr (MCall x []), rest)
          | TokIdentifier x :: TokLParen :: rest =>
              match parse_macro fuel' (NArgs []) rest with
              | Some (PArgs args, rest') => Some (PExpr (MCall x args), rest')
              | _ => None
              end
          | TokIdentifier x :: rest => Some (PExpr (MIdent x), rest)
          | TokLParen :: rest =>
              match parse_macro fuel' NExpr rest with
              | Some (PExpr e, TokRParen :: rest') => Some (PExpr e, rest')
              | _ => None
              end
          | _ => None
          end
      | NArgs seen =>
          match parse_macro fuel' NExpr ts with
          | Some (PExpr e, TokComma :: rest) =>
              parse_macro fuel' (NArgs (seen ++ [e])) rest
          | Some (PExpr e, TokRParen :: rest) =>
              Some (PArgs (seen ++ [e]), rest)
          | _ => None
          end
      end
  end.

(** Modelled from the spec: the whole replacement list as one
    expression. *)
Definition parse_macro_body (ts : list CToken) : option MacroExpr :=
  match parse_macro (8 * S (length ts)) NExpr ts with
  | Some (PExpr e, []) => Some e
  | _ => None
  end.

(** Modelled from the spec: constant evaluation of a macro expression:
    an identifier or a call is not constant. *)
Fixpoint const_eval (e : MacroExpr) : option Z :=
  match e with
  | MNumber v => Some v
  | MIdent _ => None
  | MNeg sub => v ← const_eval sub; Some (- v)%Z
  | MBin op lhs rhs =>
      a ← const_eval lhs; b ← const_eval rhs; apply_bo op a b
  | MCall _ _ => None
  end.

(** Modelled from the spec: the identifiers of a function-like macro's
    body are its formal parameters, apart from the names it calls. *)
Fixpoint uses_only_params (params : list string) (e : MacroExpr) : bool :=
  match e with
  | MNumber _ => true
  | MIdent x => bool_decide (x ∈ params)
  | MNeg sub => uses_only_params params sub
  | MBin _ lhs rhs =>
      uses_only_params params lhs && uses_only_params params rhs
  | MCall _ args =>
      (fix all_args (l : list MacroExpr) : bool :=
         match l with
         | [] => true
         | a :: l' => uses_only_params params a && all_args l'
         end) args
  end.

(** Modelled from the spec: the C type of an evaluated integer
    constant: the first of [int], [long], [long long] that holds it. *)
Definition type_of_constant (v : Z) : ZigClangBuiltinTypeKind :=
  let fits k :=
    bool_decide (wrap_to (bits_of k) true v = v) in
  if fits ZigClangBuiltinTypeInt then ZigClangBuiltinTypeInt
  else if fits ZigClangBuiltinTypeLong then ZigClangBuiltinTypeLong
  else ZigClangBuiltinTypeLongLong.

(** The global scope of the symbol table: the bottom of the stack. *)
Definition global_scope (c : TranslationContext) : gmap string string :=
  default ∅ (last (symbol_table c)).

(** Modelled from the spec: a name entered in the global scope of the
    symbol table. *)
Definition declare_global (name out_name : string)
  (c : TranslationContext) : TranslationContext :=
  match symbol_table c with
  | [] => set_symbol_table [{[name := out_name]}] c
  | scopes =>
      set_symbol_table
        (take (length scopes - 1) scopes
         ++ [<[name := out_name]> (global_scope c)]) c
  end.

(** Modelled from the spec: the deterministic suffixing scheme that
    resolves a name collision: underscores are appended until the name
    is free. *)
Fixpoint suffix_until_free (fuel : nat) (taken : gmap string string)
  (name : string) : string :=
  match fuel with
  | O => name
  | S fuel' =>
      if bool_decide (is_Some (taken !! name)) then
        suffix_until_free fuel' taken (name +:+ "_")
      else name
  end.

(** Modelled from the spec: the output name of a macro, by the suffixing
    scheme. *)
Definition macro_output_name (name : string) (c : TranslationContext)
  : string :=
  suffix_until_free (S (size (global_scope c))) (global_scope c) name.

(** Modelled from the spec: [translate_macro(macro_def) ->
    Option<TranslatedDecl>] (section 4.2).  An object-like macro whose
    replacement is a constant expression without external identifiers
    becomes a constant; a function-like macro whose body is a direct
    expression over its formal parameters becomes a function; any other
    macro is omitted with one diagnostic. *)
Definition translate_macro (m : CMacro) (c : TranslationContext)
  : option TranslatedDecl * TranslationContext :=
  let name := macro_output_name (macro_name m) c in
  let omitted :=
    (None,
     emit_diagnostic ("unable to translate macro " +:+ macro_name m)
       (macro_loc m) c) in
  match parse_macro_body (macro_tokens m) with
  | None => omitted
  | Some e =>
      match macro_params m with
      | None =>
          match const_eval e with
          | Some v =>
              let '(h, c1) :=
                translate_type (macro_loc m)
                  (CBuiltinType (type_of_constant v)) c in
              (Some (TMacroConstant name v h),
               declare_global (macro_name m) name c1)
          | None => omitted
          end
      | Some params =>
          if uses_only_params params e then
            (Some (TMacroFunction name params e),
             declare_global (macro_name m) name c)
          else omitted
      end
  end.

(** *** Declaration Orchestrator *)

(** Modelled from the spec: the fatal errors of a translation run. *)
Inductive Error : Type :=
  | ErrorCCompileErrors
  | ErrorInvariantViolation.

(** Modelled from the spec: the result of a run: its value, or the
    fatal error that ended it. *)
Inductive Outcome (A : Type) : Type :=
  | Ok (a : A)
  | Fatal (err : Error) (msg : string).
#[global] Arguments Ok {A} a.
#[global] Arguments Fatal {A} err msg.

(** Modelled from the spec: unnamed parameters receive placeholder
    names from [anon_name_counter]. *)
Fixpoint name_params (names : list string) (c : TranslationContext)
  : list string * TranslationContext :=
  match names with
  | [] => ([], c)
  | n :: rest =>
      let '(n', c1) :=
        if String.eqb n EmptyString then
          ("arg_" +:+ pretty (anon_name_counter c),
           set_anon_name_counter (S (anon_name_counter c)) c)
        else (n, c) in
      let '(ns, c2) := name_params rest c1 in
      (n' :: ns, c2)
  end.

(** Modelled from the spec: the fields of a record definition translated
    in order. *)
Fixpoint translate_fields (loc : nat) (fields : list CField)
  (c : TranslationContext) : list TField * TranslationContext :=
  match fields with
  | [] => ([], c)
  | f :: rest =>
      let '(h, c1) := translate_type loc (field_type f) c in
      let '(fs, c2) := translate_fields loc rest c1 in
      (mkTField (field_name f) h (bit_width f) :: fs, c2)
  end.

Definition is_function_of (canon : nat) (d : TranslatedDecl) : bool :=
  match d with
  | TFunction canon' _ _ _ _ => bool_decide (canon' = canon)
  | _ => false
  end.

(** Modelled from the spec: the entry of the function [canon] replaced
    in place. *)
Definition replace_function (canon : nat) (d : TranslatedDecl)
  (decls : list TranslatedDecl) : list TranslatedDecl :=
  map (fun old => if is_function_of canon old then d else old) decls.

(** Modelled from the spec: the body of a function translated when
    present. *)
Definition translate_body (loc : nat) (body : option CStmt)
  (c : TranslationContext) : option TranslatedStmt * TranslationContext :=
  match body with
  | Some b => let '(t, c1) := translate_stmt loc b c in (Some t, c1)
  | None => (None, c)
  end.

Definition state_of_body (body : option CStmt) : DeclState :=
  match body with
  | Some _ => Defined
  | None => ForwardDeclared
  end.

(** Modelled from the spec: the definition of a tag resolved through
    its handle. *)
Definition define_tag (canon : nat) (name : string) (h : nat)
  (definition : TranslatedType) (c : TranslationContext)
  : Outcome TranslationContext :=
  match resolve_forward canon h definition c with
  | Some c' => Ok c'
  | None =>
      Fatal ErrorInvariantViolation
        ("forward declaration of " +:+ name
         +:+ " resolved to two different definitions")
  end.

(** Modelled from the spec: one step of the orchestrator (section
    4.5).  A function goes [Unseen -> ForwardDeclared -> Defined], its
    prototype replaced in place by its definition; a record or enum is
    registered on first sight and its placeholder resolved by its
    definition; a declaration seen again in the state it already has is
    a no-op.  Unsupported constructs add diagnostics, they never end
    the run. *)
Definition translate_decl (d : CDecl) (c : TranslationContext)
  : Outcome TranslationContext :=
  match d with
  | CFunctionDecl canon loc name ty param_names body =>
      match decl_states c !! canon with
      | Some Defined => Ok c
      | Some ForwardDeclared =>
          match body with
          | None => Ok c
          | Some _ =>
              let '(h, c1) := translate_type loc ty c in
              let '(params, c2) := name_params param_names c1 in
              let '(tb, c3) := translate_body loc body c2 in
              Ok (set_decl_states (<[canon := Defined]> (decl_states c3))
                    (set_output_decls
                       (replace_function canon
                          (TFunction canon name h params tb) (output_decls c3))
                       c3))
          end
      | None =>
          let '(h, c1) := translate_type loc ty c in
          let '(params, c2) := name_params param_names c1 in
          let '(tb, c3) := translate_body loc body c2 in
          Ok (set_decl_states
                (<[canon := state_of_body body]> (decl_states c3))
                (emit_decl (TFunction canon name h params tb)
                   (declare_global name name c3)))
      end
  | CRecordDecl canon loc name is_union definition =>
      let '(h, c1) := register_tag canon name c in
      match definition with
      | None => Ok c1
      | Some fields =>
          let '(tfields, c2) := translate_fields loc fields c1 in
          define_tag canon name h (TRecord is_union tfields) c2
      end
  | CEnumDecl canon loc name int_type definition =>
      let '(h, c1) := register_tag canon name c in
      match definition with
      | None => Ok c1
      | Some constants =>
          let '(hi, c2) := translate_type loc int_type c1 in
          define_tag canon name h (TEnum hi constants) c2
      end
  | CTypedefNameDecl canon loc name underlying =>
      let '(_, c1) := translate_type loc (CTypedefType canon name underlying) c in
      Ok (declare_global name name c1)
  | CVarDecl canon loc name ty init is_static is_thread_local =>
      match decl_states c !! canon with
      | Some _ => Ok c
      | None =>
          let '(h, c1) := translate_type loc ty c in
          let '(value, c2) :=
            match init with
            | None => (None, c1)
            | Some e =>
                match EvaluateAsConstantExpr e with
                | Some (v, _) => (Some v, c1)
                | None =>
                    (None,
                     emit_diagnostic
                       ("initializer of " +:+ name +:+ " is not constant")
                       loc c1)
                end
            end in
          Ok (set_decl_states (<[canon := Defined]> (decl_states c2))
                (emit_decl
                   (TGlobalVar canon name h value is_static is_thread_local)
                   (declare_global name name c2)))
      end
  end.

(** Modelled from the spec: the top-level declarations in source order;
    the first fatal error ends the run. *)
Fixpoint translate_decls (ds : list CDecl) (c : TranslationContext)
  : Outcome TranslationContext :=
  match ds with
  | [] => Ok c
  | d :: rest =>
      match translate_decl d c with
      | Ok c1 => translate_decls rest c1
      | Fatal err msg => Fatal err msg
      end
  end.

(** Modelled from the spec: the macros, once, after all other top-level
    declarations. *)
Fixpoint translate_macros (ms : list CMacro) (c : TranslationContext)
  : TranslationContext :=
  match ms with
  | [] => c
  | m :: rest =>
      match translate_macro m c with
      | (Some d, c1) => translate_macros rest (emit_decl d c1)
      | (None, c1) => translate_macros rest c1
      end
  end.

(** Modelled from the spec: [translate_unit(source_ast) ->
    (Vec<TranslatedDecl>, Vec<Diagnostic>)] (section 4.5). *)
Definition translate_unit (unit : ASTUnit)
  : Outcome (list TranslatedDecl * list Diagnostic) :=
  match translate_decls (top_level_decls unit) empty_context with
  | Ok c =>
      let c' := translate_macros (macro_definitions unit) c in
      Ok (output_decls c', diagnostics c')
  | Fatal err msg => Fatal err msg
  end.

(** *** The entry point *)

(** [ZigClangLoadFromCommandLine] ("Can return null"): the AST of the
    unit named by the arguments, or [None]. *)
Variable ZigClangLoadFromCommandLine : list string -> option ASTUnit.

(** What [parse_h_file] hands back: its [Error] ([None] for no error),
    [*out_root_node], the diagnostics, and the mode for the renderer. *)
Record ParseResult : Type := mkParseResult {
  parse_error : option Error;
  out_root_node : option (list TranslatedDecl);
  parse_diagnostics : list Diagnostic;
  render_mode : TranslateMode
}.

(** Modelled from the spec: [parse_h_file]
    ([translate_c.hpp]; its body is not among the sources).  A missing
    AST is fatal before any translation; the mode is handed on to the
    renderer. *)
Definition parse_h_file (args : list string) (mode : TranslateMode)
  : ParseResult :=
  match ZigClangLoadFromCommandLine args with
  | None => mkParseResult (Some ErrorCCompileErrors) None [] mode
  | Some unit =>
      match translate_unit unit with
      | Ok (decls, diags) => mkParseResult None (Some decls) diags mode
      | Fatal err _ => mkParseResult (Some err) None [] mode
      end
  end.

(** *** The list traversals of the translators, by name *)

(** Modelled from the spec: the statements of a block in order; a
    [goto] is checked against the statements that follow it in the
    block. *)
Fixpoint translate_block (loc : nat) (l : list CStmt) (c : TranslationContext)
  : list TranslatedStmt * TranslationContext :=
  match l with
  | [] => ([], c)
  | s1 :: rest =>
      let '(t, c1) :=
        match s1 with
        | CGotoStmt jump_loc label =>
            if forward_jump_target label rest then (TJump label, c)
            else unsupported_jump jump_loc label c
        | _ => translate_stmt loc s1 c
        end in
      let '(ts, c2) := translate_block loc rest c1 in
      (t :: ts, c2)
  end.

(** Modelled from the spec: one statement of a switch body: its leading
    labels, then the statement they are attached to. *)
Fixpoint translate_switch_item (loc : nat) (s : CStmt)
  (c : TranslationContext) : list SwitchItem * TranslationContext :=
  match s with
  | CCaseStmt lhs sub =>
      let '(v, c1) := translate_expr loc lhs c in
      let '(items, c2) := translate_switch_item loc sub c1 in
      (ItemLabel (LCase v) :: items, c2)
  | CDefaultStmt sub =>
      let '(items, c1) := translate_switch_item loc sub c in
      (ItemLabel LDefault :: items, c1)
  | _ => let '(t, c1) := translate_stmt loc s c in ([ItemStmt t], c1)
  end.

(** Modelled from the spec: the statements of a switch body in
    order. *)
Fixpoint translate_switch_items (loc : nat) (l : list CStmt)
  (c : TranslationContext) : list SwitchItem * TranslationContext :=
  match l with
  | [] => ([], c)
  | s1 :: rest =>
      let '(items1, c1) := translate_switch_item loc s1 c in
      let '(items2, c2) := translate_switch_items loc rest c1 in
      (items1 ++ items2, c2)
  end.

(** Modelled from the spec: the body of a switch as its items. *)
Definition translate_switch_body (loc : nat) (body : CStmt)
  (c : TranslationContext) : list SwitchItem * TranslationContext :=
  match body with
  | CCompoundStmt l => translate_switch_items loc l c
  | _ => translate_switch_item loc body c
  end.

(** *** How a context grows *)

Definition is_tag_definition (d : TranslatedDecl) : bool :=
  match d with
  | TTypeDefinition _ _ _ => true
  | _ => false
  end.

Definition is_tag_definition_of (canon : nat) (d : TranslatedDecl) : bool :=
  match d with
  | TTypeDefinition canon' _ _ => bool_decide (canon' = canon)
  | _ => false
  end.

(** The number of type definitions of the record or enum [canon] among
    the declarations. *)
Definition tag_count (canon : nat) (decls : list TranslatedDecl) : nat :=
  length (filter (fun d => is_tag_definition_of canon d = true) decls).

(** 1 when the record or enum [canon] has a handle, 0 otherwise. *)
Definition cached_tag (c : TranslationContext) (canon : nat) : nat :=
  match type_cache c !! KeyTag canon with
  | Some _ => 1
  | None => 0
  end.

Definition is_opaque (node : TranslatedType) : bool :=
  match node with
  | TOpaque _ => true
  | _ => false
  end.

(** The canonical declarations of the translated functions, in
    output order. *)
Definition function_canons (decls : list TranslatedDecl) : list nat :=
  omap (fun d => match d with
                 | TFunction canon _ _ _ _ => Some canon
                 | _ => None
                 end) decls.

(** [c'] comes from [c] by translating types, expressions or
    statements: cache entries and cells stay, diagnostics and
    declarations are appended, a record or enum is declared when it
    gets its handle, the rest is untouched. *)
Record grows (c c' : TranslationContext) : Prop := mkGrows {
  grows_cache :
    forall k h, type_cache c !! k = Some h -> type_cache c' !! k = Some h;
  grows_nodes : type_nodes c `prefix_of` type_nodes c';
  grows_diagnostics : diagnostics c `prefix_of` diagnostics c';
  grows_decls : output_decls c `prefix_of` output_decls c';
  grows_states : decl_states c' = decl_states c;
  grows_symbols : symbol_table c' = symbol_table c;
  grows_counter : anon_name_counter c' = anon_name_counter c;
  grows_pending :
    forall canon, canon ∈ pending_forward_decls c' ->
      canon ∈ pending_forward_decls c \/ type_cache c !! KeyTag canon = None;
  grows_tags :
    forall canon,
      tag_count canon (output_decls c') + cached_tag c canon
      = tag_count canon (output_decls c) + cached_tag c' canon;
  grows_functions :
    function_canons (output_decls c') = function_canons (output_decls c)
}.

(** [c'] comes from [c] by steps of the orchestrator: cache entries
    stay, a cell stays unless it is an opaque placeholder, a record or
    enum is declared when it gets its handle and becomes pending only
    then. *)
Record evolves (c c' : TranslationContext) : Prop := mkEvolves {
  evolves_cache :
    forall k h, type_cache c !! k = Some h -> type_cache c' !! k = Some h;
  evolves_nodes :
    forall h node, type_nodes c !! h = Some node -> is_opaque node = false ->
      type_nodes c' !! h = Some node;
  evolves_pending :
    forall canon, canon ∈ pending_forward_decls c' ->
      canon ∈ pending_forward_decls c \/ type_cache c !! KeyTag canon = None;
  evolves_tags :
    forall canon,
      tag_count canon (output_decls c') + cached_tag c canon
      = tag_count canon (output_decls c) + cached_tag c' canon
}.

(** The cached builtin types have the cells of their primitives. *)
Definition builtin_cache_ok (c : TranslationContext) : Prop :=
  forall kind h,
    type_cache c !! KeyBuiltin kind = Some h ->
    type_nodes c !! h = Some (primitive_of kind).

(** *** The order of a switch, on both sides *)

(** A translated switch read back in order: the labels and statements
    of its entries and a mark where an entry falls through. *)
Inductive RenderedItem : Type :=
  | RLabel (l : CaseLabel)
  | RStmt (s : TranslatedStmt)
  | RFallthrough.

Definition render_case (g : TCase) : list RenderedItem :=
  map RLabel (case_labels g) ++ map RStmt (case_body g)
  ++ (if case_fallthrough g then [RFallthrough] else []).

Definition render_switch (unlabeled : list TranslatedStmt)
  (cases : list TCase) : list RenderedItem :=
  map RStmt unlabeled ++ concat (map render_case cases).

Definition next_is_label (items : list SwitchItem) : bool :=
  match items with
  | ItemLabel _ :: _ => true
  | _ => false
  end.

(** The fallthrough transitions of a sequence of labels and
    statements: control falls through where a statement that does not
    end in a jump is followed by a label; [in_case] tells that a label
    came before. *)
Fixpoint mark_fallthroughs (in_case : bool) (items : list SwitchItem)
  : list RenderedItem :=
  match items with
  | [] => []
  | ItemLabel l :: rest => RLabel l :: mark_fallthroughs true rest
  | ItemStmt s :: rest =>
      RStmt s
      :: (if in_case && next_is_label rest && negb (ends_with_jump s)
          then [RFallthrough] else [])
      ++ mark_fallthroughs in_case rest
  end.

(** The body of a C switch as the sequence of its labels and
    statements. *)
Inductive CSwitchItem : Type :=
  | CItemCase (lhs : CExpr)
  | CItemDefault
  | CItemStmt (s : CStmt).

Fixpoint c_switch_item (s : CStmt) : list CSwitchItem :=
  match s with
  | CCaseStmt lhs sub => CItemCase lhs :: c_switch_item sub
  | CDefaultStmt sub => CItemDefault :: c_switch_item sub
  | _ => [CItemStmt s]
  end.

Definition c_switch_body (body : CStmt) : list CSwitchItem :=
  match body with
  | CCompoundStmt l => concat (map c_switch_item l)
  | _ => c_switch_item body
  end.

(** Control does not run past the end of the C statement. *)
Fixpoint c_ends_with_jump (s : CStmt) : bool :=
  match s with
  | CBreakStmt | CContinueStmt | CReturnStmt _ | CGotoStmt _ _ => true
  | CCompoundStmt body =>
      (fix last_jumps (l : list CStmt) : bool :=
         match l with
         | [] => false
         | [x] => c_ends_with_jump x
         | _ :: l' => last_jumps l'
         end) body
  | CLabelStmt _ sub => c_ends_with_jump sub
  | CCaseStmt _ sub => c_ends_with_jump sub
  | CDefaultStmt sub => c_ends_with_jump sub
  | CIfStmt _ then_stmt (Some else_stmt) =>
      c_ends_with_jump then_stmt && c_ends_with_jump else_stmt
  | _ => false
  end.

Definition c_next_is_label (items : list CSwitchItem) : bool :=
  match items with
  | CItemCase _ :: _ | CItemDefault :: _ => true
  | _ => false
  end.

(** The C switch body with its fallthrough transitions marked. *)
Inductive CMarkedItem : Type :=
  | CMCase (lhs : CExpr)
  | CMDefault
  | CMStmt (s : CStmt)
  | CMFallthrough.

Fixpoint c_mark_fallthroughs (in_case : bool) (items : list CSwitchItem)
  : list CMarkedItem :=
  match items with
  | [] => []
  | CItemCase lhs :: rest => CMCase lhs :: c_mark_fallthroughs true rest
  | CItemDefault :: rest => CMDefault :: c_mark_fallthroughs true rest
  | CItemStmt s :: rest =>
      CMStmt s
      :: (if in_case && c_next_is_label rest && negb (c_ends_with_jump s)
          then [CMFallthrough] else [])
      ++ c_mark_fallthroughs in_case rest
  end.

(** An item of the output is the translation of an item of the input
    (in some context), a fallthrough mark stands for a fallthrough
    transition. *)
Inductive item_translates (loc : nat) : CMarkedItem -> RenderedItem -> Prop :=
  | case_translates lhs c :
      item_translates loc (CMCase lhs)
        (RLabel (LCase (translate_expr loc lhs c).1))
  | default_translates : item_translates loc CMDefault (RLabel LDefault)
  | stmt_translates s c :
      item_translates loc (CMStmt s) (RStmt (translate_stmt loc s c).1)
  | fallthrough_translates : item_translates loc CMFallthrough RFallthrough.

Definition c_unmarked (i : CSwitchItem) : CMarkedItem :=
  match i with
  | CItemCase lhs => CMCase lhs
  | CItemDefault => CMDefault
  | CItemStmt s => CMStmt s
  end.

Definition unmarked (i : SwitchItem) : RenderedItem :=
  match i with
  | ItemLabel l => RLabel l
  | ItemStmt s => RStmt s
  end.

(** The switch of the example: [case 1: a; case 2: case 3: b; break;
    default: c;]. *)
Definition example_switch (all_enum_cases_covered : bool) : CStmt :=
  CSwitchStmt (CDeclRefExpr (CBuiltinType ZigClangBuiltinTypeInt) "x")
    (CCompoundStmt
       [CCaseStmt (CIntegerLiteral (CBuiltinType ZigClangBuiltinTypeInt) 1)
          (CExprStmt (CDeclRefExpr (CBuiltinType ZigClangBuiltinTypeInt) "a"));
        CCaseStmt (CIntegerLiteral (CBuiltinType ZigClangBuiltinTypeInt) 2)
          (CCaseStmt (CIntegerLiteral (CBuiltinType ZigClangBuiltinTypeInt) 3)
             (CExprStmt
                (CDeclRefExpr (CBuiltinType ZigClangBuiltinTypeInt) "b")));
        CBreakStmt;
        CDefaultStmt
          (CExprStmt (CDeclRefExpr (CBuiltinType ZigClangBuiltinTypeInt) "c"))])
    all_enum_cases_covered.

(** The rendering of a translated statement when it is a switch. *)
Definition render_stmt (s : TranslatedStmt) : list RenderedItem :=
  match s with
  | TSwitch _ unlabeled cases _ => render_switch unlabeled cases
  | _ => []
  end.

Definition is_fallthrough (r : RenderedItem) : bool :=
  match r with
  | RFallthrough => true
  | _ => false
  end.


(** The fallthrough mark after the statements before the next
    label. *)
Definition lead_mark (in_case : bool) (lead : list TranslatedStmt)
  (cases : list TCase) : list RenderedItem :=
  if in_case && negb (bool_decide (lead = []))
     && negb (bool_decide (cases = [])) && negb (body_ends_with_jump lead)
  then [RFallthrough] else [].

(** The last statement of a C block ends in a jump. *)
Definition c_body_ends_with_jump (body : list CStmt) : bool :=
  match last body with
  | Some s => c_ends_with_jump s
  | None => false
  end.

(** The items of a C switch body and of its translation correspond
    one by one. *)
Definition items_translate (loc : nat) (cis : list CSwitchItem)
  (items : list SwitchItem) : Prop :=
  Forall2 (fun ci i => item_translates loc (c_unmarked ci) (unmarked i))
    cis items.

(** *** Forward declarations and definitions of records and enums *)

(** A declaration of the record or enum [canon] without its body. *)
Definition is_forward_of (canon : nat) (d : CDecl) : bool :=
  match d with
  | CRecordDecl canon' _ _ _ None => bool_decide (canon' = canon)
  | CEnumDecl canon' _ _ _ None => bool_decide (canon' = canon)
  | _ => false
  end.

(** The definition of the record or enum [canon]. *)
Definition is_definition_of (canon : nat) (d : CDecl) : bool :=
  match d with
  | CRecordDecl canon' _ _ _ (Some _) => bool_decide (canon' = canon)
  | CEnumDecl canon' _ _ _ (Some _) => bool_decide (canon' = canon)
  | _ => false
  end.

(** The cell [node] holds the body of the definition [d]: the record's
    fields by name and in order, or the enum's constants. *)
Definition describes (d : CDecl) (node : TranslatedType) : Prop :=
  match d, node with
  | CRecordDecl _ _ _ is_union (Some fields), TRecord is_union' tfields =>
      is_union' = is_union
      /\ map tfield_name tfields = map field_name fields
  | CEnumDecl _ _ _ _ (Some constants), TEnum _ constants' =>
      constants' = constants
  | _, _ => False
  end.

(** *** The constructs the translators support *)

(** No type class without a translation occurs in the type. *)
Fixpoint supported_type (t : CType) : bool :=
  match t with
  | CBuiltinType _ => true
  | CPointerType _ _ _ pointee => supported_type pointee
  | CConstantArrayType _ elem _ => supported_type elem
  | CIncompleteArrayType _ elem => supported_type elem
  | CFunctionProtoType _ params ret _ =>
      supported_type ret
      && (fix each_param (ps : list CType) : bool :=
            match ps with
            | [] => true
            | p :: ps' => supported_type p && each_param ps'
            end) params
  | CRecordType _ _ => true
  | CEnumType _ _ => true
  | CTypedefType _ _ underlying => supported_type underlying
  | COtherType _ _ => false
  end.

Fixpoint supported_types (ts : list CType) : bool :=
  match ts with
  | [] => true
  | t :: ts' => supported_type t && supported_types ts'
  end.

(** No expression class without a translation occurs in the
    expression, and every type it mentions is supported. *)
Fixpoint supported_expr (e : CExpr) : bool :=
  match e with
  | CIntegerLiteral ty _ => supported_type ty
  | CDeclRefExpr _ _ => true
  | CParenExpr sub => supported_expr sub
  | CImplicitCastExpr ty sub => supported_type ty && supported_expr sub
  | CBinaryOperator _ ty lhs rhs =>
      supported_type (ZigClangExpr_getType lhs) && supported_type ty
      && supported_expr lhs && supported_expr rhs
  | CCompoundAssignOperator _ ty computation_lhs_type _ lhs rhs =>
      supported_type computation_lhs_type && supported_type ty
      && supported_expr lhs && supported_expr rhs
  | CCallExpr _ callee args =>
      supported_expr callee
      && (fix each_arg (es : list CExpr) : bool :=
            match es with
            | [] => true
            | a :: es' => supported_expr a && each_arg es'
            end) args
  | COtherExpr _ _ _ => false
  end.

Fixpoint supported_exprs (es : list CExpr) : bool :=
  match es with
  | [] => true
  | a :: es' => supported_expr a && supported_exprs es'
  end.

Definition supported_opt_expr (e : option CExpr) : bool :=
  match e with
  | Some e' => supported_expr e'
  | None => true
  end.

(** The statement is translated without a stub: no statement class
    without a translation, every [goto] a forward jump within its
    block, every case label at the top of a switch body. *)
Fixpoint supported_stmt (s : CStmt) : bool :=
  match s with
  | CCompoundStmt body =>
      (fix each_stmt (l : list CStmt) : bool :=
         match l with
         | [] => true
         | s1 :: rest =>
             match s1 with
             | CGotoStmt _ label => forward_jump_target label rest
             | _ => supported_stmt s1
             end && each_stmt rest
         end) body
  | CExprStmt e => supported_expr e
  | CDeclStmt _ ty init => supported_type ty && supported_opt_expr init
  | CIfStmt cond then_stmt else_stmt =>
      supported_expr cond && supported_stmt then_stmt
      && match else_stmt with
         | Some e => supported_stmt e
         | None => true
         end
  | CWhileStmt cond body => supported_expr cond && supported_stmt body
  | CDoStmt body cond => supported_stmt body && supported_expr cond
  | CForStmt init cond inc body =>
      match init with
      | Some s0 => supported_stmt s0
      | None => true
      end
      && supported_opt_expr cond && supported_opt_expr inc
      && supported_stmt body
  | CSwitchStmt cond body _ =>
      let peel :=
        fix peel (s : CStmt) : bool :=
          match s with
          | CCaseStmt lhs sub => supported_expr lhs && peel sub
          | CDefaultStmt sub => peel sub
          | _ => supported_stmt s
          end in
      supported_expr cond
      && match body with
         | CCompoundStmt l =>
             (fix each_item (l : list CStmt) : bool :=
                match l with
                | [] => true
                | s1 :: rest => peel s1 && each_item rest
                end) l
         | _ => peel body
         end
  | CCaseStmt _ _ => false
  | CDefaultStmt _ => false
  | CBreakStmt => true
  | CContinueStmt => true
  | CReturnStmt value => supported_opt_expr value
  | CLabelStmt _ sub => supported_stmt sub
  | CGotoStmt _ _ => false
  | COtherStmt _ _ => false
  end.

Fixpoint supported_block (l : list CStmt) : bool :=
  match l with
  | [] => true
  | s1 :: rest =>
      match s1 with
      | CGotoStmt _ label => forward_jump_target label rest
      | _ => supported_stmt s1
      end && supported_block rest
  end.

Fixpoint supported_switch_item (s : CStmt) : bool :=
  match s with
  | CCaseStmt lhs sub => supported_expr lhs && supported_switch_item sub
  | CDefaultStmt sub => supported_switch_item sub
  | _ => supported_stmt s
  end.

Fixpoint supported_switch_items (l : list CStmt) : bool :=
  match l with
  | [] => true
  | s1 :: rest => supported_switch_item s1 && supported_switch_items rest
  end.

Definition supported_switch_body (body : CStmt) : bool :=
  match body with
  | CCompoundStmt l => supported_switch_items l
  | _ => supported_switch_item body
  end.

(** A function declaration or definition made of supported
    constructs. *)
Definition supported_function (d : CDecl) : bool :=
  match d with
  | CFunctionDecl _ _ _ ty _ body =>
      supported_type ty
      && match body with
         | Some b => supported_stmt b
         | None => true
         end
  | _ => false
  end.

Definition decl_canon (d : CDecl) : nat :=
  match d with
  | CFunctionDecl canon _ _ _ _ _ => canon
  | CRecordDecl canon _ _ _ _ => canon
  | CEnumDecl canon _ _ _ _ => canon
  | CTypedefNameDecl canon _ _ _ => canon
  | CVarDecl canon _ _ _ _ _ _ => canon
  end.
End Translation.

(** *** Example inputs *)

(** The type sizes of an LP64 target such as x86_64-linux. *)
Definition lp64 (t : CIntType) : N :=
  match t with
  | CIntTypeShort | CIntTypeUShort => 16
  | CIntTypeInt | CIntTypeUInt => 32
  | CIntTypeLong | CIntTypeULong => 64
  | CIntTypeLongLong | CIntTypeULongLong => 64
  end.

(** A constant evaluator that knows integer literals only. *)
Definition literal_evaluator (e : CExpr) : option (Z * CType) :=
  match e with
  | CIntegerLiteral ty v => Some (v, ty)
  | _ => None
  end.

Definition c_int : CType := CBuiltinType ZigClangBuiltinTypeInt.
Definition c_short : CType := CBuiltinType ZigClangBuiltinTypeShort.
Definition c_long : CType := CBuiltinType ZigClangBuiltinTypeLong.
Definition c_void : CType := CBuiltinType ZigClangBuiltinTypeVoid.

(** [struct S] with the canonical declaration 100 and [struct S *]. *)
Definition struct_S : CType := CRecordType 100 "S".
Definition struct_S_ptr : CType := CPointerType 200 false false struct_S.


(** [struct S *next;] declared before
    [struct S { struct S *next; };]. *)
Definition self_referential_unit : list CDecl :=
  [CVarDecl 1 10 "next" struct_S_ptr None false false;
   CRecordDecl 100 20 "S" false (Some [mkCField "next" struct_S_ptr None])].

(** [struct S;] twice, a use of [struct S *], then the definition. *)
Definition forward_declared_unit : list CDecl :=
  [CRecordDecl 100 5 "S" false None;
   CRecordDecl 100 6 "S" false None;
   CVarDecl 1 10 "head" struct_S_ptr None false false;
   CRecordDecl 100 20 "S" false (Some [mkCField "next" struct_S_ptr None])].

(** [#define FOO (1 + 2)], [#define BAR(x) foo(x, x)] and
    [#define BAZ __LINE__], on lines 1 to 3. *)
Definition macro_FOO : CMacro :=
  mkCMacro "FOO" None
    [TokLParen; TokNumber 1; TokPlus; TokNumber 2; TokRParen] 1.
Definition macro_BAR : CMacro :=
  mkCMacro "BAR" (Some ["x"])
    [TokIdentifier "foo"; TokLParen; TokIdentifier "x"; TokComma;
     TokIdentifier "x"; TokRParen] 2.
Definition macro_BAZ : CMacro :=
  mkCMacro "BAZ" None [TokIdentifier "__LINE__"] 3.
Definition macro_unit : ASTUnit :=
  mkASTUnit [] [macro_FOO; macro_BAR; macro_BAZ].

(** [void f(void) { return; }], [void g(void) { goto out; }] with no
    label [out] ahead, and [void h(void);]. *)
Definition c_void_function : CType :=
  CFunctionProtoType 300 [] c_void false.
Definition isolation_unit : ASTUnit :=
  mkASTUnit
    [CFunctionDecl 1 10 "f" c_void_function []
       (Some (CCompoundStmt [CReturnStmt None]));
     CFunctionDecl 2 20 "g" c_void_function []
       (Some (CCompoundStmt [CGotoStmt 21 "out"]));
     CFunctionDecl 3 30 "h" c_void_function [] None]
    [].
End Engine.

(** ** Facts about the path functions of os.cpp *)

Module OsFacts.

Import Os.

Section PathFacts.

Variable os : Platform.
Variable sep : ascii.

Lemma byte_at_lookup (p : list ascii) (i : nat) (c : ascii) :
  p !! i = Some c -> byte_at p i = c.
Proof.
  intros H. unfold byte_at. rewrite nth_lookup, H. reflexivity.
Qed.

Lemma byte_at_middle (a b : list ascii) (c : ascii) :
  byte_at (a ++ c :: b) (length a) = c.
Proof.
  apply byte_at_lookup. rewrite lookup_app_r by lia.
  replace (length a - length a) with 0 by lia. reflexivity.
Qed.

(** The scan stops at the last separator at or below its start. *)
Lemma split_scan_some (p : list ascii) (i j : nat) :
  split_scan os p i = Some j ->
  j <= i /\ os_is_sep os (byte_at p j) = true /\
  forall k, j < k <= i -> os_is_sep os (byte_at p k) = false.
Proof.
  induction i as [|i IH]; simpl.
  - destruct (os_is_sep os (byte_at p 0)) eqn:E; [|discriminate].
    intros [= <-]. repeat split; auto. intros k Hk. lia.
  - destruct (os_is_sep os (byte_at p (S i))) eqn:E.
    + intros [= <-]. repeat split; auto. intros k Hk. lia.
    + intros H. destruct (IH H) as (Hle & Hsep & Hno).
      repeat split; auto. intros k Hk.
      destruct (decide (k = S i)) as [->|Hne]; [assumption|].
      apply Hno. lia.
Qed.

Lemma split_scan_none (p : list ascii) (i : nat) :
  split_scan os p i = None ->
  forall k, k <= i -> os_is_sep os (byte_at p k) = false.
Proof.
  induction i as [|i IH]; simpl.
  - destruct (os_is_sep os (byte_at p 0)) eqn:E; [discriminate|].
    intros _ k Hk. replace k with 0 by lia. assumption.
  - destruct (os_is_sep os (byte_at p (S i))) eqn:E; [discriminate|].
    intros H k Hk. destruct (decide (k = S i)) as [->|Hne]; [assumption|].
    apply IH; [assumption | lia].
Qed.

Lemma has_sep_false (p : list ascii) (k : nat) :
  has_sep os p = false -> os_is_sep os (byte_at p k) = false \/ length p <= k.
Proof.
  unfold has_sep. revert k. induction p as [|c p IH]; intros k H.
  - right. simpl. lia.
  - simpl in H. apply orb_false_iff in H as [Hc Hp].
    destruct k as [|k]; [left; exact Hc|].
    destruct (IH k Hp) as [Hk|Hk]; [left; exact Hk | right; simpl; lia].
Qed.

Lemma has_sep_true (p : list ascii) :
  has_sep os p = true ->
  exists k, k < length p /\ os_is_sep os (byte_at p k) = true.
Proof.
  unfold has_sep. induction p as [|c p IH]; simpl; [discriminate|].
  intros H. apply orb_true_iff in H as [Hc|Hp].
  - exists 0. split; [lia | exact Hc].
  - destruct (IH Hp) as (k & Hk & Hs). exists (S k). split; [lia | exact Hs].
Qed.

Lemma adjacent_seps_false (p : list ascii) (k : nat) :
  adjacent_seps os p = false ->
  os_is_sep os (byte_at p k) = true ->
  S k < length p ->
  os_is_sep os (byte_at p (S k)) = false.
Proof.
  revert k. induction p as [|c1 p IH]; intros k Hadj Hk Hlen.
  - simpl in Hlen. lia.
  - destruct p as [|c2 p]; [simpl in Hlen; lia|].
    simpl in Hadj. apply orb_false_iff in Hadj as [H12 Hrest].
    destruct k as [|k].
    + unfold byte_at in *. simpl in *. rewrite Hk in H12. exact H12.
    + apply (IH k Hrest); [exact Hk | simpl in *; lia].
Qed.

(** What [os_path_split] returns when the scan from the last byte
    finds the separator [j]. *)
Lemma os_path_split_at (p : list ascii) (j : nat) :
  p <> [] ->
  ends_with_sep os p = false ->
  split_scan os p (length p - 1) = Some j ->
  os_path_split os p = (take (if (j =? 0)%nat then 1 else j) p, drop (j + 1) p).
Proof.
  intros Hne Hend Hscan. unfold os_path_split.
  assert (Hlen : (length p =? 0)%nat = false).
  { apply Nat.eqb_neq. destruct p; [congruence | simpl; lia]. }
  rewrite Hlen. cbn [negb]. cbv zeta.
  unfold ends_with_sep in Hend. rewrite Hend. cbn [andb].
  rewrite Hscan. unfold buf_init_from_mem. rewrite drop_0. f_equal.
  apply take_ge. rewrite length_drop. lia.
Qed.

Lemma os_path_join_at (p : list ascii) (j : nat) (c : ascii) :
  p !! j = Some c ->
  (0 < j -> os_is_sep os (byte_at p (j - 1)) = false) ->
  os_is_sep os c = true ->
  (0 < j -> c = sep) ->
  os_path_join os sep (take (if (j =? 0)%nat then 1 else j) p) (drop (j + 1) p)
  = p.
Proof.
  intros Hj Hprev Hc Hsep.
  assert (Hlt : j < length p) by (eapply lookup_lt_Some; eassumption).
  unfold os_path_join. destruct j as [|j].
  - cbn [Nat.eqb]. rewrite length_take.
    replace (1 `min` length p) with 1 by lia. cbn [Nat.eqb Nat.sub].
    destruct p as [|c0 p]; [simpl in Hlt; lia|].
    simpl in Hj. injection Hj as ->.
    cbn. unfold byte_at. cbn. rewrite Hc. cbn. rewrite drop_0. reflexivity.
  - cbn [Nat.eqb]. rewrite length_take.
    replace (S j `min` length p) with (S j) by lia. cbn [Nat.eqb].
    replace (S j - 1) with j by lia.
    assert (Hb : byte_at (take (S j) p) j = byte_at p j).
    { unfold byte_at. rewrite !nth_lookup, lookup_take_lt by lia. reflexivity. }
    rewrite Hb.
    replace (byte_at p j) with (byte_at p (S j - 1)) by (f_equal; lia).
    rewrite Hprev by lia. cbn [negb].
    rewrite <- (Hsep ltac:(lia)).
    replace (S j + 1) with (S (S j)) by lia.
    change (take (S j) p ++ [c] ++ drop (S (S j)) p)
      with (take (S j) p ++ c :: drop (S (S j)) p).
    apply take_drop_middle. exact Hj.
Qed.

End PathFacts.

Lemma inner_split_sep_posix (p : list ascii) (c : ascii) :
  inner_split_sep ZIG_OS_POSIX p = Some c -> c = "/".
Proof.
  unfold inner_split_sep.
  destruct (split_scan ZIG_OS_POSIX p (length p - 1)) as [[|i]|] eqn:E;
    try discriminate.
  intros [= <-]. apply (split_scan_some ZIG_OS_POSIX) in E as (_ & Hsep & _).
  simpl in Hsep. apply Ascii.eqb_eq in Hsep. exact Hsep.
Qed.

(** C9, as amended.  A non-empty path that does not end with a
    separator, contains one and has no two adjacent separators comes
    back unchanged from [os_path_join] after [os_path_split], provided
    the separator the path is split at is the first byte of the path or
    the byte [os_path_join] inserts ([ZIG_OS_SEP_CHAR]); on a POSIX
    build, where ['/'] is the only separator, that holds for every such
    path once [ZIG_OS_SEP_CHAR] is ['/'].  A path without a separator
    is split into the directory ["."] and the whole path. *)
Theorem os_path_split_join (os : Platform) (sep : ascii) (p : list ascii) :
  (p <> [] ->
   ends_with_sep os p = false ->
   has_sep os p = true ->
   adjacent_seps os p = false ->
   (forall c, inner_split_sep os p = Some c -> c = sep) ->
   os_path_join os sep (os_path_split os p).1 (os_path_split os p).2 = p)
  /\ (os = ZIG_OS_POSIX -> sep = "/" ->
      p <> [] ->
      ends_with_sep os p = false ->
      has_sep os p = true ->
      adjacent_seps os p = false ->
      os_path_join os sep (os_path_split os p).1 (os_path_split os p).2 = p)
  /\ (has_sep os p = false -> os_path_split os p = (["."], p)).
Proof.
  assert (Hgen :
    p <> [] -> ends_with_sep os p = false -> has_sep os p = true ->
    adjacent_seps os p = false ->
    (forall c, inner_split_sep os p = Some c -> c = sep) ->
    os_path_join os sep (os_path_split os p).1 (os_path_split os p).2 = p).
  { intros Hne Hend Hhas Hadj Hinner.
    assert (Hpos : 0 < length p) by (destruct p; [congruence | simpl; lia]).
    destruct (split_scan os p (length p - 1)) as [j|] eqn:Hscan.
    - rewrite (os_path_split_at os p j Hne Hend Hscan). cbn [fst snd].
      destruct (split_scan_some os p _ _ Hscan) as (Hle & Hsep & _).
      assert (Hj : j < length p) by lia.
      destruct (lookup_lt_is_Some_2 p j Hj) as [c Hc].
      pose proof (byte_at_lookup p j c Hc) as Hb.
      apply (os_path_join_at os sep p j c Hc).
      + intros Hj0.
        destruct (os_is_sep os (byte_at p (j - 1))) eqn:Hprev; [|reflexivity].
        pose proof (adjacent_seps_false os p (j - 1) Hadj Hprev) as Hn.
        replace (S (j - 1)) with j in Hn by lia.
        rewrite Hn in Hsep by lia. discriminate.
      + rewrite <- Hb. exact Hsep.
      + intros Hj0. apply Hinner. unfold inner_split_sep. rewrite Hscan.
        destruct j as [|j]; [lia|]. rewrite Hb. reflexivity.
    - apply has_sep_true in Hhas as (k & Hk & Hs).
      rewrite (split_scan_none os p _ Hscan k) in Hs by lia. discriminate. }
  split; [exact Hgen|]. split.
  - intros -> -> Hne Hend Hhas Hadj. apply Hgen; try assumption.
    apply inner_split_sep_posix.
  - intros Hno. unfold os_path_split.
    destruct (length p =? 0)%nat eqn:Hlen; [reflexivity|].
    cbn [negb]. cbv zeta.
    assert (Hat : forall k, k < length p -> os_is_sep os (byte_at p k) = false).
    { intros k Hk. destruct (has_sep_false os p k Hno); [assumption | lia]. }
    apply Nat.eqb_neq in Hlen.
    rewrite (Hat (length p - 1)) by lia. cbn [andb].
    destruct (split_scan os p (length p - 1)) as [j|] eqn:Hscan; [|reflexivity].
    apply split_scan_some in Hscan as (Hle & Hsep & _).
    rewrite Hat in Hsep by lia. discriminate.
Qed.

(** The round trip at ["usr/lib/zig"] on a POSIX build, and the split
    of ["build.zig"]. *)
Lemma os_path_split_join_witness :
  (let p := list_ascii_of_string "usr/lib/zig" in
   os_path_join ZIG_OS_POSIX "/"
     (os_path_split ZIG_OS_POSIX p).1 (os_path_split ZIG_OS_POSIX p).2 = p)
  /\ (let p := list_ascii_of_string "build.zig" in
      os_path_split ZIG_OS_POSIX p = (["."], p)).
Proof.
  split.
  - apply (proj1 (os_path_split_join ZIG_OS_POSIX "/"
                    (list_ascii_of_string "usr/lib/zig")));
      [discriminate | reflexivity | reflexivity | reflexivity |].
    intros c Hc. vm_compute in Hc. congruence.
  - apply (proj2 (proj2 (os_path_split_join ZIG_OS_POSIX "/"
                           (list_ascii_of_string "build.zig")))).
    reflexivity.
Defined.

(** On a Windows build ["a/b"] comes back as ["a\b"] when
    [ZIG_OS_SEP_CHAR] is the backslash. *)
Example os_path_join_windows_example :
  let p := list_ascii_of_string "a/b" in
  os_path_join ZIG_OS_WINDOWS "\"
    (os_path_split ZIG_OS_WINDOWS p).1 (os_path_split ZIG_OS_WINDOWS p).2
  = list_ascii_of_string "a\b".
Proof. reflexivity. Qed.

(** C9 as stated fails on a Windows build: whichever byte
    [os_path_join] inserts, one of ["a/b"] and ["a\b"] satisfies the
    side conditions and does not come back unchanged. *)
Lemma os_path_split_join_windows_counterexample :
  ~ (exists sep : ascii, forall p : list ascii,
       p <> [] ->
       ends_with_sep ZIG_OS_WINDOWS p = false ->
       has_sep ZIG_OS_WINDOWS p = true ->
       adjacent_seps ZIG_OS_WINDOWS p = false ->
       os_path_join ZIG_OS_WINDOWS sep
         (os_path_split ZIG_OS_WINDOWS p).1 (os_path_split ZIG_OS_WINDOWS p).2
       = p).
Proof.
  intros [sep H].
  pose proof (H (list_ascii_of_string "a/b")
                ltac:(discriminate) eq_refl eq_refl eq_refl) as H1.
  pose proof (H (list_ascii_of_string "a\b")
                ltac:(discriminate) eq_refl eq_refl eq_refl) as H2.
  vm_compute in H1, H2. congruence.
Qed.

End OsFacts.
(** ** Facts about the driver of main.cpp *)

Module DriverFacts.

Import Driver.

Local Open Scope string_scope.
Local Open Scope list_scope.

Lemma extends_refl (out : list Event) : extends out out.
Proof. exists []. split; [symmetry; apply app_nil_r | reflexivity]. Qed.

Lemma extends_app (out msgs : list Event) :
  forallb is_message msgs = true -> extends out (out ++ msgs).
Proof. intros H. exists msgs. auto. Qed.

Lemma extends_trans (a b c : list Event) :
  extends a b -> extends b c -> extends a c.
Proof.
  intros (x & -> & Hx) (y & -> & Hy). exists (x ++ y). split.
  - symmetry. apply app_assoc.
  - rewrite forallb_app, Hx, Hy. reflexivity.
Qed.

Lemma loop_extends_trans (a b : list Event) (r : LoopResult) :
  extends a b -> loop_extends b r -> loop_extends a r.
Proof. destruct r; simpl; apply extends_trans. Qed.

Lemma loop_fail_extends (out : list Event) (msg arg0 : string) :
  loop_extends out (loop_fail out msg arg0).
Proof. apply extends_app. reflexivity. Qed.

Ltac solve_bound :=
  match goal with
  | Hb : ?b = length _ |- _ < ?b => rewrite Hb; simpl in *; lia
  end.

Ltac loop_step IH :=
  first
    [ apply loop_fail_extends
    | apply extends_refl
    | apply extends_app; reflexivity
    | apply IH; solve_bound
    | eapply loop_extends_trans;
        [| apply IH; solve_bound]; apply extends_app; reflexivity ].

(** The argument loop only prints. *)
Lemma parse_args_extends (mem_profile : bool) (arg0 : string) :
  forall (args : list string) (l : Locals) (out : list Event),
    loop_extends out (parse_args mem_profile arg0 args l out).
Proof.
  intros args. remember (length args) as n eqn:Hn. revert args Hn.
  induction n as [n IH] using lt_wf_ind. intros args Hn l out.
  assert (IH' : forall args' l' out', length args' < n ->
                  loop_extends out' (parse_args mem_profile arg0 args' l' out')).
  { intros args' l' out' Hlt. apply (IH (length args')); [lia | reflexivity]. }
  clear IH.
  destruct args as [|arg rest]; [apply extends_refl|].
  cbn [parse_args].
  repeat match goal with
         | |- loop_extends _ (if ?b then _ else _) => destruct b
         | |- loop_extends _ (match ?x with _ => _ end) => destruct x eqn:?
         | |- loop_extends _ (let l := _ in _) => cbv zeta
         end;
    try (loop_step IH').
  (* the inner loop of --c-source *)
  match goal with
  | |- loop_extends _ (_ ?from_i ?c_args) =>
      assert (Hlt : length from_i < n) by solve_bound;
      generalize c_args; revert Hlt; generalize from_i
  end.
  intros from_i. induction from_i as [|a after IHc]; intros Hlt c_args.
  - apply extends_refl.
  - destruct (Ascii.eqb (char_at a 0) "-").
    + apply IHc. simpl in Hlt. lia.
    + apply IH'. simpl in Hlt. lia.
Qed.

Section MainFacts.

Context {ZigTarget : Type}.
Variable env : Env ZigTarget.

Lemma messages_not_translate (evs : list Event) (f : option string)
  (o : TranslateOutcome) :
  forallb is_message evs = true -> ~ In (CodegenTranslateC f o) evs.
Proof.
  intros Hall Hin. rewrite forallb_forall in Hall.
  specialize (Hall _ Hin). discriminate.
Qed.

Lemma translates_well_messages (evs : list Event) (fin : Finish) :
  forallb is_message evs = true -> translates_well (evs, fin).
Proof.
  intros Hall f o Hin. exfalso.
  exact (messages_not_translate evs f o Hall Hin).
Qed.

Lemma translates_well_extends (out evs : list Event) (fin : Finish) :
  extends [] out -> translates_well (evs, fin) ->
  translates_well (out ++ evs, fin).
Proof.
  intros (extra & -> & Hextra) Hw f o Hin. simpl in *.
  apply in_app_or in Hin as [Hin|Hin].
  - exfalso. exact (messages_not_translate extra f o Hextra Hin).
  - apply (Hw f o Hin).
Qed.

Lemma fail_usage_messages (arg0 msg : string) :
  forallb is_message (fail_usage arg0 msg).1 = true.
Proof. reflexivity. Qed.

Lemma resolve_target_messages (arg0 : string) (l : Locals) (r : Run) :
  resolve_target env arg0 l = inl r -> forallb is_message r.1 = true.
Proof.
  unfold resolve_target. intros H.
  repeat match type of H with
         | match ?x with _ => _ end = _ => destruct x eqn:?
         | (if ?b then _ else _) = _ => destruct b eqn:?
         end;
    try discriminate; injection H as <-; try reflexivity.
  cbn [fst forallb is_message andb].
  rewrite forallb_app. cbn.
  rewrite andb_true_r. apply forallb_forall.
  intros e He. apply in_map_iff in He as (x & <- & _). reflexivity.
Qed.

Lemma check_options_messages (arg0 : string) (l : Locals)
  (target : ZigTarget) (r : Run) :
  check_options env arg0 l target = Some r -> forallb is_message r.1 = true.
Proof.
  unfold check_options. intros H.
  repeat match type of H with
         | match ?x with _ => _ end = _ => destruct x eqn:?
         | (if ?b then _ else _) = _ => destruct b eqn:?
         end;
    try discriminate; injection H as <-; reflexivity.
Qed.

(** [add_package] adds packages and prints; it does not translate. *)
Lemma add_package_events :
  forall (pkg : CliPkg) (table : list (string * string)) f o,
    ~ In (CodegenTranslateC f o) (add_package env pkg table).1.
Proof.
  fix IH 1. intros [name path children] table f o. cbn [add_package].
  revert table. induction children as [|child cs IHcs]; intros table.
  - simpl. tauto.
  - destruct child as [cname cpath cchildren] eqn:Hchild.
    pose proof (IH child (new_pkg_package_table env) f o) as Hc.
    rewrite Hchild in Hc.
    destruct (Os.os_path_split (ZIG_OS env) (path_of cpath)) as [d b].
    destruct (List.find (fun e => (e.1 =? cname)%string) table)
      as [[n full]|].
    + cbn. intros [H|[H|[]]]; discriminate.
    + destruct (add_package env (mkCliPkg cname cpath cchildren)
                  (new_pkg_package_table env)) as [out1 [|]].
      * cbn. intros [H|H]; [discriminate | exact (Hc H)].
      * specialize (IHcs (table ++ [(cname,
             string_of_list_ascii
               (Os.os_path_join (ZIG_OS env) (ZIG_OS_SEP_CHAR env) d b))])).
        match type of IHcs with
        | ~ In _ (?X).1 => destruct X as [out2 ex2]
        end.
        cbn in *. intros [H|H]; [discriminate|].
        apply in_app_or in H as [H|H]; [exact (Hc H) | exact (IHcs H)].
Qed.

Lemma run_command_well (l : Locals) (f : option string) :
  f <> None -> translates_well (run_command env l f).
Proof.
  intros Hf. unfold run_command.
  destruct (cmd l); try (apply translates_well_messages; reflexivity).
  destruct (codegen_translate_c env l f) as [diags|code] eqn:Ho.
  - intros f' o' Hin. cbn in Hin. destruct Hin as [H|H].
    + injection H as <- <-. split; [exact Hf | reflexivity].
    + destruct (timing_info l); cbn in H; [destruct H as [H|[]]|destruct H];
        discriminate.
  - intros f' o' [H|[]]. injection H as <- <-.
    split; [exact Hf | discriminate].
Qed.

Lemma translates_well_cons (e : Event) (evs : list Event) (fin : Finish) :
  (forall f o, e <> CodegenTranslateC f o) ->
  translates_well (evs, fin) -> translates_well (e :: evs, fin).
Proof.
  intros He Hw f o [H|H]; [exfalso; exact (He f o H) | exact (Hw f o H)].
Qed.

Lemma translates_well_app (a b : list Event) (fin : Finish) :
  (forall f o, ~ In (CodegenTranslateC f o) a) ->
  translates_well (b, fin) -> translates_well (a ++ b, fin).
Proof.
  intros Ha Hw f o Hin. cbn in Hin. apply in_app_or in Hin as [H|H];
    [exfalso; exact (Ha f o H) | exact (Hw f o H)].
Qed.

Lemma no_translate_well (evs : list Event) (fin : Finish) :
  (forall f o, ~ In (CodegenTranslateC f o) evs) -> translates_well (evs, fin).
Proof. intros H f o Hin. exfalso. exact (H f o Hin). Qed.

Lemma build_commands_well (arg0 : string) (l : Locals) (target : ZigTarget) :
  translates_well (build_commands env arg0 l target).
Proof.
  unfold build_commands.
  match goal with
  | |- translates_well (if ?b then _ else _) => destruct b
  end; [apply translates_well_messages; reflexivity|].
  match goal with
  | |- translates_well (if ?b then _ else _) => destruct b eqn:Hsrc
  end; [apply translates_well_messages; reflexivity|].
  match goal with
  | |- translates_well (if ?b then _ else _) => destruct b
  end; [apply translates_well_messages; reflexivity|].
  cbv zeta.
  match goal with
  | |- translates_well (if ?b then _ else _) => destruct b
  end; [apply translates_well_messages; reflexivity|].
  match goal with
  | |- translates_well (match ?x with _ => _ end) => destruct x
  end; [apply translates_well_messages; reflexivity|].
  match goal with
  | |- translates_well (if ?b then _ else _) => destruct b
  end.
  { apply no_translate_well. intros f o [H|[H|[]]]; discriminate. }
  pose proof (add_package_events (root_pkg l)
                (main_pkg_package_table env)) as Hadd.
  destruct (add_package env (root_pkg l) (main_pkg_package_table env))
    as [added exited].
  cbn [fst] in Hadd. destruct exited.
  { apply no_translate_well. intros f o [H|H]; [discriminate|].
    exact (Hadd f o H). }
  destruct (run_command env l (in_file l)) as [out fin] eqn:Hrun.
  apply translates_well_cons; [discriminate|].
  apply translates_well_app; [exact Hadd|].
  rewrite <- Hrun.
  destruct (decide (cmd l = CmdTranslateC)) as [Hc|Hc].
  - apply run_command_well. intros Hnone.
    rewrite Hc, Hnone in Hsrc. discriminate.
  - unfold run_command. destruct (cmd l); try congruence;
      apply translates_well_messages; reflexivity.
Qed.

Lemma dispatch_well (arg0 : string) (l : Locals) (target : ZigTarget) :
  translates_well (dispatch env arg0 l target).
Proof.
  unfold dispatch.
  destruct (cmd l) eqn:Hc; try apply build_commands_well;
    apply no_translate_well; intros f o H; cbn in H; intuition discriminate.
Qed.

Lemma after_loop_well (arg0 : string) (out : list Event) (l : Locals) :
  extends [] out -> translates_well (after_loop env arg0 out l).
Proof.
  intros Hout. unfold after_loop.
  destruct (1 <? length (cur_pkg l))%nat.
  { apply translates_well_extends; [exact Hout|].
    apply translates_well_messages. reflexivity. }
  destruct (resolve_target env arg0 l) as [[ev fin]|target] eqn:Ht.
  { apply translates_well_extends; [exact Hout|].
    apply translates_well_messages.
    exact (resolve_target_messages arg0 l _ Ht). }
  destruct (check_options env arg0 l target) as [[ev fin]|] eqn:Hc.
  { apply translates_well_extends; [exact Hout|].
    apply translates_well_messages.
    exact (check_options_messages arg0 l target _ Hc). }
  pose proof (dispatch_well arg0 l target) as Hd.
  destruct (dispatch env arg0 l target) as [ev fin].
  apply translates_well_extends; assumption.
Qed.

Lemma early_command_well (argv : list string) (r : Run) :
  early_command argv = Some r -> translates_well r.
Proof.
  unfold early_command. intros H.
  repeat match type of H with
         | (if ?b then _ else _) = _ => destruct b
         end;
    try discriminate; injection H as <-;
    apply no_translate_well; intros f o Hin; cbn in Hin;
    intuition discriminate.
Qed.

Lemma main_well (argv : list string) : translates_well (main env argv).
Proof.
  unfold main.
  destruct (early_command argv) as [r|] eqn:He;
    [exact (early_command_well argv r He)|].
  pose proof (parse_args_extends (ZIG_ENABLE_MEM_PROFILE env)
                (nth 0 argv EmptyString) (tail argv) initial_locals [])
    as Hext.
  destruct (parse_args _ _ _ _ _) as [out code|out l]; simpl in Hext.
  - destruct Hext as (extra & -> & Hextra).
    apply translates_well_messages. exact Hextra.
  - apply after_loop_well. exact Hext.
Qed.

End MainFacts.

(** C10, as amended.  When a run of [translate-c] reaches the command
    dispatch without a source file argument (it was not ended before by
    [--help] or by an error in the options), [main] prints "Expected
    source file argument." and the usage hint, ends with
    [EXIT_FAILURE], and has done nothing but print: no [CodeGen] was
    created.  In every run, the translation is never called without an
    input file. *)
Theorem translate_c_expects_source {ZigTarget : Type} (env : Env ZigTarget)
  (argv : list string) :
  (forall (out : list Event) (l : Locals) (target : ZigTarget),
     reaches_dispatch env argv out l target ->
     cmd l = CmdTranslateC ->
     in_file l = None ->
     main env argv =
       (out ++ Print stderr ("Expected source file argument." +:+ nl)
            :: print_error_usage (nth 0 argv EmptyString),
        Exited EXIT_FAILURE)
     /\ forallb is_message (main env argv).1 = true)
  /\ (forall o, ~ In (CodegenTranslateC None o) (main env argv).1).
Proof.
  split.
  - intros out l target (Hearly & Hloop & Hpkg & Htarget & Hcheck) Hcmd Hfile.
    assert (Hmain : main env argv =
       (out ++ Print stderr ("Expected source file argument." +:+ nl)
            :: print_error_usage (nth 0 argv EmptyString),
        Exited EXIT_FAILURE)).
    { unfold main. rewrite Hearly, Hloop. unfold after_loop.
      rewrite Hpkg, Htarget, Hcheck. unfold dispatch. rewrite Hcmd.
      unfold build_commands. rewrite Hcmd, Hfile. reflexivity. }
    split; [exact Hmain|]. rewrite Hmain. cbn [fst].
    pose proof (parse_args_extends (ZIG_ENABLE_MEM_PROFILE env)
                  (nth 0 argv EmptyString) (tail argv) initial_locals [])
      as Hext.
    rewrite Hloop in Hext. destruct Hext as (extra & -> & Hextra).
    rewrite forallb_app. cbn [app]. rewrite Hextra. reflexivity.
  - intros o Hin. destruct (main_well env argv None o Hin) as [Hf _].
    congruence.
Qed.

(** [zig translate-c] reaches the dispatch with no source file. *)
Lemma translate_c_expects_source_witness :
  main posix_env ["zig"; "translate-c"] =
    ([Print stderr ("Expected source file argument." +:+ nl);
      Print stderr
        ("See `zig --help` for detailed usage information" +:+ nl)],
     Exited EXIT_FAILURE).
Proof.
  destruct (proj1 (translate_c_expects_source posix_env ["zig"; "translate-c"])
              [] (set_cmd CmdTranslateC initial_locals) tt) as [H _].
  - repeat split; reflexivity.
  - reflexivity.
  - reflexivity.
  - exact H.
Defined.

(** C10 as stated fails: [zig translate-c --help] names no source file,
    prints the usage text to stdout and ends with [EXIT_SUCCESS]. *)
Lemma translate_c_help_counterexample :
  let run := main posix_env ["zig"; "translate-c"; "--help"] in
  run.2 = Exited EXIT_SUCCESS
  /\ ~ In (Print stderr ("Expected source file argument." +:+ nl)) run.1.
Proof.
  split; [reflexivity|]. cbn. intros [H|[]]. discriminate.
Qed.

End DriverFacts.
(** ** Facts about the translation engine *)

Module EngineFacts.

Import Engine.

Local Open Scope string_scope.
Local Open Scope list_scope.

(** *** Induction over the nested front-end trees *)

Lemma CType_nested_ind (P : CType -> Prop) :
  (forall kind, P (CBuiltinType kind)) ->
  (forall canon is_const is_volatile pointee,
      P pointee -> P (CPointerType canon is_const is_volatile pointee)) ->
  (forall canon elem size, P elem -> P (CConstantArrayType canon elem size)) ->
  (forall canon elem, P elem -> P (CIncompleteArrayType canon elem)) ->
  (forall canon params ret variadic,
      Forall P params -> P ret ->
      P (CFunctionProtoType canon params ret variadic)) ->
  (forall decl name, P (CRecordType decl name)) ->
  (forall decl name, P (CEnumType decl name)) ->
  (forall decl name underlying,
      P underlying -> P (CTypedefType decl name underlying)) ->
  (forall canon type_class, P (COtherType canon type_class)) ->
  forall t, P t.
Proof.
  intros Hb Hp Ha Hi Hf Hr He Ht Ho. fix IH 1. intros [].
  - apply Hb.
  - apply Hp, IH.
  - apply Ha, IH.
  - apply Hi, IH.
  - apply Hf; [|apply IH].
    induction params as [|p ps IHps]; constructor; [apply IH | exact IHps].
  - apply Hr.
  - apply He.
  - apply Ht, IH.
  - apply Ho.
Qed.

Lemma CExpr_nested_ind (P : CExpr -> Prop) :
  (forall ty value, P (CIntegerLiteral ty value)) ->
  (forall ty name, P (CDeclRefExpr ty name)) ->
  (forall sub, P sub -> P (CParenExpr sub)) ->
  (forall ty sub, P sub -> P (CImplicitCastExpr ty sub)) ->
  (forall op ty lhs rhs, P lhs -> P rhs -> P (CBinaryOperator op ty lhs rhs)) ->
  (forall op ty cl cr lhs rhs,
      P lhs -> P rhs -> P (CCompoundAssignOperator op ty cl cr lhs rhs)) ->
  (forall ty callee args,
      P callee -> Forall P args -> P (CCallExpr ty callee args)) ->
  (forall ty loc cls, P (COtherExpr ty loc cls)) ->
  forall e, P e.
Proof.
  intros Hl Hd Hp Hc Hb Ha Hcall Ho. fix IH 1. intros [].
  - apply Hl.
  - apply Hd.
  - apply Hp, IH.
  - apply Hc, IH.
  - apply Hb; apply IH.
  - apply Ha; apply IH.
  - apply Hcall; [apply IH|].
    induction args as [|a args IHargs]; constructor; [apply IH | exact IHargs].
  - apply Ho.
Qed.

Lemma CStmt_nested_ind (P : CStmt -> Prop) :
  (forall body, Forall P body -> P (CCompoundStmt body)) ->
  (forall e, P (CExprStmt e)) ->
  (forall name ty init, P (CDeclStmt name ty init)) ->
  (forall cond t, P t -> P (CIfStmt cond t None)) ->
  (forall cond t e, P t -> P e -> P (CIfStmt cond t (Some e))) ->
  (forall cond body, P body -> P (CWhileStmt cond body)) ->
  (forall body cond, P body -> P (CDoStmt body cond)) ->
  (forall cond inc body, P body -> P (CForStmt None cond inc body)) ->
  (forall init cond inc body,
      P init -> P body -> P (CForStmt (Some init) cond inc body)) ->
  (forall cond body flag, P body -> P (CSwitchStmt cond body flag)) ->
  (forall lhs sub, P sub -> P (CCaseStmt lhs sub)) ->
  (forall sub, P sub -> P (CDefaultStmt sub)) ->
  P CBreakStmt ->
  P CContinueStmt ->
  (forall value, P (CReturnStmt value)) ->
  (forall label sub, P sub -> P (CLabelStmt label sub)) ->
  (forall loc label, P (CGotoStmt loc label)) ->
  (forall loc cls, P (COtherStmt loc cls)) ->
  forall s, P s.
Proof.
  intros Hc He Hd Hif1 Hif2 Hw Hdo Hf1 Hf2 Hs Hcase Hdef Hb Hcont Hr Hl Hg Ho.
  fix IH 1. intros [].
  - apply Hc. induction body as [|s body IHb]; constructor;
      [apply IH | exact IHb].
  - apply He.
  - apply Hd.
  - destruct else_stmt; [apply Hif2 | apply Hif1]; apply IH.
  - apply Hw, IH.
  - apply Hdo, IH.
  - destruct init; [apply Hf2 | apply Hf1]; apply IH.
  - apply Hs, IH.
  - apply Hcase, IH.
  - apply Hdef, IH.
  - apply Hb.
  - apply Hcont.
  - apply Hr.
  - apply Hl, IH.
  - apply Hg.
  - apply Ho.
Qed.

Section TranslationFacts.

Variable bits : CIntType -> N.

(** *** The equations of the translators *)

Lemma translate_type_miss (loc : nat) (t : CType) (c : TranslationContext) :
  type_cache c !! canonical_key t = None ->
  translate_type bits loc t c =
    match t with
    | CBuiltinType kind => alloc_type (KeyBuiltin kind) (primitive_of bits kind) c
    | CPointerType canon is_const is_volatile pointee =>
        let '(hp, c1) := translate_type bits loc pointee c in
        alloc_type (KeyType canon) (TPointer hp is_const is_volatile) c1
    | CConstantArrayType canon elem size =>
        let '(he, c1) := translate_type bits loc elem c in
        alloc_type (KeyType canon) (TArray he size) c1
    | CIncompleteArrayType canon elem =>
        let '(he, c1) := translate_type bits loc elem c in
        alloc_type (KeyType canon) (TIncompleteArray he) c1
    | CFunctionProtoType canon params ret variadic =>
        let '(hr, c1) := translate_type bits loc ret c in
        let '(hps, c2) := translate_types bits loc params c1 in
        alloc_type (KeyType canon) (TFunctionType hps hr variadic) c2
    | CRecordType decl name => register_tag decl name c
    | CEnumType decl name => register_tag decl name c
    | CTypedefType decl name underlying =>
        let '(hu, c1) := translate_type bits loc underlying c in
        let '(h, c2) := alloc_type (KeyTypedef decl) (TAlias name hu) c1 in
        (h, emit_decl (TTypeAlias decl name h) c2)
    | COtherType canon type_class =>
        let '(h, c1) := alloc_type (KeyType canon) (TOpaque type_class) c in
        (h, emit_diagnostic ("unsupported type: " +:+ type_class) loc c1)
    end.
Proof.
  intros Hmiss. destruct t; cbn [translate_type]; rewrite Hmiss;
    try reflexivity.
  destruct (translate_type bits loc t c) as [hr c1].
  assert (H : forall ps c0,
    (fix each_param (ps : list CType) (c : TranslationContext)
       : list nat * TranslationContext :=
       match ps with
       | [] => ([], c)
       | p :: ps' =>
           let '(h, c1) := translate_type bits loc p c in
           let '(hs, c2) := each_param ps' c1 in
           (h :: hs, c2)
       end) ps c0 = translate_types bits loc ps c0).
  { induction ps as [|p ps IH]; intros c0; [reflexivity|].
    cbn [translate_types]. destruct (translate_type bits loc p c0).
    rewrite IH. reflexivity. }
  rewrite H. reflexivity.
Qed.

Lemma translate_type_hit (loc : nat) (t : CType) (c : TranslationContext)
  (h : nat) :
  type_cache c !! canonical_key t = Some h ->
  translate_type bits loc t c = (h, c).
Proof.
  intros Hhit. destruct t; cbn [translate_type]; rewrite Hhit; reflexivity.
Qed.

(** *** Growth of the context *)

Lemma tag_count_app (canon : nat) (l1 l2 : list TranslatedDecl) :
  tag_count canon (l1 ++ l2) = tag_count canon l1 + tag_count canon l2.
Proof. unfold tag_count. rewrite filter_app, length_app. reflexivity. Qed.

Lemma tag_count_other (canon : nat) (d : TranslatedDecl) :
  is_tag_definition d = false -> tag_count canon [d] = 0.
Proof. destruct d; cbn; try reflexivity. discriminate. Qed.

Lemma tag_count_definition (canon decl : nat) (name : string) (h : nat) :
  tag_count canon [TTypeDefinition decl name h]
  = if bool_decide (decl = canon) then 1 else 0.
Proof.
  unfold tag_count. rewrite filter_cons. cbn [is_tag_definition_of].
  destruct (bool_decide (decl = canon)); destruct (decide _); try done.
Qed.

Lemma grows_refl (c : TranslationContext) : grows c c.
Proof. constructor; auto. Qed.

Lemma grows_trans (c1 c2 c3 : TranslationContext) :
  grows c1 c2 -> grows c2 c3 -> grows c1 c3.
Proof.
  intros [] []. constructor; try congruence; try (etrans; eassumption).
  - auto.
  - intros canon Hin.
    destruct (grows_pending1 canon Hin) as [Hin2|Hnone]; [auto|].
    right. destruct (type_cache c1 !! KeyTag canon) as [h|] eqn:Hc;
      [|reflexivity].
    apply grows_cache0 in Hc. congruence.
  - intros canon. specialize (grows_tags0 canon).
    specialize (grows_tags1 canon). lia.
Qed.

Lemma emit_diagnostic_grows (msg : string) (loc : nat)
  (c : TranslationContext) : grows c (emit_diagnostic msg loc c).
Proof. constructor; cbn; auto. apply prefix_app_r. reflexivity. Qed.

Lemma function_canons_app (l1 l2 : list TranslatedDecl) :
  function_canons (l1 ++ l2) = function_canons l1 ++ function_canons l2.
Proof. apply omap_app. Qed.

Lemma emit_decl_grows (d : TranslatedDecl) (c : TranslationContext) :
  is_tag_definition d = false -> function_canons [d] = [] ->
  grows c (emit_decl d c).
Proof.
  intros Hd Hf. constructor; cbn -[tag_count function_canons]; auto.
  - apply prefix_app_r. reflexivity.
  - intros canon. rewrite tag_count_app, (tag_count_other canon d Hd).
    unfold cached_tag. cbn. lia.
  - rewrite function_canons_app, Hf. apply app_nil_r.
Qed.

(** A new cell registered under a key that was free in [c0]. *)
Lemma alloc_type_grows_from (c0 c : TranslationContext) (key : TypeKey)
  (node : TranslatedType) :
  (forall canon, key <> KeyTag canon) ->
  grows c0 c -> type_cache c0 !! key = None ->
  grows c0 (alloc_type key node c).2.
Proof.
  intros Hkey [] Hfree. constructor; cbn; auto.
  - intros k h Hk. destruct (decide (key = k)) as [->|Hne]; [congruence|].
    rewrite lookup_insert_ne by exact Hne. auto.
  - etrans; [eassumption|]. apply prefix_app_r. reflexivity.
  - intros canon. specialize (grows_tags0 canon). unfold cached_tag in *.
    cbn. rewrite lookup_insert_ne by apply Hkey. exact grows_tags0.
Qed.

Lemma register_tag_grows (decl : nat) (name : string)
  (c : TranslationContext) : grows c (register_tag decl name c).2.
Proof.
  unfold register_tag.
  destruct (type_cache c !! (KeyTag decl)) eqn:Hc; [apply grows_refl|].
  cbn. constructor; cbn -[tag_count function_canons]; auto.
  - intros k h Hk. destruct (decide (KeyTag decl = k)) as [<-|Hne]; [congruence|].
    rewrite lookup_insert_ne by exact Hne. exact Hk.
  - apply prefix_app_r. reflexivity.
  - apply prefix_app_r. reflexivity.
  - intros canon Hin. apply elem_of_union in Hin as [Hin|Hin]; [|auto].
    apply elem_of_singleton in Hin. subst canon. auto.
  - intros canon. rewrite tag_count_app, tag_count_definition.
    unfold cached_tag. cbn.
    destruct (decide (decl = canon)) as [->|Hne].
    + rewrite lookup_insert_eq, Hc, bool_decide_eq_true_2 by reflexivity. lia.
    + rewrite lookup_insert_ne by congruence.
      rewrite bool_decide_eq_false_2 by exact Hne. lia.
  - rewrite function_canons_app. apply app_nil_r.
Qed.

Lemma translate_types_grows_of (loc : nat) (ts : list CType) :
  Forall (fun t => forall c, grows c (translate_type bits loc t c).2) ts ->
  forall c, grows c (translate_types bits loc ts c).2.
Proof.
  induction 1 as [|t ts Ht _ IH]; intros c; cbn [translate_types].
  - apply grows_refl.
  - specialize (Ht c). destruct (translate_type bits loc t c) as [h c1].
    specialize (IH c1). destruct (translate_types bits loc ts c1) as [hs c2].
    cbn in *. eapply grows_trans; eassumption.
Qed.

Lemma translate_type_grows (loc : nat) (t : CType) :
  forall c, grows c (translate_type bits loc t c).2.
Proof.
  induction t using CType_nested_ind; intros c;
    (match goal with
     | |- grows _ (translate_type _ _ ?t _).2 =>
         destruct (type_cache c !! canonical_key t) as [h|] eqn:Hc
     end;
     [erewrite translate_type_hit by eassumption; apply grows_refl
     |rewrite translate_type_miss by exact Hc]).
  - apply alloc_type_grows_from; [discriminate | apply grows_refl | exact Hc].
  - specialize (IHt c). destruct (translate_type bits loc t c) as [hp c1].
    apply alloc_type_grows_from; [discriminate | exact IHt | exact Hc].
  - specialize (IHt c). destruct (translate_type bits loc t c) as [hp c1].
    apply alloc_type_grows_from; [discriminate | exact IHt | exact Hc].
  - specialize (IHt c). destruct (translate_type bits loc t c) as [hp c1].
    apply alloc_type_grows_from; [discriminate | exact IHt | exact Hc].
  - specialize (IHt c). destruct (translate_type bits loc t c) as [hr c1].
    pose proof (translate_types_grows_of loc params H c1) as Hps.
    destruct (translate_types bits loc params c1) as [hps c2].
    apply alloc_type_grows_from; [discriminate | | exact Hc].
    eapply grows_trans; eassumption.
  - apply register_tag_grows.
  - apply register_tag_grows.
  - specialize (IHt c). destruct (translate_type bits loc t c) as [hu c1].
    pose proof (alloc_type_grows_from c c1 (KeyTypedef decl) (TAlias name hu)
                  ltac:(discriminate) IHt Hc) as Ha.
    destruct (alloc_type (KeyTypedef decl) (TAlias name hu) c1) as [h c2].
    eapply grows_trans; [exact Ha | apply emit_decl_grows; reflexivity].
  - pose proof (alloc_type_grows_from c c (KeyType canon) (TOpaque type_class)
                  ltac:(discriminate) (grows_refl c) Hc) as Ha.
    destruct (alloc_type (KeyType canon) (TOpaque type_class) c) as [h c1].
    eapply grows_trans; [exact Ha | apply emit_diagnostic_grows].
Qed.

Lemma translate_types_grows (loc : nat) (ts : list CType)
  (c : TranslationContext) : grows c (translate_types bits loc ts c).2.
Proof.
  apply translate_types_grows_of. apply Forall_forall. intros t _ c0.
  apply translate_type_grows.
Qed.

(** After a translation the type is in the cache under its canonical
    identity, with the handle that was returned. *)
Lemma alloc_type_cached (key : TypeKey) (node : TranslatedType)
  (c : TranslationContext) :
  type_cache (alloc_type key node c).2 !! key = Some (alloc_type key node c).1.
Proof. cbn. apply lookup_insert_eq. Qed.

Lemma translate_type_cached (loc : nat) (t : CType) (c : TranslationContext) :
  type_cache (translate_type bits loc t c).2 !! canonical_key t
  = Some (translate_type bits loc t c).1.
Proof.
  destruct (type_cache c !! canonical_key t) as [h|] eqn:Hc.
  - rewrite (translate_type_hit loc t c h Hc). exact Hc.
  - rewrite translate_type_miss by exact Hc.
    destruct t; cbn [canonical_key] in *;
      repeat match goal with
             | |- context [let '(_, _) := ?e in _] =>
                 lazymatch e with
                 | alloc_type _ _ _ => fail
                 | register_tag _ _ _ => fail
                 | _ => destruct e as [? ?]
                 end
             end;
      try apply alloc_type_cached.
    all: try (unfold register_tag; rewrite Hc).
    all: cbn; apply lookup_insert_eq.
Qed.

End TranslationFacts.

(** C2.  Within one run, translating a type whose canonical identity
    was translated before returns the handle of the first translation
    and leaves the context as it is (no cell, declaration or diagnostic
    is added), whatever types were translated in between and for every
    type class. *)
Theorem translate_type_idempotent (bits : CIntType -> N)
  (loc1 loc2 loc3 : nat) (t1 t2 : CType) (between : list CType)
  (c : TranslationContext) :
  canonical_key t1 = canonical_key t2 ->
  let '(h1, c1) := translate_type bits loc1 t1 c in
  let '(_, c2) := translate_types bits loc2 between c1 in
  translate_type bits loc3 t2 c2 = (h1, c2).
Proof.
  intros Hkey.
  pose proof (translate_type_cached bits loc1 t1 c) as Hcached.
  destruct (translate_type bits loc1 t1 c) as [h1 c1]. cbn [fst snd] in Hcached.
  pose proof (translate_types_grows bits loc2 between c1) as Hgrows.
  destruct (translate_types bits loc2 between c1) as [hs c2].
  cbn [snd] in Hgrows.
  apply translate_type_hit. rewrite <- Hkey.
  apply (grows_cache _ _ Hgrows). exact Hcached.
Qed.

(** [struct S *] translated twice on an LP64 target, with [int] and a
    function type in between. *)
Lemma translate_type_idempotent_witness :
  let '(h1, c1) := translate_type lp64 1 struct_S_ptr empty_context in
  let '(_, c2) :=
    translate_types lp64 2
      [c_int; CFunctionProtoType 300 [struct_S_ptr] c_int false] c1 in
  translate_type lp64 3 struct_S_ptr c2 = (h1, c2).
Proof.
  apply (translate_type_idempotent lp64 1 2 3 struct_S_ptr struct_S_ptr).
  reflexivity.
Defined.


Section ExprFacts.

Variable bits : CIntType -> N.

Lemma translate_expr_call (loc : nat) (ty : CType) (callee : CExpr)
  (args : list CExpr) (c : TranslationContext) :
  translate_expr bits loc (CCallExpr ty callee args) c =
    let '(f, c1) := translate_expr bits loc callee c in
    let '(xs, c2) := translate_exprs bits loc args c1 in
    (TCall f xs, c2).
Proof.
  cbn [translate_expr]. destruct (translate_expr bits loc callee c) as [f c1].
  assert (H : forall es c0,
    (fix each_arg (es : list CExpr) (c : TranslationContext)
       : list TranslatedExpr * TranslationContext :=
       match es with
       | [] => ([], c)
       | a :: es' =>
           let '(x, c1) := translate_expr bits loc a c in
           let '(xs, c2) := each_arg es' c1 in
           (x :: xs, c2)
       end) es c0 = translate_exprs bits loc es c0).
  { induction es as [|a es IH]; intros c0; [reflexivity|].
    cbn [translate_exprs]. destruct (translate_expr bits loc a c0).
    rewrite IH. reflexivity. }
  rewrite H. reflexivity.
Qed.

(** Chains growth through the pairs a translator returns. *)
Ltac grow_step :=
  match goal with
  | |- grows ?c ?c => apply grows_refl
  | |- grows ?c (let '(_, _) := translate_type bits ?loc ?t ?c0 in _).2 =>
      let H := fresh "Hg" in
      pose proof (translate_type_grows bits loc t c0) as H;
      destruct (translate_type bits loc t c0) as [? ?]; cbn [snd] in H
  | |- grows ?c (translate_type bits ?loc ?t ?c0).2 =>
      eapply grows_trans; [|apply translate_type_grows]
  | |- grows ?c (emit_diagnostic _ _ ?c0) =>
      eapply grows_trans; [|apply emit_diagnostic_grows]
  | |- grows ?c (emit_decl _ ?c0) =>
      eapply grows_trans; [|apply emit_decl_grows]
  | |- grows ?c (_, ?c0).2 => cbn [snd]
  | H : grows ?c ?c1 |- grows ?c ?c1 => exact H
  | H : grows ?c0 ?c1 |- grows ?c ?c1 =>
      apply (grows_trans c c0 c1); [|exact H]
  end.

Lemma translate_exprs_grows_of (loc : nat) (es : list CExpr) :
  Forall (fun e => forall c, grows c (translate_expr bits loc e c).2) es ->
  forall c, grows c (translate_exprs bits loc es c).2.
Proof.
  induction 1 as [|e es He _ IH]; intros c; cbn [translate_exprs].
  - apply grows_refl.
  - specialize (He c). destruct (translate_expr bits loc e c) as [x c1].
    specialize (IH c1). destruct (translate_exprs bits loc es c1) as [xs c2].
    cbn in *. eapply grows_trans; eassumption.
Qed.

Lemma translate_expr_grows (loc : nat) (e : CExpr) :
  forall c, grows c (translate_expr bits loc e c).2.
Proof.
  induction e using CExpr_nested_ind; intros c;
    try rewrite translate_expr_call; cbn [translate_expr].
  - repeat grow_step.
  - apply grows_refl.
  - apply IHe.
  - grow_step. specialize (IHe t). destruct (translate_expr bits loc e t).
    repeat grow_step.
  - do 2 grow_step.
    specialize (IHe1 t0). destruct (translate_expr bits loc e1 t0) as [l c3].
    specialize (IHe2 c3). destruct (translate_expr bits loc e2 c3) as [r c4].
    repeat grow_step.
  - do 2 grow_step.
    specialize (IHe1 t0). destruct (translate_expr bits loc e1 t0) as [l c3].
    specialize (IHe2 c3). destruct (translate_expr bits loc e2 c3) as [r c4].
    repeat grow_step.
  - specialize (IHe c). destruct (translate_expr bits loc e c) as [f c1].
    pose proof (translate_exprs_grows_of loc args H c1) as Hargs.
    destruct (translate_exprs bits loc args c1) as [xs c2].
    repeat grow_step.
  - repeat grow_step.
Qed.

(** *** The cells of builtin types *)

Lemma builtin_cache_ok_empty : builtin_cache_ok bits empty_context.
Proof. intros kind h H. cbn in H. rewrite lookup_empty in H. discriminate. Qed.

Lemma translate_builtin (loc : nat) (kind : ZigClangBuiltinTypeKind)
  (c : TranslationContext) :
  builtin_cache_ok bits c ->
  type_nodes (translate_type bits loc (CBuiltinType kind) c).2
    !! (translate_type bits loc (CBuiltinType kind) c).1
  = Some (primitive_of bits kind)
  /\ builtin_cache_ok bits (translate_type bits loc (CBuiltinType kind) c).2.
Proof.
  intros Hok. cbn [translate_type canonical_key].
  destruct (type_cache c !! (KeyBuiltin kind)) as [h|] eqn:Hc.
  - split; [apply Hok; exact Hc | exact Hok].
  - cbn. split.
    + rewrite lookup_app_r by lia.
      replace (length (type_nodes c) - length (type_nodes c)) with 0 by lia.
      reflexivity.
    + intros kind' h' Hk. cbn in Hk |- *.
      destruct (decide (kind = kind')) as [<-|Hne].
      * rewrite lookup_insert_eq in Hk. injection Hk as <-.
        rewrite lookup_app_r by lia.
        replace (length (type_nodes c) - length (type_nodes c)) with 0 by lia.
        reflexivity.
      * rewrite lookup_insert_ne in Hk by congruence.
        apply lookup_app_l_Some. apply Hok. exact Hk.
Qed.

Lemma grows_node (c c' : TranslationContext) (h : nat) (node : TranslatedType) :
  grows c c' -> type_nodes c !! h = Some node -> type_nodes c' !! h = Some node.
Proof.
  intros Hg H. eapply prefix_lookup_Some; [exact H | exact (grows_nodes _ _ Hg)].
Qed.

Lemma convert_operand_type (k : ZigClangBuiltinTypeKind) (e : CExpr) :
  ZigClangExpr_getType (convert_operand k e) = CBuiltinType k.
Proof.
  unfold convert_operand. case_bool_decide as Hk; [|reflexivity].
  unfold operand_kind in Hk. destruct (ZigClangExpr_getType e); congruence.
Qed.

Lemma short_computes_in_int (k2 : ZigClangBuiltinTypeKind) :
  k2 = ZigClangBuiltinTypeShort \/ k2 = ZigClangBuiltinTypeInt ->
  usual_arithmetic_conversions bits ZigClangBuiltinTypeShort k2
  = ZigClangBuiltinTypeInt.
Proof. intros [->| ->]; reflexivity. Qed.

End ExprFacts.



(** [short s = 32767; s += 1;] computes 32768 in [int] and stores
    -32768. *)
Example short_increment_wraps :
  let s_plus_1 :=
    c_compound_assignment lp64 ZigClangBO_Add ZigClangBuiltinTypeShort
      ZigClangBuiltinTypeInt (CDeclRefExpr c_short "s")
      (CIntegerLiteral c_int 1) in
  let '(e, c') := translate_expr lp64 0 s_plus_1 empty_context in
  stored_value c' e 32767 1 = Some (-32768)%Z.
Proof. reflexivity. Qed.


(** *** The case list of a switch *)

Lemma group_items_label_first (items : list SwitchItem) :
  next_is_label items = true ->
  (group_items items).1 = [] /\ (group_items items).2 <> [].
Proof.
  destruct items as [|[l|s] rest]; try discriminate. intros _.
  cbn [group_items]. destruct (group_items rest) as [lead cases].
  destruct rest as [|[l'|s'] rest']; [|destruct cases|]; cbn; auto.
Qed.

Lemma group_items_no_lead (items : list SwitchItem) :
  (group_items items).1 = [] ->
  items = [] \/ next_is_label items = true.
Proof.
  destruct items as [|[l|s] rest]; auto.
  cbn [group_items]. destruct (group_items rest). cbn. discriminate.
Qed.

Lemma group_items_empty : group_items [] = ([], []).
Proof. reflexivity. Qed.

Lemma body_ends_with_jump_cons (s : TranslatedStmt)
  (lead : list TranslatedStmt) :
  lead <> [] -> body_ends_with_jump (s :: lead) = body_ends_with_jump lead.
Proof.
  intros Hne. unfold body_ends_with_jump. destruct lead; [congruence|].
  reflexivity.
Qed.

Lemma mark_group_items (items : list SwitchItem) (in_case : bool) :
  mark_fallthroughs in_case items =
    map RStmt (group_items items).1
    ++ lead_mark in_case (group_items items).1 (group_items items).2
    ++ concat (map render_case (group_items items).2).
Proof.
  revert in_case. induction items as [|[l|s] rest IH]; intros in_case.
  - unfold lead_mark. rewrite andb_false_r. reflexivity.
  - cbn [mark_fallthroughs group_items]. rewrite (IH true).
    pose proof (group_items_label_first rest) as Hfirst.
    pose proof (group_items_no_lead rest) as Hlead.
    destruct (group_items rest) as [lead cases] eqn:Hg. cbn [fst snd] in *.
    destruct rest as [|[l'|s'] rest'].
    + injection Hg as <- <-. unfold lead_mark, render_case. cbn.
      rewrite ?andb_false_r. reflexivity.
    + destruct (Hfirst eq_refl) as [-> Hne]. destruct cases as [|g cs];
        [congruence|].
      cbn. unfold lead_mark, render_case. cbn. rewrite !andb_false_r.
      reflexivity.
    + assert (Hne : lead <> []).
      { intros ->. destruct (Hlead eq_refl); discriminate. }
      cbn [concat map snd fst app]. unfold lead_mark at 2.
      rewrite andb_false_r. cbn [app].
      unfold render_case. cbn [case_labels case_body case_fallthrough map app].
      unfold lead_mark. rewrite (bool_decide_eq_false_2 _ Hne). cbn [negb andb].
      rewrite <- !app_assoc. reflexivity.
  - cbn [mark_fallthroughs group_items]. rewrite (IH in_case).
    pose proof (group_items_label_first rest) as Hfirst.
    pose proof (group_items_no_lead rest) as Hlead.
    destruct (group_items rest) as [lead cases] eqn:Hg.
    cbn [fst snd map app] in *.
    f_equal. destruct (next_is_label rest) eqn:Hnext.
    + destruct (Hfirst eq_refl) as [-> Hne].
      unfold lead_mark. cbn [map app]. rewrite (bool_decide_eq_false_2 _ Hne).
      rewrite andb_false_r. cbn [app]. rewrite !andb_true_r.
      unfold body_ends_with_jump. cbn. reflexivity.
    + rewrite andb_false_r. cbn [app]. destruct lead as [|s0 lead'].
      * destruct (Hlead eq_refl) as [->|H]; [|congruence].
        injection Hg as <-.
        unfold lead_mark. rewrite !andb_false_r. reflexivity.
      * assert (E : lead_mark in_case (s :: s0 :: lead') cases
                    = lead_mark in_case (s0 :: lead') cases).
        { unfold lead_mark.
          rewrite body_ends_with_jump_cons by discriminate. reflexivity. }
        rewrite E. reflexivity.
Qed.

(** The rendering of the case list is the input sequence with its
    fallthrough transitions. *)
Lemma render_group_items (items : list SwitchItem) :
  render_switch (group_items items).1 (group_items items).2
  = mark_fallthroughs false items.
Proof. rewrite mark_group_items. reflexivity. Qed.

Section StmtFacts.

Variable bits : CIntType -> N.

(** *** The equations of [translate_stmt] on blocks and switches *)

Lemma translate_stmt_compound (loc : nat) (body : list CStmt)
  (c : TranslationContext) :
  translate_stmt bits loc (CCompoundStmt body) c =
    let '(ts, c1) := translate_block bits loc body c in (TBlock ts, c1).
Proof.
  cbn [translate_stmt].
  assert (H : forall l c0,
    (fix each_stmt (l : list CStmt) (c : TranslationContext)
       : list TranslatedStmt * TranslationContext :=
       match l with
       | [] => ([], c)
       | s1 :: rest =>
           let '(t, c1) :=
             match s1 with
             | CGotoStmt jump_loc label =>
                 if forward_jump_target label rest then (TJump label, c)
                 else unsupported_jump jump_loc label c
             | _ => translate_stmt bits loc s1 c
             end in
           let '(ts, c2) := each_stmt rest c1 in
           (t :: ts, c2)
       end) l c0 = translate_block bits loc l c0).
  { induction l as [|s1 rest IH]; intros c0; [reflexivity|].
    cbn [translate_block].
    destruct (match s1 with
              | CGotoStmt jump_loc label =>
                  if forward_jump_target label rest then (TJump label, c0)
                  else unsupported_jump jump_loc label c0
              | _ => translate_stmt bits loc s1 c0
              end) as [t c1].
    rewrite IH. reflexivity. }
  rewrite H. reflexivity.
Qed.

Lemma translate_stmt_switch (loc : nat) (cond : CExpr) (body : CStmt)
  (flag : bool) (c : TranslationContext) :
  translate_stmt bits loc (CSwitchStmt cond body flag) c =
    let '(x, c1) := translate_expr bits loc cond c in
    let '(items, c2) := translate_switch_body bits loc body c1 in
    let '(unlabeled, cases) := group_items items in
    (TSwitch x unlabeled cases flag, c2).
Proof.
  cbn [translate_stmt]. destruct (translate_expr bits loc cond c) as [x c1].
  assert (Hpeel : forall s c0,
    (fix peel (s : CStmt) (c : TranslationContext)
       : list SwitchItem * TranslationContext :=
       match s with
       | CCaseStmt lhs sub =>
           let '(v, c1) := translate_expr bits loc lhs c in
           let '(items, c2) := peel sub c1 in
           (ItemLabel (LCase v) :: items, c2)
       | CDefaultStmt sub =>
           let '(items, c1) := peel sub c in
           (ItemLabel LDefault :: items, c1)
       | _ =>
           let '(t, c1) := translate_stmt bits loc s c in ([ItemStmt t], c1)
       end) s c0 = translate_switch_item bits loc s c0).
  { induction s; intros c0; try reflexivity.
    - cbn [translate_switch_item].
      destruct (translate_expr bits loc lhs c0) as [v c2].
      rewrite IHs. reflexivity.
    - cbn [translate_switch_item]. rewrite IHs. reflexivity. }
  assert (Heach : forall l c0,
    (fix each_item (l : list CStmt) (c : TranslationContext)
       : list SwitchItem * TranslationContext :=
       match l with
       | [] => ([], c)
       | s1 :: rest =>
           let '(items1, c1) :=
             (fix peel (s : CStmt) (c : TranslationContext)
                : list SwitchItem * TranslationContext :=
                match s with
                | CCaseStmt lhs sub =>
                    let '(v, c1) := translate_expr bits loc lhs c in
                    let '(items, c2) := peel sub c1 in
                    (ItemLabel (LCase v) :: items, c2)
                | CDefaultStmt sub =>
                    let '(items, c1) := peel sub c in
                    (ItemLabel LDefault :: items, c1)
                | _ =>
                    let '(t, c1) := translate_stmt bits loc s c in
                    ([ItemStmt t], c1)
                end) s1 c in
           let '(items2, c2) := each_item rest c1 in
           (items1 ++ items2, c2)
       end) l c0 = translate_switch_items bits loc l c0).
  { induction l as [|s1 rest IH]; intros c0; [reflexivity|].
    cbn [translate_switch_items]. rewrite Hpeel.
    destruct (translate_switch_item bits loc s1 c0) as [items1 c2].
    rewrite IH. reflexivity. }
  unfold translate_switch_body.
  destruct body;
    try (cbn [translate_switch_item];
         repeat match goal with
                | |- context [translate_expr bits loc ?e ?c0] =>
                    destruct (translate_expr bits loc e c0)
                end;
         rewrite ?Hpeel; reflexivity).
  rewrite Heach. reflexivity.
Qed.

(** *** Jumps are translated to jumps *)

Lemma ends_with_jump_block (body : list TranslatedStmt) :
  ends_with_jump (TBlock body) = body_ends_with_jump body.
Proof.
  unfold body_ends_with_jump. cbn [ends_with_jump].
  induction body as [|s [|s' body'] IH]; try reflexivity. exact IH.
Qed.

Lemma c_ends_with_jump_block (body : list CStmt) :
  c_ends_with_jump (CCompoundStmt body) = c_body_ends_with_jump body.
Proof.
  unfold c_body_ends_with_jump. cbn [c_ends_with_jump].
  induction body as [|s [|s' body'] IH]; try reflexivity. exact IH.
Qed.

Lemma translate_block_nil_iff (loc : nat) (body : list CStmt)
  (c : TranslationContext) :
  (translate_block bits loc body c).1 = [] <-> body = [].
Proof.
  destruct body as [|s1 rest]; [tauto|]. cbn [translate_block].
  destruct (match s1 with
            | CGotoStmt jump_loc label =>
                if forward_jump_target label rest then (TJump label, c)
                else unsupported_jump jump_loc label c
            | _ => translate_stmt bits loc s1 c
            end) as [t c1].
  destruct (translate_block bits loc rest c1). cbn. split; discriminate.
Qed.

Lemma translate_block_jump (loc : nat) (body : list CStmt) :
  Forall (fun s => forall c,
            ends_with_jump (translate_stmt bits loc s c).1
            = c_ends_with_jump s) body ->
  forall c,
    body_ends_with_jump (translate_block bits loc body c).1
    = c_body_ends_with_jump body.
Proof.
  induction 1 as [|s1 rest Hs _ IH]; intros c; [reflexivity|].
  cbn [translate_block].
  assert (Hhead : ends_with_jump
            (match s1 with
             | CGotoStmt jump_loc label =>
                 if forward_jump_target label rest then (TJump label, c)
                 else unsupported_jump jump_loc label c
             | _ => translate_stmt bits loc s1 c
             end).1 = c_ends_with_jump s1).
  { destruct s1; try apply Hs. cbn.
    destruct (forward_jump_target label rest); reflexivity. }
  destruct (match s1 with
            | CGotoStmt jump_loc label =>
                if forward_jump_target label rest then (TJump label, c)
                else unsupported_jump jump_loc label c
            | _ => translate_stmt bits loc s1 c
            end) as [t c1].
  specialize (IH c1).
  pose proof (translate_block_nil_iff loc rest c1) as Hnil.
  destruct (translate_block bits loc rest c1) as [ts c2]. cbn [fst] in *.
  destruct rest as [|s2 rest'].
  - destruct ts as [|t2 ts']; [exact Hhead|].
    discriminate (proj2 Hnil eq_refl).
  - destruct ts as [|t2 ts']; [discriminate (proj1 Hnil eq_refl)|].
    unfold body_ends_with_jump, c_body_ends_with_jump in *. exact IH.
Qed.

Lemma translate_stmt_jump (loc : nat) (s : CStmt) :
  forall c,
    ends_with_jump (translate_stmt bits loc s c).1 = c_ends_with_jump s.
Proof.
  induction s using CStmt_nested_ind; intros c.
  { rewrite translate_stmt_compound.
    pose proof (translate_block_jump loc body H c) as Hb.
    destruct (translate_block bits loc body c) as [ts c1]. cbn [fst] in *.
    rewrite ends_with_jump_block, c_ends_with_jump_block. exact Hb. }
  all: try rewrite translate_stmt_switch;
    cbn [translate_stmt unsupported_jump];
    repeat match goal with
           | IH : forall c, ends_with_jump (translate_stmt _ _ ?s c).1 = _
             |- context [translate_stmt ?b ?l ?s ?c0] =>
               let H := fresh "Hj" in
               pose proof (IH c0) as H;
               destruct (translate_stmt b l s c0) as [? ?];
               cbn [fst] in H
           | |- context [translate_expr ?b ?l ?e ?c0] =>
               destruct (translate_expr b l e c0) as [? ?]
           | |- context [translate_opt_expr ?b ?l ?e ?c0] =>
               destruct (translate_opt_expr b l e c0) as [? ?]
           | |- context [translate_type ?b ?l ?t ?c0] =>
               destruct (translate_type b l t c0) as [? ?]
           | |- context [translate_switch_body ?b ?l ?bd ?c0] =>
               destruct (translate_switch_body b l bd c0) as [? ?]
           | |- context [group_items ?i] => destruct (group_items i) as [? ?]
           end;
    cbn [fst ends_with_jump c_ends_with_jump]; try congruence.
  reflexivity.
Qed.

(** *** The items of a switch body, one by one *)

Lemma translate_switch_item_items (loc : nat) (s : CStmt) :
  forall c,
    items_translate bits loc (c_switch_item s) (translate_switch_item bits loc s c).1.
Proof.
  unfold items_translate.
  induction s; intros c; cbn [translate_switch_item c_switch_item];
    try (match goal with
         | |- context [translate_stmt ?b ?l ?s0 ?c0] =>
             pose proof (stmt_translates b l s0 c0) as Hs;
             destruct (translate_stmt b l s0 c0) as [t c1]
         end;
         cbn [fst]; constructor; [exact Hs | constructor]).
  - pose proof (case_translates bits loc lhs c) as Hc.
    destruct (translate_expr bits loc lhs c) as [v c1].
    specialize (IHs c1).
    destruct (translate_switch_item bits loc s c1) as [items c2].
    cbn [fst] in *. constructor; [exact Hc | exact IHs].
  - specialize (IHs c).
    destruct (translate_switch_item bits loc s c) as [items c1].
    cbn [fst] in *. constructor; [apply default_translates | exact IHs].
Qed.

Lemma translate_switch_items_items (loc : nat) (l : list CStmt) :
  forall c,
    items_translate bits loc (concat (map c_switch_item l))
      (translate_switch_items bits loc l c).1.
Proof.
  unfold items_translate.
  induction l as [|s1 rest IH]; intros c; cbn [translate_switch_items map concat].
  - constructor.
  - pose proof (translate_switch_item_items loc s1 c) as H1.
    destruct (translate_switch_item bits loc s1 c) as [items1 c1].
    specialize (IH c1).
    destruct (translate_switch_items bits loc rest c1) as [items2 c2].
    cbn [fst] in *. apply Forall2_app; assumption.
Qed.

Lemma translate_switch_body_items (loc : nat) (body : CStmt)
  (c : TranslationContext) :
  items_translate bits loc (c_switch_body body)
    (translate_switch_body bits loc body c).1.
Proof.
  destruct body; try apply translate_switch_item_items.
  apply translate_switch_items_items.
Qed.

Lemma items_translate_next (loc : nat) (cis : list CSwitchItem)
  (items : list SwitchItem) :
  items_translate bits loc cis items -> c_next_is_label cis = next_is_label items.
Proof.
  intros [|ci i cis' items' Hi _]; [reflexivity|].
  destruct ci, i; cbn in *; try reflexivity; inversion Hi.
Qed.

(** Marking the fallthrough transitions commutes with the
    translation. *)
Lemma items_translate_mark (loc : nat) (cis : list CSwitchItem)
  (items : list SwitchItem) :
  items_translate bits loc cis items ->
  forall in_case,
    Forall2 (item_translates bits loc)
      (c_mark_fallthroughs in_case cis) (mark_fallthroughs in_case items).
Proof.
  induction 1 as [|ci i cis' items' Hi Hrest IH]; intros in_case;
    [constructor|].
  pose proof (items_translate_next loc cis' items' Hrest) as Hnext.
  destruct ci, i; cbn in Hi; inversion Hi; subst;
    cbn [c_mark_fallthroughs mark_fallthroughs].
  - constructor; [exact Hi | apply IH].
  - constructor; [exact Hi | apply IH].
  - constructor; [exact Hi|].
    rewrite Hnext, translate_stmt_jump.
    destruct (in_case && next_is_label items' && negb (c_ends_with_jump s)).
    + constructor; [apply fallthrough_translates | apply IH].
    + apply IH.
Qed.

End StmtFacts.



Section GrowthFacts.

Variable bits : CIntType -> N.

(** Chains growth through the pairs the translators return. *)
Ltac grow_along :=
  repeat match goal with
  | |- grows ?c ?c => apply grows_refl
  | H : grows ?c ?c1 |- grows ?c ?c1 => exact H
  | |- grows _ (let '(_, _) := ?e in _).2 =>
      let H := fresh "Hg" in
      lazymatch e with
      | translate_type _ ?loc ?t ?c0 =>
          pose proof (translate_type_grows bits loc t c0) as H
      | translate_expr _ ?loc ?x ?c0 =>
          pose proof (translate_expr_grows bits loc x c0) as H
      end;
      destruct e as [? ?]; cbn [snd] in H
  | |- grows _ (_, _).2 => cbn [snd]
  | |- grows ?c (emit_diagnostic _ _ ?c0) =>
      apply (grows_trans c c0); [|apply emit_diagnostic_grows]
  | H : grows ?c0 ?c1 |- grows ?c ?c1 =>
      apply (grows_trans c c0 c1); [|exact H]
  end.

Lemma translate_opt_expr_grows (loc : nat) (e : option CExpr)
  (c : TranslationContext) : grows c (translate_opt_expr bits loc e c).2.
Proof. destruct e; cbn [translate_opt_expr]; grow_along. Qed.

Local Abbreviation stmt_grows loc s :=
  (forall c, grows c (translate_stmt bits loc s c).2).
Local Abbreviation item_grows loc s :=
  (forall c, grows c (translate_switch_item bits loc s c).2).
Local Abbreviation body_grows loc s :=
  (forall c, grows c (translate_switch_body bits loc s c).2).

Lemma translate_block_grows_of (loc : nat) (body : list CStmt) :
  Forall (fun s => stmt_grows loc s) body ->
  forall c, grows c (translate_block bits loc body c).2.
Proof.
  induction 1 as [|s body Hs _ IH]; intros c; cbn [translate_block].
  - apply grows_refl.
  - assert (H1 : grows c
      (match s with
       | CGotoStmt jump_loc label =>
           if forward_jump_target label body then (TJump label, c)
           else unsupported_jump jump_loc label c
       | _ => translate_stmt bits loc s c
       end).2).
    { destruct s; try apply Hs.
      destruct (forward_jump_target label body); [apply grows_refl|].
      apply emit_diagnostic_grows. }
    destruct (match s with
              | CGotoStmt jump_loc label =>
                  if forward_jump_target label body then (TJump label, c)
                  else unsupported_jump jump_loc label c
              | _ => translate_stmt bits loc s c
              end) as [t c1].
    specialize (IH c1). destruct (translate_block bits loc body c1) as [ts c2].
    cbn [snd] in *. eapply grows_trans; eassumption.
Qed.

Lemma translate_switch_items_grows_of (loc : nat) (l : list CStmt) :
  Forall (fun s => item_grows loc s) l ->
  forall c, grows c (translate_switch_items bits loc l c).2.
Proof.
  induction 1 as [|s l Hs _ IH]; intros c; cbn [translate_switch_items].
  - apply grows_refl.
  - specialize (Hs c).
    destruct (translate_switch_item bits loc s c) as [items1 c1].
    specialize (IH c1).
    destruct (translate_switch_items bits loc l c1) as [items2 c2].
    cbn [snd] in *. eapply grows_trans; eassumption.
Qed.

Lemma item_grows_of_stmt (loc : nat) (s : CStmt) :
  match s with CCaseStmt _ _ | CDefaultStmt _ => False | _ => True end ->
  stmt_grows loc s -> item_grows loc s.
Proof.
  intros Hs H c. specialize (H c).
  destruct s; try contradiction; cbn [translate_switch_item];
    destruct (translate_stmt bits loc _ c); exact H.
Qed.

(** Takes the next step of the goal's translation with [IH]. *)
Ltac along IH :=
  let H := fresh "Hs" in
  match goal with
  | |- context [translate_stmt bits ?l ?s ?c0] =>
      pose proof (IH c0) as H;
      destruct (translate_stmt bits l s c0) as [? ?]; cbn [snd] in H
  | |- context [translate_switch_item bits ?l ?s ?c0] =>
      pose proof (IH c0) as H;
      destruct (translate_switch_item bits l s c0) as [? ?]; cbn [snd] in H
  | |- context [translate_switch_body bits ?l ?s ?c0] =>
      pose proof (IH c0) as H;
      destruct (translate_switch_body bits l s c0) as [? ?]; cbn [snd] in H
  end.

Ltac along_opt :=
  let H := fresh "Ho" in
  match goal with
  | |- context [translate_opt_expr bits ?l ?e ?c0] =>
      pose proof (translate_opt_expr_grows l e c0) as H;
      destruct (translate_opt_expr bits l e c0) as [? ?]; cbn [snd] in H
  end.

Lemma translate_stmt_grows_all (loc : nat) (s : CStmt) :
  stmt_grows loc s /\ item_grows loc s /\ body_grows loc s.
Proof.
  induction s using CStmt_nested_ind;
    match goal with
    | |- _ /\ _ /\ (forall c, grows c (translate_switch_body _ _ ?s c).2) =>
        lazymatch s with
        | CCompoundStmt _ => idtac
        | CCaseStmt _ _ => idtac
        | CDefaultStmt _ => idtac
        | _ =>
            assert (Hs : stmt_grows loc s);
            [|split; [exact Hs|];
              split; apply item_grows_of_stmt; (exact I || exact Hs)]
        end
    end.
  - (* block *)
    assert (Hs : stmt_grows loc (CCompoundStmt body)).
    { intros c. rewrite translate_stmt_compound.
      pose proof (translate_block_grows_of loc body) as Hb.
      specialize (Hb ltac:(eapply Forall_impl; [exact H|]; cbn; tauto) c).
      destruct (translate_block bits loc body c). exact Hb. }
    split; [exact Hs|]. split.
    + apply item_grows_of_stmt; [exact I | exact Hs].
    + intros c. cbn [translate_switch_body].
      apply translate_switch_items_grows_of.
      eapply Forall_impl; [exact H|]. cbn. tauto.
  - intros c. cbn [translate_stmt]. grow_along.
  - intros c. cbn [translate_stmt]. grow_along. along_opt. grow_along.
  - destruct IHs as [IH _]. intros c. cbn [translate_stmt]. grow_along.
    along IH. grow_along.
  - destruct IHs1 as [IH1 _], IHs2 as [IH2 _]. intros c.
    cbn [translate_stmt]. grow_along. along IH1. along IH2. grow_along.
  - destruct IHs as [IH _]. intros c. cbn [translate_stmt]. grow_along.
    along IH. grow_along.
  - destruct IHs as [IH _]. intros c. cbn [translate_stmt].
    along IH. grow_along.
  - destruct IHs as [IH _]. intros c. cbn [translate_stmt].
    along_opt. along_opt. along IH. grow_along.
  - destruct IHs1 as [IH1 _], IHs2 as [IH2 _]. intros c.
    cbn [translate_stmt]. along IH1. along_opt. along_opt. along IH2.
    grow_along.
  - destruct IHs as (_ & _ & IH). intros c. rewrite translate_stmt_switch.
    grow_along. along IH. destruct (group_items _). grow_along.
  - (* case label *)
    destruct IHs as (IH & IHi & _).
    assert (Hi : item_grows loc (CCaseStmt lhs s)).
    { intros c. cbn [translate_switch_item]. grow_along. along IHi.
      grow_along. }
    split; [|split; exact Hi].
    intros c. cbn [translate_stmt]. along IH. grow_along.
  - (* default label *)
    destruct IHs as (IH & IHi & _).
    assert (Hi : item_grows loc (CDefaultStmt s)).
    { intros c. cbn [translate_switch_item]. along IHi. grow_along. }
    split; [|split; exact Hi].
    intros c. cbn [translate_stmt]. along IH. grow_along.
  - intros c. apply grows_refl.
  - intros c. apply grows_refl.
  - intros c. cbn [translate_stmt]. along_opt. grow_along.
  - destruct IHs as [IH _]. intros c. cbn [translate_stmt].
    along IH. grow_along.
  - intros c. apply emit_diagnostic_grows.
  - intros c. cbn [translate_stmt]. grow_along.
Qed.

Lemma translate_stmt_grows (loc : nat) (s : CStmt) (c : TranslationContext) :
  grows c (translate_stmt bits loc s c).2.
Proof. apply translate_stmt_grows_all. Qed.

End GrowthFacts.


(** *** The steps of the orchestrator *)

Lemma grows_evolves (c c' : TranslationContext) : grows c c' -> evolves c c'.
Proof.
  intros []. constructor; auto.
  intros h node Hn _. eapply prefix_lookup_Some; eassumption.
Qed.

Lemma evolves_refl (c : TranslationContext) : evolves c c.
Proof. apply grows_evolves, grows_refl. Qed.

Lemma evolves_trans (c1 c2 c3 : TranslationContext) :
  evolves c1 c2 -> evolves c2 c3 -> evolves c1 c3.
Proof.
  intros [] []. constructor; auto.
  - intros canon Hin.
    destruct (evolves_pending1 canon Hin) as [Hin2|Hnone]; [auto|].
    right. destruct (type_cache c1 !! KeyTag canon) as [h|] eqn:Hc;
      [|reflexivity].
    apply evolves_cache0 in Hc. congruence.
  - intros canon. specialize (evolves_tags0 canon).
    specialize (evolves_tags1 canon). lia.
Qed.

Lemma emit_decl_evolves (d : TranslatedDecl) (c : TranslationContext) :
  is_tag_definition d = false -> evolves c (emit_decl d c).
Proof.
  intros Hd. constructor; cbn -[tag_count]; auto.
  intros canon. rewrite tag_count_app, (tag_count_other canon d Hd).
  unfold cached_tag. cbn. lia.
Qed.

(** A step that leaves the cache, the cells, the pending set and the
    declarations alone. *)
Lemma evolves_frame (c c' : TranslationContext) :
  type_cache c' = type_cache c -> type_nodes c' = type_nodes c ->
  pending_forward_decls c' = pending_forward_decls c ->
  (forall canon,
     tag_count canon (output_decls c') = tag_count canon (output_decls c)) ->
  evolves c c'.
Proof.
  intros Hc Hn Hp Ho. constructor.
  - intros k h. rewrite Hc. auto.
  - intros h node. rewrite Hn. auto.
  - intros canon. rewrite Hp. auto.
  - intros canon. unfold cached_tag. rewrite Hc, Ho. reflexivity.
Qed.

Lemma name_params_frame (names : list string) (c : TranslationContext) :
  let c' := (name_params names c).2 in
  type_cache c' = type_cache c /\ type_nodes c' = type_nodes c
  /\ pending_forward_decls c' = pending_forward_decls c
  /\ output_decls c' = output_decls c /\ diagnostics c' = diagnostics c
  /\ decl_states c' = decl_states c.
Proof.
  revert c. induction names as [|n names IH]; intros c; cbn [name_params].
  - cbn. auto 10.
  - destruct (String.eqb n EmptyString).
    + specialize (IH (set_anon_name_counter (S (anon_name_counter c)) c)).
      destruct (name_params names _) as [ns c2]. cbn in *. exact IH.
    + specialize (IH c). destruct (name_params names c) as [ns c2].
      cbn in *. exact IH.
Qed.

Lemma name_params_evolves (names : list string) (c : TranslationContext) :
  evolves c (name_params names c).2.
Proof.
  destruct (name_params_frame names c) as (Hc & Hn & Hp & Ho & _).
  apply evolves_frame; auto. intros canon. rewrite Ho. reflexivity.
Qed.

Lemma declare_global_frame (name out_name : string) (c : TranslationContext) :
  let c' := declare_global name out_name c in
  type_cache c' = type_cache c /\ type_nodes c' = type_nodes c
  /\ pending_forward_decls c' = pending_forward_decls c
  /\ output_decls c' = output_decls c /\ diagnostics c' = diagnostics c
  /\ decl_states c' = decl_states c.
Proof. unfold declare_global. destruct (symbol_table c); cbn; auto 10. Qed.

Lemma declare_global_evolves (name out_name : string)
  (c : TranslationContext) : evolves c (declare_global name out_name c).
Proof.
  destruct (declare_global_frame name out_name c) as (Hc & Hn & Hp & Ho & _).
  apply evolves_frame; auto. intros canon. rewrite Ho. reflexivity.
Qed.

Lemma set_decl_states_evolves (v : gmap nat DeclState)
  (c : TranslationContext) : evolves c (set_decl_states v c).
Proof. apply evolves_frame; reflexivity. Qed.

Lemma tag_count_replace_function (canon fn : nat) (d : TranslatedDecl)
  (decls : list TranslatedDecl) :
  is_tag_definition d = false ->
  tag_count canon (replace_function fn d decls) = tag_count canon decls.
Proof.
  intros Hd. unfold tag_count, replace_function.
  induction decls as [|old decls IH]; [reflexivity|].
  cbn [map]. rewrite !filter_cons.
  assert (E : is_tag_definition_of canon
                (if is_function_of fn old then d else old)
              = is_tag_definition_of canon old).
  { destruct old; cbn; try reflexivity.
    destruct (bool_decide (canon0 = fn)); [|reflexivity].
    destruct d; cbn in *; congruence. }
  rewrite E. destruct (decide _); cbn [length]; rewrite IH; reflexivity.
Qed.

Lemma replace_function_evolves (fn : nat) (d : TranslatedDecl)
  (c : TranslationContext) :
  is_tag_definition d = false ->
  evolves c (set_output_decls (replace_function fn d (output_decls c)) c).
Proof.
  intros Hd. apply evolves_frame; try reflexivity.
  intros canon. cbn. apply tag_count_replace_function. exact Hd.
Qed.

Lemma resolve_forward_evolves (decl h : nat) (definition : TranslatedType)
  (c c' : TranslationContext) :
  resolve_forward decl h definition c = Some c' -> evolves c c'.
Proof.
  unfold resolve_forward. intros H.
  assert (Hres : evolves c
    (set_pending_forward_decls (pending_forward_decls c ∖ {[decl]}) c)).
  { constructor; cbn; auto. intros canon Hin. left.
    apply elem_of_difference in Hin as [Hin _]. exact Hin. }
  destruct (type_nodes c !! h) as [node|] eqn:Hn; [|discriminate].
  destruct node;
    try (case_decide; [|discriminate]; revert H; intros [= <-]; exact Hres).
  revert H; intros [= <-]. constructor; cbn; auto.
  - intros h' node' Hn' Hop.
    destruct (decide (h = h')) as [<-|Hne].
    + rewrite Hn in Hn'. injection Hn' as <-. discriminate.
    + rewrite list_lookup_insert_ne by exact Hne. exact Hn'.
  - intros canon Hin. left.
    apply elem_of_difference in Hin as [Hin _]. exact Hin.
Qed.

Lemma removed_not_pending (pending : gset nat) (decl : nat) :
  decl ∉ pending ∖ {[decl]}.
Proof.
  intros Hin. apply elem_of_difference in Hin as [_ Hin].
  apply Hin, elem_of_singleton. reflexivity.
Qed.

(** What [resolve_forward] leaves in the cell. *)
Lemma resolve_forward_cell (decl h : nat) (definition : TranslatedType)
  (c c' : TranslationContext) :
  resolve_forward decl h definition c = Some c' ->
  type_nodes c' !! h = Some definition
  /\ (decl ∉ pending_forward_decls c')
  /\ type_cache c' = type_cache c.
Proof.
  unfold resolve_forward. intros H.
  destruct (type_nodes c !! h) as [node|] eqn:Hn; [|discriminate].
  destruct node;
    try (case_decide; [subst definition|discriminate]; revert H; intros [= <-];
         cbn; split; [exact Hn | split; [apply removed_not_pending | reflexivity]]).
  revert H; intros [= <-]. cbn. split; [|split; [apply removed_not_pending | reflexivity]].
  apply list_lookup_insert_eq. eapply lookup_lt_Some. exact Hn.
Qed.

Lemma register_tag_cached (decl : nat) (name : string)
  (c : TranslationContext) :
  type_cache (register_tag decl name c).2 !! KeyTag decl
  = Some (register_tag decl name c).1.
Proof.
  unfold register_tag. destruct (type_cache c !! KeyTag decl) eqn:Hc.
  - exact Hc.
  - cbn. apply lookup_insert_eq.
Qed.

Section UnitFacts.

Variable bits : CIntType -> N.
Variable eval : CExpr -> option (Z * CType).

Lemma translate_fields_grows (loc : nat) (fields : list CField)
  (c : TranslationContext) : grows c (translate_fields bits loc fields c).2.
Proof.
  revert c. induction fields as [|f fields IH]; intros c;
    cbn [translate_fields]; [apply grows_refl|].
  pose proof (translate_type_grows bits loc (field_type f) c) as H1.
  destruct (translate_type bits loc (field_type f) c) as [h c1].
  specialize (IH c1). destruct (translate_fields bits loc fields c1).
  cbn [snd] in *. eapply grows_trans; eassumption.
Qed.

Lemma translate_fields_names (loc : nat) (fields : list CField)
  (c : TranslationContext) :
  map tfield_name (translate_fields bits loc fields c).1
  = map field_name fields.
Proof.
  revert c. induction fields as [|f fields IH]; intros c;
    cbn [translate_fields]; [reflexivity|].
  destruct (translate_type bits loc (field_type f) c) as [h c1].
  specialize (IH c1). destruct (translate_fields bits loc fields c1).
  cbn in *. rewrite IH. reflexivity.
Qed.

Lemma translate_body_grows (loc : nat) (body : option CStmt)
  (c : TranslationContext) : grows c (translate_body bits loc body c).2.
Proof.
  destruct body as [b|]; cbn [translate_body]; [|apply grows_refl].
  pose proof (translate_stmt_grows bits loc b c) as H.
  destruct (translate_stmt bits loc b c). exact H.
Qed.

Lemma define_tag_evolves (canon : nat) (name : string) (h : nat)
  (definition : TranslatedType) (c c' : TranslationContext) :
  define_tag canon name h definition c = Ok c' -> evolves c c'.
Proof.
  unfold define_tag. intros H.
  destruct (resolve_forward canon h definition c) as [c1|] eqn:Hr;
    [|discriminate].
  revert H; intros [= <-]. eapply resolve_forward_evolves. exact Hr.
Qed.

(** Chains the steps of one declaration. *)
Ltac evolve_along :=
  repeat match goal with
  | |- evolves ?c ?c => apply evolves_refl
  | H : evolves ?c ?c1 |- evolves ?c ?c1 => exact H
  | |- evolves ?c (set_decl_states _ ?c0) =>
      apply (evolves_trans c c0); [|apply set_decl_states_evolves]
  | |- evolves ?c (declare_global _ _ ?c0) =>
      apply (evolves_trans c c0); [|apply declare_global_evolves]
  | |- evolves ?c (emit_decl _ ?c0) =>
      apply (evolves_trans c c0);
      [|apply emit_decl_evolves; reflexivity]
  | |- evolves ?c (emit_diagnostic _ _ ?c0) =>
      apply (evolves_trans c c0);
      [|apply grows_evolves, emit_diagnostic_grows]
  | |- evolves ?c (set_output_decls (replace_function _ _ _) ?c0) =>
      apply (evolves_trans c c0);
      [|apply replace_function_evolves; reflexivity]
  | H : evolves ?c0 ?c1 |- evolves ?c ?c1 =>
      apply (evolves_trans c c0 c1); [|exact H]
  end.

Ltac step_with lemma e :=
  let H := fresh "He" in
  pose proof lemma as H; destruct e as [? ?]; cbn [snd] in H.

Ltac take_steps :=
  repeat match goal with
  | |- context [translate_type bits ?l ?t ?c0] =>
      step_with (grows_evolves _ _ (translate_type_grows bits l t c0))
                (translate_type bits l t c0)
  | |- context [name_params ?ns ?c0] =>
      step_with (name_params_evolves ns c0) (name_params ns c0)
  | |- context [translate_body bits ?l ?b ?c0] =>
      step_with (grows_evolves _ _ (translate_body_grows l b c0))
                (translate_body bits l b c0)
  | |- context [translate_fields bits ?l ?fs ?c0] =>
      step_with (grows_evolves _ _ (translate_fields_grows l fs c0))
                (translate_fields bits l fs c0)
  | |- context [register_tag ?d ?n ?c0] =>
      step_with (grows_evolves _ _ (register_tag_grows d n c0))
                (register_tag d n c0)
  end.

Lemma translate_decl_evolves (d : CDecl) (c c' : TranslationContext) :
  translate_decl bits eval d c = Ok c' -> evolves c c'.
Proof.
  destruct d; cbn [translate_decl].
  - destruct (decl_states c !! canon) as [[]|].
    + destruct body; [|intros [= <-]; apply evolves_refl].
      take_steps. intros [= <-]. evolve_along.
    + intros [= <-]. apply evolves_refl.
    + take_steps. intros [= <-]. evolve_along.
  - take_steps. destruct definition as [fields|].
    + take_steps. intros H. apply define_tag_evolves in H. evolve_along.
    + intros [= <-]. evolve_along.
  - take_steps. destruct definition as [constants|].
    + take_steps. intros H. apply define_tag_evolves in H. evolve_along.
    + intros [= <-]. evolve_along.
  - take_steps. intros [= <-]. evolve_along.
  - destruct (decl_states c !! canon); [intros [= <-]; apply evolves_refl|].
    take_steps. destruct init as [e|].
    + destruct (eval e) as [[v ?]|]; intros [= <-]; evolve_along.
    + intros [= <-]. evolve_along.
Qed.

Lemma translate_decls_app (l1 l2 : list CDecl) (c c' : TranslationContext) :
  translate_decls bits eval (l1 ++ l2) c = Ok c' ->
  exists c1, translate_decls bits eval l1 c = Ok c1
             /\ translate_decls bits eval l2 c1 = Ok c'.
Proof.
  revert c. induction l1 as [|d l1 IH]; intros c; cbn [app translate_decls].
  - eauto.
  - destruct (translate_decl bits eval d c); [apply IH | discriminate].
Qed.

Lemma translate_decls_evolves (ds : list CDecl) (c c' : TranslationContext) :
  translate_decls bits eval ds c = Ok c' -> evolves c c'.
Proof.
  revert c. induction ds as [|d ds IH]; intros c; cbn [translate_decls].
  - intros [= <-]. apply evolves_refl.
  - destruct (translate_decl bits eval d c) as [c1|] eqn:Hd; [|discriminate].
    intros H. eapply evolves_trans; [|apply IH; exact H].
    eapply translate_decl_evolves. exact Hd.
Qed.

(** Every record or enum with a handle has exactly one type definition
    in the output, every other none. *)
Lemma tag_count_cached (ds : list CDecl) (c : TranslationContext)
  (canon : nat) :
  translate_decls bits eval ds empty_context = Ok c ->
  tag_count canon (output_decls c) = cached_tag c canon.
Proof.
  intros H. apply translate_decls_evolves in H.
  pose proof (evolves_tags _ _ H canon) as Ht. cbn in Ht.
  unfold cached_tag in Ht at 1. cbn in Ht. rewrite lookup_empty in Ht. lia.
Qed.

(** A forward declaration registers the handle. *)
Lemma forward_registers (canon : nat) (d : CDecl) (c c' : TranslationContext) :
  is_forward_of canon d = true -> translate_decl bits eval d c = Ok c' ->
  exists h, type_cache c' !! KeyTag canon = Some h.
Proof.
  destruct d; try discriminate; destruct definition; try discriminate;
    cbn [is_forward_of translate_decl]; intros ->%bool_decide_eq_true;
    pose proof (register_tag_cached canon name c) as Hc;
    destruct (register_tag canon name c) as [h c1]; intros [= <-]; eauto.
Qed.

(** A forward declaration of a registered record or enum changes
    nothing. *)
Lemma forward_again (canon : nat) (d : CDecl) (c : TranslationContext)
  (h : nat) :
  is_forward_of canon d = true -> type_cache c !! KeyTag canon = Some h ->
  translate_decl bits eval d c = Ok c.
Proof.
  destruct d; try discriminate; destruct definition; try discriminate;
    cbn [is_forward_of translate_decl]; intros ->%bool_decide_eq_true Hc;
    unfold register_tag; rewrite Hc; reflexivity.
Qed.

(** A definition resolves the cell of its handle. *)
Lemma definition_resolves (canon : nat) (d : CDecl)
  (c c' : TranslationContext) :
  is_definition_of canon d = true -> translate_decl bits eval d c = Ok c' ->
  exists h node,
    type_cache c' !! KeyTag canon = Some h
    /\ type_nodes c' !! h = Some node /\ describes d node
    /\ (canon ∉ pending_forward_decls c').
Proof.
  destruct d; try discriminate; destruct definition as [body|];
    try discriminate;
    cbn [is_definition_of translate_decl]; intros ->%bool_decide_eq_true;
    pose proof (register_tag_cached canon name c) as Hc;
    destruct (register_tag canon name c) as [h c1]; cbn [fst snd] in Hc.
  - pose proof (translate_fields_grows loc body c1) as Hg.
    pose proof (translate_fields_names loc body c1) as Hnames.
    destruct (translate_fields bits loc body c1) as [tfields c2].
    cbn [fst snd] in *. unfold define_tag.
    destruct (resolve_forward canon h (TRecord is_union tfields) c2)
      as [c3|] eqn:Hr; [|discriminate].
    intros [= <-]. apply resolve_forward_cell in Hr as (Hcell & Hp & Hsame).
    exists h, (TRecord is_union tfields). rewrite Hsame.
    split; [exact (grows_cache _ _ Hg _ _ Hc)|].
    split; [exact Hcell|]. split; [|exact Hp]. cbn. auto.
  - pose proof (translate_type_grows bits loc int_type c1) as Hg.
    destruct (translate_type bits loc int_type c1) as [hi c2].
    cbn [fst snd] in *. unfold define_tag.
    destruct (resolve_forward canon h (TEnum hi body) c2)
      as [c3|] eqn:Hr; [|discriminate].
    intros [= <-]. apply resolve_forward_cell in Hr as (Hcell & Hp & Hsame).
    exists h, (TEnum hi body). rewrite Hsame.
    split; [exact (grows_cache _ _ Hg _ _ Hc)|].
    split; [exact Hcell|]. split; [|exact Hp]. cbn. auto.
Qed.

Lemma describes_not_opaque (d : CDecl) (node : TranslatedType) :
  describes d node -> is_opaque node = false.
Proof.
  destruct d as [| ? ? ? ? [?|] | ? ? ? ? [?|] | |], node; cbn;
    try contradiction; reflexivity.
Qed.

End UnitFacts.

(** C5.  A record or enum first seen as a forward declaration and
    defined later in the unit has exactly one type definition in the
    output; the handle given at the forward declaration is the one
    under which the definition's body is found at the end, the
    declaration is no longer pending, and any further forward
    declaration of the same canonical declaration changes nothing.  In
    [struct S *next; struct S { struct S *next; };] the field's type is
    the pointer cell 1 whose pointee is the record's own handle 0. *)
Theorem forward_declaration_resolved (bits : CIntType -> N)
  (eval : CExpr -> option (Z * CType)) :
  (forall (before middle after : list CDecl) (fwd def : CDecl) (canon : nat)
          (c : TranslationContext),
     is_forward_of canon fwd = true ->
     is_definition_of canon def = true ->
     translate_decls bits eval (before ++ fwd :: middle ++ def :: after)
       empty_context = Ok c ->
     tag_count canon (output_decls c) = 1
     /\ exists c_fwd h node,
          translate_decls bits eval (before ++ [fwd]) empty_context = Ok c_fwd
          /\ type_cache c_fwd !! KeyTag canon = Some h
          /\ type_cache c !! KeyTag canon = Some h
          /\ type_nodes c !! h = Some node
          /\ describes def node
          /\ (canon ∉ pending_forward_decls c)
          /\ forall d, is_forward_of canon d = true ->
                       translate_decl bits eval d c = Ok c)
  /\ exists c,
       translate_decls bits eval self_referential_unit empty_context = Ok c
       /\ type_cache c !! KeyTag 100 = Some 0
       /\ type_nodes c
          = [TRecord false [mkTField "next" 1 None]; TPointer 0 false false]
       /\ output_decls c
          = [TTypeDefinition 100 "S" 0;
             TGlobalVar 1 "next" 1 None false false]
       /\ pending_forward_decls c = ∅.
Proof.
  split.
  - intros before middle after fwd def canon c Hfwd Hdef Hrun.
    pose proof (tag_count_cached bits eval _ c canon Hrun) as Hcount.
    replace (before ++ fwd :: middle ++ def :: after)
      with ((before ++ [fwd]) ++ (middle ++ [def]) ++ after) in Hrun
      by (rewrite <- !app_assoc; reflexivity).
    apply translate_decls_app in Hrun as (c_fwd & Hrun1 & Hrun).
    apply translate_decls_app in Hrun as (c_def & Hrun2 & Hrun3).
    pose proof Hrun1 as Hrun1'.
    apply translate_decls_app in Hrun1' as (c0 & _ & Hf).
    cbn [translate_decls] in Hf.
    destruct (translate_decl bits eval fwd c0) as [c0'|] eqn:Hf1;
      [|discriminate].
    injection Hf as ->.
    destruct (forward_registers bits eval canon fwd c0 c_fwd Hfwd Hf1)
      as [h Hh].
    pose proof (translate_decls_evolves bits eval _ _ _ Hrun2) as E2.
    pose proof (translate_decls_evolves bits eval _ _ _ Hrun3) as E3.
    apply translate_decls_app in Hrun2 as (c1 & _ & Hd).
    cbn [translate_decls] in Hd.
    destruct (translate_decl bits eval def c1) as [c1'|] eqn:Hd1;
      [|discriminate].
    injection Hd as ->.
    destruct (definition_resolves bits eval canon def c1 c_def Hdef Hd1)
      as (h' & node & Hh' & Hnode & Hdesc & Hpend).
    assert (h' = h) as ->.
    { apply (evolves_cache _ _ E2) in Hh. congruence. }
    pose proof (evolves_cache _ _ E3 _ _ Hh') as Hfinal.
    split.
    { rewrite Hcount. unfold cached_tag. rewrite Hfinal. reflexivity. }
    exists c_fwd, h, node. repeat split; try assumption.
    + apply (evolves_nodes _ _ E3); [exact Hnode|].
      eapply describes_not_opaque. exact Hdesc.
    + intros Hin. apply (evolves_pending _ _ E3) in Hin as [Hin|Hnone];
        [contradiction | congruence].
    + intros d Hd. eapply forward_again; eassumption.
  - eexists. split; [reflexivity|]. repeat split.
Qed.

(** C5 applied to [struct S; struct S; struct S *head;
    struct S { struct S *next; };]. *)
Lemma forward_declaration_resolved_witness :
  exists c,
    translate_decls lp64 literal_evaluator forward_declared_unit empty_context
    = Ok c
    /\ tag_count 100 (output_decls c) = 1.
Proof.
  eexists. split; [reflexivity|].
  apply (proj1 (forward_declaration_resolved lp64 literal_evaluator)
           [] [CRecordDecl 100 6 "S" false None;
               CVarDecl 1 10 "head" struct_S_ptr None false false] []
           (CRecordDecl 100 5 "S" false None)
           (CRecordDecl 100 20 "S" false
              (Some [mkCField "next" struct_S_ptr None]))
           100 _ eq_refl eq_refl eq_refl).
Defined.


Section EntryFacts.

Variable bits : CIntType -> N.
Variable eval : CExpr -> option (Z * CType).

(** A builtin type is translated without a diagnostic. *)
Lemma translate_builtin_quiet (loc : nat) (kind : ZigClangBuiltinTypeKind)
  (c : TranslationContext) :
  diagnostics (translate_type bits loc (CBuiltinType kind) c).2
  = diagnostics c.
Proof.
  cbn [translate_type canonical_key].
  destruct (type_cache c !! KeyBuiltin kind); reflexivity.
Qed.

(** The only fatal error of the orchestrator is the violated
    invariant. *)
Lemma translate_decl_fatal (d : CDecl) (c : TranslationContext)
  (err : Error) (msg : string) :
  translate_decl bits eval d c = Fatal err msg ->
  err = ErrorInvariantViolation.
Proof.
  assert (Hdef : forall canon name h definition c0,
    define_tag canon name h definition c0 = Fatal err msg ->
    err = ErrorInvariantViolation).
  { intros canon name h definition c0. unfold define_tag.
    destruct (resolve_forward canon h definition c0); [discriminate|].
    intros [= <- _]. reflexivity. }
  destruct d; cbn [translate_decl].
  - destruct (decl_states c !! canon) as [[]|]; try discriminate.
    + destruct body; [|discriminate].
      destruct (translate_type bits loc ty c) as [h c1].
      destruct (name_params param_names c1) as [params c2].
      destruct (translate_body bits loc (Some c0) c2). discriminate.
    + destruct (translate_type bits loc ty c) as [h c1].
      destruct (name_params param_names c1) as [params c2].
      destruct (translate_body bits loc body c2). discriminate.
  - destruct (register_tag canon name c) as [h c1].
    destruct definition as [fields|]; [|discriminate].
    destruct (translate_fields bits loc fields c1). apply Hdef.
  - destruct (register_tag canon name c) as [h c1].
    destruct definition as [constants|]; [|discriminate].
    destruct (translate_type bits loc int_type c1). apply Hdef.
  - destruct (translate_type bits loc (CTypedefType canon name underlying) c).
    discriminate.
  - destruct (decl_states c !! canon); [discriminate|].
    destruct (translate_type bits loc ty c) as [h c1].
    destruct init as [e|]; [destruct (eval e) as [[v ?]|]|]; discriminate.
Qed.

Lemma translate_decls_fatal (ds : list CDecl) (c : TranslationContext)
  (err : Error) (msg : string) :
  translate_decls bits eval ds c = Fatal err msg ->
  err = ErrorInvariantViolation.
Proof.
  revert c. induction ds as [|d ds IH]; intros c; cbn [translate_decls];
    [discriminate|].
  destruct (translate_decl bits eval d c) as [c1|err' msg'] eqn:Hd.
  - apply IH.
  - intros [= <- _]. eapply translate_decl_fatal. exact Hd.
Qed.

Lemma translate_unit_fatal (unit : ASTUnit) (err : Error) (msg : string) :
  translate_unit bits eval unit = Fatal err msg ->
  err = ErrorInvariantViolation.
Proof.
  unfold translate_unit.
  destruct (translate_decls bits eval (top_level_decls unit) empty_context)
    as [c|err' msg'] eqn:Hd; [discriminate|].
  intros [= <- _]. eapply translate_decls_fatal. exact Hd.
Qed.

End EntryFacts.




(** Two definitions of one record that differ end the run on the
    violated invariant. *)
Example conflicting_definitions_fatal :
  exists msg,
    translate_unit lp64 literal_evaluator
      (mkASTUnit
         [CRecordDecl 100 1 "S" false (Some [mkCField "a" c_int None]);
          CRecordDecl 100 2 "S" false (Some [mkCField "b" c_int None])] [])
    = Fatal ErrorInvariantViolation msg.
Proof. eexists. reflexivity. Qed.



(** *** The equations of the supported constructs *)

Lemma supported_type_proto (canon : nat) (params : list CType) (ret : CType)
  (variadic : bool) :
  supported_type (CFunctionProtoType canon params ret variadic)
  = supported_type ret && supported_types params.
Proof. reflexivity. Qed.

Lemma supported_expr_call (ty : CType) (callee : CExpr) (args : list CExpr) :
  supported_expr (CCallExpr ty callee args)
  = supported_expr callee && supported_exprs args.
Proof. reflexivity. Qed.

Lemma supported_stmt_compound (body : list CStmt) :
  supported_stmt (CCompoundStmt body) = supported_block body.
Proof. reflexivity. Qed.

Lemma supported_stmt_switch (cond : CExpr) (body : CStmt) (flag : bool) :
  supported_stmt (CSwitchStmt cond body flag)
  = supported_expr cond && supported_switch_body body.
Proof. destruct body; reflexivity. Qed.

Section QuietFacts.

Variable bits : CIntType -> N.

(** *** Supported constructs are translated without a diagnostic *)

Lemma alloc_type_quiet (key : TypeKey) (node : TranslatedType)
  (c : TranslationContext) :
  diagnostics (alloc_type key node c).2 = diagnostics c.
Proof. reflexivity. Qed.

Lemma register_tag_quiet (decl : nat) (name : string)
  (c : TranslationContext) :
  diagnostics (register_tag decl name c).2 = diagnostics c.
Proof.
  unfold register_tag. destruct (type_cache c !! KeyTag decl); reflexivity.
Qed.

Lemma translate_types_quiet_of (loc : nat) (ts : list CType) :
  Forall (fun t => supported_type t = true ->
                   forall c, diagnostics (translate_type bits loc t c).2
                             = diagnostics c) ts ->
  supported_types ts = true ->
  forall c, diagnostics (translate_types bits loc ts c).2 = diagnostics c.
Proof.
  induction 1 as [|t ts Ht _ IH]; intros Hs c; cbn [translate_types].
  - reflexivity.
  - cbn [supported_types] in Hs. apply andb_prop in Hs as [Hs1 Hs2].
    specialize (Ht Hs1 c). destruct (translate_type bits loc t c) as [h c1].
    specialize (IH Hs2 c1). destruct (translate_types bits loc ts c1).
    cbn [snd] in *. congruence.
Qed.

Lemma translate_type_quiet (loc : nat) (t : CType) :
  supported_type t = true ->
  forall c, diagnostics (translate_type bits loc t c).2 = diagnostics c.
Proof.
  induction t using CType_nested_ind; intros Hs c;
    (match goal with
     | |- diagnostics (translate_type _ _ ?t _).2 = _ =>
         destruct (type_cache c !! canonical_key t) as [h|] eqn:Hc
     end;
     [erewrite translate_type_hit by eassumption; reflexivity
     |rewrite translate_type_miss by exact Hc]);
    try rewrite supported_type_proto in Hs; cbn [supported_type] in Hs.
  - reflexivity.
  - specialize (IHt Hs c). destruct (translate_type bits loc t c).
    exact IHt.
  - specialize (IHt Hs c). destruct (translate_type bits loc t c).
    exact IHt.
  - specialize (IHt Hs c). destruct (translate_type bits loc t c).
    exact IHt.
  - apply andb_prop in Hs as [Hs1 Hs2].
    specialize (IHt Hs1 c). destruct (translate_type bits loc t c) as [hr c1].
    pose proof (translate_types_quiet_of loc params H Hs2 c1) as Hps.
    destruct (translate_types bits loc params c1) as [hps c2].
    cbn [snd] in *. rewrite alloc_type_quiet. congruence.
  - apply register_tag_quiet.
  - apply register_tag_quiet.
  - specialize (IHt Hs c). destruct (translate_type bits loc t c) as [hu c1].
    exact IHt.
  - discriminate.
Qed.

Lemma translate_exprs_quiet_of (loc : nat) (es : list CExpr) :
  Forall (fun e => supported_expr e = true ->
                   forall c, diagnostics (translate_expr bits loc e c).2
                             = diagnostics c) es ->
  supported_exprs es = true ->
  forall c, diagnostics (translate_exprs bits loc es c).2 = diagnostics c.
Proof.
  induction 1 as [|e es He _ IH]; intros Hs c; cbn [translate_exprs].
  - reflexivity.
  - cbn [supported_exprs] in Hs. apply andb_prop in Hs as [Hs1 Hs2].
    specialize (He Hs1 c). destruct (translate_expr bits loc e c) as [x c1].
    specialize (IH Hs2 c1). destruct (translate_exprs bits loc es c1).
    cbn [snd] in *. congruence.
Qed.

(** Takes the next translation of a type in the goal, which adds no
    diagnostic. *)
Ltac quiet_type Hs :=
  let H := fresh "Hq" in
  match goal with
  | |- context [translate_type bits ?l ?t ?c0] =>
      pose proof (translate_type_quiet l t Hs c0) as H;
      destruct (translate_type bits l t c0) as [? ?]; cbn [snd] in H
  end.

Ltac quiet_with IH Hs :=
  let H := fresh "Hq" in
  match goal with
  | |- context [translate_expr bits ?l ?e ?c0] =>
      pose proof (IH Hs c0) as H;
      destruct (translate_expr bits l e c0) as [? ?]; cbn [snd] in H
  end.

Ltac split_supported H :=
  repeat match type of H with
  | _ && _ = true =>
      let H1 := fresh "Hs" in
      apply andb_prop in H as [H H1]
  end.

Lemma translate_expr_quiet (loc : nat) (e : CExpr) :
  supported_expr e = true ->
  forall c, diagnostics (translate_expr bits loc e c).2 = diagnostics c.
Proof.
  induction e using CExpr_nested_ind; intros Hs c;
    try rewrite translate_expr_call; try rewrite supported_expr_call in Hs;
    cbn [translate_expr]; cbn [supported_expr] in Hs.
  - quiet_type Hs. exact Hq.
  - reflexivity.
  - apply IHe. exact Hs.
  - apply andb_prop in Hs as [Hs1 Hs2]. quiet_type Hs1.
    quiet_with IHe Hs2. cbn [snd]. congruence.
  - apply andb_prop in Hs as [Hs Hs4]. apply andb_prop in Hs as [Hs Hs3].
    apply andb_prop in Hs as [Hs1 Hs2].
    quiet_type Hs1. quiet_type Hs2. quiet_with IHe1 Hs3.
    quiet_with IHe2 Hs4. cbn [snd]. congruence.
  - apply andb_prop in Hs as [Hs Hs4]. apply andb_prop in Hs as [Hs Hs3].
    apply andb_prop in Hs as [Hs1 Hs2].
    quiet_type Hs1. quiet_type Hs2. quiet_with IHe1 Hs3.
    quiet_with IHe2 Hs4. cbn [snd]. congruence.
  - apply andb_prop in Hs as [Hs1 Hs2]. quiet_with IHe Hs1.
    pose proof (translate_exprs_quiet_of loc args H Hs2 t0) as Hargs.
    destruct (translate_exprs bits loc args t0). cbn [snd] in *. congruence.
  - discriminate.
Qed.

Lemma translate_opt_expr_quiet (loc : nat) (e : option CExpr) :
  supported_opt_expr e = true ->
  forall c, diagnostics (translate_opt_expr bits loc e c).2 = diagnostics c.
Proof.
  destruct e as [e|]; cbn [supported_opt_expr translate_opt_expr];
    intros Hs c; [|reflexivity].
  pose proof (translate_expr_quiet loc e Hs c) as H.
  destruct (translate_expr bits loc e c). exact H.
Qed.

Local Abbreviation stmt_quiet loc s :=
  (supported_stmt s = true ->
   forall c, diagnostics (translate_stmt bits loc s c).2 = diagnostics c).
Local Abbreviation item_quiet loc s :=
  (supported_switch_item s = true ->
   forall c,
     diagnostics (translate_switch_item bits loc s c).2 = diagnostics c).
Local Abbreviation body_quiet loc s :=
  (supported_switch_body s = true ->
   forall c,
     diagnostics (translate_switch_body bits loc s c).2 = diagnostics c).

Lemma translate_block_quiet_of (loc : nat) (body : list CStmt) :
  Forall (fun s => stmt_quiet loc s) body ->
  supported_block body = true ->
  forall c, diagnostics (translate_block bits loc body c).2 = diagnostics c.
Proof.
  induction 1 as [|s body Hs _ IH]; intros Hb c; cbn [translate_block].
  - reflexivity.
  - cbn [supported_block] in Hb. apply andb_prop in Hb as [Hb1 Hb2].
    assert (H1 : diagnostics
      (match s with
       | CGotoStmt jump_loc label =>
           if forward_jump_target label body then (TJump label, c)
           else unsupported_jump jump_loc label c
       | _ => translate_stmt bits loc s c
       end).2 = diagnostics c).
    { destruct s; try (apply Hs; exact Hb1). rewrite Hb1. reflexivity. }
    destruct (match s with
              | CGotoStmt jump_loc label =>
                  if forward_jump_target label body then (TJump label, c)
                  else unsupported_jump jump_loc label c
              | _ => translate_stmt bits loc s c
              end) as [t c1].
    specialize (IH Hb2 c1).
    destruct (translate_block bits loc body c1) as [ts c2].
    cbn [snd] in *. congruence.
Qed.

Lemma translate_switch_items_quiet_of (loc : nat) (l : list CStmt) :
  Forall (fun s => item_quiet loc s) l ->
  supported_switch_items l = true ->
  forall c,
    diagnostics (translate_switch_items bits loc l c).2 = diagnostics c.
Proof.
  induction 1 as [|s l Hs _ IH]; intros Hl c; cbn [translate_switch_items].
  - reflexivity.
  - cbn [supported_switch_items] in Hl. apply andb_prop in Hl as [Hl1 Hl2].
    specialize (Hs Hl1 c).
    destruct (translate_switch_item bits loc s c) as [items1 c1].
    specialize (IH Hl2 c1).
    destruct (translate_switch_items bits loc l c1) as [items2 c2].
    cbn [snd] in *. congruence.
Qed.

Lemma item_quiet_of_stmt (loc : nat) (s : CStmt) :
  match s with CCaseStmt _ _ | CDefaultStmt _ => False | _ => True end ->
  stmt_quiet loc s -> item_quiet loc s.
Proof.
  intros Hs H Hsup c.
  destruct s; try contradiction; cbn [translate_switch_item];
    cbn [supported_switch_item] in Hsup; specialize (H Hsup c);
    destruct (translate_stmt bits loc _ c); exact H.
Qed.

(** Takes the next step of the goal's translation, which adds no
    diagnostic. *)
Ltac quiet_stmt IH Hs :=
  let H := fresh "Hq" in
  match goal with
  | |- context [translate_stmt bits ?l ?s ?c0] =>
      pose proof (IH Hs c0) as H;
      destruct (translate_stmt bits l s c0) as [? ?]; cbn [snd] in H
  | |- context [translate_switch_item bits ?l ?s ?c0] =>
      pose proof (IH Hs c0) as H;
      destruct (translate_switch_item bits l s c0) as [? ?]; cbn [snd] in H
  | |- context [translate_switch_body bits ?l ?s ?c0] =>
      pose proof (IH Hs c0) as H;
      destruct (translate_switch_body bits l s c0) as [? ?]; cbn [snd] in H
  end.

Ltac quiet_expr Hs :=
  let H := fresh "Hq" in
  match goal with
  | |- context [translate_expr bits ?l ?e ?c0] =>
      pose proof (translate_expr_quiet l e Hs c0) as H;
      destruct (translate_expr bits l e c0) as [? ?]; cbn [snd] in H
  end.

Ltac quiet_opt Hs :=
  let H := fresh "Hq" in
  match goal with
  | |- context [translate_opt_expr bits ?l ?e ?c0] =>
      pose proof (translate_opt_expr_quiet l e Hs c0) as H;
      destruct (translate_opt_expr bits l e c0) as [? ?]; cbn [snd] in H
  end.

Lemma translate_stmt_quiet_all (loc : nat) (s : CStmt) :
  stmt_quiet loc s /\ item_quiet loc s /\ body_quiet loc s.
Proof.
  induction s using CStmt_nested_ind;
    match goal with
    | |- _ /\ _ /\ (supported_switch_body ?s = true -> _) =>
        lazymatch s with
        | CCompoundStmt _ => idtac
        | CCaseStmt _ _ => idtac
        | CDefaultStmt _ => idtac
        | _ =>
            assert (Hs : stmt_quiet loc s);
            [intros Hsup c; cbn [supported_stmt] in Hsup
            |split; [exact Hs|];
              split; apply item_quiet_of_stmt; (exact I || exact Hs)]
        end
    end.
  - (* block *)
    assert (Hs : stmt_quiet loc (CCompoundStmt body)).
    { intros Hsup c. rewrite translate_stmt_compound.
      rewrite supported_stmt_compound in Hsup.
      pose proof (translate_block_quiet_of loc body) as Hb.
      specialize (Hb ltac:(eapply Forall_impl; [exact H|]; cbn; tauto) Hsup c).
      destruct (translate_block bits loc body c). exact Hb. }
    split; [exact Hs|]. split.
    + apply item_quiet_of_stmt; [exact I | exact Hs].
    + intros Hsup c. cbn [translate_switch_body supported_switch_body] in *.
      apply translate_switch_items_quiet_of; [|exact Hsup].
      eapply Forall_impl; [exact H|]. cbn. tauto.
  - cbn [translate_stmt]. quiet_expr Hsup. exact Hq.
  - cbn [translate_stmt]. apply andb_prop in Hsup as [Hs1 Hs2].
    quiet_type Hs1. quiet_opt Hs2. cbn [snd]. congruence.
  - destruct IHs as [IH _]. cbn [translate_stmt].
    apply andb_prop in Hsup as [Hsup _]. apply andb_prop in Hsup as [Hs1 Hs2].
    quiet_expr Hs1. quiet_stmt IH Hs2. cbn [snd]. congruence.
  - destruct IHs1 as [IH1 _], IHs2 as [IH2 _]. cbn [translate_stmt].
    apply andb_prop in Hsup as [Hsup Hs3]. apply andb_prop in Hsup as [Hs1 Hs2].
    quiet_expr Hs1. quiet_stmt IH1 Hs2. quiet_stmt IH2 Hs3. cbn [snd].
    congruence.
  - destruct IHs as [IH _]. cbn [translate_stmt].
    apply andb_prop in Hsup as [Hs1 Hs2].
    quiet_expr Hs1. quiet_stmt IH Hs2. cbn [snd]. congruence.
  - destruct IHs as [IH _]. cbn [translate_stmt].
    apply andb_prop in Hsup as [Hs1 Hs2].
    quiet_stmt IH Hs1. quiet_expr Hs2. cbn [snd]. congruence.
  - destruct IHs as [IH _]. cbn [translate_stmt].
    apply andb_prop in Hsup as [Hsup Hs3]. apply andb_prop in Hsup as [Hsup Hs2].
    apply andb_prop in Hsup as [_ Hs1].
    quiet_opt Hs1. quiet_opt Hs2. quiet_stmt IH Hs3. cbn [snd]. congruence.
  - destruct IHs1 as [IH1 _], IHs2 as [IH2 _]. cbn [translate_stmt].
    apply andb_prop in Hsup as [Hsup Hs3]. apply andb_prop in Hsup as [Hsup Hs2].
    apply andb_prop in Hsup as [Hs0 Hs1].
    quiet_stmt IH1 Hs0. quiet_opt Hs1. quiet_opt Hs2. quiet_stmt IH2 Hs3.
    cbn [snd]. congruence.
  - destruct IHs as (_ & _ & IH).
    assert (Hsup' : supported_stmt (CSwitchStmt cond s flag) = true)
      by exact Hsup.
    rewrite supported_stmt_switch in Hsup'.
    apply andb_prop in Hsup' as [Hs1 Hs2]. rewrite translate_stmt_switch.
    quiet_expr Hs1. quiet_stmt IH Hs2. destruct (group_items _).
    cbn [snd]. congruence.
  - (* case label *)
    destruct IHs as (IH & IHi & _).
    assert (Hi : item_quiet loc (CCaseStmt lhs s)).
    { intros Hsup c. cbn [translate_switch_item supported_switch_item] in *.
      apply andb_prop in Hsup as [Hs1 Hs2].
      quiet_expr Hs1. quiet_stmt IHi Hs2. cbn [snd]. congruence. }
    split; [discriminate|]. split; exact Hi.
  - (* default label *)
    destruct IHs as (IH & IHi & _).
    assert (Hi : item_quiet loc (CDefaultStmt s)).
    { intros Hsup c. cbn [translate_switch_item supported_switch_item] in *.
      quiet_stmt IHi Hsup. exact Hq. }
    split; [discriminate|]. split; exact Hi.
  - reflexivity.
  - reflexivity.
  - cbn [translate_stmt]. quiet_opt Hsup. exact Hq.
  - destruct IHs as [IH _]. cbn [translate_stmt]. quiet_stmt IH Hsup.
    exact Hq.
  - discriminate.
  - discriminate.
Qed.

Lemma translate_stmt_quiet (loc : nat) (s : CStmt) (c : TranslationContext) :
  supported_stmt s = true ->
  diagnostics (translate_stmt bits loc s c).2 = diagnostics c.
Proof. intros Hs. apply translate_stmt_quiet_all. exact Hs. Qed.

Lemma translate_block_quiet (loc : nat) (body : list CStmt)
  (c : TranslationContext) :
  supported_block body = true ->
  diagnostics (translate_block bits loc body c).2 = diagnostics c.
Proof.
  intros Hb. apply translate_block_quiet_of; [|exact Hb].
  apply Forall_forall. intros s _ Hs c0. apply translate_stmt_quiet. exact Hs.
Qed.

End QuietFacts.


(** *** Blocks with one unsupported jump *)

Lemma forward_jump_target_app (label : string) (rest more : list CStmt) :
  forward_jump_target label rest = true ->
  forward_jump_target label (rest ++ more) = true.
Proof.
  induction rest as [|s rest IH]; [discriminate|].
  destruct s; cbn [forward_jump_target app]; try exact IH.
  - destruct init; [discriminate | exact IH].
  - destruct (label0 =? label); [reflexivity | exact IH].
Qed.

Section IsolationFacts.

Variable bits : CIntType -> N.
Variable eval : CExpr -> option (Z * CType).

Lemma translate_block_app (loc : nat) (ss1 more : list CStmt)
  (c : TranslationContext) :
  supported_block ss1 = true ->
  translate_block bits loc (ss1 ++ more) c =
    let '(ts1, c1) := translate_block bits loc ss1 c in
    let '(ts2, c2) := translate_block bits loc more c1 in
    (ts1 ++ ts2, c2).
Proof.
  revert c. induction ss1 as [|s ss1 IH]; intros c Hs.
  - cbn. destruct (translate_block bits loc more c). reflexivity.
  - cbn [supported_block] in Hs. apply andb_prop in Hs as [Hs1 Hs2].
    cbn [app translate_block].
    assert (E :
      match s with
      | CGotoStmt jump_loc label =>
          if forward_jump_target label (ss1 ++ more) then (TJump label, c)
          else unsupported_jump jump_loc label c
      | _ => translate_stmt bits loc s c
      end
      = match s with
        | CGotoStmt jump_loc label =>
            if forward_jump_target label ss1 then (TJump label, c)
            else unsupported_jump jump_loc label c
        | _ => translate_stmt bits loc s c
        end).
    { destruct s; try reflexivity.
      rewrite Hs1, (forward_jump_target_app _ _ more Hs1). reflexivity. }
    rewrite E.
    destruct (match s with
              | CGotoStmt jump_loc label =>
                  if forward_jump_target label ss1 then (TJump label, c)
                  else unsupported_jump jump_loc label c
              | _ => translate_stmt bits loc s c
              end) as [t c1].
    rewrite (IH c1 Hs2).
    destruct (translate_block bits loc ss1 c1) as [ts1 c2].
    destruct (translate_block bits loc more c2) as [ts2 c3]. reflexivity.
Qed.

Lemma translate_block_length (loc : nat) (ss : list CStmt)
  (c : TranslationContext) :
  length (translate_block bits loc ss c).1 = length ss.
Proof.
  revert c. induction ss as [|s ss IH]; intros c; [reflexivity|].
  cbn [translate_block].
  destruct (match s with
            | CGotoStmt jump_loc label =>
                if forward_jump_target label ss then (TJump label, c)
                else unsupported_jump jump_loc label c
            | _ => translate_stmt bits loc s c
            end) as [t c1].
  specialize (IH c1). destruct (translate_block bits loc ss c1).
  cbn in *. rewrite IH. reflexivity.
Qed.

(** A block whose only unsupported construct is one jump: the jump
    becomes the stub, with one diagnostic. *)
Lemma translate_block_bad (loc : nat) (ss1 ss2 : list CStmt) (jump_loc : nat)
  (label : string) (c : TranslationContext) :
  supported_block ss1 = true -> supported_block ss2 = true ->
  forward_jump_target label ss2 = false ->
  exists ts1 ts2 c',
    translate_block bits loc (ss1 ++ CGotoStmt jump_loc label :: ss2) c
    = (ts1 ++ TUnreachable :: ts2, c')
    /\ diagnostics c'
       = diagnostics c
         ++ [mkDiagnostic SeverityWarning ("unsupported jump to " +:+ label)
               jump_loc]
    /\ length ts1 = length ss1.
Proof.
  intros Hs1 Hs2 Hjump. rewrite translate_block_app by exact Hs1.
  pose proof (translate_block_quiet bits loc ss1 c Hs1) as Hq1.
  pose proof (translate_block_length loc ss1 c) as Hlen.
  destruct (translate_block bits loc ss1 c) as [ts1 c1]. cbn [fst snd] in *.
  cbn [translate_block]. rewrite Hjump. unfold unsupported_jump.
  pose proof (translate_block_quiet bits loc ss2
                (emit_diagnostic ("unsupported jump to " +:+ label)
                   jump_loc c1) Hs2) as Hq2.
  destruct (translate_block bits loc ss2 _) as [ts2 c2]. cbn [snd] in Hq2.
  exists ts1, ts2, c2. split; [reflexivity|]. split; [|exact Hlen].
  rewrite Hq2. cbn. rewrite Hq1. reflexivity.
Qed.

(** *** One function at a time *)

(** The declaration of a function not seen before. *)
Lemma translate_function_unseen (canon loc : nat) (name : string) (ty : CType)
  (param_names : list string) (body : option CStmt) (c : TranslationContext) :
  decl_states c !! canon = None ->
  let '(h, c1) := translate_type bits loc ty c in
  let '(params, c2) := name_params param_names c1 in
  let '(tb, c3) := translate_body bits loc body c2 in
  exists c',
    translate_decl bits eval
      (CFunctionDecl canon loc name ty param_names body) c = Ok c'
    /\ diagnostics c' = diagnostics c3
    /\ output_decls c' = output_decls c3 ++ [TFunction canon name h params tb]
    /\ decl_states c' = <[canon := state_of_body body]> (decl_states c)
    /\ output_decls c `prefix_of` output_decls c3
    /\ function_canons (output_decls c3) = function_canons (output_decls c)
    /\ diagnostics c2 = diagnostics c1.
Proof.
  intros Hnew. cbn [translate_decl]. rewrite Hnew.
  pose proof (translate_type_grows bits loc ty c) as G1.
  destruct (translate_type bits loc ty c) as [h c1].
  pose proof (name_params_frame param_names c1) as F.
  destruct (name_params param_names c1) as [params c2].
  pose proof (translate_body_grows bits loc body c2) as G2.
  destruct (translate_body bits loc body c2) as [tb c3].
  cbn [snd] in *. destruct F as (_ & _ & _ & Fo & Fd & Fs).
  destruct G1 as [_ _ _ G1o G1s _ _ _ _ G1f].
  destruct G2 as [_ _ _ G2o G2s _ _ _ _ G2f].
  eexists. split; [reflexivity|].
  pose proof (declare_global_frame name name c3) as (_ & _ & _ & Do & Dd & Ds).
  cbn -[declare_global] in Do, Dd, Ds. cbn -[declare_global].
  rewrite ?Do, ?Dd, ?Ds. repeat split; try congruence.
  etrans; [exact G1o|]. rewrite <- Fo. exact G2o.
Qed.

Lemma translate_function_ok (canon loc : nat) (name : string) (ty : CType)
  (param_names : list string) (body : option CStmt) (c : TranslationContext) :
  exists c',
    translate_decl bits eval
      (CFunctionDecl canon loc name ty param_names body) c = Ok c'.
Proof.
  cbn [translate_decl].
  destruct (decl_states c !! canon) as [[]|]; [destruct body|..];
    repeat match goal with
    | |- context [let '(_, _) := ?e in _] => destruct e as [? ?]
    end; eauto.
Qed.

Lemma insert_other_state (canon k : nat) (st : DeclState)
  (states states' : gmap nat DeclState) :
  states' = <[canon := st]> states -> k <> canon ->
  states' !! k = states !! k.
Proof. intros -> Hne. apply lookup_insert_ne. congruence. Qed.

Lemma supported_function_step (d : CDecl) (c : TranslationContext) :
  supported_function d = true -> decl_states c !! decl_canon d = None ->
  exists c',
    translate_decl bits eval d c = Ok c'
    /\ diagnostics c' = diagnostics c
    /\ function_canons (output_decls c')
       = function_canons (output_decls c) ++ [decl_canon d]
    /\ output_decls c `prefix_of` output_decls c'
    /\ forall k, k <> decl_canon d -> decl_states c' !! k = decl_states c !! k.
Proof.
  destruct d; try discriminate. cbn [supported_function decl_canon].
  intros Hs Hnew. apply andb_prop in Hs as [Hty Hbody].
  pose proof (translate_function_unseen canon loc name ty param_names body c
                Hnew) as Hstep.
  pose proof (translate_type_quiet bits loc ty Hty c) as Q1.
  destruct (translate_type bits loc ty c) as [h c1].
  destruct (name_params param_names c1) as [params c2].
  assert (Q2 : diagnostics (translate_body bits loc body c2).2
               = diagnostics c2).
  { destruct body as [b|]; cbn [translate_body]; [|reflexivity].
    pose proof (translate_stmt_quiet bits loc b c2 Hbody) as Q.
    destruct (translate_stmt bits loc b c2). exact Q. }
  destruct (translate_body bits loc body c2) as [tb c3]. cbn [snd] in *.
  destruct Hstep as (c' & Hrun & Hd & Ho & Hst & Hpre & Hf & Hd2).
  exists c'. split; [exact Hrun|]. split; [congruence|].
  split; [rewrite Ho, function_canons_app, Hf; reflexivity|].
  split; [rewrite Ho; etrans; [exact Hpre | apply prefix_app_r; reflexivity]|].
  intros k Hk. eapply insert_other_state; eassumption.
Qed.

Lemma bad_function_step (canon loc : nat) (name : string) (ty : CType)
  (param_names : list string) (ss1 ss2 : list CStmt) (jump_loc : nat)
  (label : string) (c : TranslationContext) :
  supported_type ty = true -> supported_block ss1 = true ->
  supported_block ss2 = true -> forward_jump_target label ss2 = false ->
  decl_states c !! canon = None ->
  exists c' h params ts1 ts2,
    translate_decl bits eval
      (CFunctionDecl canon loc name ty param_names
         (Some (CCompoundStmt (ss1 ++ CGotoStmt jump_loc label :: ss2)))) c
    = Ok c'
    /\ diagnostics c'
       = diagnostics c
         ++ [mkDiagnostic SeverityWarning ("unsupported jump to " +:+ label)
               jump_loc]
    /\ function_canons (output_decls c')
       = function_canons (output_decls c) ++ [canon]
    /\ output_decls c `prefix_of` output_decls c'
    /\ In (TFunction canon name h params
             (Some (TBlock (ts1 ++ TUnreachable :: ts2)))) (output_decls c')
    /\ length ts1 = length ss1
    /\ forall k, k <> canon -> decl_states c' !! k = decl_states c !! k.
Proof.
  intros Hty Hs1 Hs2 Hjump Hnew.
  pose proof (translate_function_unseen canon loc name ty param_names
                (Some (CCompoundStmt (ss1 ++ CGotoStmt jump_loc label :: ss2)))
                c Hnew) as Hstep.
  pose proof (translate_type_quiet bits loc ty Hty c) as Q1.
  destruct (translate_type bits loc ty c) as [h c1].
  destruct (name_params param_names c1) as [params c2].
  cbn [translate_body] in Hstep. rewrite translate_stmt_compound in Hstep.
  destruct (translate_block_bad loc ss1 ss2 jump_loc label c2 Hs1 Hs2 Hjump)
    as (ts1 & ts2 & c3 & Hblock & Hdiag & Hlen).
  rewrite Hblock in Hstep. cbn [snd] in *.
  destruct Hstep as (c' & Hrun & Hd & Ho & Hst & Hpre & Hf & Hd2).
  exists c', h, params, ts1, ts2. split; [exact Hrun|].
  split; [congruence|].
  split; [rewrite Ho, function_canons_app, Hf; reflexivity|].
  split; [rewrite Ho; etrans; [exact Hpre | apply prefix_app_r; reflexivity]|].
  split; [rewrite Ho; apply in_or_app; right; left; reflexivity|].
  split; [exact Hlen|].
  intros k Hk. eapply insert_other_state; eassumption.
Qed.

(** *** A run of supported functions *)

Lemma supported_functions_run (ds : list CDecl) (c : TranslationContext) :
  forallb supported_function ds = true ->
  NoDup (map decl_canon ds) ->
  (forall k, In k (map decl_canon ds) -> decl_states c !! k = None) ->
  exists c',
    translate_decls bits eval ds c = Ok c'
    /\ diagnostics c' = diagnostics c
    /\ function_canons (output_decls c')
       = function_canons (output_decls c) ++ map decl_canon ds
    /\ output_decls c `prefix_of` output_decls c'
    /\ forall k, ~ In k (map decl_canon ds) ->
                 decl_states c' !! k = decl_states c !! k.
Proof.
  revert c. induction ds as [|d ds IH]; intros c Hs Hnd Hnew.
  - exists c. cbn. rewrite app_nil_r. auto.
  - cbn [forallb] in Hs. apply andb_prop in Hs as [Hd Hs].
    cbn [map] in Hnd, Hnew. apply NoDup_cons in Hnd as [Hnotin Hnd].
    destruct (supported_function_step d c Hd (Hnew _ (or_introl eq_refl)))
      as (c1 & Hrun1 & Hq1 & Hf1 & Hp1 & Hst1).
    destruct (IH c1 Hs Hnd) as (c' & Hrun & Hq & Hf & Hp & Hst).
    { intros k Hk. rewrite Hst1; [apply Hnew; right; exact Hk|].
      intros ->. apply Hnotin. apply list_elem_of_In. exact Hk. }
    exists c'. cbn [translate_decls]. rewrite Hrun1.
    split; [exact Hrun|]. split; [congruence|].
    split; [rewrite Hf, Hf1, <- app_assoc; reflexivity|].
    split; [etrans; eassumption|].
    intros k Hk. cbn [map] in Hk. rewrite Hst, Hst1; [reflexivity|..].
    + intros ->. apply Hk. left. reflexivity.
    + intros Hin. apply Hk. right. exact Hin.
Qed.

Lemma translate_decls_compose (l1 l2 : list CDecl)
  (c c1 : TranslationContext) :
  translate_decls bits eval l1 c = Ok c1 ->
  translate_decls bits eval (l1 ++ l2) c = translate_decls bits eval l2 c1.
Proof.
  revert c. induction l1 as [|d l1 IH]; intros c; cbn [app translate_decls].
  - intros [= ->]. reflexivity.
  - destruct (translate_decl bits eval d c); [apply IH | discriminate].
Qed.

End IsolationFacts.



(** [zig translate-c a.c] with a translation that comes back with two
    diagnostics ends with [EXIT_SUCCESS]. *)
Example translate_c_with_diagnostics_succeeds :
  let run := Driver.main Driver.posix_env ["zig"; "translate-c"; "a.c"] in
  In (Driver.CodegenTranslateC (Some "a.c")
        (Driver.TranslateReturns
           ["unsupported jump"; "unable to translate macro"])) run.1
  /\ run.2 = Driver.Exited Driver.EXIT_SUCCESS.
Proof. vm_compute. auto. Qed.

End EngineFacts.
(** ** More facts about the path functions of os.cpp *)

Module OsMoreFacts.

Import Os OsFacts.

Local Open Scope list_scope.

Section SplitFacts.

Variable os : Platform.

Lemma os_path_split_unfold (p : list ascii) :
  os_path_split os p =
    if (length p =? 0)%nat then (["."%char], p)
    else if os_is_sep os (byte_at p (length p - 1))
            && (length p - 1 =? 0)%nat
    then ([byte_at p (length p - 1)], [])
    else
      match split_scan os p
              (if os_is_sep os (byte_at p (length p - 1))
               then length p - 1 - 1 else length p - 1) with
      | Some i => (take (if (i =? 0)%nat then 1 else i) p, drop (i + 1) p)
      | None => (["."%char], p)
      end.
Proof.
  unfold os_path_split. destruct (length p =? 0)%nat eqn:Hlen; [reflexivity|].
  cbn [negb]. cbv zeta.
  destruct (os_is_sep os (byte_at p (length p - 1)) && (length p - 1 =? 0)%nat);
    [reflexivity|].
  destruct (split_scan os p _) as [i|]; [|reflexivity].
  unfold buf_init_from_mem. rewrite drop_0. f_equal.
  apply take_ge. rewrite length_drop. lia.
Qed.

Lemma byte_at_drop (p : list ascii) (n k : nat) :
  byte_at (drop n p) k = byte_at p (n + k).
Proof. unfold byte_at. rewrite !nth_lookup, lookup_drop. reflexivity. Qed.

Lemma byte_at_take (p : list ascii) (n k : nat) :
  k < n -> byte_at (take n p) k = byte_at p k.
Proof.
  intros Hk. unfold byte_at. rewrite !nth_lookup, lookup_take_lt by exact Hk.
  reflexivity.
Qed.

Lemma byte_at_Some (p : list ascii) (k : nat) :
  k < length p -> p !! k = Some (byte_at p k).
Proof.
  intros Hk. destruct (lookup_lt_is_Some_2 p k Hk) as [c Hc].
  rewrite (byte_at_lookup p k c Hc). exact Hc.
Qed.

Lemma byte_at_end (p : list ascii) (k : nat) :
  length p <= k -> byte_at p k = zero.
Proof.
  intros Hk. unfold byte_at. rewrite nth_lookup, lookup_ge_None_2 by exact Hk.
  reflexivity.
Qed.

Lemma zero_not_sep : os_is_sep os zero = false.
Proof. destruct os; reflexivity. Qed.

End SplitFacts.


(** The base name [os_path_split] returns holds no separator, except
    that its last byte is one when the path ends with a separator. *)
Theorem os_path_split_basename (os : Platform) (p : list ascii) (k : nat) :
  S k < length (os_path_split os p).2 ->
  os_is_sep os (byte_at (os_path_split os p).2 k) = false.
Proof.
  rewrite os_path_split_unfold.
  destruct (length p =? 0)%nat eqn:Hlen.
  { apply Nat.eqb_eq in Hlen. cbn [snd]. lia. }
  destruct (os_is_sep os (byte_at p (length p - 1)) && (length p - 1 =? 0)%nat).
  { cbn. lia. }
  destruct (split_scan os p _) as [i|] eqn:Hscan; cbn [snd].
  - rewrite length_drop, byte_at_drop. intros Hk.
    apply split_scan_some in Hscan as (_ & _ & Hno). apply Hno.
    destruct (os_is_sep os (byte_at p (length p - 1))); lia.
  - intros Hk. apply (split_scan_none os p _ Hscan).
    destruct (os_is_sep os (byte_at p (length p - 1))); lia.
Qed.

(** [os_path_split("a/b/")]: the base name keeps the trailing
    separator. *)
Lemma os_path_split_basename_witness :
  os_is_sep ZIG_OS_POSIX
    (byte_at (os_path_split ZIG_OS_POSIX
                (list_ascii_of_string "a/b/")).2 0) = false.
Proof.
  apply (os_path_split_basename ZIG_OS_POSIX (list_ascii_of_string "a/b/") 0).
  cbn. lia.
Defined.

(** The directory [os_path_dirname] returns is the path itself exactly
    for ["."] and for a single separator: these are the paths at which
    a walk up the directories stops. *)
Theorem os_path_dirname_fixed (os : Platform) (p : list ascii) :
  os_path_dirname os p = p
  <-> p = ["."%char] \/ exists c, os_is_sep os c = true /\ p = [c].
Proof.
  unfold os_path_dirname. rewrite os_path_split_unfold. split.
  - destruct (length p =? 0)%nat eqn:Hlen; cbn [fst]; [auto|].
    apply Nat.eqb_neq in Hlen.
    destruct (os_is_sep os (byte_at p (length p - 1))) eqn:Hlast; cbn [andb].
    + destruct (length p - 1 =? 0)%nat eqn:Hone; cbn [fst].
      * intros <-. right. eauto.
      * apply Nat.eqb_neq in Hone.
        destruct (split_scan os p (length p - 1 - 1)) as [i|] eqn:Hscan;
          cbn [fst]; [|auto].
        apply split_scan_some in Hscan as (Hle & _ & _).
        intros E. apply (f_equal length) in E. rewrite length_take in E.
        destruct (i =? 0)%nat; lia.
    + destruct (split_scan os p (length p - 1)) as [i|] eqn:Hscan;
        cbn [fst]; [|auto].
      apply split_scan_some in Hscan as (Hle & Hsep & _).
      intros E. pose proof (f_equal length E) as El.
      rewrite length_take in El.
      destruct (i =? 0)%nat eqn:Hi0.
      * apply Nat.eqb_eq in Hi0. subst i.
        assert (length p = 1) by lia.
        replace (length p - 1) with 0 in Hlast by lia. congruence.
      * lia.
  - intros [->|(c & Hc & ->)].
    + destruct os; reflexivity.
    + cbn. unfold byte_at. cbn. rewrite Hc. reflexivity.
Qed.

(** Every step of the walk up the directories that is not its last one
    shortens the path, but for a path without separator, whose
    directory is ["."]. *)
Lemma os_path_dirname_shorter (os : Platform) (p : list ascii) :
  os_path_dirname os p <> p ->
  length (os_path_dirname os p) < length p \/ os_path_dirname os p = ["."%char].
Proof.
  unfold os_path_dirname. rewrite os_path_split_unfold.
  destruct (length p =? 0)%nat eqn:Hlen; cbn [fst]; [auto|].
  apply Nat.eqb_neq in Hlen.
  destruct (os_is_sep os (byte_at p (length p - 1))) eqn:Hlast; cbn [andb].
  - destruct (length p - 1 =? 0)%nat eqn:Hone; cbn [fst].
    + apply Nat.eqb_eq in Hone. intros Hne. exfalso. apply Hne.
      destruct p as [|c [|c' p]]; cbn in *; try lia. reflexivity.
    + apply Nat.eqb_neq in Hone.
      destruct (split_scan os p (length p - 1 - 1)) as [i|] eqn:Hscan;
        cbn [fst]; [|auto].
      apply split_scan_some in Hscan as (Hle & _ & _).
      intros _. left. rewrite length_take. destruct (i =? 0)%nat; lia.
  - destruct (split_scan os p (length p - 1)) as [i|] eqn:Hscan;
      cbn [fst]; [|auto].
    apply split_scan_some in Hscan as (Hle & Hsep & _).
    intros Hne. left. rewrite length_take.
    destruct (i =? 0)%nat eqn:Hi0; [|lia].
    apply Nat.eqb_eq in Hi0. subst i.
    destruct (decide (length p = 1)) as [H1|H1]; [|lia].
    replace (length p - 1) with 0 in Hlast by lia. congruence.
Qed.

(** The scan finds the separator below which there is none. *)
Lemma split_scan_found (os : Platform) (p : list ascii) (i j : nat) :
  j <= i ->
  os_is_sep os (byte_at p j) = true ->
  (forall k, j < k <= i -> os_is_sep os (byte_at p k) = false) ->
  split_scan os p i = Some j.
Proof.
  intros Hle Hsep Hno. induction i as [|i IH]; cbn [split_scan].
  - replace j with 0 in Hsep by lia. rewrite Hsep. f_equal. lia.
  - destruct (decide (j = S i)) as [->|Hne].
    + rewrite Hsep. reflexivity.
    + rewrite (Hno (S i)) by lia. apply IH; [lia|].
      intros k Hk. apply Hno. lia.
Qed.

Lemma byte_at_app_r (a b : list ascii) (k : nat) :
  length a <= k -> byte_at (a ++ b) k = byte_at b (k - length a).
Proof.
  intros Hk. unfold byte_at. rewrite !nth_lookup, lookup_app_r by exact Hk.
  reflexivity.
Qed.

Lemma has_sep_byte (os : Platform) (b : list ascii) (k : nat) :
  has_sep os b = false -> os_is_sep os (byte_at b k) = false.
Proof.
  intros Hb. destruct (has_sep_false os b k Hb) as [H|H]; [exact H|].
  rewrite byte_at_end by exact H. apply zero_not_sep.
Qed.

(** A path split where [d] ends and [b], which holds no separator,
    starts. *)
Lemma os_path_split_app (os : Platform) (d b : list ascii) (c : ascii) :
  os_is_sep os c = true ->
  b <> [] ->
  has_sep os b = false ->
  os_path_split os (d ++ c :: b)
  = (if (length d =? 0)%nat then [c] else d, b).
Proof.
  intros Hc Hb Hsep. rewrite os_path_split_unfold.
  assert (Hlen : length (d ++ c :: b) = length d + S (length b)).
  { rewrite length_app. reflexivity. }
  assert (Hpos : 0 < length b) by (destruct b; [congruence | cbn; lia]).
  assert (Hin : forall k, length d < k ->
            os_is_sep os (byte_at (d ++ c :: b) k) = false).
  { intros k Hk. rewrite byte_at_app_r by lia.
    replace (k - length d) with (S (k - length d - 1)) by lia.
    apply (has_sep_byte os b _ Hsep). }
  rewrite Hlen. replace (length d + S (length b) =? 0)%nat with false
    by (symmetry; apply Nat.eqb_neq; lia).
  rewrite (Hin (length d + S (length b) - 1)) by lia. cbn [andb].
  rewrite (split_scan_found os _ _ (length d)).
  - replace (length d + 1) with (S (length d)) by lia.
    replace (drop (S (length d)) (d ++ c :: b)) with b
      by (clear; induction d; cbn; auto).
    destruct (length d =? 0)%nat eqn:Hd.
    + apply Nat.eqb_eq in Hd. destruct d; [reflexivity | discriminate].
    + rewrite take_app_length. reflexivity.
  - lia.
  - rewrite byte_at_middle. exact Hc.
  - intros k Hk. apply Hin. lia.
Qed.

(** Splitting what [os_path_join] put together gives the two parts
    back: for a non-empty base name without separator and a directory
    that does not end with a separator, or is a single separator. *)
Theorem os_path_join_split (os : Platform) (sep : ascii) (d b : list ascii) :
  os_is_sep os sep = true ->
  d <> [] ->
  ends_with_sep os d = false \/ length d = 1 ->
  b <> [] ->
  has_sep os b = false ->
  os_path_split os (os_path_join os sep d b) = (d, b).
Proof.
  intros Hsep Hd Hend Hb Hno. unfold os_path_join.
  assert (Hlen : (length d =? 0)%nat = false).
  { apply Nat.eqb_neq. destruct d; [congruence | cbn; lia]. }
  rewrite Hlen. cbv zeta.
  destruct (os_is_sep os (byte_at d (length d - 1))) eqn:Hlast; cbn [negb].
  - destruct Hend as [Hend|Hone]; [unfold ends_with_sep in Hend; congruence|].
    destruct d as [|c [|c' d]]; try discriminate. cbn in Hlast.
    change ([c] ++ b) with ([] ++ c :: b).
    rewrite os_path_split_app by assumption. reflexivity.
  - cbn [app]. rewrite os_path_split_app by assumption.
    rewrite Hlen. reflexivity.
Qed.

(** ["/usr/lib"] joined with ["zig"] and split again. *)
Lemma os_path_join_split_witness :
  os_path_split ZIG_OS_POSIX
    (os_path_join ZIG_OS_POSIX "/" (list_ascii_of_string "/usr/lib")
       (list_ascii_of_string "zig"))
  = (list_ascii_of_string "/usr/lib", list_ascii_of_string "zig").
Proof.
  apply (os_path_join_split ZIG_OS_POSIX "/"
           (list_ascii_of_string "/usr/lib") (list_ascii_of_string "zig"));
    try reflexivity; try discriminate.
  left. reflexivity.
Defined.

Lemma os_path_join_nonempty (os : Platform) (sep : ascii) (a b : list ascii) :
  a <> [] ->
  os_path_join os sep a b
  = a ++ (if os_is_sep os (byte_at a (length a - 1)) then [] else [sep]) ++ b.
Proof.
  intros Ha. unfold os_path_join.
  replace (length a =? 0)%nat with false
    by (symmetry; apply Nat.eqb_neq; destruct a; [congruence | cbn; lia]).
  cbv zeta. destruct (os_is_sep os (byte_at a (length a - 1))); reflexivity.
Qed.

Lemma byte_at_last_app (x y : list ascii) :
  y <> [] ->
  byte_at (x ++ y) (length (x ++ y) - 1) = byte_at y (length y - 1).
Proof.
  intros Hy.
  assert (0 < length y) by (destruct y; [congruence | cbn; lia]).
  rewrite length_app, byte_at_app_r by lia. f_equal. lia.
Qed.

(** Joining is associative when the byte [os_path_join] inserts is a
    separator of the platform: a path built up part by part does not
    depend on the order the parts were joined in. *)
Theorem os_path_join_assoc (os : Platform) (sep : ascii) (a b c : list ascii) :
  os_is_sep os sep = true ->
  os_path_join os sep (os_path_join os sep a b) c
  = os_path_join os sep a (os_path_join os sep b c).
Proof.
  intros Hsep.
  destruct (decide (a = [])) as [->|Ha]; [reflexivity|].
  destruct (decide (b = [])) as [->|Hb].
  - change (os_path_join os sep [] c) with c.
    rewrite (os_path_join_nonempty os sep a []) by exact Ha.
    rewrite (os_path_join_nonempty os sep a c) by exact Ha.
    destruct (os_is_sep os (byte_at a (length a - 1))) eqn:Hlast;
      cbn [app]; rewrite ?app_nil_r.
    + rewrite os_path_join_nonempty by exact Ha. rewrite Hlast. reflexivity.
    + rewrite os_path_join_nonempty by (destruct a; discriminate).
      rewrite byte_at_last_app by discriminate. cbn [length Nat.sub].
      change (byte_at [sep] 0) with sep. rewrite Hsep.
      rewrite <- app_assoc. reflexivity.
  - rewrite (os_path_join_nonempty os sep a b) by exact Ha.
    rewrite (os_path_join_nonempty os sep b c) by exact Hb.
    rewrite (os_path_join_nonempty os sep a) by exact Ha.
    rewrite os_path_join_nonempty by (destruct a; [congruence | discriminate]).
    rewrite (app_assoc a _ b), byte_at_last_app by exact Hb.
    rewrite <- !app_assoc. reflexivity.
Qed.

(** Joined either way, ["a"], ["b"] and ["c"] give ["a/b/c"]. *)
Lemma os_path_join_assoc_witness :
  os_path_join ZIG_OS_POSIX "/"
    (os_path_join ZIG_OS_POSIX "/" ["a"] ["b"]) ["c"]
  = os_path_join ZIG_OS_POSIX "/" ["a"]
      (os_path_join ZIG_OS_POSIX "/" ["b"] ["c"]).
Proof.
  apply (os_path_join_assoc ZIG_OS_POSIX "/" ["a"] ["b"] ["c"]).
  reflexivity.
Defined.

(** On a POSIX build the directory of an absolute path is absolute and
    the directory of a relative path is relative. *)
Theorem os_path_dirname_absolute (p : list ascii) :
  os_path_is_absolute ZIG_OS_POSIX (os_path_dirname ZIG_OS_POSIX p)
  = os_path_is_absolute ZIG_OS_POSIX p.
Proof.
  unfold os_path_dirname. rewrite os_path_split_unfold.
  cbn [os_path_is_absolute].
  destruct (length p =? 0)%nat eqn:Hlen; cbn [fst].
  { apply Nat.eqb_eq in Hlen. destruct p; [reflexivity | discriminate]. }
  apply Nat.eqb_neq in Hlen.
  destruct (os_is_sep ZIG_OS_POSIX (byte_at p (length p - 1))
            && (length p - 1 =? 0)%nat) eqn:Hroot; cbn [fst].
  { apply andb_true_iff in Hroot as [_ Hone]. apply Nat.eqb_eq in Hone.
    replace (length p - 1) with 0 by lia. reflexivity. }
  destruct (split_scan ZIG_OS_POSIX p _) as [i|] eqn:Hscan; cbn [fst].
  - apply split_scan_some in Hscan as (_ & Hsep & _).
    destruct i as [|i]; cbn [Nat.eqb]; rewrite byte_at_take by lia;
      reflexivity.
  - pose proof (split_scan_none ZIG_OS_POSIX p _ Hscan 0) as H0.
    cbn [os_is_sep] in H0. rewrite H0 by lia. reflexivity.
Qed.

(** On a Windows build the directory of the absolute path ["C:/x"] is
    ["C:"], which is not absolute. *)
Example os_path_dirname_absolute_windows :
  let p := list_ascii_of_string "C:/x" in
  os_path_is_absolute ZIG_OS_WINDOWS p = true
  /\ os_path_dirname ZIG_OS_WINDOWS p = list_ascii_of_string "C:"
  /\ os_path_is_absolute ZIG_OS_WINDOWS (os_path_dirname ZIG_OS_WINDOWS p)
     = false.
Proof. repeat split. Qed.

Lemma extname_scan_some (p : list ascii) (i j : nat) :
  extname_scan p i = Some j ->
  j <= i /\ byte_at p j = "."%char
  /\ forall k, j < k <= i -> byte_at p k <> "."%char.
Proof.
  induction i as [|i IH]; cbn [extname_scan].
  - destruct (Ascii.eqb (byte_at p 0) ".") eqn:E; [|discriminate].
    intros [= <-]. apply Ascii.eqb_eq in E. repeat split; auto.
    intros k Hk. lia.
  - destruct (Ascii.eqb (byte_at p (S i)) ".") eqn:E.
    + intros [= <-]. apply Ascii.eqb_eq in E. repeat split; auto.
      intros k Hk. lia.
    + intros H. destruct (IH H) as (Hle & Hdot & Hno).
      repeat split; [lia | exact Hdot |].
      intros k Hk. destruct (decide (k = S i)) as [->|Hne].
      * apply Ascii.eqb_neq. exact E.
      * apply Hno. lia.
Qed.

Lemma extname_scan_none (p : list ascii) (i : nat) :
  extname_scan p i = None ->
  forall k, k <= i -> byte_at p k <> "."%char.
Proof.
  induction i as [|i IH]; cbn [extname_scan].
  - destruct (Ascii.eqb (byte_at p 0) ".") eqn:E; [discriminate|].
    intros _ k Hk. replace k with 0 by lia. apply Ascii.eqb_neq. exact E.
  - destruct (Ascii.eqb (byte_at p (S i)) ".") eqn:E; [discriminate|].
    intros H k Hk. destruct (decide (k = S i)) as [->|Hne].
    + apply Ascii.eqb_neq. exact E.
    + apply IH; [exact H | lia].
Qed.

(** [os_path_extname] cuts the path in two without losing a byte; the
    extension is empty exactly when the path holds no ['.'], and else
    starts at the last ['.'] of the path. *)
Theorem os_path_extname_parts (p : list ascii) :
  let '(basename, extname) := os_path_extname p in
  p = basename ++ extname
  /\ (extname = [] /\ "."%char ∉ p
      \/ exists rest, extname = "."%char :: rest /\ "."%char ∉ rest).
Proof.
  unfold os_path_extname.
  destruct (length p =? 0)%nat eqn:Hlen.
  { apply Nat.eqb_eq in Hlen. destruct p; [|discriminate].
    split; [reflexivity|]. left. split; [reflexivity|]. apply not_elem_of_nil. }
  apply Nat.eqb_neq in Hlen.
  destruct (extname_scan p (length p - 1)) as [i|] eqn:Hscan.
  - apply extname_scan_some in Hscan as (Hle & Hdot & Hno).
    split; [symmetry; apply take_drop|]. right.
    assert (Hi : i < length p) by lia.
    pose proof (byte_at_Some p i Hi) as Hb. rewrite Hdot in Hb.
    exists (drop (S i) p). split.
    + symmetry. apply drop_S in Hb. symmetry. exact Hb.
    + intros Hin. apply list_elem_of_lookup in Hin as [k Hk].
      rewrite lookup_drop in Hk.
      apply (Hno (S i + k)).
      * apply lookup_lt_Some in Hk. lia.
      * apply byte_at_lookup. exact Hk.
  - split; [rewrite app_nil_r; reflexivity|]. left. split; [reflexivity|].
    intros Hin. apply list_elem_of_lookup in Hin as [k Hk].
    apply (extname_scan_none p _ Hscan k).
    + apply lookup_lt_Some in Hk. lia.
    + apply byte_at_lookup. exact Hk.
Qed.

End OsMoreFacts.

(** ** Facts about the byte-level functions of os.cpp *)

Module OsByteFacts.

Import Os OsFacts OsMoreFacts.

Local Open Scope list_scope.

(** *** Comparison ignoring case *)

Lemma ascii_eql_loop_true (s1 s2 : Buf) (n : nat) :
  forall i,
    ascii_eql_loop s1 s2 i n = true
    <-> forall k, i <= k < i + n ->
          asciiUpper (byte_at s1 k) = asciiUpper (byte_at s2 k).
Proof.
  induction n as [|n IH]; intros i; cbn [ascii_eql_loop].
  - split; [intros _ k Hk; lia | reflexivity].
  - destruct (Ascii.eqb (asciiUpper (byte_at s1 i))
                (asciiUpper (byte_at s2 i))) eqn:Hi; cbn [negb].
    + apply Ascii.eqb_eq in Hi. rewrite IH. split.
      * intros H k Hk. destruct (decide (k = i)) as [->|Hne]; [exact Hi|].
        apply H. lia.
      * intros H k Hk. apply H. lia.
    + apply Ascii.eqb_neq in Hi. split; [discriminate|].
      intros H. exfalso. apply Hi, H. lia.
Qed.

(** Two strings are equal for [asciiEqlIgnoreCase] exactly when
    [asciiUpper] maps them, byte by byte, to the same string. *)
Theorem asciiEqlIgnoreCase_upper (s1 s2 : Buf) :
  asciiEqlIgnoreCase s1 s2 = true
  <-> map asciiUpper s1 = map asciiUpper s2.
Proof.
  unfold asciiEqlIgnoreCase.
  destruct (length s1 =? length s2)%nat eqn:Hlen; cbn [negb].
  - apply Nat.eqb_eq in Hlen. rewrite ascii_eql_loop_true. split.
    + intros H. apply list_eq. intros k. rewrite !list_lookup_fmap.
      destruct (decide (k < length s1)) as [Hk|Hk].
      * rewrite (byte_at_Some s1 k), (byte_at_Some s2 k) by lia.
        cbn. f_equal. apply H. lia.
      * rewrite !lookup_ge_None_2 by lia. reflexivity.
    + intros H k Hk.
      assert (Hl : map asciiUpper s1 !! k = map asciiUpper s2 !! k)
        by (rewrite H; reflexivity).
      rewrite !list_lookup_fmap in Hl.
      rewrite (byte_at_Some s1 k), (byte_at_Some s2 k) in Hl by lia.
      cbn in Hl. congruence.
  - apply Nat.eqb_neq in Hlen. split; [discriminate|].
    intros H. apply (f_equal length) in H. rewrite !length_map in H. lia.
Qed.

(** *** UTF-8 *)

Local Open Scope Z_scope.

Lemma testbit_below (x n i : Z) :
  0 <= x < 2 ^ n -> n <= i -> Z.testbit x i = false.
Proof.
  intros Hx Hi. destruct (Z.eq_dec x 0) as [->|Hne]; [apply Z.bits_0|].
  apply Z.bits_above_log2; [lia|].
  assert (0 <= n).
  { destruct (Z.lt_ge_cases n 0) as [Hn|Hn]; [|exact Hn].
    rewrite Z.pow_neg_r in Hx by exact Hn. lia. }
  assert (Z.log2 x < n) by (apply Z.log2_lt_pow2; lia). lia.
Qed.

(** [h << n | x] is [h * 2^n + x] when [x] fits in [n] bits. *)
Lemma lor_shiftl (h x n : Z) :
  0 <= n -> 0 <= x < 2 ^ n ->
  Z.lor (Z.shiftl h n) x = h * 2 ^ n + x.
Proof.
  intros Hn Hx. rewrite <- Z.shiftl_mul_pow2 by exact Hn.
  symmetry. apply Z.add_nocarry_lor. apply Z.bits_inj'. intros i Hi.
  rewrite Z.land_spec, Z.bits_0.
  destruct (Z.lt_ge_cases i n) as [Hlt|Hge].
  - rewrite Z.shiftl_spec_low by exact Hlt. reflexivity.
  - rewrite (testbit_below x n i Hx Hge). apply andb_false_r.
Qed.

Lemma land_low (x n : Z) : 0 <= n -> Z.land x (2 ^ n - 1) = x mod 2 ^ n.
Proof.
  intros Hn. rewrite <- Z.land_ones by exact Hn.
  rewrite Z.ones_equiv, <- Z.sub_1_r. reflexivity.
Qed.

Lemma lead_2 (x : Z) : 0 <= x < 64 -> Z.lor 0xC0 x = 192 + x.
Proof. intros Hx. apply (lor_shiftl 3 x 6); lia. Qed.

Lemma lead_3 (x : Z) : 0 <= x < 16 -> Z.lor 0xE0 x = 224 + x.
Proof. intros Hx. apply (lor_shiftl 14 x 4); lia. Qed.

Lemma lead_4 (x : Z) : 0 <= x < 8 -> Z.lor 0xF0 x = 240 + x.
Proof. intros Hx. apply (lor_shiftl 30 x 3); lia. Qed.

(** A continuation byte: [0b10000000 | (x & 0b111111)]. *)
Lemma continuation (x : Z) :
  to_u8 (Z.lor 0x80 (Z.land x 0x3F)) = 128 + x mod 64.
Proof.
  change 0x3F with (2 ^ 6 - 1). rewrite land_low by lia.
  assert (0 <= x mod 2 ^ 6 < 64) by (apply Z.mod_pos_bound; lia).
  change (Z.lor 0x80 (x mod 2 ^ 6))
    with (Z.lor (Z.shiftl 2 6) (x mod 2 ^ 6)).
  rewrite (lor_shiftl 2 (x mod 2 ^ 6) 6) by lia.
  unfold to_u8. rewrite Z.mod_small by lia. reflexivity.
Qed.

(** [utf8Encode] passes its assertions exactly for the Unicode scalar
    values: the code points up to [0x10FFFF] that are no surrogates. *)
Theorem utf8Encode_defined (c : Z) :
  0 <= c ->
  (utf8Encode c <> None
   <-> c < 0x110000 /\ ~ (0xd800 <= c <= 0xdfff)).
Proof.
  intros Hc. unfold utf8Encode, utf8CodepointSequenceLength.
  destruct (c <? 0x80) eqn:H1; [split; [lia | discriminate]|].
  destruct (c <? 0x800) eqn:H2; [split; [lia | discriminate]|].
  destruct (c <? 0x10000) eqn:H3.
  - destruct ((0xd800 <=? c) && (c <=? 0xdfff)) eqn:Hs.
    + apply andb_true_iff in Hs as [Hlo Hhi]. split; [congruence|].
      intros [_ Hno]. exfalso. apply Hno. lia.
    + apply andb_false_iff in Hs. split; [|discriminate].
      intros _. split; [lia|]. destruct Hs; lia.
  - destruct (c <? 0x110000) eqn:H4; [split; [lia | discriminate]|].
    split; [congruence|]. intros [Hlt _]. lia.
Qed.

(** The euro sign. *)
Lemma utf8Encode_defined_witness :
  utf8Encode 0x20AC <> None
  <-> 0x20AC < 0x110000 /\ ~ (0xd800 <= 0x20AC <= 0xdfff).
Proof. apply (utf8Encode_defined 0x20AC). lia. Defined.

(** The bytes [utf8Encode] writes are UTF-8: a lead byte that tells
    the length and continuation bytes in [0x80 .. 0xBF], no overlong
    form, and the bits of the code point in their places. *)
Theorem utf8Encode_layout (c : Z) (bytes : list Z) :
  0 <= c ->
  utf8Encode c = Some bytes ->
  match bytes with
  | [b0] => b0 = c /\ c < 0x80
  | [b0; b1] =>
      0xC2 <= b0 < 0xE0 /\ 0x80 <= b1 < 0xC0
      /\ c = (b0 - 0xC0) * 64 + (b1 - 0x80)
  | [b0; b1; b2] =>
      0xE0 <= b0 < 0xF0 /\ 0x80 <= b1 < 0xC0 /\ 0x80 <= b2 < 0xC0
      /\ c = (b0 - 0xE0) * 4096 + (b1 - 0x80) * 64 + (b2 - 0x80)
      /\ 0x800 <= c
  | [b0; b1; b2; b3] =>
      0xF0 <= b0 < 0xF5 /\ 0x80 <= b1 < 0xC0 /\ 0x80 <= b2 < 0xC0
      /\ 0x80 <= b3 < 0xC0
      /\ c = (b0 - 0xF0) * 262144 + (b1 - 0x80) * 4096
             + (b2 - 0x80) * 64 + (b3 - 0x80)
      /\ 0x10000 <= c
  | _ => False
  end.
Proof.
  intros Hc. unfold utf8Encode, utf8CodepointSequenceLength.
  destruct (c <? 0x80) eqn:H1.
  { intros [= <-]. unfold to_u8. rewrite Z.mod_small by lia. lia. }
  destruct (c <? 0x800) eqn:H2.
  { intros [= <-]. rewrite continuation, Z.shiftr_div_pow2 by lia.
    change (2 ^ 6) with 64.
    assert (2 <= c / 64 < 32)
      by (split; [apply Z.div_le_lower_bound
                 | apply Z.div_lt_upper_bound]; lia).
    rewrite lead_2 by lia. unfold to_u8. rewrite Z.mod_small by lia.
    pose proof (Z.mod_pos_bound c 64 ltac:(lia)).
    pose proof (Z.div_mod c 64 ltac:(lia)). lia. }
  destruct (c <? 0x10000) eqn:H3.
  { destruct ((0xd800 <=? c) && (c <=? 0xdfff)); [discriminate|].
    intros [= <-]. rewrite !continuation, !Z.shiftr_div_pow2 by lia.
    change (2 ^ 6) with 64. change (2 ^ 12) with 4096.
    assert (0 <= c / 4096 < 16)
      by (split; [apply Z.div_le_lower_bound
                 | apply Z.div_lt_upper_bound]; lia).
    rewrite lead_3 by lia. unfold to_u8. rewrite Z.mod_small by lia.
    pose proof (Z.mod_pos_bound c 64 ltac:(lia)).
    pose proof (Z.mod_pos_bound (c / 64) 64 ltac:(lia)).
    pose proof (Z.div_mod c 64 ltac:(lia)).
    pose proof (Z.div_mod (c / 64) 64 ltac:(lia)).
    replace (c / 4096) with (c / 64 / 64) in *
      by (rewrite Z.div_div by lia; reflexivity).
    lia. }
  destruct (c <? 0x110000) eqn:H4; [|discriminate].
  intros [= <-]. rewrite !continuation, !Z.shiftr_div_pow2 by lia.
  change (2 ^ 6) with 64. change (2 ^ 12) with 4096.
  change (2 ^ 18) with 262144.
  assert (0 <= c / 262144 < 5)
    by (split; [apply Z.div_le_lower_bound
               | apply Z.div_lt_upper_bound]; lia).
  rewrite lead_4 by lia. unfold to_u8. rewrite Z.mod_small by lia.
  pose proof (Z.mod_pos_bound c 64 ltac:(lia)).
  pose proof (Z.mod_pos_bound (c / 64) 64 ltac:(lia)).
  pose proof (Z.mod_pos_bound (c / 4096) 64 ltac:(lia)).
  pose proof (Z.div_mod c 64 ltac:(lia)).
  pose proof (Z.div_mod (c / 64) 64 ltac:(lia)).
  pose proof (Z.div_mod (c / 4096) 64 ltac:(lia)).
  replace (c / 262144) with (c / 4096 / 64) in *
    by (rewrite Z.div_div by lia; reflexivity).
  replace (c / 4096) with (c / 64 / 64) in *
    by (rewrite Z.div_div by lia; reflexivity).
  lia.
Qed.

(** The euro sign is written as [E2 82 AC]. *)
Lemma utf8Encode_layout_witness :
  0xE0 <= 0xE2 < 0xF0 /\ 0x80 <= 0x82 < 0xC0 /\ 0x80 <= 0xAC < 0xC0
  /\ 0x20AC = (0xE2 - 0xE0) * 4096 + (0x82 - 0x80) * 64 + (0xAC - 0x80)
  /\ 0x800 <= 0x20AC.
Proof.
  apply (utf8Encode_layout 0x20AC [0xE2; 0x82; 0xAC]); [lia | reflexivity].
Defined.

(** *** UTF-16 *)

(** [c & ~0x03ff] clears the ten low bits of a 32-bit value. *)
Lemma surrogate_class_high (c : Z) :
  0 <= c < 2 ^ 32 -> surrogate_class c = 1024 * (c / 1024).
Proof.
  intros Hc. unfold surrogate_class.
  change 0xFFFFFC00 with (Z.shiftl (Z.ones 22) 10).
  change 1024 with (2 ^ 10).
  rewrite Z.mul_comm, <- Z.shiftr_div_pow2, <- Z.shiftl_mul_pow2 by lia.
  apply Z.bits_inj'. intros i Hi. rewrite Z.land_spec.
  destruct (Z.lt_ge_cases i 10) as [Hlt|Hge].
  - rewrite !Z.shiftl_spec_low by exact Hlt. apply andb_false_r.
  - rewrite !Z.shiftl_spec, Z.shiftr_spec by lia.
    replace (i - 10 + 10) with i by lia.
    destruct (Z.lt_ge_cases i 32) as [Hlt|Hhigh].
    + rewrite Z.ones_spec_low by lia. apply andb_true_r.
    + rewrite (testbit_below c 32 i Hc Hhigh). reflexivity.
Qed.

(** The code unit read from its two bytes, low byte first. *)
Lemma code_unit_bytes (c : Z) (rest : list Z) :
  0 <= c ->
  code_unit (c mod 256 :: c / 256 :: rest) 0 = c.
Proof.
  intros Hc. unfold code_unit, wide_byte. cbn [nth Nat.add].
  pose proof (Z.mod_pos_bound c 256 ltac:(lia)).
  rewrite Z.lor_comm, (lor_shiftl (c / 256) (c mod 256) 8) by lia.
  change (2 ^ 8) with 256. pose proof (Z.div_mod c 256 ltac:(lia)). lia.
Qed.

Lemma code_unit_shift (a b : Z) (rest : list Z) (i : nat) :
  code_unit (a :: b :: rest) (S (S i)) = code_unit rest i.
Proof. reflexivity. Qed.

(** A code unit outside the surrogates, low byte first, is read by
    [Utf16LeIterator_nextCodepoint] as its own code point, and the
    iterator moves on by two bytes. *)
Theorem Utf16LeIterator_nextCodepoint_unit (c : Z) (rest : list Z) :
  0 < c < 0x10000 -> ~ (0xd800 <= c <= 0xdfff) ->
  Utf16LeIterator_nextCodepoint (c mod 256 :: c / 256 :: rest) 0
  = Some (Some c, 2%nat).
Proof.
  intros Hc Hno. unfold Utf16LeIterator_nextCodepoint.
  rewrite code_unit_bytes by lia.
  rewrite surrogate_class_high by lia.
  unfold wide_byte. cbn [nth Nat.add].
  pose proof (Z.mod_pos_bound c 256 ltac:(lia)).
  pose proof (Z.div_mod c 256 ltac:(lia)).
  pose proof (Z.mod_pos_bound c 1024 ltac:(lia)).
  pose proof (Z.div_mod c 1024 ltac:(lia)).
  assert (0 <= c / 256) by (apply Z.div_pos; lia).
  replace ((c mod 256 =? 0) && (c / 256 =? 0)) with false.
  2:{ symmetry. apply andb_false_iff.
      destruct (Z.eq_dec (c mod 256) 0) as [Hz|Hz];
        [right | left]; apply Z.eqb_neq; lia. }
  replace (1024 * (c / 1024) =? 0xd800) with false
    by (symmetry; apply Z.eqb_neq; lia).
  replace (1024 * (c / 1024) =? 0xdc00) with false
    by (symmetry; apply Z.eqb_neq; lia).
  reflexivity.
Qed.

(** The euro sign, [AC 20]. *)
Lemma Utf16LeIterator_nextCodepoint_unit_witness :
  Utf16LeIterator_nextCodepoint (0x20AC mod 256 :: 0x20AC / 256 :: []) 0
  = Some (Some 0x20AC, 2%nat).
Proof. apply (Utf16LeIterator_nextCodepoint_unit 0x20AC []); lia. Defined.

(** The surrogate pair of a code point above [0xFFFF] is read back as
    that code point, and the iterator moves on by four bytes. *)
Theorem Utf16LeIterator_nextCodepoint_pair (c : Z) (rest : list Z) :
  0x10000 <= c < 0x110000 ->
  let high := 0xD800 + (c - 0x10000) / 1024 in
  let low := 0xDC00 + (c - 0x10000) mod 1024 in
  Utf16LeIterator_nextCodepoint
    (high mod 256 :: high / 256 :: low mod 256 :: low / 256 :: rest) 0
  = Some (Some c, 4%nat).
Proof.
  intros Hc high low. unfold Utf16LeIterator_nextCodepoint.
  pose proof (Z.mod_pos_bound (c - 0x10000) 1024 ltac:(lia)) as Hlow.
  pose proof (Z.div_mod (c - 0x10000) 1024 ltac:(lia)) as Hv.
  assert (Hhigh : 0 <= (c - 0x10000) / 1024 < 1024)
    by (split; [apply Z.div_pos | apply Z.div_lt_upper_bound]; lia).
  assert (Hh : 0xD800 <= high < 0xDC00) by (subst high; lia).
  assert (Hl : 0xDC00 <= low < 0xE000) by (subst low; lia).
  cbn [Nat.add]. rewrite code_unit_bytes by lia.
  rewrite code_unit_shift, code_unit_bytes by lia.
  rewrite !surrogate_class_high by lia.
  unfold wide_byte. cbn [nth].
  assert (high / 256 <> 0).
  { intros Hz. pose proof (Z.div_mod high 256 ltac:(lia)).
    pose proof (Z.mod_pos_bound high 256 ltac:(lia)). lia. }
  assert (low / 256 <> 0).
  { intros Hz. pose proof (Z.div_mod low 256 ltac:(lia)).
    pose proof (Z.mod_pos_bound low 256 ltac:(lia)). lia. }
  replace (high / 256 =? 0) with false by (symmetry; apply Z.eqb_neq; lia).
  replace (low / 256 =? 0) with false by (symmetry; apply Z.eqb_neq; lia).
  rewrite !andb_false_r.
  assert (Hhq : high / 1024 = 54).
  { symmetry. apply (Z.div_unique high 1024 54 (high - 54 * 1024)); lia. }
  assert (Hlq : low / 1024 = 55).
  { symmetry. apply (Z.div_unique low 1024 55 (low - 55 * 1024)); lia. }
  rewrite Hhq, Hlq. cbn [Z.mul Pos.mul Z.eqb Pos.eqb negb].
  change 0x03ff with (2 ^ 10 - 1). rewrite !land_low by lia.
  change (2 ^ 10) with 1024.
  assert (Hhm : high mod 1024 = (c - 0x10000) / 1024).
  { symmetry. apply (Z.mod_unique high 1024 54); lia. }
  assert (Hlm : low mod 1024 = (c - 0x10000) mod 1024).
  { symmetry. apply (Z.mod_unique low 1024 55); lia. }
  rewrite Hhm, Hlm, lor_shiftl by lia. change (2 ^ 10) with 1024.
  do 3 f_equal. lia.
Qed.

(** U+1F600, [3D D8 00 DE]. *)
Lemma Utf16LeIterator_nextCodepoint_pair_witness :
  let high := 0xD800 + (0x1F600 - 0x10000) / 1024 in
  let low := 0xDC00 + (0x1F600 - 0x10000) mod 1024 in
  Utf16LeIterator_nextCodepoint
    (high mod 256 :: high / 256 :: low mod 256 :: low / 256 :: []) 0
  = Some (Some 0x1F600, 4%nat).
Proof. apply (Utf16LeIterator_nextCodepoint_pair 0x1F600 []). lia. Defined.

(** The bytes of a string of code units below [0x100]: each one
    followed by a zero byte. *)
Lemma wide_byte_narrow (s : list Z) (k : nat) :
  wide_byte (flat_map (fun a => [a; 0]) s) (2 * k) = nth k s 0
  /\ wide_byte (flat_map (fun a => [a; 0]) s) (2 * k + 1) = 0.
Proof.
  unfold wide_byte. revert k. induction s as [|a s IH]; intros k.
  - cbn [flat_map].
    split; [destruct (2 * k)%nat | destruct (2 * k + 1)%nat];
      destruct k; reflexivity.
  - destruct k as [|k]; [split; reflexivity|].
    replace (2 * S k)%nat with (S (S (2 * k))) by lia.
    cbn [flat_map app nth Nat.add]. apply IH.
Qed.

Lemma utf16le_loop_ascii (s : list Z) (n : nat) :
  forall (k fuel : nat) (out : list Z),
    Forall (fun a => 0 < a < 0x80) s ->
    (k + n)%nat = length s -> (n < fuel)%nat ->
    utf16le_loop fuel (flat_map (fun a => [a; 0]) s) (2 * k) out
    = Some (out ++ drop k s).
Proof.
  induction n as [|n IH]; intros k fuel out Hs Hk Hfuel;
    (destruct fuel as [|fuel]; [lia|]); cbn [utf16le_loop];
    destruct (wide_byte_narrow s k) as [H0 H1].
  - unfold Utf16LeIterator_nextCodepoint.
    rewrite H0, H1, nth_overflow by lia. cbn [Z.eqb andb].
    rewrite drop_ge, app_nil_r by lia. reflexivity.
  - assert (Hlt : (k < length s)%nat) by lia.
    destruct (lookup_lt_is_Some_2 s k Hlt) as [a Ha].
    assert (Hnth : nth k s 0 = a) by (rewrite nth_lookup, Ha; reflexivity).
    assert (Hbound : 0 < a < 0x80)
      by (apply (proj1 (Forall_lookup _ s) Hs k a Ha)).
    assert (Hnext :
      Utf16LeIterator_nextCodepoint (flat_map (fun a => [a; 0]) s) (2 * k)
      = Some (Some a, (2 * k + 2)%nat)).
    { unfold Utf16LeIterator_nextCodepoint, code_unit.
      rewrite H0, H1, Hnth, Z.shiftl_0_l, Z.lor_0_r.
      rewrite surrogate_class_high by lia.
      rewrite (Z.div_small a 1024) by lia.
      replace (a =? 0) with false by (symmetry; apply Z.eqb_neq; lia).
      reflexivity. }
    assert (Henc : utf8Encode a = Some [a]).
    { unfold utf8Encode, utf8CodepointSequenceLength.
      replace (a <? 0x80) with true by (symmetry; apply Z.ltb_lt; lia).
      unfold to_u8. rewrite Z.mod_small by lia. reflexivity. }
    rewrite Hnext, Henc.
    replace (2 * k + 2)%nat with (2 * S k)%nat by lia.
    rewrite IH by (assumption || lia).
    rewrite <- app_assoc. cbn [app]. rewrite (drop_S s a k Ha). reflexivity.
Qed.

(** A string of ASCII characters, each in a code unit of its own,
    comes out of [utf16le_ptr_to_utf8] as the same characters, one
    byte each. *)
Theorem utf16le_ptr_to_utf8_ascii (s : list Z) :
  Forall (fun a => 0 < a < 0x80) s ->
  utf16le_ptr_to_utf8 (flat_map (fun a => [a; 0]) s) = Some s.
Proof.
  intros Hs. unfold utf16le_ptr_to_utf8.
  change 0%nat with (2 * 0)%nat.
  rewrite (utf16le_loop_ascii s (length s)); [reflexivity | exact Hs | lia |].
  assert (length s <= length (flat_map (fun a => [a; 0%Z]) s))%nat; [|lia].
  clear Hs. induction s as [|a s IH]; cbn [flat_map app length]; lia.
Qed.

(** ["zig"] in UTF-16. *)
Lemma utf16le_ptr_to_utf8_ascii_witness :
  utf16le_ptr_to_utf8 (flat_map (fun a => [a; 0]) [0x7A; 0x69; 0x67])
  = Some [0x7A; 0x69; 0x67].
Proof.
  apply (utf16le_ptr_to_utf8_ascii [0x7A; 0x69; 0x67]).
  repeat constructor.
Defined.

(** *** Windows file times *)

(** A file time is found again after the way through [OsTimeStamp],
    when the seconds of a time stamp are at least 64 bits wide. *)
Theorem filetime_round_trip (timestamp_bits : Z) (ft : FILETIME) :
  64 <= timestamp_bits ->
  0 <= dwLowDateTime ft < 2 ^ 32 ->
  0 <= dwHighDateTime ft < 2 ^ 32 ->
  windows_os_timestamp_to_filetime
    (windows_filetime_to_os_timestamp timestamp_bits ft) = ft.
Proof.
  intros Hbits Hlo Hhi. destruct ft as [lo hi]. cbn in *.
  unfold windows_os_timestamp_to_filetime, windows_filetime_to_os_timestamp.
  cbn [sec dwLowDateTime dwHighDateTime].
  rewrite Z.shiftl_mul_pow2 by lia.
  assert (H64 : 2 ^ 64 = 2 ^ 32 * 2 ^ 32) by reflexivity.
  assert (Hpow : 2 ^ 64 <= 2 ^ timestamp_bits)
    by (apply Z.pow_le_mono_r; lia).
  assert (H32 : 0 < 2 ^ 32) by lia.
  rewrite (Z.mod_small (hi * 2 ^ 32)) by nia.
  rewrite (Z.mod_small (hi * 2 ^ 32 + lo) (2 ^ 64)) by nia.
  rewrite (Z.mod_small (hi * 2 ^ 32 + lo)) by nia.
  rewrite Z.shiftr_div_pow2 by lia.
  rewrite Z.div_add_l, Z.div_small, Z.add_0_r by lia.
  rewrite (Z.mod_small hi) by lia.
  rewrite Z.add_comm, Z.mod_add, Z.mod_small by lia.
  reflexivity.
Qed.

(** The first second of the year 2020 as a file time. *)
Lemma filetime_round_trip_witness :
  windows_os_timestamp_to_filetime
    (windows_filetime_to_os_timestamp 64 (mkFILETIME 0x2C1A4000 0x01D5C03F))
  = mkFILETIME 0x2C1A4000 0x01D5C03F.
Proof.
  apply (filetime_round_trip 64 (mkFILETIME 0x2C1A4000 0x01D5C03F));
    cbn; lia.
Defined.

End OsByteFacts.

(** ** Facts about the command line of a spawned process (os.cpp) *)

Module OsSpawnFacts.

Import Os.

Local Open Scope list_scope.

Lemma append_arg_clean (arg command_line : Buf) :
  dquote ∉ arg -> append_arg arg command_line = Some (command_line ++ arg).
Proof.
  revert command_line. induction arg as [|c arg IH]; intros command_line Hno.
  - cbn. rewrite app_nil_r. reflexivity.
  - apply not_elem_of_cons in Hno as [Hc Harg]. cbn [append_arg].
    replace (Ascii.eqb c dquote) with false
      by (symmetry; apply Ascii.eqb_neq; congruence).
    rewrite IH by exact Harg. rewrite <- app_assoc. reflexivity.
Qed.

Lemma append_arg_quote (arg command_line : Buf) :
  dquote ∈ arg -> append_arg arg command_line = None.
Proof.
  revert command_line. induction arg as [|c arg IH]; intros command_line Hin.
  - apply elem_of_nil in Hin. destruct Hin.
  - cbn [append_arg]. destruct (Ascii.eqb c dquote) eqn:Hc; [reflexivity|].
    apply IH. apply elem_of_cons in Hin as [Heq|Hin]; [|exact Hin].
    apply Ascii.eqb_neq in Hc. congruence.
Qed.

(** The loop on arguments without a double quote. *)
Lemma create_command_line_loop_clean (args : list Buf) :
  forall (prefix command_line : Buf),
    Forall (fun arg => dquote ∉ arg) args ->
    create_command_line_loop prefix args command_line
    = Some (command_line ++
            match args with
            | [] => []
            | arg :: rest =>
                prefix ++ arg ++ [dquote] ++
                concat (map (fun a => [" "%char; dquote] ++ a ++ [dquote])
                          rest)
            end).
Proof.
  induction args as [|arg rest IH]; intros prefix command_line Hno.
  - cbn. rewrite app_nil_r. reflexivity.
  - apply Forall_cons in Hno as [Harg Hrest].
    cbn [create_command_line_loop].
    rewrite append_arg_clean by exact Harg. rewrite IH by exact Hrest.
    f_equal. rewrite <- !app_assoc. do 3 f_equal.
    destruct rest as [|b rest]; [reflexivity|].
    cbn [map concat]. rewrite <- !app_assoc. reflexivity.
Qed.

Lemma create_command_line_loop_none (args : list Buf) :
  forall (prefix command_line : Buf),
    create_command_line_loop prefix args command_line = None
    <-> Exists (fun arg => dquote ∈ arg) args.
Proof.
  induction args as [|arg rest IH]; intros prefix command_line.
  - cbn. split; [discriminate|]. intros H. inversion H.
  - cbn [create_command_line_loop]. rewrite Exists_cons.
    destruct (decide (dquote ∈ arg)) as [Hin|Hno].
    + rewrite append_arg_quote by exact Hin. split; auto.
    + rewrite append_arg_clean by exact Hno. rewrite IH. split; [auto|].
      intros [Hin|Hrest]; [contradiction | exact Hrest].
Qed.

(** Where the first double quote is tells the text before it. *)
Lemma first_quote (a b rest_a rest_b : Buf) :
  dquote ∉ a -> dquote ∉ b ->
  a ++ dquote :: rest_a = b ++ dquote :: rest_b ->
  a = b /\ rest_a = rest_b.
Proof.
  revert b. induction a as [|c a IH]; intros b Ha Hb Heq.
  - destruct b as [|d b]; [injection Heq as <-; auto|].
    injection Heq as <- _. exfalso. apply Hb. left.
  - apply not_elem_of_cons in Ha as [Hc Ha].
    destruct b as [|d b].
    + injection Heq as -> _. congruence.
    + apply not_elem_of_cons in Hb as [_ Hb]. injection Heq as <- Heq.
      destruct (IH b Ha Hb Heq) as [-> ->]. auto.
Qed.

Lemma quoted_args_inj (args1 : list Buf) :
  forall args2 : list Buf,
    Forall (fun arg => dquote ∉ arg) args1 ->
    Forall (fun arg => dquote ∉ arg) args2 ->
    concat (map (fun a => [" "%char; dquote] ++ a ++ [dquote]) args1)
    = concat (map (fun a => [" "%char; dquote] ++ a ++ [dquote]) args2) ->
    args1 = args2.
Proof.
  induction args1 as [|a args1 IH]; intros [|b args2] H1 H2 Heq;
    try reflexivity; try discriminate.
  apply Forall_cons in H1 as [Ha H1]. apply Forall_cons in H2 as [Hb H2].
  cbn [map concat app] in Heq. injection Heq as Heq.
  rewrite <- !app_assoc in Heq. cbn [app] in Heq.
  destruct (first_quote _ _ _ _ Ha Hb Heq) as [-> Hrest].
  f_equal. apply IH; assumption.
Qed.

(** [os_windows_create_command_line] fails exactly when an argument
    holds a double quote. *)
Theorem os_windows_create_command_line_fails (args : list Buf) :
  os_windows_create_command_line args = None
  <-> Exists (fun arg => dquote ∈ arg) args.
Proof. apply create_command_line_loop_none. Qed.

(** Two lists of arguments with the same command line are the same
    list: the command line tells where each argument starts and
    ends. *)
Theorem os_windows_create_command_line_inj (args1 args2 : list Buf)
  (command_line : Buf) :
  os_windows_create_command_line args1 = Some command_line ->
  os_windows_create_command_line args2 = Some command_line ->
  args1 = args2.
Proof.
  unfold os_windows_create_command_line. intros H1 H2.
  assert (Hclean : forall args cl,
            create_command_line_loop [dquote] args [] = Some cl ->
            Forall (fun arg => dquote ∉ arg) args).
  { intros args cl H. apply Forall_Exists_neg. intros Hex.
    apply (create_command_line_loop_none args [dquote] []) in Hex.
    congruence. }
  pose proof (Hclean _ _ H1) as Hc1. pose proof (Hclean _ _ H2) as Hc2.
  rewrite create_command_line_loop_clean in H1, H2 by assumption.
  cbn [app] in H1, H2. rewrite <- H2 in H1. clear H2 Hclean.
  destruct args1 as [|a rest1], args2 as [|b rest2];
    try reflexivity; try discriminate.
  apply Forall_cons in Hc1 as [Ha Hc1]. apply Forall_cons in Hc2 as [Hb Hc2].
  injection H1 as H1.
  destruct (first_quote _ _ _ _ Ha Hb H1) as [-> Hrest].
  f_equal. apply quoted_args_inj; assumption.
Qed.

(** [zig.exe build] and itself. *)
Lemma os_windows_create_command_line_inj_witness :
  [list_ascii_of_string "zig.exe"; list_ascii_of_string "build"]
  = [list_ascii_of_string "zig.exe"; list_ascii_of_string "build"].
Proof.
  apply (os_windows_create_command_line_inj
           [list_ascii_of_string "zig.exe"; list_ascii_of_string "build"]
           [list_ascii_of_string "zig.exe"; list_ascii_of_string "build"]
           (dquote :: list_ascii_of_string "zig.exe"
            ++ [dquote; " "%char; dquote]
            ++ list_ascii_of_string "build" ++ [dquote]));
    reflexivity.
Defined.

End OsSpawnFacts.

(** ** Facts about the search for the library directory (compiler.cpp) *)

Module CompilerFacts.

Import Os Compiler OsMoreFacts.

Local Open Scope list_scope.

Section InstallFacts.

Variable os : Platform.
Variable OS_SEP : Buf.
Variable os_file_exists : Buf -> option bool.

(** The [n]-th directory above [path]. *)
Local Abbreviation up n path := (Nat.iter n (os_path_dirname os) path).

Lemma up_succ (n : nat) (path : Buf) :
  up (S n) path = up n (os_path_dirname os path).
Proof. apply Nat.iter_succ_r. Qed.

Lemma buf_eql_buf_true (a b : Buf) : buf_eql_buf a b = true <-> a = b.
Proof. unfold buf_eql_buf. apply bool_decide_eq_true. Qed.

Lemma buf_eql_buf_false (a b : Buf) : buf_eql_buf a b = false <-> a <> b.
Proof. unfold buf_eql_buf. apply bool_decide_eq_false. Qed.

(** The loop ends within [length cur_path + 2] iterations. *)
Lemma find_zig_lib_dir_loop_ends (n : nat) :
  forall (cur_path : Buf) (fuel : nat),
    length cur_path <= n -> n + 2 <= fuel ->
    exists r, find_zig_lib_dir_loop os OS_SEP os_file_exists fuel cur_path
              = Some r.
Proof.
  induction n as [|n IH]; intros cur_path fuel Hlen Hfuel.
  - destruct fuel as [|fuel]; [lia|]. cbn [find_zig_lib_dir_loop].
    destruct cur_path; [|cbn in Hlen; lia].
    destruct (buf_eql_buf _ _) eqn:Heq; [eauto|].
    destruct (test_zig_install_prefix _ _ _); [eauto|].
    destruct fuel as [|fuel]; [lia|]. cbn [find_zig_lib_dir_loop].
    replace (os_path_dirname os []) with ["."%char] by reflexivity.
    replace (os_path_dirname os ["."%char]) with ["."%char]
      by (destruct os; reflexivity).
    unfold buf_eql_buf. rewrite bool_decide_eq_true_2 by reflexivity. eauto.
  - destruct fuel as [|fuel]; [lia|]. cbn [find_zig_lib_dir_loop].
    destruct (buf_eql_buf _ _) eqn:Heq; [eauto|].
    apply buf_eql_buf_false in Heq.
    destruct (test_zig_install_prefix _ _ _); [eauto|].
    destruct (os_path_dirname_shorter os cur_path Heq) as [Hshort|Hdot].
    + apply IH; lia.
    + rewrite Hdot. destruct fuel as [|fuel]; [lia|].
      cbn [find_zig_lib_dir_loop].
      replace (os_path_dirname os ["."%char]) with ["."%char]
        by (destruct os; reflexivity).
      unfold buf_eql_buf. rewrite bool_decide_eq_true_2 by reflexivity. eauto.
Qed.

Lemma up_fixed (n : nat) (path : Buf) :
  os_path_dirname os path = path -> up n path = path.
Proof.
  intros Hfix. induction n as [|n IH]; [reflexivity|].
  rewrite Nat.iter_succ, IH. exact Hfix.
Qed.

(** The directory [test_zig_install_prefix] accepts holds the index
    file of the standard library. *)
Lemma test_zig_install_prefix_some (test_path out_zig_lib_dir : Buf) :
  test_zig_install_prefix OS_SEP os_file_exists test_path
  = Some out_zig_lib_dir ->
  os_file_exists
    (c_str out_zig_lib_dir ++ OS_SEP ++ lit "std" ++ OS_SEP ++ lit "std.zig")
  = Some true
  /\ (out_zig_lib_dir
      = c_str test_path ++ OS_SEP ++ lit "lib" ++ OS_SEP ++ lit "zig"
      \/ out_zig_lib_dir = c_str test_path ++ OS_SEP ++ lit "lib").
Proof.
  unfold test_zig_install_prefix, file_exists. cbv zeta.
  destruct (os_file_exists (c_str (c_str test_path ++ OS_SEP ++ lit "lib"
                                   ++ OS_SEP ++ lit "zig") ++ _))
    as [[]|] eqn:H1.
  - intros [= <-]. auto.
  - destruct (os_file_exists (c_str (c_str test_path ++ OS_SEP ++ lit "lib")
                              ++ _)) as [[]|] eqn:H2; [|discriminate..].
    intros [= <-]. auto.
  - destruct (os_file_exists (c_str (c_str test_path ++ OS_SEP ++ lit "lib")
                              ++ _)) as [[]|] eqn:H2; [|discriminate..].
    intros [= <-]. auto.
Qed.

(** What the loop returns, for any [fuel] that lets it end. *)
Lemma find_zig_lib_dir_loop_nearest (fuel : nat) :
  forall (cur_path : Buf) (r : FindResult),
    find_zig_lib_dir_loop os OS_SEP os_file_exists fuel cur_path = Some r ->
    match r with
    | Found out_path =>
        exists k,
          test_zig_install_prefix OS_SEP os_file_exists (up (S k) cur_path)
          = Some out_path
          /\ (forall m, m < k ->
                test_zig_install_prefix OS_SEP os_file_exists
                  (up (S m) cur_path) = None)
          /\ (forall m, m <= k -> up (S m) cur_path <> up m cur_path)
    | ErrorFileNotFound =>
        forall m,
          up (S m) cur_path = up m cur_path
          \/ test_zig_install_prefix OS_SEP os_file_exists
               (up (S m) cur_path) = None
    end.
Proof.
  induction fuel as [|fuel IH]; intros cur_path r; [discriminate|].
  cbn [find_zig_lib_dir_loop].
  destruct (buf_eql_buf _ _) eqn:Heq.
  { apply buf_eql_buf_true in Heq. intros [= <-] m. left.
    rewrite !up_fixed by exact Heq. reflexivity. }
  apply buf_eql_buf_false in Heq.
  destruct (test_zig_install_prefix _ _ _) as [out|] eqn:Htest.
  { intros [= <-]. exists 0. split; [exact Htest|]. split; [intros m; lia|].
    intros m Hm. replace m with 0 by lia. exact Heq. }
  intros Hloop. specialize (IH _ _ Hloop). destruct r as [out|].
  - destruct IH as (k & Hk & Hnone & Hmove). exists (S k).
    split; [rewrite up_succ; exact Hk|]. split.
    + intros [|m] Hm; [exact Htest|]. rewrite up_succ. apply Hnone. lia.
    + intros [|m] Hm; [exact Heq|]. rewrite !(up_succ _ cur_path).
      apply Hmove. lia.
  - intros [|m]; [right; exact Htest|]. rewrite !(up_succ _ cur_path).
    apply IH.
Qed.

End InstallFacts.

(** The walk of [find_zig_lib_dir] up from the path of the executable
    ends: [length self_exe_path + 2] iterations are enough. *)
Theorem find_zig_lib_dir_ends (os : Platform) (OS_SEP : Buf)
  (os_file_exists : Buf -> option bool) (os_self_exe_path : option Buf)
  (fuel : nat) :
  match os_self_exe_path with
  | Some self_exe_path => length self_exe_path + 2 <= fuel
  | None => True
  end ->
  exists r,
    find_zig_lib_dir os OS_SEP os_file_exists os_self_exe_path fuel = Some r.
Proof.
  unfold find_zig_lib_dir. destruct os_self_exe_path as [exe|]; [|eauto].
  intros Hfuel.
  apply (find_zig_lib_dir_loop_ends os OS_SEP os_file_exists (length exe));
    [reflexivity | exact Hfuel].
Qed.

(** [/usr/bin/zig] on a file system without any file. *)
Lemma find_zig_lib_dir_ends_witness :
  exists r,
    find_zig_lib_dir ZIG_OS_POSIX ["/"] (fun _ => Some false)
      (Some (list_ascii_of_string "/usr/bin/zig")) 14 = Some r.
Proof.
  apply (find_zig_lib_dir_ends ZIG_OS_POSIX ["/"] (fun _ => Some false)
           (Some (list_ascii_of_string "/usr/bin/zig")) 14).
  cbn. lia.
Defined.

(** The directory [find_zig_lib_dir] finds is [lib/zig] or [lib] under
    the nearest directory above the executable that
    [test_zig_install_prefix] accepts, and its [std/std.zig] exists;
    [ErrorFileNotFound] means that the path of the executable is not
    known or that no directory above it is accepted. *)
Theorem find_zig_lib_dir_nearest (os : Platform) (OS_SEP : Buf)
  (os_file_exists : Buf -> option bool) (os_self_exe_path : option Buf)
  (fuel : nat) (r : FindResult) :
  find_zig_lib_dir os OS_SEP os_file_exists os_self_exe_path fuel = Some r ->
  match r with
  | Found out_path =>
      exists self_exe_path k,
        os_self_exe_path = Some self_exe_path
        /\ test_zig_install_prefix OS_SEP os_file_exists
             (Nat.iter (S k) (os_path_dirname os) self_exe_path)
           = Some out_path
        /\ (forall m, m < k ->
              test_zig_install_prefix OS_SEP os_file_exists
                (Nat.iter (S m) (os_path_dirname os) self_exe_path) = None)
        /\ os_file_exists
             (c_str out_path ++ OS_SEP ++ lit "std" ++ OS_SEP
              ++ lit "std.zig") = Some true
  | ErrorFileNotFound =>
      os_self_exe_path = None
      \/ exists self_exe_path,
           os_self_exe_path = Some self_exe_path
           /\ forall m,
                Nat.iter (S m) (os_path_dirname os) self_exe_path
                = Nat.iter m (os_path_dirname os) self_exe_path
                \/ test_zig_install_prefix OS_SEP os_file_exists
                     (Nat.iter (S m) (os_path_dirname os) self_exe_path)
                   = None
  end.
Proof.
  unfold find_zig_lib_dir. destruct os_self_exe_path as [exe|].
  - intros Hloop.
    pose proof (find_zig_lib_dir_loop_nearest os OS_SEP os_file_exists
                  fuel exe r Hloop) as H.
    destruct r as [out|].
    + destruct H as (k & Hk & Hnone & _). exists exe, k.
      split; [reflexivity|]. split; [exact Hk|]. split; [exact Hnone|].
      apply (test_zig_install_prefix_some OS_SEP os_file_exists _ _ Hk).
    + right. exists exe. split; [reflexivity | exact H].
  - intros [= <-]. left. reflexivity.
Qed.

(** [/opt/zig/bin/zig] with [/opt/zig/lib/zig/std/std.zig] in place. *)
Lemma find_zig_lib_dir_nearest_witness :
  exists self_exe_path k,
    Some (list_ascii_of_string "/opt/zig/bin/zig") = Some self_exe_path
    /\ test_zig_install_prefix ["/"]
         (fun f => Some (bool_decide
                           (f = list_ascii_of_string
                                  "/opt/zig/lib/zig/std/std.zig")))
         (Nat.iter (S k) (os_path_dirname ZIG_OS_POSIX) self_exe_path)
       = Some (list_ascii_of_string "/opt/zig/lib/zig")
    /\ (forall m, m < k ->
          test_zig_install_prefix ["/"]
            (fun f => Some (bool_decide
                              (f = list_ascii_of_string
                                     "/opt/zig/lib/zig/std/std.zig")))
            (Nat.iter (S m) (os_path_dirname ZIG_OS_POSIX) self_exe_path)
          = None)
    /\ (fun f => Some (bool_decide
                         (f = list_ascii_of_string
                                "/opt/zig/lib/zig/std/std.zig")))
         (c_str (list_ascii_of_string "/opt/zig/lib/zig") ++ ["/"]
          ++ lit "std" ++ ["/"] ++ lit "std.zig") = Some true.
Proof.
  apply (find_zig_lib_dir_nearest ZIG_OS_POSIX ["/"]
           (fun f => Some (bool_decide
                             (f = list_ascii_of_string
                                    "/opt/zig/lib/zig/std/std.zig")))
           (Some (list_ascii_of_string "/opt/zig/bin/zig")) 5
           (Found (list_ascii_of_string "/opt/zig/lib/zig"))).
  vm_compute. reflexivity.
Defined.

(** *** The saved directories *)

Lemma os_path_join_length (os : Platform) (sep : ascii) (d b : Buf) :
  b <> [] -> (length (os_path_join os sep d b) =? 0)%nat = false.
Proof.
  intros Hb. apply Nat.eqb_neq. unfold os_path_join.
  assert (0 < length b) by (destruct b; [congruence | cbn; lia]).
  destruct (length d =? 0)%nat; [lia|]. cbv zeta.
  destruct (negb _); rewrite !length_app; lia.
Qed.

(** [get_zig_std_dir] and [get_zig_special_dir] answer a second call
    as they answered the first one, whatever library directory the
    second call names: the first answer is saved and never empty. *)
Theorem saved_dirs_first_call_wins (os : Platform) (ZIG_OS_SEP_CHAR : ascii)
  (saved : SavedDirs) (zig_lib_dir other_lib_dir : Buf) :
  (let '(std_dir, saved') :=
     get_zig_std_dir os ZIG_OS_SEP_CHAR saved zig_lib_dir in
   get_zig_std_dir os ZIG_OS_SEP_CHAR saved' other_lib_dir
   = (std_dir, saved'))
  /\ (let '(special_dir, saved') :=
        get_zig_special_dir os ZIG_OS_SEP_CHAR saved zig_lib_dir in
      get_zig_special_dir os ZIG_OS_SEP_CHAR saved' other_lib_dir
      = (special_dir, saved')).
Proof.
  split.
  - unfold get_zig_std_dir.
    destruct (length (saved_std_dir saved) =? 0)%nat eqn:Hstd; cbn [negb].
    + cbn [saved_std_dir].
      rewrite os_path_join_length by discriminate. reflexivity.
    + rewrite Hstd. reflexivity.
  - unfold get_zig_special_dir.
    destruct (length (saved_special_dir saved) =? 0)%nat eqn:Hsp; cbn [negb].
    + destruct (get_zig_std_dir os ZIG_OS_SEP_CHAR saved zig_lib_dir)
        as [std_dir saved'].
      cbn [saved_special_dir].
      rewrite os_path_join_length by discriminate. reflexivity.
    + rewrite Hsp. reflexivity.
Qed.

End CompilerFacts.

(** ** Facts about [zig build] and [zig init-exe] (main.cpp) *)

Module DriverBuildFacts.

Import Os Driver OsMoreFacts.

Local Open Scope string_scope.
Local Open Scope list_scope.

(** *** The arguments handed on to the build runner *)

Lemma parse_build_args_forwards (n : nat) :
  forall (args : list string) (b : BuildLocals),
    length args <= n ->
    exists forwarded,
      build_args (parse_build_args args b) = build_args b ++ forwarded
      /\ sublist forwarded args
      /\ ((("--build-file" ∉ args) /\ ("--cache-dir" ∉ args)) ->
          forwarded = args
          /\ build_file (parse_build_args args b) = build_file b
          /\ build_cache_dir (parse_build_args args b) = build_cache_dir b).
Proof.
  induction n as [|n IH]; intros args b Hlen.
  { destruct args; [|cbn in Hlen; lia]. exists []. cbn.
    rewrite app_nil_r. split; [reflexivity|]. split; [constructor | auto]. }
  destruct args as [|arg rest].
  { exists []. cbn. rewrite app_nil_r.
    split; [reflexivity|]. split; [constructor | auto]. }
  cbn in Hlen.
  assert (Hone : forall b0,
    build_args b0 = build_args b ++ [arg] ->
    build_file b0 = build_file b ->
    build_cache_dir b0 = build_cache_dir b ->
    exists forwarded,
      build_args (parse_build_args rest b0) = build_args b ++ forwarded
      /\ sublist forwarded (arg :: rest)
      /\ ((("--build-file" ∉ arg :: rest) /\ ("--cache-dir" ∉ arg :: rest)) ->
          forwarded = arg :: rest
          /\ build_file (parse_build_args rest b0) = build_file b
          /\ build_cache_dir (parse_build_args rest b0) = build_cache_dir b)).
  { intros b0 Hargs Hfile Hcache.
    destruct (IH rest b0 ltac:(lia)) as (fwd & Hfwd & Hsub & Hid).
    exists (arg :: fwd). rewrite Hfwd, Hargs, <- app_assoc.
    split; [reflexivity|]. split; [constructor; exact Hsub|].
    intros [Hf Hc]. apply not_elem_of_cons in Hf as [_ Hf].
    apply not_elem_of_cons in Hc as [_ Hc].
    destruct (Hid (conj Hf Hc)) as (-> & -> & ->). auto. }
  cbn [parse_build_args].
  destruct (arg =? "--help"); [apply Hone; reflexivity|].
  destruct rest as [|v rest']; [apply Hone; reflexivity|].
  destruct (arg =? "--build-file") eqn:Hbf.
  { apply String.eqb_eq in Hbf. subst arg.
    destruct (IH rest' {| build_args := build_args b; build_file := Some v;
                          build_cache_dir := build_cache_dir b;
                          build_override_lib_dir := build_override_lib_dir b |}
                ltac:(cbn in Hlen; lia)) as (fwd & Hfwd & Hsub & _).
    exists fwd. split; [exact Hfwd|].
    split; [do 2 apply sublist_cons; exact Hsub|].
    intros [Hf _]. exfalso. apply Hf. left. }
  destruct (arg =? "--cache-dir") eqn:Hcd.
  { apply String.eqb_eq in Hcd. subst arg.
    destruct (IH rest' {| build_args := build_args b;
                          build_file := build_file b;
                          build_cache_dir := Some v;
                          build_override_lib_dir := build_override_lib_dir b |}
                ltac:(cbn in Hlen; lia)) as (fwd & Hfwd & Hsub & _).
    exists fwd. split; [exact Hfwd|].
    split; [do 2 apply sublist_cons; exact Hsub|].
    intros [_ Hc]. exfalso. apply Hc. left. }
  destruct (arg =? "--override-lib-dir") eqn:Hov; [|apply Hone; reflexivity].
  apply String.eqb_eq in Hov. subst arg.
  destruct (IH rest' {| build_args :=
                          build_args b ++ ["--override-lib-dir"; v];
                        build_file := build_file b;
                        build_cache_dir := build_cache_dir b;
                        build_override_lib_dir := Some v |}
              ltac:(cbn in Hlen; lia)) as (fwd & Hfwd & Hsub & Hid).
  exists ("--override-lib-dir" :: v :: fwd).
  rewrite Hfwd. cbn [build_args]. rewrite <- app_assoc.
  split; [reflexivity|]. split; [do 2 constructor; exact Hsub|].
  intros [Hf Hc].
  apply not_elem_of_cons in Hf as [_ Hf]. apply not_elem_of_cons in Hf as [_ Hf].
  apply not_elem_of_cons in Hc as [_ Hc]. apply not_elem_of_cons in Hc as [_ Hc].
  destruct (Hid (conj Hf Hc)) as (-> & Hfile & Hcache). auto.
Qed.

(** The argument loop of [zig build] hands arguments on in the order
    they were given: it may leave some out but adds none and moves
    none. *)
Theorem parse_build_args_sublist (args : list string) (b : BuildLocals) :
  exists forwarded,
    build_args (parse_build_args args b) = build_args b ++ forwarded
    /\ sublist forwarded args.
Proof.
  destruct (parse_build_args_forwards (length args) args b (le_n _))
    as (fwd & Hfwd & Hsub & _).
  exists fwd. auto.
Qed.

(** When neither [--build-file] nor [--cache-dir] is among the
    arguments, all of them are handed on to the build runner, and the
    build file and the cache directory stay as they were. *)
Theorem parse_build_args_all (args : list string) (b : BuildLocals) :
  "--build-file" ∉ args ->
  "--cache-dir" ∉ args ->
  build_args (parse_build_args args b) = build_args b ++ args
  /\ build_file (parse_build_args args b) = build_file b
  /\ build_cache_dir (parse_build_args args b) = build_cache_dir b.
Proof.
  intros Hf Hc.
  destruct (parse_build_args_forwards (length args) args b (le_n _))
    as (fwd & Hfwd & _ & Hid).
  destruct (Hid (conj Hf Hc)) as (-> & Hfile & Hcache). auto.
Qed.

(** [zig build --override-lib-dir lib install --help]. *)
Lemma parse_build_args_all_witness :
  let args := ["--override-lib-dir"; "lib"; "install"; "--help"] in
  build_args (parse_build_args args initial_build_locals)
  = build_args initial_build_locals ++ args
  /\ build_file (parse_build_args args initial_build_locals)
     = build_file initial_build_locals
  /\ build_cache_dir (parse_build_args args initial_build_locals)
     = build_cache_dir initial_build_locals.
Proof.
  apply (parse_build_args_all
           ["--override-lib-dir"; "lib"; "install"; "--help"]
           initial_build_locals).
  - intros H. repeat (apply elem_of_cons in H as [H|H]; [discriminate|]).
    apply elem_of_nil in H. exact H.
  - intros H. repeat (apply elem_of_cons in H as [H|H]; [discriminate|]).
    apply elem_of_nil in H. exact H.
Defined.

(** *** The template of [build.zig] *)

(** The file written from the template holds no ['$'] when the name
    of the directory holds none, and a template without ['$'] is
    written as it is. *)
Theorem instantiate_template_done (build_zig_contents cwd_basename : Buf) :
  ("$"%char ∉ cwd_basename ->
   "$"%char ∉ instantiate_template build_zig_contents cwd_basename)
  /\ ("$"%char ∉ build_zig_contents ->
      instantiate_template build_zig_contents cwd_basename
      = build_zig_contents).
Proof.
  split.
  - intros Hname. induction build_zig_contents as [|c rest IH];
      cbn [instantiate_template]; [apply not_elem_of_nil|].
    destruct (Ascii.eqb c "$") eqn:Hc.
    + rewrite not_elem_of_app. auto.
    + apply not_elem_of_cons. split; [|exact IH].
      apply Ascii.eqb_neq in Hc. congruence.
  - induction build_zig_contents as [|c rest IH]; [reflexivity|].
    intros Hno. apply not_elem_of_cons in Hno as [Hc Hrest].
    cbn [instantiate_template].
    replace (Ascii.eqb c "$") with false
      by (symmetry; apply Ascii.eqb_neq; congruence).
    rewrite IH by exact Hrest. reflexivity.
Qed.

(** *** The search for the build file *)

Section BuildFileFacts.

Variable os : Platform.
Variable SEP_CHAR : ascii.
Variable os_file_exists : Buf -> option bool.

(** The loop ends within [length build_file_dirname + 2]
    iterations. *)
Lemma build_file_search_ends_within (n : nat) :
  forall (fuel : nat) (specific : bool) (abs dirname basename : Buf),
    length dirname <= n -> n + 2 <= fuel ->
    exists r,
      build_file_search os SEP_CHAR os_file_exists fuel specific abs dirname
        basename = Some r.
Proof.
  assert (Hdot : forall fuel specific abs basename, 1 <= fuel ->
    exists r,
      build_file_search os SEP_CHAR os_file_exists fuel specific abs
        ["."%char] basename = Some r).
  { intros [|fuel] specific abs basename Hfuel; [lia|].
    cbn [build_file_search].
    destruct (os_file_exists abs) as [[]|]; eauto.
    destruct specific; [eauto|].
    replace (os_path_dirname os ["."%char]) with ["."%char]
      by (destruct os; reflexivity).
    rewrite bool_decide_eq_true_2 by reflexivity. eauto. }
  induction n as [|n IH]; intros fuel specific abs dirname basename Hlen Hfuel.
  - destruct fuel as [|fuel]; [lia|]. cbn [build_file_search].
    destruct (os_file_exists abs) as [[]|]; eauto.
    destruct specific; [eauto|].
    destruct dirname; [|cbn in Hlen; lia].
    replace (os_path_dirname os []) with ["."%char] by reflexivity.
    rewrite bool_decide_eq_false_2 by discriminate. apply Hdot. lia.
  - destruct fuel as [|fuel]; [lia|]. cbn [build_file_search].
    destruct (os_file_exists abs) as [[]|]; eauto.
    destruct specific; [eauto|].
    case_bool_decide as Hnext; [eauto|].
    destruct (os_path_dirname_shorter os dirname) as [Hshort|Hd];
      [congruence | |].
    + apply IH; lia.
    + rewrite Hd. apply Hdot. lia.
Qed.

(** The search from a directory whose candidate is being tried. *)
Lemma build_file_search_joined (fuel : nat) :
  forall (specific : bool) (dirname basename : Buf) (r : BuildFileSearch),
    build_file_search os SEP_CHAR os_file_exists fuel specific
      (os_path_join os SEP_CHAR dirname basename) dirname basename = Some r ->
    exists k,
      (forall m, m < k ->
         os_file_exists
           (os_path_join os SEP_CHAR (Nat.iter m (os_path_dirname os) dirname)
              basename) = Some false)
      /\ (specific = true -> k = 0)
      /\ match r with
         | BuildFileFound abs' dirname' =>
             dirname' = Nat.iter k (os_path_dirname os) dirname
             /\ abs' = os_path_join os SEP_CHAR dirname' basename
             /\ os_file_exists abs' = Some true
         | BuildFileCheckFailed abs' =>
             abs' = os_path_join os SEP_CHAR
                      (Nat.iter k (os_path_dirname os) dirname) basename
             /\ os_file_exists abs' = None
         | NoBuildFile =>
             os_file_exists
               (os_path_join os SEP_CHAR
                  (Nat.iter k (os_path_dirname os) dirname) basename)
             = Some false
             /\ (specific = true
                 \/ os_path_dirname os
                      (Nat.iter k (os_path_dirname os) dirname)
                    = Nat.iter k (os_path_dirname os) dirname)
         end.
Proof.
  induction fuel as [|fuel IH]; intros specific dirname basename r;
    [discriminate|].
  cbn [build_file_search].
  destruct (os_file_exists (os_path_join os SEP_CHAR dirname basename))
    as [[]|] eqn:Hex.
  - intros [= <-]. exists 0. cbn [Nat.iter nat_rect].
    split; [intros m Hm; lia|]. auto.
  - destruct specific.
    { intros [= <-]. exists 0. cbn [Nat.iter nat_rect].
      split; [intros m Hm; lia|]. auto. }
    case_bool_decide as Hnext.
    { intros [= <-]. exists 0. cbn [Nat.iter nat_rect].
      split; [intros m Hm; lia|]. split; [reflexivity|].
      split; [exact Hex|]. right. symmetry. exact Hnext. }
    intros Hloop. destruct (IH _ _ _ _ Hloop) as (k & Hnone & _ & Hr).
    exists (S k).
    assert (Hup : forall m,
      Nat.iter m (os_path_dirname os) (os_path_dirname os dirname)
      = Nat.iter (S m) (os_path_dirname os) dirname).
    { intros m. symmetry. apply Nat.iter_succ_r. }
    split; [|split; [discriminate|]].
    + intros [|m] Hm; [exact Hex|]. rewrite <- Hup. apply Hnone. lia.
    + rewrite Hup in Hr. exact Hr.
  - intros [= <-]. exists 0. cbn [Nat.iter nat_rect].
    split; [intros m Hm; lia|]. auto.
Qed.

End BuildFileFacts.

(** The search for the build file ends: [length build_file_dirname + 2]
    iterations are enough. *)
Theorem build_file_search_ends (os : Platform) (SEP_CHAR : ascii)
  (os_file_exists : Buf -> option bool) (fuel : nat) (specific : bool)
  (build_file_abs build_file_dirname build_file_basename : Buf) :
  length build_file_dirname + 2 <= fuel ->
  exists r,
    build_file_search os SEP_CHAR os_file_exists fuel specific build_file_abs
      build_file_dirname build_file_basename = Some r.
Proof.
  intros Hfuel.
  apply (build_file_search_ends_within os SEP_CHAR os_file_exists
           (length build_file_dirname)); [reflexivity | exact Hfuel].
Qed.

(** The search from [/home/me/proj] on a file system without any
    file. *)
Lemma build_file_search_ends_witness :
  exists r,
    build_file_search ZIG_OS_POSIX "/" (fun _ => Some false) 15 false
      (list_ascii_of_string "/home/me/proj/build.zig")
      (list_ascii_of_string "/home/me/proj")
      (list_ascii_of_string "build.zig") = Some r.
Proof.
  apply (build_file_search_ends ZIG_OS_POSIX "/" (fun _ => Some false) 15
           false (list_ascii_of_string "/home/me/proj/build.zig")
           (list_ascii_of_string "/home/me/proj")
           (list_ascii_of_string "build.zig")).
  cbn. lia.
Defined.

(** The build file that is found exists and is the nearest one: it is
    the path first given or the base name joined to a directory above
    the first one, and every path tried before does not exist.  When a
    specific build file was asked for, only the path first given is
    tried. *)
Theorem build_file_search_nearest (os : Platform) (SEP_CHAR : ascii)
  (os_file_exists : Buf -> option bool) (fuel : nat) (specific : bool)
  (build_file_abs build_file_dirname build_file_basename : Buf)
  (found_abs found_dirname : Buf) :
  build_file_search os SEP_CHAR os_file_exists fuel specific build_file_abs
    build_file_dirname build_file_basename
  = Some (BuildFileFound found_abs found_dirname) ->
  os_file_exists found_abs = Some true
  /\ exists k,
       found_dirname = Nat.iter k (os_path_dirname os) build_file_dirname
       /\ found_abs
          = match k with
            | O => build_file_abs
            | S _ => os_path_join os SEP_CHAR found_dirname build_file_basename
            end
       /\ (specific = true -> k = 0)
       /\ os_file_exists build_file_abs
          = Some (match k with O => true | S _ => false end)
       /\ forall m, 0 < m < k ->
            os_file_exists
              (os_path_join os SEP_CHAR
                 (Nat.iter m (os_path_dirname os) build_file_dirname)
                 build_file_basename) = Some false.
Proof.
  destruct fuel as [|fuel]; [discriminate|]. cbn [build_file_search].
  destruct (os_file_exists build_file_abs) as [[]|] eqn:Hex;
    [| |discriminate].
  { intros [= <- <-]. split; [exact Hex|]. exists 0.
    repeat split; auto. intros m Hm. lia. }
  destruct specific; [discriminate|].
  case_bool_decide as Hnext; [discriminate|].
  intros Hsearch.
  destruct (build_file_search_joined os SEP_CHAR os_file_exists fuel _ _ _ _
              Hsearch) as (k & Hnone & _ & Hdir & Habs & Hfound).
  rewrite <- Nat.iter_succ_r in Hdir.
  split; [exact Hfound|]. exists (S k).
  split; [exact Hdir|]. split; [exact Habs|]. split; [discriminate|].
  split; [reflexivity|].
  intros [|m] Hm; [lia|]. rewrite Nat.iter_succ_r. apply Hnone. lia.
Qed.

(** [build.zig] is missing in [/home/me/proj/src] and
    [/home/me/proj] has one. *)
Lemma build_file_search_nearest_witness :
  (fun f : Buf =>
     Some (Compiler.buf_eql_buf f
             (list_ascii_of_string "/home/me/proj/build.zig"))) (list_ascii_of_string "/home/me/proj/build.zig") = Some true
  /\ exists k,
       list_ascii_of_string "/home/me/proj"
       = Nat.iter k (os_path_dirname ZIG_OS_POSIX)
           (list_ascii_of_string "/home/me/proj/src")
       /\ list_ascii_of_string "/home/me/proj/build.zig"
          = match k with
            | O => list_ascii_of_string "/home/me/proj/src/build.zig"
            | S _ =>
                os_path_join ZIG_OS_POSIX "/"
                  (list_ascii_of_string "/home/me/proj")
                  (list_ascii_of_string "build.zig")
            end
       /\ (false = true -> k = 0)
       /\ (fun f : Buf =>
     Some (Compiler.buf_eql_buf f
             (list_ascii_of_string "/home/me/proj/build.zig"))) (list_ascii_of_string "/home/me/proj/src/build.zig")
          = Some (match k with O => true | S _ => false end)
       /\ forall m, 0 < m < k ->
            (fun f : Buf =>
     Some (Compiler.buf_eql_buf f
             (list_ascii_of_string "/home/me/proj/build.zig")))
              (os_path_join ZIG_OS_POSIX "/"
                 (Nat.iter m (os_path_dirname ZIG_OS_POSIX)
                    (list_ascii_of_string "/home/me/proj/src"))
                 (list_ascii_of_string "build.zig")) = Some false.
Proof.
  apply (build_file_search_nearest ZIG_OS_POSIX "/"
           (fun f : Buf =>
              Some (Compiler.buf_eql_buf f
                      (list_ascii_of_string "/home/me/proj/build.zig")))
           3 false
           (list_ascii_of_string "/home/me/proj/src/build.zig")
           (list_ascii_of_string "/home/me/proj/src")
           (list_ascii_of_string "build.zig")
           (list_ascii_of_string "/home/me/proj/build.zig")
           (list_ascii_of_string "/home/me/proj")).
  vm_compute. reflexivity.
Defined.

(** The search gives up only when the path first given does not exist
    and either a specific build file was asked for, or no path tried
    on the way up to the topmost directory exists. *)
Theorem build_file_search_none (os : Platform) (SEP_CHAR : ascii)
  (os_file_exists : Buf -> option bool) (fuel : nat) (specific : bool)
  (build_file_abs build_file_dirname build_file_basename : Buf) :
  build_file_search os SEP_CHAR os_file_exists fuel specific build_file_abs
    build_file_dirname build_file_basename = Some NoBuildFile ->
  os_file_exists build_file_abs = Some false
  /\ (specific = true
      \/ exists k,
           os_path_dirname os
             (Nat.iter k (os_path_dirname os) build_file_dirname)
           = Nat.iter k (os_path_dirname os) build_file_dirname
           /\ forall m, 0 < m <= k ->
                os_file_exists
                  (os_path_join os SEP_CHAR
                     (Nat.iter m (os_path_dirname os) build_file_dirname)
                     build_file_basename) = Some false).
Proof.
  destruct fuel as [|fuel]; [discriminate|]. cbn [build_file_search].
  destruct (os_file_exists build_file_abs) as [[]|] eqn:Hex;
    [discriminate| |discriminate].
  intros Hsearch. split; [reflexivity|].
  destruct specific; [left; reflexivity|]. right.
  case_bool_decide as Hnext.
  { exists 0. split; [symmetry; exact Hnext|]. intros m Hm. lia. }
  destruct (build_file_search_joined os SEP_CHAR os_file_exists fuel _ _ _ _
              Hsearch) as (k & Hnone & _ & Hlast & [Htop|Htop]);
    [discriminate|].
  rewrite <- Nat.iter_succ_r in Hlast, Htop.
  exists (S k). split; [exact Htop|].
  intros [|m] Hm; [lia|].
  destruct (decide (m = k)) as [->|Hne]; [exact Hlast|].
  rewrite Nat.iter_succ_r. apply Hnone. lia.
Qed.

(** The search from [/proj] on a file system without any file. *)
Lemma build_file_search_none_witness :
  (fun _ : Buf => Some false) (list_ascii_of_string "/proj/build.zig")
  = Some false
  /\ (false = true
      \/ exists k,
           os_path_dirname ZIG_OS_POSIX
             (Nat.iter k (os_path_dirname ZIG_OS_POSIX)
                (list_ascii_of_string "/proj"))
           = Nat.iter k (os_path_dirname ZIG_OS_POSIX)
               (list_ascii_of_string "/proj")
           /\ forall m, 0 < m <= k ->
                (fun _ : Buf => Some false)
                  (os_path_join ZIG_OS_POSIX "/"
                     (Nat.iter m (os_path_dirname ZIG_OS_POSIX)
                        (list_ascii_of_string "/proj"))
                     (list_ascii_of_string "build.zig")) = Some false).
Proof.
  apply (build_file_search_none ZIG_OS_POSIX "/" (fun _ => Some false) 3
           false (list_ascii_of_string "/proj/build.zig")
           (list_ascii_of_string "/proj") (list_ascii_of_string "build.zig")).
  vm_compute. reflexivity.
Defined.

(** *** [zig init-exe] and [zig init-lib] *)

Section InitFacts.

Variable os : Platform.
Variable SEP_CHAR : ascii.
Variable ErrorCode : Type.
Variable err_str : ErrorCode -> string.
Variable zig_special_dir : option Buf.
Variable os_get_cwd : ErrorCode + Buf.
Variable os_fetch_file_path : Buf -> ErrorCode + Buf.
Variable os_file_exists : Buf -> ErrorCode + bool.
Variable os_make_dir : Buf -> option ErrorCode.
Variable os_write_file : Buf -> Buf -> option ErrorCode.

(** [zig init-exe] and [zig init-lib] make no directory and write no
    file unless [build.zig] was looked for and does not exist. *)
Theorem init_command_keeps_build_zig (init_kind : InitKind)
  (step : InitStep) :
  In step
    (init_command os SEP_CHAR ErrorCode err_str zig_special_dir os_get_cwd
       os_fetch_file_path os_file_exists os_make_dir os_write_file
       init_kind).1 ->
  (forall text, step <> InitPrint text) ->
  os_file_exists (path_of "build.zig") = inr false.
Proof.
  unfold init_command. cbv zeta.
  repeat match goal with
         | |- In _ (match ?x with _ => _ end).1 -> _ => destruct x eqn:?
         end;
    try reflexivity; cbn [fst In]; intros Hin Hstep; exfalso;
    repeat (destruct Hin as [<-|Hin]; [exact (Hstep _ eq_refl)|]);
    exact Hin.
Qed.

(** The command ends with [EXIT_SUCCESS] after both files were
    written without error; otherwise it ends with [EXIT_FAILURE] and
    the last thing it does is to say why on [stderr]. *)
Theorem init_command_ends (init_kind : InitKind) :
  let '(steps, code) :=
    init_command os SEP_CHAR ErrorCode err_str zig_special_dir os_get_cwd
      os_fetch_file_path os_file_exists os_make_dir os_write_file
      init_kind in
  (code = EXIT_SUCCESS
   /\ exists build_zig main_zig,
        In (InitWriteFile (path_of "build.zig") build_zig) steps
        /\ os_write_file (path_of "build.zig") build_zig = None
        /\ In (InitWriteFile
                 (os_path_join os SEP_CHAR (path_of "src")
                    (path_of "main.zig")) main_zig) steps
        /\ os_write_file
             (os_path_join os SEP_CHAR (path_of "src") (path_of "main.zig"))
             main_zig = None)
  \/ (code = EXIT_FAILURE
      /\ exists text, last steps = Some (InitPrint text)).
Proof.
  unfold init_command. cbv zeta.
  repeat match goal with
         | |- (let '(_, _) := match ?x with _ => _ end in _) =>
             destruct x eqn:?
         end;
    try (right; split; [reflexivity|]; eexists; reflexivity).
  left. split; [reflexivity|]. do 2 eexists.
  split; [right; left; reflexivity|]. split; [eassumption|].
  split; [right; right; left; reflexivity|]. eassumption.
Qed.

End InitFacts.

(** [zig init-exe] in a directory without a [build.zig]. *)
Lemma init_command_keeps_build_zig_witness :
  (fun _ : Buf => @inr unit bool false) (path_of "build.zig") = inr false.
Proof.
  apply (init_command_keeps_build_zig ZIG_OS_POSIX "/" unit
           (fun _ => "error") (Some (path_of "/lib/zig/std/special"))
           (inr (path_of "/home/me/proj")) (fun _ => inr (path_of "$"))
           (fun _ => inr false) (fun _ => None) (fun _ _ => None)
           InitKindExe (InitMakeDir (path_of "src"))).
  - left. reflexivity.
  - discriminate.
Defined.

End DriverBuildFacts.

(** ** Facts about the runs of [main] (main.cpp) *)

Module DriverRunFacts.

Import Driver DriverFacts.

Local Open Scope string_scope.
Local Open Scope list_scope.

(** *** Returns from the argument loop *)

Lemma returns_reported_later (arg : string) (args : list string)
  (r : LoopResult) :
  returns_reported args r -> returns_reported (arg :: args) r.
Proof.
  destruct r as [o code|o l]; [|auto]. cbn [returns_reported].
  intros (e & He & [(Hc & Hu & Hin)|Hfail]); exists e; split; auto.
  left. repeat split; auto. right. exact Hin.
Qed.

Lemma loop_fail_reported (args : list string) (out : list Event)
  (msg arg0 : string) :
  returns_reported args (loop_fail out msg arg0).
Proof.
  unfold loop_fail, print_error_usage. cbn [returns_reported].
  eexists. split.
  - rewrite (last_app_cons out), last_cons_cons. apply last_singleton.
  - right. split; reflexivity.
Qed.

Lemma failure_reported (args : list string) (out : list Event) (msg : string) :
  returns_reported args (LoopReturn (out ++ [Print stderr msg]) EXIT_FAILURE).
Proof.
  cbn [returns_reported]. eexists. split; [apply last_snoc|].
  right. split; reflexivity.
Qed.

Ltac return_step IH :=
  first
    [ exact I
    | apply loop_fail_reported
    | apply failure_reported
    | apply returns_reported_later; apply IH; solve_bound
    | do 2 apply returns_reported_later; apply IH; solve_bound
    | do 3 apply returns_reported_later; apply IH; solve_bound
    | eexists; split; [apply last_snoc|]; left;
      split; [reflexivity|]; split; [reflexivity|]; left;
      match goal with
      | H : (_ =? "--help") = true |- _ =>
          apply String.eqb_eq in H; exact H
      end ].

Lemma parse_args_reported (mem_profile : bool) (arg0 : string) :
  forall (args : list string) (l : Locals) (out : list Event),
    returns_reported args (parse_args mem_profile arg0 args l out).
Proof.
  intros args. remember (length args) as n eqn:Hn. revert args Hn.
  induction n as [n IH] using lt_wf_ind. intros args Hn l out.
  assert (IH' : forall args' l' out', length args' < n ->
            returns_reported args'
              (parse_args mem_profile arg0 args' l' out')).
  { intros args' l' out' Hlt. apply (IH (length args')); [lia | reflexivity]. }
  clear IH.
  destruct args as [|arg rest]; [exact I|].
  cbn [parse_args].
  repeat match goal with
         | |- returns_reported _ (if ?b then _ else _) => destruct b eqn:?
         | |- returns_reported _ (match ?x with _ => _ end) =>
             destruct x eqn:?
         | |- returns_reported _ (let l := _ in _) => cbv zeta
         end;
    try (return_step IH').
  (* the inner loop of --c-source *)
  do 2 apply returns_reported_later.
  match goal with
  | |- returns_reported ?from_i (_ ?from_i ?c_args) =>
      assert (Hlt : length from_i < n) by solve_bound;
      generalize c_args; revert Hlt; generalize from_i
  end.
  intros from_i. induction from_i as [|a after IHc]; intros Hlt c_args.
  - exact I.
  - apply returns_reported_later.
    destruct (Ascii.eqb (char_at a 0) "-").
    + apply IHc. simpl in Hlt. lia.
    + apply IH'. simpl in Hlt. lia.
Qed.

(** The argument loop returns [EXIT_SUCCESS] only for [--help], after
    the usage text on [stdout]; every other return from the loop is
    [EXIT_FAILURE] after a text on [stderr]. *)
Theorem parse_args_returns (mem_profile : bool) (arg0 : string)
  (args : list string) (l : Locals) (out o : list Event) (code : Z) :
  parse_args mem_profile arg0 args l out = LoopReturn o code ->
  exists e, last o = Some e /\
    ((code = EXIT_SUCCESS /\ is_usage e = true /\ In "--help" args)
     \/ (code = EXIT_FAILURE /\ is_report e = true)).
Proof.
  intros H. pose proof (parse_args_reported mem_profile arg0 args l out) as Hr.
  rewrite H in Hr. exact Hr.
Qed.

(** [zig build-exe --color purple]. *)
Lemma parse_args_returns_witness :
  exists e,
    last [Print stderr ("--color options are 'auto', 'on', or 'off'" +:+ nl);
          Print stderr
            ("See `zig --help` for detailed usage information" +:+ nl)]
    = Some e /\
    ((EXIT_FAILURE = EXIT_SUCCESS /\ is_usage e = true
      /\ In "--help" ["build-exe"; "--color"; "purple"])
     \/ (EXIT_FAILURE = EXIT_FAILURE /\ is_report e = true)).
Proof.
  apply (parse_args_returns false "zig" ["build-exe"; "--color"; "purple"]
           initial_locals []).
  reflexivity.
Defined.

(** *** Failures are reported *)

Section RunFacts.

Context {ZigTarget : Type}.
Variable env : Env ZigTarget.

Lemma reported_last (ev : list Event) (fin : Finish) (e : Event) :
  last ev = Some e -> is_report e = true -> reported env (ev, fin).
Proof. intros He Hr code _ _. left. eauto. Qed.

Lemma reported_success (ev : list Event) :
  reported env (ev, Exited EXIT_SUCCESS).
Proof. intros code [= <-] H. congruence. Qed.

Lemma reported_continues (ev : list Event) (callee : string) :
  reported env (ev, Continues callee).
Proof. intros code H. discriminate. Qed.

Lemma reported_app (out ev : list Event) (fin : Finish) :
  reported env (ev, fin) -> reported env (out ++ ev, fin).
Proof.
  intros H code Hf Hc.
  destruct (H code Hf Hc) as [(e & He & Hr)|[(f & He)|Hl]]; cbn [fst] in *.
  - left. exists e. split; [|exact Hr]. rewrite last_app, He. reflexivity.
  - right. left. exists f. rewrite last_app, He. reflexivity.
  - right. right. exact Hl.
Qed.

Lemma reported_cons (e : Event) (ev : list Event) (fin : Finish) :
  reported env (ev, fin) -> reported env (e :: ev, fin).
Proof. apply (reported_app [e]). Qed.

Lemma fail_usage_reported (arg0 msg : string) :
  reported env (fail_usage arg0 msg).
Proof. eapply reported_last; reflexivity. Qed.

Lemma resolve_target_reported (arg0 : string) (l : Locals) (r : Run) :
  resolve_target env arg0 l = inl r -> reported env r.
Proof.
  unfold resolve_target. intros H.
  repeat match type of H with
         | match ?x with _ => _ end = _ => destruct x eqn:?
         | (if ?b then _ else _) = _ => destruct b eqn:?
         end;
    try discriminate; injection H as <-; try apply fail_usage_reported.
  apply reported_cons. apply reported_app.
  eapply reported_last; reflexivity.
Qed.

Lemma check_options_reported (arg0 : string) (l : Locals)
  (target : ZigTarget) (r : Run) :
  check_options env arg0 l target = Some r -> reported env r.
Proof.
  unfold check_options. intros H.
  repeat match type of H with
         | (if ?b then _ else _) = _ => destruct b eqn:?
         end;
    try discriminate; try (injection H as <-; apply fail_usage_reported).
  destruct (ZigLLVMParseCommandLineOptions env (llvm_argv l)) as [code|]
    eqn:Hllvm; [|discriminate].
  injection H as <-. intros code' [= <-] _. right. right. eauto.
Qed.

(** [add_package] never creates a [CodeGen], and when it ends the
    process its last output is a text on [stderr]. *)
Lemma add_package_steps :
  forall (pkg : CliPkg) (table : list (string * string)),
    forallb (fun e => negb (is_create e)) (add_package env pkg table).1 = true
    /\ ((add_package env pkg table).2 = true ->
        exists msg,
          last (add_package env pkg table).1 = Some (Print stderr msg)).
Proof.
  fix IH 1. intros [name path children] table. cbn [add_package].
  revert table. induction children as [|child cs IHcs]; intros table.
  - cbn. split; [reflexivity | discriminate].
  - destruct child as [cname cpath cchildren] eqn:Hchild.
    pose proof (IH child (new_pkg_package_table env)) as Hc.
    rewrite Hchild in Hc.
    destruct (Os.os_path_split (ZIG_OS env) (path_of cpath)) as [d b].
    destruct (List.find (fun e => (e.1 =? cname)%string) table)
      as [[n full]|].
    + cbn. split; [reflexivity|]. intros _. eexists. reflexivity.
    + destruct (add_package env (mkCliPkg cname cpath cchildren)
                  (new_pkg_package_table env)) as [out1 [|]].
      * cbn [fst snd] in *. destruct Hc as [Hn Hl]. split.
        -- cbn. exact Hn.
        -- intros _. destruct (Hl eq_refl) as [msg Hmsg]. exists msg.
           rewrite last_cons, Hmsg. reflexivity.
      * specialize (IHcs (table ++ [(cname,
             string_of_list_ascii
               (Os.os_path_join (ZIG_OS env) (ZIG_OS_SEP_CHAR env) d b))])).
        match type of IHcs with
        | context [(?X).1] => destruct X as [out2 ex2]
        end.
        cbn [fst snd] in *. destruct Hc as [Hn _].
        destruct IHcs as [Hn2 Hl2]. split.
        -- cbn. rewrite forallb_app, Hn, Hn2. reflexivity.
        -- intros Hex. destruct (Hl2 Hex) as [msg Hmsg]. exists msg.
           rewrite last_cons, last_app, Hmsg. reflexivity.
Qed.

Lemma run_command_reported (l : Locals) (f : option string) :
  reported env (run_command env l f).
Proof.
  unfold run_command.
  destruct (cmd l); try apply reported_continues.
  destruct (codegen_translate_c env l f) as [diags|code] eqn:Ho.
  - apply reported_success.
  - intros code' [= <-] _. right. left. exists f. reflexivity.
Qed.

Lemma build_commands_reported (arg0 : string) (l : Locals)
  (target : ZigTarget) :
  reported env (build_commands env arg0 l target).
Proof.
  unfold build_commands.
  repeat match goal with
         | |- reported _ (if ?b then _ else _) =>
             destruct b; [apply fail_usage_reported|]
         | |- reported _ (let x := _ in _) => cbv zeta
         end.
  match goal with
  | |- reported _ (match ?x with _ => _ end) => destruct x
  end; [eapply reported_last; reflexivity|].
  match goal with
  | |- reported _ (if ?b then _ else _) => destruct b
  end; [eapply reported_last; reflexivity|].
  pose proof (add_package_steps (root_pkg l) (main_pkg_package_table env))
    as [_ Hexit].
  destruct (add_package env (root_pkg l) (main_pkg_package_table env))
    as [added exited].
  cbn [fst snd] in Hexit. destruct exited.
  { destruct (Hexit eq_refl) as [msg Hmsg]. apply reported_cons.
    eapply reported_last; [exact Hmsg | reflexivity]. }
  pose proof (run_command_reported l (in_file l)) as Hrun.
  destruct (run_command env l (in_file l)) as [out fin].
  apply reported_cons, reported_app. exact Hrun.
Qed.

Lemma dispatch_reported (arg0 : string) (l : Locals) (target : ZigTarget) :
  reported env (dispatch env arg0 l target).
Proof.
  unfold dispatch.
  destruct (cmd l); try apply build_commands_reported;
    try apply reported_continues; try apply reported_success.
  eapply reported_last; reflexivity.
Qed.

Lemma after_loop_reported (arg0 : string) (out : list Event) (l : Locals) :
  reported env (after_loop env arg0 out l).
Proof.
  unfold after_loop.
  destruct (1 <? length (cur_pkg l))%nat.
  { eapply reported_last; [apply last_snoc | reflexivity]. }
  destruct (resolve_target env arg0 l) as [[ev fin]|target] eqn:Ht.
  { apply reported_app. exact (resolve_target_reported arg0 l _ Ht). }
  destruct (check_options env arg0 l target) as [[ev fin]|] eqn:Hc.
  { apply reported_app. exact (check_options_reported arg0 l target _ Hc). }
  pose proof (dispatch_reported arg0 l target) as Hd.
  destruct (dispatch env arg0 l target) as [ev fin].
  apply reported_app. exact Hd.
Qed.

Lemma early_command_reported (argv : list string) (r : Run) :
  early_command argv = Some r -> reported env r.
Proof.
  unfold early_command. intros H.
  repeat match type of H with
         | (if ?b then _ else _) = _ => destruct b
         end;
    try discriminate; injection H as <-;
    first [ apply reported_continues
          | apply (reported_success [PrintBuildInfo])
          | eapply reported_last; reflexivity ].
Qed.

Lemma main_reported (argv : list string) : reported env (main env argv).
Proof.
  unfold main.
  destruct (early_command argv) as [r|] eqn:He;
    [exact (early_command_reported argv r He)|].
  pose proof (parse_args_reported (ZIG_ENABLE_MEM_PROFILE env)
                (nth 0 argv EmptyString) (tail argv) initial_locals [])
    as Hret.
  destruct (parse_args _ _ _ _ _) as [out code|out l].
  - destruct Hret as (e & He' & [(-> & _)|(-> & Hr)]).
    + apply reported_success.
    + eapply reported_last; [exact He' | exact Hr].
  - apply after_loop_reported.
Qed.

(** *** The [CodeGen] is created once *)

Lemma messages_no_codegen (ev : list Event) :
  forallb is_message ev = true -> List.filter is_codegen ev = [].
Proof.
  induction ev as [|e ev IH]; [reflexivity|]. cbn [forallb].
  intros H. apply andb_true_iff in H as [He Hev]. cbn [List.filter].
  rewrite (IH Hev). destruct e; try discriminate; reflexivity.
Qed.

Lemma creates_first_messages (ev : list Event) :
  forallb is_message ev = true -> creates_first ev.
Proof.
  intros H. unfold creates_first. rewrite messages_no_codegen by exact H.
  exact I.
Qed.

Lemma creates_first_app (out ev : list Event) :
  forallb is_message out = true -> creates_first ev ->
  creates_first (out ++ ev).
Proof.
  intros Hout Hev. unfold creates_first.
  rewrite List.filter_app, (messages_no_codegen out Hout). exact Hev.
Qed.

Lemma creates_first_created (root : option string) (ev : list Event) :
  forallb (fun e => negb (is_create e)) ev = true ->
  creates_first (CodegenCreate root :: ev).
Proof.
  intros H. unfold creates_first. cbn [List.filter is_codegen].
  split; [reflexivity|]. apply forallb_forall. intros e He.
  apply List.filter_In in He as [He _].
  rewrite forallb_forall in H. exact (H e He).
Qed.

Lemma build_commands_creates (arg0 : string) (l : Locals)
  (target : ZigTarget) :
  creates_first (build_commands env arg0 l target).1.
Proof.
  unfold build_commands.
  repeat match goal with
         | |- creates_first (if ?b then _ else _).1 =>
             destruct b; [apply creates_first_messages; reflexivity|]
         | |- creates_first (let x := _ in _).1 => cbv zeta
         end.
  match goal with
  | |- creates_first (match ?x with _ => _ end).1 => destruct x
  end; [apply creates_first_messages; reflexivity|].
  match goal with
  | |- creates_first (if ?b then _ else _).1 => destruct b
  end; [apply creates_first_created; reflexivity|].
  pose proof (add_package_steps (root_pkg l) (main_pkg_package_table env))
    as [Hadd _].
  destruct (add_package env (root_pkg l) (main_pkg_package_table env))
    as [added exited].
  cbn [fst] in Hadd. destruct exited.
  { apply creates_first_created. exact Hadd. }
  assert (Hrun : forallb (fun e => negb (is_create e))
                   (run_command env l (in_file l)).1 = true).
  { unfold run_command. destruct (cmd l); try reflexivity.
    destruct (codegen_translate_c env l (in_file l)); [|reflexivity].
    destruct (timing_info l); reflexivity. }
  destruct (run_command env l (in_file l)) as [out fin].
  cbn [fst] in *. apply creates_first_created.
  rewrite forallb_app, Hadd, Hrun. reflexivity.
Qed.

Lemma dispatch_creates (arg0 : string) (l : Locals) (target : ZigTarget) :
  creates_first (dispatch env arg0 l target).1.
Proof.
  unfold dispatch.
  destruct (cmd l); try apply build_commands_creates;
    try (apply creates_first_messages; reflexivity).
  - cbn. auto.
  - cbn. auto.
  - cbn. auto.
Qed.

Lemma main_creates (argv : list string) : creates_first (main env argv).1.
Proof.
  unfold main.
  destruct (early_command argv) as [r|] eqn:He.
  { unfold early_command in He.
    repeat match type of He with
           | (if ?b then _ else _) = _ => destruct b
           end;
      try discriminate; injection He as <-; cbn; auto. }
  pose proof (parse_args_extends (ZIG_ENABLE_MEM_PROFILE env)
                (nth 0 argv EmptyString) (tail argv) initial_locals [])
    as Hext.
  destruct (parse_args _ _ _ _ _) as [out code|out l]; cbn in Hext;
    destruct Hext as (extra & -> & Hextra); cbn [app fst].
  { apply creates_first_messages. exact Hextra. }
  unfold after_loop.
  destruct (1 <? length (cur_pkg l))%nat.
  { apply creates_first_messages. cbn [fst].
    rewrite forallb_app, Hextra. reflexivity. }
  destruct (resolve_target env (nth 0 argv EmptyString) l)
    as [[ev fin]|target] eqn:Ht.
  { apply creates_first_messages. cbn [fst].
    rewrite forallb_app, Hextra.
    exact (resolve_target_messages env _ l _ Ht). }
  destruct (check_options env (nth 0 argv EmptyString) l target)
    as [[ev fin]|] eqn:Hc.
  { apply creates_first_messages. cbn [fst].
    rewrite forallb_app, Hextra.
    exact (check_options_messages env _ l target _ Hc). }
  pose proof (dispatch_creates (nth 0 argv EmptyString) l target) as Hd.
  destruct (dispatch env (nth 0 argv EmptyString) l target) as [ev fin].
  cbn [fst] in *. apply creates_first_app; assumption.
Qed.

End RunFacts.



(** In every run of [main] the [CodeGen] is created at most once, and
    no package is added and nothing is translated before it is
    created. *)
Theorem main_creates_once {ZigTarget : Type} (env : Env ZigTarget)
  (argv : list string) :
  match List.filter is_codegen (main env argv).1 with
  | [] => True
  | e :: rest =>
      is_create e = true /\ Forall (fun e' => is_create e' = false) rest
  end.
Proof.
  pose proof (main_creates env argv) as H. unfold creates_first in H.
  destruct (List.filter is_codegen (main env argv).1) as [|e rest];
    [exact I|].
  destruct H as [He Hrest]. split; [exact He|].
  apply Forall_forall. intros e' Hin. rewrite forallb_forall in Hrest.
  apply list_elem_of_In in Hin. specialize (Hrest _ Hin).
  apply negb_true_iff in Hrest. exact Hrest.
Qed.

End DriverRunFacts.

